(** * Shader/kernel compiler of the WebGL compute backend: a shallow embedding

    The TypeScript sources generate GLSL text by interpolating numbers into
    fixed templates.  A generator is embedded as a Rocq function that returns
    the instance of the template it emits (which branch was taken and which
    numbers were interpolated); the GLSL text of every template is given a
    meaning by a Rocq function that follows the template statement by
    statement.

    Conventions.
    - A GLSL [int] is a [Z]; [/] on [int] truncates ([Z.quot]).  The
      coordinate arithmetic of the templates stays far below [2^31] for any
      texture a device can allocate, so it is written without wrap-around;
      [imod32] spells the 32-bit wrap-around out for the one helper whose
      numerics are a claim of their own.
    - A GLSL [float] that carries tensor data is a [Z]: on integers of
      magnitude below [2^24] single-precision [+] and [*] are exact, so the
      kernels are evaluated exactly on such data.  A coordinate converted
      to [float] is [float_of_int] of it, which is the coordinate itself
      only below [2^24]; a normalised texture position is a rational, its
      division taken exactly.
    - JavaScript numbers that hold shapes and tile sizes are [Z];
      [Math.ceil(a / b)] on them is the ceiling of the quotient. *)

From Stdlib Require Import ZArith List Lia Bool String QArith Qround DecimalString.
Import ListNotations.
Local Open Scope Z_scope.

(** ** JavaScript helpers used at generation time *)

Module JS.

(** [Math.ceil(a / b)] for integral [a] and positive integral [b]. *)
Definition ceil_div (a b : Z) : Z := - ((- a) / b).

(** [a % b]: the remainder takes the sign of the dividend. *)
Definition rem (a b : Z) : Z := Z.rem a b.

(** What a constructor or generator call does: it returns or it throws,
    after writing some lines to the error console. *)
Inductive outcome (A : Type) : Type :=
| Returned (a : A)
| Thrown (msg : string).
Arguments Returned {A} a.
Arguments Thrown {A} msg.

Record run (A : Type) : Type := mkRun
  { console : list string; result : outcome A }.
Arguments mkRun {A} console result.
Arguments console {A} r.
Arguments result {A} r.

Definition ret {A} (a : A) : run A := mkRun [] (Returned a).
Definition throw {A} (msg : string) : run A := mkRun [] (Thrown msg).
Definition console_error (msg : string) : run unit := mkRun [msg] (Returned tt).
Definition bind {A B} (m : run A) (k : A -> run B) : run B :=
  match result m with
  | Returned a => let r := k a in mkRun (console m ++ console r) (result r)
  | Thrown msg => mkRun (console m) (Thrown msg)
  end.

Definition returns {A} (m : run A) : bool :=
  match result m with Returned _ => true | Thrown _ => false end.

(** A number interpolated into a message. *)
Definition show_nat (n : nat) : string := NilZero.string_of_uint (Nat.to_uint n).

Definition returned {A} (m : run A) : option A :=
  match result m with Returned a => Some a | Thrown _ => None end.

End JS.

(** ** GLSL values and the helpers of the shader prefix *)

Module GLSL.

(** [for (int i = 0; i < n; i++)]: the values [i] takes. *)
Definition range (n : Z) : list Z := map Z.of_nat (seq 0 (Z.to_nat n)).

(** [int imod(int x, int y) { return x - y * (x / y); }] *)
Definition imod (x y : Z) : Z := x - y * (x ÷ y).

(** The same helper on 32-bit two's complement integers. *)
Definition int_min : Z := - 2 ^ 31.
Definition int_max : Z := 2 ^ 31 - 1.
Definition wrap (z : Z) : Z := (z + 2 ^ 31) mod 2 ^ 32 - 2 ^ 31.
Definition is_int (z : Z) : Prop := int_min <= z <= int_max.
Definition imod32 (x y : Z) : Z := wrap (x - wrap (y * wrap (x ÷ y))).

(** [vec4]: components [x y z w], also named [r g b a]. *)
Record vec4 : Type := mkVec4 { vx : Z; vy : Z; vz : Z; vw : Z }.

Inductive comp : Type := X | Y | Zc | W.

Definition get (v : vec4) (c : comp) : Z :=
  match c with X => vx v | Y => vy v | Zc => vz v | W => vw v end.

Definition vec4_splat (s : Z) : vec4 := mkVec4 s s s s.
Definition vec4_add (a b : vec4) : vec4 :=
  mkVec4 (vx a + vx b) (vy a + vy b) (vz a + vz b) (vw a + vw b).
Definition vec4_mul (a b : vec4) : vec4 :=
  mkVec4 (vx a * vx b) (vy a * vy b) (vz a * vz b) (vw a * vw b).

(** A four-component swizzle such as [a.xxzz]. *)
Definition swizzle : Type := (comp * comp * comp * comp)%type.
Definition swz (v : vec4) (s : swizzle) : vec4 :=
  let '(c0, c1, c2, c3) := s in mkVec4 (get v c0) (get v c1) (get v c2) (get v c3).

(** [float(x)] of an [int], as the integer it equals: integers of
    magnitude below [2^24] are single-precision floats themselves; a larger
    one becomes the nearest multiple of its unit in the last place
    [2^(log2 |x| - 23)], ties to the even multiple.  (GLSL lets an
    implementation take either neighbour; both are multiples of that
    unit.) *)
Definition float_of_int (x : Z) : Z :=
  if Z.abs x <? 2 ^ 24 then x
  else
    let ulp := 2 ^ (Z.log2 (Z.abs x) - 23) in
    let q := x / ulp in
    let r := x mod ulp in
    if 2 * r <? ulp then q * ulp
    else if ulp <? 2 * r then (q + 1) * ulp
    else if Z.even q then q * ulp else (q + 1) * ulp.

(** [mod(x, 2.)] where [x] is the float of an integer coordinate
    ([vec2(row, col)], [float(dim)]): [x - 2. * floor(x / 2.)]. *)
Definition fmod2 (x : Z) : Z :=
  let f := float_of_int x in f - 2 * (f / 2).

(** SHADER_PACKED_PREFIX:
    [float getChannel(vec4 frag, vec2 innerDims) {
       vec2 modCoord = mod(innerDims, 2.);
       return modCoord.x == 0. ?
         (modCoord.y == 0. ? frag.r : frag.g) :
         (modCoord.y == 0. ? frag.b : frag.a); }] *)
Definition getChannel_comp (innerDims : Z * Z) : comp :=
  let modCoord := (fmod2 (fst innerDims), fmod2 (snd innerDims)) in
  if fst modCoord =? 0
  then (if snd modCoord =? 0 then X else Y)
  else (if snd modCoord =? 0 then Zc else W).

Definition getChannel (frag : vec4) (innerDims : Z * Z) : Z :=
  get frag (getChannel_comp innerDims).

(** [float getChannel(vec4 frag, int dim) {
       float modCoord = mod(float(dim), 2.);
       return modCoord == 0. ? frag.r : frag.g; }] *)
Definition getChannel1 (frag : vec4) (dim : Z) : Z :=
  if fmod2 dim =? 0 then vx frag else vy frag.

(** An integer texel position [ivec2(x, y)]: column first, then row. *)
Definition ivec2 : Type := (Z * Z)%type.

(** SAMPLE_1D_SNIPPET_CS:
    [ivec2 uvFromFlat(int texNumR, int texNumC, int index) {
       int texR = index / texNumC;
       int texC = index - texR * texNumC;
       return ivec2(texC, texR); }] *)
Definition uvFromFlat (texNumR texNumC index : Z) : ivec2 :=
  let texR := index ÷ texNumC in
  let texC := index - texR * texNumC in
  (texC, texR).

(** [ivec2 packedUVfrom1D(int texNumR, int texNumC, int index) {
       int texelIndex = index / 2;
       int texR = texelIndex / texNumC;
       int texC = texelIndex - texR * texNumC;
       return ivec2(texC, texR); }] *)
Definition packedUVfrom1D (texNumR texNumC index : Z) : ivec2 :=
  let texelIndex := index ÷ 2 in
  let texR := texelIndex ÷ texNumC in
  let texC := texelIndex - texR * texNumC in
  (texC, texR).

(** The texel index both versions of [packedUVfrom2D] start from:
    [int texelIndex = (row / 2) * texelsInLogicalRow + (col / 2);] *)
Definition texelIndex2D (texelsInLogicalRow row col : Z) : Z :=
  (row ÷ 2) * texelsInLogicalRow + (col ÷ 2).

(** SAMPLE_2D_SNIPPET_CS:
    [ivec2 packedUVfrom2D(int texelsInLogicalRow, int texNumR,
         int texNumC, int row, int col) {
       int texelIndex = (row / 2) * texelsInLogicalRow + (col / 2);
       int texR = texelIndex / texNumC;
       int texC = texelIndex - texR * texNumC;
       return ivec2(texC, texR); }] *)
Definition packedUVfrom2D (texelsInLogicalRow texNumR texNumC row col : Z) : ivec2 :=
  let texelIndex := texelIndex2D texelsInLogicalRow row col in
  let texR := texelIndex ÷ texNumC in
  let texC := texelIndex - texR * texNumC in
  (texC, texR).

(** SAMPLE_2D_SNIPPET (texture sampling): the same texel, addressed by the
    normalised position of its centre,
    [(vec2(texC, texR) + halfCR) / vec2(texNumC, texNumR)], in exact
    rationals. *)
Definition packedUVfrom2D_sampling
    (texelsInLogicalRow texNumR texNumC row col : Z) : Q * Q :=
  let texelIndex := texelIndex2D texelsInLogicalRow row col in
  let texR := texelIndex ÷ texNumC in
  let texC := texelIndex - texR * texNumC in
  (Qdiv (Qplus (inject_Z texC) (Qmake 1 2)) (inject_Z texNumC),
   Qdiv (Qplus (inject_Z texR) (Qmake 1 2)) (inject_Z texNumR)).

(** SAMPLE_3D_SNIPPET_CS:
    [ivec2 packedUVfrom3D(int texNumR, int texNumC, int texelsInBatch,
         int texelsInLogicalRow, int b, int row, int col) {
       int index = b * texelsInBatch + (row / 2) * texelsInLogicalRow + (col / 2);
       int texR = index / texNumC;
       int texC = index - texR * texNumC;
       return ivec2(texC, texR); }] *)
Definition packedUVfrom3D
    (texNumR texNumC texelsInBatch texelsInLogicalRow b row col : Z) : ivec2 :=
  let index := b * texelsInBatch + (row ÷ 2) * texelsInLogicalRow + (col ÷ 2) in
  let texR := index ÷ texNumC in
  let texC := index - texR * texNumC in
  (texC, texR).

End GLSL.

(** ** Helpers imported by the shader compiler

    [util.squeezeShape], [util.arraysEqual], [util.sizeFromShape] and
    [getBroadcastDims] are imported from modules outside these sources. *)

Module Util.

Definition sizeFromShape (shape : list Z) : Z := fold_left Z.mul shape 1.

(** [util.arraysEqual(shape, texShape)] on a shape and the two-element
    [texShape]. *)
Definition arraysEqual (shape : list Z) (texShape : Z * Z) : bool :=
  match shape with
  | [a; b] => (a =? fst texShape) && (b =? snd texShape)
  | _ => false
  end.

(** Modelled from the spec: [util.squeezeShape] is missing; section 4.1 has
    "any axis of logical size 1 is elided before address-formula generation"
    and the positions of the axes that stay are "stored as a keptDims index
    list". *)
Fixpoint squeezeFrom (i : nat) (shape : list Z) : list Z * list nat :=
  match shape with
  | [] => ([], [])
  | s :: rest =>
      let '(newShape, keptDims) := squeezeFrom (S i) rest in
      if s =? 1 then (newShape, keptDims) else (s :: newShape, i :: keptDims)
  end.

Definition squeezeShape (shape : list Z) : list Z * list nat :=
  squeezeFrom 0 shape.

(** Modelled from the spec: [getBroadcastDims] is missing; section 4.1 has
    "when an input's logical shape has fewer axes or size-1 axes relative to
    the output, corresponding output coordinate components are zeroed ...
    (classic NumPy-style broadcast-dimension alignment, rightmost-aligned)".
    The result lists the input axes of size 1 that line up, from the right,
    with an output axis of size above 1. *)
Definition getBroadcastDims (inShape outShape : list Z) : list nat :=
  let inRank := List.length inShape in
  let rankDiff := (List.length outShape - inRank)%nat in
  filter
    (fun dim =>
       (nth dim inShape 1 =? 1) && (1 <? nth (dim + rankDiff) outShape 1))
    (seq 0 inRank).

End Util.

(** ** The coordinate mapping compiler *)

Module ShaderCompiler.
Import JS GLSL Util.

Record ShapeInfo : Type := mkShapeInfo
  { logicalShape : list Z;
    texShape : Z * Z;
    isUniform : bool;
    isPacked : bool;
    flatOffset : option Z }.

Record InputInfo : Type := mkInputInfo
  { name : string;
    shapeInfo : ShapeInfo }.

(** [squeezeInputInfo]: a copy with the squeezed logical shape. *)
Definition squeezeInputInfo (inInfo : InputInfo) (squeezedShape : list Z)
    : InputInfo :=
  {| name := name inInfo;
     shapeInfo :=
       {| logicalShape := squeezedShape;
          texShape := texShape (shapeInfo inInfo);
          isUniform := isUniform (shapeInfo inInfo);
          isPacked := isPacked (shapeInfo inInfo);
          flatOffset := flatOffset (shapeInfo inInfo) |} |}.

(** [getSqueezedParams(params, keptDims)]: [keptDims.map(d => params[d])],
    on the values of the parameters. *)
Definition getSqueezedParams (params : list Z) (keptDims : list nat) : list Z :=
  map (fun d => nth d params 0) keptDims.

(** [shape[i]] *)
Definition dim (shape : list Z) (i : nat) : Z := nth i shape 0.

(** What a generated input function does when it is called: it fetches the
    texel at an integer position, or it returns an element of the uniform
    array, or it ends without a [return], or it was called with the wrong
    number of arguments. *)
Inductive fetch : Type :=
| Texel (uv : ivec2)
| UniformElem (index : Z)
| NoReturn
| BadCall.

(** The meaning of a generated [get<Name>(...)]: from the value of the
    uniform [offset<Name>] and the arguments to the fetch. *)
Definition samplerFn : Type := Z -> list Z -> fetch.

(** The meaning of a generated [getOutputCoords()] of a compute shader: from
    [gl_GlobalInvocationID.xy] to the components of the coordinate it
    returns. *)
Definition decoderFn : Type := ivec2 -> list Z.

(** [getUniformSampler]:
    [if (inSize === 1) return `return ${texName};`;
     return `for (int i = 0; i < ${inSize}; i++) { if (i == index) { return ${texName}[i]; } }`] *)
Definition getUniformSampler (inputInfo : InputInfo) (index : Z) : fetch :=
  let inSize := sizeFromShape (logicalShape (shapeInfo inputInfo)) in
  if inSize =? 1 then UniformElem 0
  else if (0 <=? index) && (index <? inSize) then UniformElem index
  else NoReturn.

(** A recursive call of a dispatcher: [None] when the fuel of the model is
    used up. *)
Definition squeezed (rec : InputInfo -> option (run samplerFn))
    (inputInfo : InputInfo) (squeezedShape : list Z) (keptDims : list nat)
    (arity : nat) : option (run samplerFn) :=
  match rec (squeezeInputInfo inputInfo squeezedShape) with
  | None => None
  | Some r =>
      Some (bind r (fun inner =>
              ret (fun offset params =>
                     if (List.length params =? arity)%nat
                     then inner offset (getSqueezedParams params keptDims)
                     else BadCall)))
  end.

Section IndexedSamplers.
(** [UVfrom3D] and [UVfrom4D] are called by the code [getSampler3DCS] and
    [getSampler4DCS] emit, but no template of these sources defines them. *)
Variable UVfrom3D : Z -> Z -> Z -> Z -> Z -> Z -> Z -> ivec2.
Variable UVfrom4D : Z -> Z -> Z -> Z -> Z -> Z -> Z -> Z -> Z -> ivec2.

Definition getSamplerScalarCS (inputInfo : InputInfo) : run samplerFn :=
  let '(texNumR, texNumC) := texShape (shapeInfo inputInfo) in
  if isUniform (shapeInfo inputInfo) then
    ret (fun offset params =>
           match params with [] => UniformElem 0 | _ => BadCall end)
  else if (texNumR =? 1) && (texNumC =? 1) then
    ret (fun offset params =>
           match params with [] => Texel (0, 0) | _ => BadCall end)
  else
    ret (fun offset params =>
           match params with
           | [] => Texel (uvFromFlat texNumR texNumC offset)
           | _ => BadCall
           end).

Definition getSampler1DCS (inputInfo : InputInfo) : run samplerFn :=
  let '(tNumR, tNumC) := texShape (shapeInfo inputInfo) in
  if isUniform (shapeInfo inputInfo) then
    ret (fun offset params =>
           match params with
           | [index] => getUniformSampler inputInfo index
           | _ => BadCall
           end)
  else if (tNumC =? 1) && (tNumR =? 1) then
    ret (fun offset params =>
           match params with [index] => Texel (0, 0) | _ => BadCall end)
  else if tNumC =? 1 then
    ret (fun offset params =>
           match params with
           | [index] => Texel (0, index + offset)
           | _ => BadCall
           end)
  else if tNumR =? 1 then
    ret (fun offset params =>
           match params with
           | [index] => Texel (index + offset, 0)
           | _ => BadCall
           end)
  else
    ret (fun offset params =>
           match params with
           | [index] => Texel (uvFromFlat tNumR tNumC (index + offset))
           | _ => BadCall
           end).

Definition getSampler2DCS (rec : InputInfo -> option (run samplerFn))
    (inputInfo : InputInfo) : option (run samplerFn) :=
  let shape := logicalShape (shapeInfo inputInfo) in
  let '(texNumR, texNumC) := texShape (shapeInfo inputInfo) in
  if arraysEqual shape (texShape (shapeInfo inputInfo)) then
    Some (ret (fun offset params =>
                 match params with
                 | [row; col] => Texel (col, row)
                 | _ => BadCall
                 end))
  else
    let '(newShape, keptDims) := squeezeShape shape in
    if (List.length newShape <? List.length shape)%nat then
      squeezed rec inputInfo newShape keptDims 2
    else if isUniform (shapeInfo inputInfo) then
      Some (ret (fun offset params =>
                   match params with
                   | [row; col] =>
                       getUniformSampler inputInfo (row * dim shape 1 + col)
                   | _ => BadCall
                   end))
    else if texNumC =? 1 then
      Some (ret (fun offset params =>
                   match params with
                   | [row; col] =>
                       let index := row * dim shape 1 + col + offset in
                       Texel (0, index)
                   | _ => BadCall
                   end))
    else if texNumR =? 1 then
      Some (ret (fun offset params =>
                   match params with
                   | [row; col] =>
                       let index := row * dim shape 1 + col + offset in
                       Texel (index, 0)
                   | _ => BadCall
                   end))
    else
      Some (ret (fun offset params =>
                   match params with
                   | [row; col] =>
                       let index := row * dim shape 1 + col + offset in
                       Texel (uvFromFlat texNumR texNumC index)
                   | _ => BadCall
                   end)).

Definition getSampler3DCS (rec : InputInfo -> option (run samplerFn))
    (inputInfo : InputInfo) : option (run samplerFn) :=
  let shape := logicalShape (shapeInfo inputInfo) in
  let '(texNumR, texNumC) := texShape (shapeInfo inputInfo) in
  let stride0 := dim shape 1 * dim shape 2 in
  let stride1 := dim shape 2 in
  let '(newShape, keptDims) := squeezeShape shape in
  if (List.length newShape <? List.length shape)%nat then
    squeezed rec inputInfo newShape keptDims 3
  else if texNumC =? stride0 then
    Some (ret (fun offset params =>
                 match params with
                 | [row; col; depth] =>
                     let texR := row in
                     let texC := col * stride1 + depth in
                     Texel (texC, texR)
                 | _ => BadCall
                 end))
  else if texNumC =? stride1 then
    Some (ret (fun offset params =>
                 match params with
                 | [row; col; depth] =>
                     let texR := row * dim shape 1 + col in
                     let texC := depth in
                     Texel (texC, texR)
                 | _ => BadCall
                 end))
  else
    Some (ret (fun offset params =>
                 match params with
                 | [row; col; depth] =>
                     Texel (UVfrom3D texNumR texNumC stride0 stride1 row col depth)
                 | _ => BadCall
                 end)).

Definition getSampler4DCS (rec : InputInfo -> option (run samplerFn))
    (inputInfo : InputInfo) : option (run samplerFn) :=
  let shape := logicalShape (shapeInfo inputInfo) in
  let '(texNumR, texNumC) := texShape (shapeInfo inputInfo) in
  let stride2 := dim shape 3 in
  let stride1 := dim shape 2 * stride2 in
  let stride0 := dim shape 1 * stride1 in
  let '(newShape, keptDims) := squeezeShape shape in
  if (List.length newShape <? List.length shape)%nat then
    squeezed rec inputInfo newShape keptDims 4
  else if texNumC =? stride0 then
    Some (ret (fun offset params =>
                 match params with
                 | [row; col; depth; depth2] =>
                     let texR := row in
                     let texC := col * stride1 + depth * stride2 + depth2 in
                     Texel (texC, texR)
                 | _ => BadCall
                 end))
  else if texNumC =? stride2 then
    Some (ret (fun offset params =>
                 match params with
                 | [row; col; depth; depth2] =>
                     let texR := row * (dim shape 1 * dim shape 2)
                                 + col * dim shape 2 + depth in
                     let texC := depth2 in
                     Texel (texC, texR)
                 | _ => BadCall
                 end))
  else
    Some (ret (fun offset params =>
                 match params with
                 | [row; col; depth; depth2] =>
                     Texel (UVfrom4D texNumR texNumC stride0 stride1 stride2
                              row col depth depth2)
                 | _ => BadCall
                 end)).

(** [getSamplerFromInInfoCS]: the [switch] on [shape.length]. *)
Fixpoint getSamplerFromInInfoCS_fuel (fuel : nat) (inInfo : InputInfo)
    : option (run samplerFn) :=
  match fuel with
  | O => None
  | S fuel' =>
      let shape := logicalShape (shapeInfo inInfo) in
      match List.length shape with
      | 0%nat => Some (getSamplerScalarCS inInfo)
      | 1%nat => Some (getSampler1DCS inInfo)
      | 2%nat => getSampler2DCS (getSamplerFromInInfoCS_fuel fuel') inInfo
      | 3%nat => getSampler3DCS (getSamplerFromInInfoCS_fuel fuel') inInfo
      | 4%nat => getSampler4DCS (getSamplerFromInInfoCS_fuel fuel') inInfo
      | _ =>
          Some (throw (show_nat (List.length shape)
                       ++ "-D input sampling is not yet supported"))
      end
  end.

Definition getSamplerFromInInfoCS (inInfo : InputInfo) : option (run samplerFn) :=
  getSamplerFromInInfoCS_fuel (S (List.length (logicalShape (shapeInfo inInfo)))) inInfo.

End IndexedSamplers.

(** *** Output decoders of compute shaders, unpacked *)

(** [getOutputScalarCoords]: [int getOutputCoords() { return 0; }] *)
Definition getOutputScalarCoords : decoderFn := fun gid => [0].

Definition getOutput1DCoordsCS (shape : list Z) (texShape : Z * Z) : decoderFn :=
  if fst texShape =? 1 then
    fun gid => [fst gid]
  else if snd texShape =? 1 then
    fun gid => [snd gid]
  else
    fun gid => [snd gid * snd texShape + fst gid].

Definition getOutput2DCoordsCS (shape : list Z) (texShape : Z * Z) : decoderFn :=
  if arraysEqual shape texShape then
    fun gid => [snd gid; fst gid]
  else if dim shape 1 =? 1 then
    fun gid =>
      let index := snd gid * snd texShape + fst gid in
      [index; 0]
  else if dim shape 0 =? 1 then
    fun gid =>
      let index := snd gid * snd texShape + fst gid in
      [0; index]
  else
    fun gid =>
      let index := snd gid * snd texShape + fst gid in
      let r := index ÷ dim shape 1 in
      let c := index - r * dim shape 1 in
      [r; c].

Definition getOutput3DCoordsCS (shape : list Z) (texShape : Z * Z) : decoderFn :=
  let stride0 := dim shape 1 * dim shape 2 in
  let stride1 := dim shape 2 in
  fun gid =>
    let index := snd gid * snd texShape + fst gid in
    let r := index ÷ stride0 in
    let index := index - r * stride0 in
    let c := index ÷ stride1 in
    let d := index - c * stride1 in
    [r; c; d].

Definition getOutput4DCoordsCS (shape : list Z) (texShape : Z * Z) : decoderFn :=
  let stride2 := dim shape 3 in
  let stride1 := dim shape 2 * stride2 in
  let stride0 := dim shape 1 * stride1 in
  fun gid =>
    let index := snd gid * snd texShape + fst gid in
    let r := index ÷ stride0 in
    let index := index - r * stride0 in
    let c := index ÷ stride1 in
    let index := index - c * stride1 in
    let d := index ÷ stride2 in
    let d2 := index - d * stride2 in
    [r; c; d; d2].

(** *** Packed input functions and output decoders of compute shaders *)

Definition packedTexShape (texShape : Z * Z) : Z * Z :=
  (ceil_div (fst texShape) 2, ceil_div (snd texShape) 2).

Definition getPackedSamplerScalarCS (inputInfo : InputInfo) : run samplerFn :=
  ret (fun offset params =>
         match params with [] => Texel (0, 0) | _ => BadCall end).

Definition getPackedSampler1DCS (inputInfo : InputInfo) : run samplerFn :=
  let packedTexShape := packedTexShape (texShape (shapeInfo inputInfo)) in
  ret (fun offset params =>
         match params with
         | [index] =>
             Texel (packedUVfrom1D (fst packedTexShape) (snd packedTexShape) index)
         | _ => BadCall
         end).

Definition getPackedSampler2DCS (inputInfo : InputInfo) : run samplerFn :=
  let shape := logicalShape (shapeInfo inputInfo) in
  let texShape := texShape (shapeInfo inputInfo) in
  if arraysEqual shape texShape then
    ret (fun offset params =>
           match params with
           | [row; col] => Texel (col, row)
           | _ => BadCall
           end)
  else
    let packedTexShape := packedTexShape texShape in
    let valuesPerRow := ceil_div (dim shape 1) 2 in
    ret (fun offset params =>
           match params with
           | [row; col] =>
               Texel (packedUVfrom2D valuesPerRow (fst packedTexShape)
                        (snd packedTexShape) row col)
           | _ => BadCall
           end).

Definition getPackedSampler3DCS (rec : InputInfo -> option (run samplerFn))
    (inputInfo : InputInfo) : option (run samplerFn) :=
  let shape := logicalShape (shapeInfo inputInfo) in
  let packedTexShape := packedTexShape (texShape (shapeInfo inputInfo)) in
  if dim shape 0 =? 1 then
    let squeezedShape := tl shape in
    let keptDims := [1; 2]%nat in
    squeezed rec inputInfo squeezedShape keptDims 3
  else
    let texNumR := fst packedTexShape in
    let texNumC := snd packedTexShape in
    let valuesPerRow := ceil_div (dim shape 2) 2 in
    let texelsInBatch := valuesPerRow * ceil_div (dim shape 1) 2 in
    Some (ret (fun offset params =>
                 match params with
                 | [b; row; col] =>
                     Texel (packedUVfrom3D texNumR texNumC texelsInBatch
                              valuesPerRow b row col)
                 | _ => BadCall
                 end)).

(** The multipliers of [b2, b3, ...] that the loop
    [for (let b = 2; b < rank - 1; b++) { texelsInBatch *= shape[rank - b - 1]; ... }]
    builds, outermost axis first. *)
Fixpoint batchMultipliers (texelsInBatch : Z) (dimsInnerFirst : list Z) : list Z :=
  match dimsInnerFirst with
  | [] => []
  | s :: rest =>
      batchMultipliers (texelsInBatch * s) rest ++ [texelsInBatch * s]
  end.

(** The axes [shape[rank - 3]], [shape[rank - 4]], ..., [shape[1]] the loop
    multiplies by, in the order it visits them. *)
Definition outerDimsInnerFirst (shape : list Z) : list Z :=
  rev (firstn (List.length shape - 3) (tl shape)).

(** [b_(rank-2) * m_(rank-2) + ... + b2 * m2], as the generated sum. *)
Fixpoint weighted (bs ms : list Z) : Z :=
  match bs, ms with
  | b :: bs', m :: ms' => b * m + weighted bs' ms'
  | _, _ => 0
  end.

Definition getPackedSamplerNDCS (inputInfo : InputInfo) : run samplerFn :=
  let shape := logicalShape (shapeInfo inputInfo) in
  let rank := List.length shape in
  let packedTexShape := packedTexShape (texShape (shapeInfo inputInfo)) in
  let texNumC := snd packedTexShape in
  let valuesPerRow := ceil_div (dim shape (rank - 1)) 2 in
  let texelsInBatch := valuesPerRow * ceil_div (dim shape (rank - 2)) 2 in
  let multipliers := batchMultipliers texelsInBatch (outerDimsInnerFirst shape) in
  ret (fun offset params =>
         if (List.length params =? List.length multipliers + 3)%nat then
           let outer := firstn (List.length multipliers) params in
           let b := nth (List.length multipliers) params 0 in
           let row := nth (List.length multipliers + 1) params 0 in
           let col := nth (List.length multipliers + 2) params 0 in
           let index := weighted outer multipliers
                        + (b * texelsInBatch + (row ÷ 2) * valuesPerRow + (col ÷ 2)) in
           let texR := index ÷ texNumC in
           let texC := index - texR * texNumC in
           Texel (texC, texR)
         else BadCall).

(** [getPackedSamplerFromInInfoCS]: ranks 0 to 3 have functions of their
    own, every other rank takes the N-D one. *)
Fixpoint getPackedSamplerFromInInfoCS_fuel (fuel : nat) (inInfo : InputInfo)
    : option (run samplerFn) :=
  match fuel with
  | O => None
  | S fuel' =>
      match List.length (logicalShape (shapeInfo inInfo)) with
      | 0%nat => Some (getPackedSamplerScalarCS inInfo)
      | 1%nat => Some (getPackedSampler1DCS inInfo)
      | 2%nat => Some (getPackedSampler2DCS inInfo)
      | 3%nat => getPackedSampler3DCS (getPackedSamplerFromInInfoCS_fuel fuel') inInfo
      | _ => Some (getPackedSamplerNDCS inInfo)
      end
  end.

Definition getPackedSamplerFromInInfoCS (inInfo : InputInfo)
    : option (run samplerFn) :=
  getPackedSamplerFromInInfoCS_fuel
    (S (List.length (logicalShape (shapeInfo inInfo)))) inInfo.

Definition getOutputPacked1DCoordsCS (shape : list Z) (texShape : Z * Z)
    : decoderFn :=
  let packedTexShape := packedTexShape texShape in
  if fst packedTexShape =? 1 then
    fun gid => [2 * fst gid]
  else if snd packedTexShape =? 1 then
    fun gid => [2 * snd gid]
  else
    fun gid => [snd gid * snd packedTexShape + fst gid].

Definition getOutputPacked2DCoordsCS (shape : list Z) (texShape : Z * Z)
    : decoderFn :=
  let packedTexShape := packedTexShape texShape in
  if arraysEqual shape texShape then
    fun gid => [2 * snd gid; 2 * fst gid]
  else
    let texelsInLogicalRow := ceil_div (dim shape 1) 2 in
    fun gid =>
      let resTexRC := (snd gid, fst gid) in
      let index := fst resTexRC * snd packedTexShape + snd resTexRC in
      let r := 2 * (index ÷ texelsInLogicalRow) in
      let c := imod index texelsInLogicalRow * 2 in
      [r; c].

Definition getOutputPacked3DCoordsCS (shape : list Z) (texShape : Z * Z)
    : decoderFn :=
  let packedTexShape := packedTexShape texShape in
  let texelsInLogicalRow := ceil_div (dim shape 2) 2 in
  let texelsInBatch := texelsInLogicalRow * ceil_div (dim shape 1) 2 in
  fun gid =>
    let resTexRC := (snd gid, fst gid) in
    let index := fst resTexRC * snd packedTexShape + snd resTexRC in
    let b := index ÷ texelsInBatch in
    let index := index - b * texelsInBatch in
    let r := 2 * (index ÷ texelsInLogicalRow) in
    let c := imod index texelsInLogicalRow * 2 in
    [b; r; c].

(** The lines [int b<n> = index / m<n>; index -= b<n> * m<n>;], outermost
    axis first: the coordinates they define and the index they leave. *)
Fixpoint peelBatches (index : Z) (ms : list Z) : list Z * Z :=
  match ms with
  | [] => ([], index)
  | m :: ms' =>
      let b := index ÷ m in
      let '(bs, index') := peelBatches (index - b * m) ms' in
      (b :: bs, index')
  end.

Definition getOutputPackedNDCoordsCS (shape : list Z) (texShape : Z * Z)
    : decoderFn :=
  let packedTexShape := packedTexShape texShape in
  let rank := List.length shape in
  let texelsInLogicalRow := ceil_div (dim shape (rank - 1)) 2 in
  let texelsInBatch := texelsInLogicalRow * ceil_div (dim shape (rank - 2)) 2 in
  let multipliers := batchMultipliers texelsInBatch (outerDimsInnerFirst shape) in
  fun gid =>
    let resTexRC := (snd gid, fst gid) in
    let index := fst resTexRC * snd packedTexShape + snd resTexRC in
    let '(batches, index) := peelBatches index multipliers in
    let b := index ÷ texelsInBatch in
    let index := index - b * texelsInBatch in
    let r := 2 * (index ÷ texelsInLogicalRow) in
    let c := imod index texelsInLogicalRow * 2 in
    batches ++ [b; r; c].

Definition getPackedOutputSamplingSnippetCS (outShape : list Z)
    (outTexShape : Z * Z) : run decoderFn :=
  match List.length outShape with
  | 0%nat => ret getOutputScalarCoords
  | 1%nat => ret (getOutputPacked1DCoordsCS outShape outTexShape)
  | 2%nat => ret (getOutputPacked2DCoordsCS outShape outTexShape)
  | 3%nat => ret (getOutputPacked3DCoordsCS outShape outTexShape)
  | _ => ret (getOutputPackedNDCoordsCS outShape outTexShape)
  end.

(** *** Generators of the texture-sampling path

    Their templates address textures with normalised floating-point
    positions; a template instance is recorded by the branch that emitted it
    and the numbers interpolated into it. *)
Inductive snippet : Type :=
| Template (label : string) (numbers : list Z)
| SqueezedTemplate (inner : snippet) (keptDims : list nat).

Definition hasOffset (inputInfo : InputInfo) : bool :=
  match flatOffset (shapeInfo inputInfo) with Some _ => true | None => false end.

Definition squeezedSnippet (rec : InputInfo -> option (run snippet))
    (inputInfo : InputInfo) (squeezedShape : list Z) (keptDims : list nat)
    : option (run snippet) :=
  match rec (squeezeInputInfo inputInfo squeezedShape) with
  | None => None
  | Some r => Some (bind r (fun inner => ret (SqueezedTemplate inner keptDims)))
  end.

Definition getSamplerScalar (inputInfo : InputInfo) : run snippet :=
  let '(texNumR, texNumC) := texShape (shapeInfo inputInfo) in
  if isUniform (shapeInfo inputInfo) then
    ret (Template "getSamplerScalar: uniform" [])
  else if (texNumR =? 1) && (texNumC =? 1) then
    ret (Template "getSamplerScalar: halfCR" [])
  else
    ret (Template "getSamplerScalar: uvFromFlat" [texNumR; texNumC]).

Definition getSampler1D (inputInfo : InputInfo) : run snippet :=
  let '(tNumR, tNumC) := texShape (shapeInfo inputInfo) in
  if isUniform (shapeInfo inputInfo) then
    ret (Template "getSampler1D: uniform" [])
  else if (tNumC =? 1) && (tNumR =? 1) then
    ret (Template "getSampler1D: halfCR" [])
  else if tNumC =? 1 then
    ret (Template "getSampler1D: one column" [tNumR])
  else if tNumR =? 1 then
    ret (Template "getSampler1D: one row" [tNumC])
  else
    ret (Template "getSampler1D: uvFromFlat" [tNumR; tNumC]).

Definition getSampler2D (rec : InputInfo -> option (run snippet))
    (inputInfo : InputInfo) : option (run snippet) :=
  let shape := logicalShape (shapeInfo inputInfo) in
  let '(texNumR, texNumC) := texShape (shapeInfo inputInfo) in
  if arraysEqual shape (texShape (shapeInfo inputInfo)) then
    Some (ret (Template "getSampler2D: texture is the matrix" [texNumC; texNumR]))
  else
    let '(newShape, keptDims) := squeezeShape shape in
    if (List.length newShape <? List.length shape)%nat then
      squeezedSnippet rec inputInfo newShape keptDims
    else if isUniform (shapeInfo inputInfo) then
      Some (ret (Template "getSampler2D: uniform" [dim shape 1]))
    else if texNumC =? 1 then
      Some (ret (Template "getSampler2D: one column" [dim shape 1; texNumR]))
    else if texNumR =? 1 then
      Some (ret (Template "getSampler2D: one row" [dim shape 1; texNumC]))
    else
      Some (ret (Template "getSampler2D: uvFromFlat"
                   [dim shape 1; texNumR; texNumC])).

Definition getSampler3D (rec : InputInfo -> option (run snippet))
    (inputInfo : InputInfo) : option (run snippet) :=
  let shape := logicalShape (shapeInfo inputInfo) in
  let stride0 := dim shape 1 * dim shape 2 in
  let stride1 := dim shape 2 in
  let '(newShape, keptDims) := squeezeShape shape in
  if (List.length newShape <? List.length shape)%nat then
    squeezedSnippet rec inputInfo newShape keptDims
  else if isUniform (shapeInfo inputInfo) then
    Some (ret (Template "getSampler3D: uniform" [stride0; stride1]))
  else
    let '(texNumR, texNumC) := texShape (shapeInfo inputInfo) in
    if (texNumC =? stride0) && negb (hasOffset inputInfo) then
      Some (ret (Template "getSampler3D: texC is physical"
                   [stride1; texNumC; texNumR]))
    else if (texNumC =? stride1) && negb (hasOffset inputInfo) then
      Some (ret (Template "getSampler3D: texR is physical"
                   [dim shape 1; texNumC; texNumR]))
    else
      Some (ret (Template "getSampler3D: uvFromFlat"
                   [stride0; stride1; texNumR; texNumC])).

Definition getSampler4D (rec : InputInfo -> option (run snippet))
    (inputInfo : InputInfo) : option (run snippet) :=
  let shape := logicalShape (shapeInfo inputInfo) in
  let stride2 := dim shape 3 in
  let stride1 := dim shape 2 * stride2 in
  let stride0 := dim shape 1 * stride1 in
  let '(newShape, keptDims) := squeezeShape shape in
  if (List.length newShape <? List.length shape)%nat then
    squeezedSnippet rec inputInfo newShape keptDims
  else if isUniform (shapeInfo inputInfo) then
    Some (ret (Template "getSampler4D: uniform" [stride0; stride1; stride2]))
  else
    let '(texNumR, texNumC) := texShape (shapeInfo inputInfo) in
    if (texNumC =? stride0) && negb (hasOffset inputInfo) then
      Some (ret (Template "getSampler4D: texC is physical"
                   [stride1; stride2; texNumC; texNumR]))
    else if (texNumC =? stride2) && negb (hasOffset inputInfo) then
      Some (ret (Template "getSampler4D: texR is physical"
                   [dim shape 1 * dim shape 2; dim shape 2; texNumC; texNumR]))
    else
      Some (ret (Template "getSampler4D: uvFromFlat"
                   [stride0; stride1; stride2; texNumR; texNumC])).

Definition getSampler5D (rec : InputInfo -> option (run snippet))
    (inputInfo : InputInfo) : option (run snippet) :=
  let shape := logicalShape (shapeInfo inputInfo) in
  let stride3 := dim shape 4 in
  let stride2 := dim shape 3 * stride3 in
  let stride1 := dim shape 2 * stride2 in
  let stride0 := dim shape 1 * stride1 in
  let '(newShape, keptDims) := squeezeShape shape in
  if (List.length newShape <? List.length shape)%nat then
    squeezedSnippet rec inputInfo newShape keptDims
  else if isUniform (shapeInfo inputInfo) then
    Some (ret (Template "getSampler5D: uniform"
                 [stride0; stride1; stride2; stride3]))
  else
    let '(texNumR, texNumC) := texShape (shapeInfo inputInfo) in
    if (texNumC =? stride0) && negb (hasOffset inputInfo) then
      Some (ret (Template "getSampler5D: texC is physical"
                   [stride1; stride2; stride3; texNumC; texNumR]))
    else if (texNumC =? stride3) && negb (hasOffset inputInfo) then
      Some (ret (Template "getSampler5D: texR is physical"
                   [dim shape 1 * dim shape 2 * dim shape 3;
                    dim shape 2 * dim shape 3; dim shape 3; texNumC; texNumR]))
    else
      Some (ret (Template "getSampler5D: uvFromFlat"
                   [stride0; stride1; stride2; stride3; texNumR; texNumC])).

Definition getSampler6D (rec : InputInfo -> option (run snippet))
    (inputInfo : InputInfo) : option (run snippet) :=
  let shape := logicalShape (shapeInfo inputInfo) in
  let '(newShape, keptDims) := squeezeShape shape in
  if (List.length newShape <? List.length shape)%nat then
    squeezedSnippet rec inputInfo newShape keptDims
  else
    let stride4 := dim shape 5 in
    let stride3 := dim shape 4 * stride4 in
    let stride2 := dim shape 3 * stride3 in
    let stride1 := dim shape 2 * stride2 in
    let stride0 := dim shape 1 * stride1 in
    if isUniform (shapeInfo inputInfo) then
      Some (ret (Template "getSampler6D: uniform"
                   [stride0; stride1; stride2; stride3; stride4]))
    else
      let '(texNumR, texNumC) := texShape (shapeInfo inputInfo) in
      if (texNumC =? stride0) && negb (hasOffset inputInfo) then
        Some (ret (Template "getSampler6D: texC is physical"
                     [stride1; stride2; stride3; stride4; texNumC; texNumR]))
      else if (texNumC =? stride4) && negb (hasOffset inputInfo) then
        Some (ret (Template "getSampler6D: texR is physical"
                     [dim shape 1 * dim shape 2 * dim shape 3 * dim shape 4;
                      dim shape 2 * dim shape 3 * dim shape 4;
                      dim shape 3 * dim shape 4; dim shape 4; texNumC; texNumR]))
      else
        Some (ret (Template "getSampler6D: uvFromFlat"
                     [stride0; stride1; stride2; stride3; stride4;
                      texNumR; texNumC])).

(** [getSamplerFromInInfo]: the [switch] on [shape.length]. *)
Fixpoint getSamplerFromInInfo_fuel (fuel : nat) (inInfo : InputInfo)
    : option (run snippet) :=
  match fuel with
  | O => None
  | S fuel' =>
      let shape := logicalShape (shapeInfo inInfo) in
      match List.length shape with
      | 0%nat => Some (getSamplerScalar inInfo)
      | 1%nat => Some (getSampler1D inInfo)
      | 2%nat => getSampler2D (getSamplerFromInInfo_fuel fuel') inInfo
      | 3%nat => getSampler3D (getSamplerFromInInfo_fuel fuel') inInfo
      | 4%nat => getSampler4D (getSamplerFromInInfo_fuel fuel') inInfo
      | 5%nat => getSampler5D (getSamplerFromInInfo_fuel fuel') inInfo
      | 6%nat => getSampler6D (getSamplerFromInInfo_fuel fuel') inInfo
      | _ =>
          Some (throw (show_nat (List.length shape)
                       ++ "-D input sampling is not yet supported"))
      end
  end.

Definition getSamplerFromInInfo (inInfo : InputInfo) : option (run snippet) :=
  getSamplerFromInInfo_fuel (S (List.length (logicalShape (shapeInfo inInfo)))) inInfo.

(** Packed input functions of the sampling path. *)
Definition getPackedSampler3D (rec : InputInfo -> option (run snippet))
    (inputInfo : InputInfo) : option (run snippet) :=
  let shape := logicalShape (shapeInfo inputInfo) in
  let packedTexShape := packedTexShape (texShape (shapeInfo inputInfo)) in
  if dim shape 0 =? 1 then
    squeezedSnippet rec inputInfo (tl shape) [1; 2]%nat
  else
    let valuesPerRow := ceil_div (dim shape 2) 2 in
    let texelsInBatch := valuesPerRow * ceil_div (dim shape 1) 2 in
    Some (ret (Template "getPackedSampler3D: packedUVfrom3D"
                 [fst packedTexShape; snd packedTexShape; texelsInBatch;
                  valuesPerRow])).

Definition getPackedSampler2D (inputInfo : InputInfo) : run snippet :=
  let shape := logicalShape (shapeInfo inputInfo) in
  let texShape := texShape (shapeInfo inputInfo) in
  if arraysEqual shape texShape then
    ret (Template "getPackedSampler2D: texture is the matrix"
           [snd texShape; fst texShape])
  else
    let packedTexShape := packedTexShape texShape in
    ret (Template "getPackedSampler2D: packedUVfrom2D"
           [ceil_div (dim shape 1) 2; fst packedTexShape; snd packedTexShape]).

Definition getPackedSamplerND (inputInfo : InputInfo) : run snippet :=
  let shape := logicalShape (shapeInfo inputInfo) in
  let rank := List.length shape in
  let packedTexShape := packedTexShape (texShape (shapeInfo inputInfo)) in
  let valuesPerRow := ceil_div (dim shape (rank - 1)) 2 in
  let texelsInBatch := valuesPerRow * ceil_div (dim shape (rank - 2)) 2 in
  ret (Template "getPackedSamplerND"
         (batchMultipliers texelsInBatch (outerDimsInnerFirst shape)
          ++ [texelsInBatch; valuesPerRow; snd packedTexShape; fst packedTexShape])).

Fixpoint getPackedSamplerFromInInfo_fuel (fuel : nat) (inInfo : InputInfo)
    : option (run snippet) :=
  match fuel with
  | O => None
  | S fuel' =>
      let packed := packedTexShape (texShape (shapeInfo inInfo)) in
      match List.length (logicalShape (shapeInfo inInfo)) with
      | 0%nat => Some (ret (Template "getPackedSamplerScalar" []))
      | 1%nat => Some (ret (Template "getPackedSampler1D" [fst packed; snd packed]))
      | 2%nat => Some (getPackedSampler2D inInfo)
      | 3%nat => getPackedSampler3D (getPackedSamplerFromInInfo_fuel fuel') inInfo
      | _ => Some (getPackedSamplerND inInfo)
      end
  end.

Definition getPackedSamplerFromInInfo (inInfo : InputInfo) : option (run snippet) :=
  getPackedSamplerFromInInfo_fuel
    (S (List.length (logicalShape (shapeInfo inInfo)))) inInfo.

(** Output decoders of the sampling path. *)
Definition getOutput1DCoords (shape : list Z) (texShape : Z * Z) : snippet :=
  if fst texShape =? 1 then Template "getOutput1DCoords: one row" [snd texShape]
  else if snd texShape =? 1 then
    Template "getOutput1DCoords: one column" [fst texShape]
  else Template "getOutput1DCoords" [fst texShape; snd texShape].

Definition getOutput2DCoords (shape : list Z) (texShape : Z * Z) : snippet :=
  if arraysEqual shape texShape then
    Template "getOutput2DCoords: texture is the matrix" [fst texShape; snd texShape]
  else if dim shape 1 =? 1 then
    Template "getOutput2DCoords: column vector" [fst texShape; snd texShape]
  else if dim shape 0 =? 1 then
    Template "getOutput2DCoords: row vector" [fst texShape; snd texShape]
  else
    Template "getOutput2DCoords" [fst texShape; snd texShape; dim shape 1].

Definition getOutputNDCoords (n : string) (shape : list Z) (texShape : Z * Z)
    : snippet :=
  Template n ([fst texShape; snd texShape] ++ shape).

(** What an output dispatcher of a compute shader returns: a decoder by
    [gl_GlobalInvocationID], or (ranks 5 and 6) the decoder of the sampling
    path. *)
Inductive outputSnippet : Type :=
| Indexed (decode : decoderFn)
| Sampling (code : snippet).

Definition getOutputSamplingSnippet (outShape : list Z) (outTexShape : Z * Z)
    : run snippet :=
  match List.length outShape with
  | 0%nat => ret (Template "getOutputScalarCoords" [])
  | 1%nat => ret (getOutput1DCoords outShape outTexShape)
  | 2%nat => ret (getOutput2DCoords outShape outTexShape)
  | 3%nat => ret (getOutputNDCoords "getOutput3DCoords" outShape outTexShape)
  | 4%nat => ret (getOutputNDCoords "getOutput4DCoords" outShape outTexShape)
  | 5%nat => ret (getOutputNDCoords "getOutput5DCoords" outShape outTexShape)
  | 6%nat => ret (getOutputNDCoords "getOutput6DCoords" outShape outTexShape)
  | _ =>
      throw (show_nat (List.length outShape)
             ++ "-D output sampling is not yet supported")
  end.

Definition getOutputSamplingSnippetCS (outShape : list Z) (outTexShape : Z * Z)
    : run outputSnippet :=
  match List.length outShape with
  | 0%nat => ret (Indexed getOutputScalarCoords)
  | 1%nat => ret (Indexed (getOutput1DCoordsCS outShape outTexShape))
  | 2%nat => ret (Indexed (getOutput2DCoordsCS outShape outTexShape))
  | 3%nat => ret (Indexed (getOutput3DCoordsCS outShape outTexShape))
  | 4%nat => ret (Indexed (getOutput4DCoordsCS outShape outTexShape))
  | 5%nat =>
      ret (Sampling (getOutputNDCoords "getOutput5DCoords" outShape outTexShape))
  | 6%nat =>
      ret (Sampling (getOutputNDCoords "getOutput6DCoords" outShape outTexShape))
  | _ =>
      throw (show_nat (List.length outShape)
             ++ "-D output sampling is not yet supported")
  end.

Definition getOutputPacked1DCoords (shape : list Z) (texShape : Z * Z) : snippet :=
  let packed := packedTexShape texShape in
  if fst packed =? 1 then Template "getOutputPacked1DCoords: one row" [snd packed]
  else if snd packed =? 1 then
    Template "getOutputPacked1DCoords: one column" [fst packed]
  else Template "getOutputPacked1DCoords" [fst packed; snd packed].

Definition getOutputPacked2DCoords (shape : list Z) (texShape : Z * Z) : snippet :=
  let packed := packedTexShape texShape in
  if arraysEqual shape texShape then
    Template "getOutputPacked2DCoords: texture is the matrix" [fst packed; snd packed]
  else
    Template "getOutputPacked2DCoords"
      [fst packed; snd packed; ceil_div (dim shape 1) 2].

Definition getPackedOutputSamplingSnippet (outShape : list Z)
    (outTexShape : Z * Z) : run snippet :=
  let packed := packedTexShape outTexShape in
  match List.length outShape with
  | 0%nat => ret (Template "getOutputScalarCoords" [])
  | 1%nat => ret (getOutputPacked1DCoords outShape outTexShape)
  | 2%nat => ret (getOutputPacked2DCoords outShape outTexShape)
  | 3%nat =>
      ret (getOutputNDCoords "getOutputPacked3DCoords" outShape outTexShape)
  | _ => ret (getOutputNDCoords "getOutputPackedNDCoords" outShape outTexShape)
  end.

(** *** [get<Name>AtOutCoords] *)

Definition getCoordsDataType (rank : nat) : run string :=
  if (rank <=? 1)%nat then ret "int"%string
  else match rank with
       | 2%nat => ret "ivec2"%string
       | 3%nat => ret "ivec3"%string
       | 4%nat => ret "ivec4"%string
       | 5%nat => ret "ivec5"%string
       | 6%nat => ret "ivec6"%string
       | _ => throw ("GPU for rank " ++ show_nat rank ++ " is not yet supported")
       end.

(** [coordsSnippet]: nothing, [coords = 0;], or one line
    [coords.<field> = 0;] for each listed component ([x] is component 0). *)
Inductive coordsSnippet : Type :=
| KeepCoords
| ZeroCoords
| ZeroFields (fields : list nat).

(** [unpackedCoordsSnippet]: [coords], or the listed components. *)
Inductive argsSnippet : Type :=
| WholeCoords
| Fields (fields : list nat).

(** The [return] of the packed accessor: a swizzle of [outputValue], or
    [vec4(outputValue.x, outputValue.x, 0., 0.)]. *)
Inductive outputExpr : Type :=
| OutSwizzle (sw : swizzle)
| OutXX00.

Inductive accessor : Type :=
| SampleAtResultUV
| SampleAtInvocation
| FlatRemap (outTexC inTexC : Z)
| ViaSampler (zeroing : coordsSnippet) (args : argsSnippet) (output : outputExpr).

Definition zeroField (coords : list Z) (field : nat) : list Z :=
  firstn field coords ++
  match skipn field coords with [] => [] | _ :: rest => 0 :: rest end.

Definition runCoordsSnippet (cs : coordsSnippet) (coords : list Z) : list Z :=
  match cs with
  | KeepCoords => coords
  | ZeroCoords => [0]
  | ZeroFields fields => fold_left zeroField fields coords
  end.

Definition runArgsSnippet (a : argsSnippet) (coords : list Z) : list Z :=
  match a with
  | WholeCoords => coords
  | Fields fields => map (fun f => nth f coords 0) fields
  end.

(** The arguments with which an accessor calls [get<Name>] when
    [getOutputCoords()] returns [coords]. *)
Definition accessorArgs (a : accessor) (coords : list Z) : option (list Z) :=
  match a with
  | ViaSampler zeroing args _ => Some (runArgsSnippet args (runCoordsSnippet zeroing coords))
  | _ => None
  end.

(** [int index = int(gl_GlobalInvocationID.y) * outTexC + int(gl_GlobalInvocationID.x);
     int texR = index / inTexC;  int texC = index - texR * inTexC;
     ivec2 uv = ivec2(texC, texR);] *)
Definition flatRemap (outTexC inTexC : Z) (gid : ivec2) : ivec2 :=
  let index := snd gid * outTexC + fst gid in
  let texR := index ÷ inTexC in
  let texC := index - texR * inTexC in
  (texC, texR).

Definition texShapesEqual (a b : Z * Z) : bool :=
  (fst a =? fst b) && (snd a =? snd b).

(** The two snippets both [getSamplerAtOutputCoords] and
    [getPackedSamplerAtOutputCoords] build from [broadcastDims]. *)
Definition outCoordsSnippets (inShape outShape : list Z)
    : coordsSnippet * argsSnippet :=
  let inRank := List.length inShape in
  let outRank := List.length outShape in
  let broadcastDims := getBroadcastDims inShape outShape in
  let rankDiff := (outRank - inRank)%nat in
  let coordsSnippet :=
    if (inRank =? 0)%nat then KeepCoords
    else if (outRank <? 2)%nat && (1 <=? List.length broadcastDims)%nat then ZeroCoords
    else ZeroFields (map (fun d => (d + rankDiff)%nat) broadcastDims) in
  let unpackedCoordsSnippet :=
    if (outRank <? 2)%nat && (0 <? inRank)%nat then WholeCoords
    else Fields (map (fun i => (i + rankDiff)%nat) (seq 0 inRank)) in
  (coordsSnippet, unpackedCoordsSnippet).

Definition getSamplerAtOutputCoords (inputInfo : InputInfo) (outShapeInfo : ShapeInfo)
    : run accessor :=
  let outTexShape := texShape outShapeInfo in
  let inTexShape := texShape (shapeInfo inputInfo) in
  let inRank := List.length (logicalShape (shapeInfo inputInfo)) in
  let outRank := List.length (logicalShape outShapeInfo) in
  if negb (isUniform (shapeInfo inputInfo)) && (inRank =? outRank)%nat &&
     negb (hasOffset inputInfo) && texShapesEqual inTexShape outTexShape
  then ret SampleAtResultUV
  else
    bind (getCoordsDataType outRank) (fun type =>
      let '(coordsSnippet, unpackedCoordsSnippet) :=
        outCoordsSnippets (logicalShape (shapeInfo inputInfo))
          (logicalShape outShapeInfo) in
      ret (ViaSampler coordsSnippet unpackedCoordsSnippet
             (OutSwizzle (X, Y, Zc, W)))).

Definition getSamplerAtOutputCoordsCS (inputInfo : InputInfo)
    (outShapeInfo : ShapeInfo) : run accessor :=
  let outTexShape := texShape outShapeInfo in
  let inTexShape := texShape (shapeInfo inputInfo) in
  let inRank := List.length (logicalShape (shapeInfo inputInfo)) in
  let outRank := List.length (logicalShape outShapeInfo) in
  if negb (isUniform (shapeInfo inputInfo)) && (inRank =? outRank)%nat &&
     negb (hasOffset inputInfo) && texShapesEqual inTexShape outTexShape
  then ret SampleAtInvocation
  else ret (FlatRemap (snd outTexShape) (snd inTexShape)).

Definition memberZ (i : Z) (l : list nat) : bool :=
  existsb (fun d => Z.of_nat d =? i) l.

Definition getPackedSamplerAtOutputCoords (inputInfo : InputInfo)
    (outShapeInfo : ShapeInfo) : run accessor :=
  let inShape := logicalShape (shapeInfo inputInfo) in
  let inRank := List.length inShape in
  let outRank := List.length (logicalShape outShapeInfo) in
  let broadcastDims := getBroadcastDims inShape (logicalShape outShapeInfo) in
  bind (getCoordsDataType outRank) (fun type =>
    let '(coordsSnippet, unpackedCoordsSnippet) :=
      outCoordsSnippets inShape (logicalShape outShapeInfo) in
    let output :=
      if (inRank =? 1)%nat && (1 <? outRank)%nat then OutSwizzle (X, Y, X, Y)
      else if (inRank =? 0)%nat && (0 <? outRank)%nat then
        if (outRank =? 1)%nat then OutXX00 else OutSwizzle (X, X, X, X)
      else if (0 <? List.length broadcastDims)%nat then
        let rows := Z.of_nat inRank - 2 in
        let cols := Z.of_nat inRank - 1 in
        if memberZ rows broadcastDims && memberZ cols broadcastDims
        then OutSwizzle (X, X, X, X)
        else if memberZ rows broadcastDims then OutSwizzle (X, Y, X, Y)
        else if memberZ cols broadcastDims then OutSwizzle (X, X, Zc, Zc)
        else OutSwizzle (X, Y, Zc, W)
      else OutSwizzle (X, Y, Zc, W) in
    ret (ViaSampler coordsSnippet unpackedCoordsSnippet output)).

(** [getInputSamplingSnippet] and [getInputSamplingSnippetCS]: the input
    function, then its accessor when the input's rank does not exceed the
    output's. *)
Definition withAccessor {S} (sampler : option (run S))
    (inShape outShape : list Z) (acc : run accessor)
    : option (run (S * option accessor)) :=
  match sampler with
  | None => None
  | Some r =>
      Some (bind r (fun res =>
              if (List.length inShape <=? List.length outShape)%nat
              then bind acc (fun a => ret (res, Some a))
              else ret (res, None)))
  end.

Definition getInputSamplingSnippet (inInfo : InputInfo) (outShapeInfo : ShapeInfo)
    (usesPackedTextures : bool) : option (run (snippet * option accessor)) :=
  let inShape := logicalShape (shapeInfo inInfo) in
  let outShape := logicalShape outShapeInfo in
  if usesPackedTextures then
    withAccessor (getPackedSamplerFromInInfo inInfo) inShape outShape
      (getPackedSamplerAtOutputCoords inInfo outShapeInfo)
  else
    withAccessor (getSamplerFromInInfo inInfo) inShape outShape
      (getSamplerAtOutputCoords inInfo outShapeInfo).

Definition getInputSamplingSnippetCS
    (UVfrom3D : Z -> Z -> Z -> Z -> Z -> Z -> Z -> ivec2)
    (UVfrom4D : Z -> Z -> Z -> Z -> Z -> Z -> Z -> Z -> Z -> ivec2)
    (inInfo : InputInfo) (outShapeInfo : ShapeInfo)
    (usesPackedTextures : bool) : option (run (samplerFn * option accessor)) :=
  let inShape := logicalShape (shapeInfo inInfo) in
  let outShape := logicalShape outShapeInfo in
  if usesPackedTextures then
    withAccessor (getPackedSamplerFromInInfoCS inInfo) inShape outShape
      (getPackedSamplerAtOutputCoords inInfo outShapeInfo)
  else
    withAccessor (getSamplerFromInInfoCS UVfrom3D UVfrom4D inInfo) inShape outShape
      (getSamplerAtOutputCoordsCS inInfo outShapeInfo).

(** A generator call of the model succeeds when the model's fuel suffices
    and the call returns; it fails when the fuel suffices and the call
    throws. *)
Definition succeeds {A} (o : option (run A)) : bool :=
  match o with Some r => returns r | None => false end.

Definition fails {A} (o : option (run A)) : bool :=
  match o with Some r => negb (returns r) | None => false end.

Definition rankOf (inInfo : InputInfo) : nat :=
  List.length (logicalShape (shapeInfo inInfo)).

(** An input of rank 5, for example a 2 x 2 x 2 x 2 x 2 tensor in a 4 x 8
    texture. *)
Definition rank5Input : InputInfo :=
  {| name := "x";
     shapeInfo := {| logicalShape := [2; 2; 2; 2; 2];
                     texShape := (4, 8);
                     isUniform := false; isPacked := false;
                     flatOffset := None |} |}.

(** The arguments the broadcasting rule asks for: for every input axis, 0
    when it is a broadcast axis, else the output coordinate of the axis it
    lines up with from the right. *)
Definition broadcastArgs (inShape outShape : list Z) (coords : list Z) : list Z :=
  let rankDiff := (List.length outShape - List.length inShape)%nat in
  map (fun i =>
         if existsb (Nat.eqb i) (getBroadcastDims inShape outShape) then 0
         else nth (i + rankDiff) coords 0)
      (seq 0 (List.length inShape)).

(** The condition under which the unpacked accessors read the input at the
    position of the output itself. *)
Definition sameTexel (inputInfo : InputInfo) (outShapeInfo : ShapeInfo) : bool :=
  negb (isUniform (shapeInfo inputInfo)) &&
  (List.length (logicalShape (shapeInfo inputInfo))
   =? List.length (logicalShape outShapeInfo))%nat &&
  negb (hasOffset inputInfo) &&
  texShapesEqual (texShape (shapeInfo inputInfo)) (texShape outShapeInfo).

(** A row vector [1, 4] in a 1 x 4 texture, read for a 4 x 4 output. *)
Definition rowVector : InputInfo :=
  {| name := "bias";
     shapeInfo := {| logicalShape := [1; 4]; texShape := (1, 4);
                     isUniform := false; isPacked := false;
                     flatOffset := None |} |}.
Definition squareOutput : ShapeInfo :=
  {| logicalShape := [4; 4]; texShape := (4, 4);
     isUniform := false; isPacked := false; flatOffset := None |}.

(** A packed vector of one element (one texel, whose channel r holds the
    element), read for a packed 2 x 2 output (one texel). *)
Definition packedOne : InputInfo :=
  {| name := "bias";
     shapeInfo := {| logicalShape := [1]; texShape := (1, 1);
                     isUniform := false; isPacked := true;
                     flatOffset := None |} |}.
Definition packedSquare : ShapeInfo :=
  {| logicalShape := [2; 2]; texShape := (2, 2);
     isUniform := false; isPacked := true; flatOffset := None |}.

(** *** Statements about encoding and decoding *)

(** The number of elements of a shape, as a product over its axes. *)
Definition prod (shape : list Z) : Z := fold_right Z.mul 1 shape.

(** The row-major flat index of a coordinate. *)
Fixpoint flatFrom (acc : Z) (shape coords : list Z) : Z :=
  match shape, coords with
  | s :: shape', c :: coords' => flatFrom (acc * s + c) shape' coords'
  | _, _ => acc
  end.

Definition flatIndex (shape coords : list Z) : Z := flatFrom 0 shape coords.

(** A coordinate within the bounds of a logical shape. *)
Definition inBounds (shape coords : list Z) : Prop :=
  Forall2 (fun s c => 0 <= c < s) shape coords.

(** An input function encodes the coordinates of [shape] row-major into a
    texture of [texNumC] columns (with the offset uniform at 0). *)
Definition addresses (f : samplerFn) (shape : list Z) (texNumC : Z) : Prop :=
  forall coords, inBounds shape coords ->
    exists x y, f 0 coords = Texel (x, y) /\
                0 <= x < texNumC /\ 0 <= y /\
                y * texNumC + x = flatIndex shape coords.

(** A decoder inverts the row-major encoding. *)
Definition decodes (d : decoderFn) (shape : list Z) (texNumC : Z) : Prop :=
  forall coords x y, inBounds shape coords ->
    0 <= x < texNumC -> 0 <= y ->
    y * texNumC + x = flatIndex shape coords ->
    d (x, y) = coords.

(** Encoding a coordinate with the input function [f] and decoding the
    texel with [d] gives [expect] of the coordinate. *)
Definition roundTrips (f : samplerFn) (d : decoderFn) (shape : list Z)
    (expect : list Z -> list Z) : Prop :=
  forall coords, inBounds shape coords ->
    exists uv, f 0 coords = Texel uv /\ d uv = expect coords.

(** A dispatcher call gives an input function that encodes row-major. *)
Definition encodes (o : option (run samplerFn)) (shape : list Z) (texNumC : Z)
    : Prop :=
  exists r f, o = Some r /\ result r = Returned f /\ addresses f shape texNumC.

(** What [UVfrom3D] and [UVfrom4D] are taken to compute: the texel of the
    row-major flat index, like [uvFromFlat]. *)
Definition UVfrom3D_flat
    (UVfrom3D : Z -> Z -> Z -> Z -> Z -> Z -> Z -> ivec2) : Prop :=
  forall texNumR texNumC stride0 stride1 row col depth,
    UVfrom3D texNumR texNumC stride0 stride1 row col depth
    = uvFromFlat texNumR texNumC (row * stride0 + col * stride1 + depth).

Definition UVfrom4D_flat
    (UVfrom4D : Z -> Z -> Z -> Z -> Z -> Z -> Z -> Z -> Z -> ivec2) : Prop :=
  forall texNumR texNumC stride0 stride1 stride2 row col depth depth2,
    UVfrom4D texNumR texNumC stride0 stride1 stride2 row col depth depth2
    = uvFromFlat texNumR texNumC
        (row * stride0 + col * stride1 + depth * stride2 + depth2).

(** The top-left position of the 2 x 2 block a coordinate lies in: its last
    two components rounded down to even (its only component, for rank 1). *)
Fixpoint blockOrigin (coords : list Z) : list Z :=
  match coords with
  | [] => []
  | [i] => [2 * (i / 2)]
  | [row; col] => [2 * (row / 2); 2 * (col / 2)]
  | b :: rest => b :: blockOrigin rest
  end.

(** The number of texels a packed tensor takes: one per 2 x 2 block of the
    last two axes, for every position of the other axes. *)
Fixpoint packedSize (shape : list Z) : Z :=
  match shape with
  | [] => 1
  | [n] => ceil_div n 2
  | [rows; cols] => ceil_div rows 2 * ceil_div cols 2
  | b :: rest => b * packedSize rest
  end.

(** The logical shapes and texture shapes on which the packed input function
    and the packed decoder of the compute-shader path address texels the same
    way: a vector in a texture of one row or one column of texels that holds
    it, a matrix whose texture shape differs from its logical shape, a
    rank-3 tensor that does not squeeze to a matrix of the texture's shape,
    and every tensor of rank 4 or more. *)
Definition blockConsistent (shape : list Z) (texShape : Z * Z) : Prop :=
  let packed := packedTexShape texShape in
  match shape with
  | [] => False
  | [s] =>
      (fst packed = 1 \/ snd packed = 1) /\ 0 < snd packed /\
      ceil_div s 2 <= fst packed * snd packed
  | [s0; s1] => arraysEqual shape texShape = false
  | [s0; s1; s2] => s0 = 1 -> arraysEqual [s1; s2] texShape = false
  | _ => True
  end.

(** Instances of [UVfrom3D] and [UVfrom4D] on integer texel positions. *)
Definition flatUVfrom3D
    (texNumR texNumC stride0 stride1 row col depth : Z) : ivec2 :=
  uvFromFlat texNumR texNumC (row * stride0 + col * stride1 + depth).

Definition flatUVfrom4D
    (texNumR texNumC stride0 stride1 stride2 row col depth depth2 : Z) : ivec2 :=
  uvFromFlat texNumR texNumC
    (row * stride0 + col * stride1 + depth * stride2 + depth2).

(** A packed 2 x 8 matrix in a texture of 2 x 2 texels. *)
Definition packedMatrix : InputInfo :=
  {| name := "A";
     shapeInfo := {| logicalShape := [2; 8]; texShape := (4, 4);
                     isUniform := false; isPacked := true;
                     flatOffset := None |} |}.

(** An unpacked 2 x 3 x 4 tensor in a texture of 6 rows and 4 columns. *)
Definition unpackedTensor : InputInfo :=
  {| name := "A";
     shapeInfo := {| logicalShape := [2; 3; 4]; texShape := (6, 4);
                     isUniform := false; isPacked := false;
                     flatOffset := None |} |}.

End ShaderCompiler.

(** ** Tiled matrix multiplication: the four program classes *)

Module MatMul.
Import JS GLSL.

(** The fields of a [GPGPUProgram]; [userCode] is the template instance. *)
Record GPGPUProgram (Code : Type) : Type := mkProgram
  { variableNames : list string;
    usesPackedTextures : bool;
    outputShape : Z * Z * Z;
    userCode : Code;
    localGroupSize : list Z;
    workPerThread : option (list Z) }.
Arguments mkProgram {Code}.
Arguments variableNames {Code}.
Arguments usesPackedTextures {Code}.
Arguments outputShape {Code}.
Arguments userCode {Code}.
Arguments localGroupSize {Code}.
Arguments workPerThread {Code}.

Definition dim0 (s : Z * Z * Z) : Z := fst (fst s).
Definition dim1 (s : Z * Z * Z) : Z := snd (fst s).
Definition dim2 (s : Z * Z * Z) : Z := snd s.

(** [aSample]: the two coordinates handed to [getMatrixA] after the batch.
    [MK] is the text for [transposeA = false] (row expression first),
    [KM] the text for [transposeA = true] (shared-dimension expression
    first); each is the expression times 2. *)
Inductive aSampleText : Type := MK | KM.
(** [bSample]: [KN] for [transposeB = false], [NK] for [transposeB = true]. *)
Inductive bSampleText : Type := KN | NK.

Definition aCoords (s : aSampleText) (m k : Z) : Z * Z :=
  match s with MK => (m * 2, k * 2) | KM => (k * 2, m * 2) end.
Definition bCoords (s : bSampleText) (k n : Z) : Z * Z :=
  match s with KN => (k * 2, n * 2) | NK => (n * 2, k * 2) end.

(** What the four constructors compute alike before the template. *)
Record Common : Type := mkCommon
  { activationSnippet : string;
    applyActivationSnippet : string;
    sharedDimensionPacked : Z;
    numTiles : Z;               (* Math.ceil(sharedDimensionPacked / tileK) *)
    remainder : Z;              (* sharedDimensionPacked % tileK *)
    aSample : aSampleText;
    bSample : bSampleText;
    aSwizzle : swizzle * swizzle;
    bSwizzle : swizzle * swizzle }.

Definition truthy (activation : option string) : bool :=
  match activation with
  | Some s => negb (String.eqb s "")
  | None => false
  end.

Definition common (aShape : Z * Z * Z) (transposeA transposeB : bool)
    (tileK : Z) (activation : option string) (applyText : string) : Common :=
  let sharedDim := if transposeA then dim1 aShape else dim2 aShape in
  let sharedDimensionPacked := ceil_div sharedDim 2 in
  {| activationSnippet :=
       if truthy activation
       then match activation with Some s => s | None => "" end
       else "";
     applyActivationSnippet := if truthy activation then applyText else "";
     sharedDimensionPacked := sharedDimensionPacked;
     numTiles := ceil_div sharedDimensionPacked tileK;
     remainder := rem sharedDimensionPacked tileK;
     aSample := if transposeA then KM else MK;
     bSample := if transposeB then NK else KN;
     aSwizzle := if transposeA then ((X, X, Y, Y), (Zc, Zc, W, W))
                 else ((X, X, Zc, Zc), (Y, Y, W, W));
     bSwizzle := if transposeB then ((X, Zc, X, Zc), (Y, W, Y, W))
                 else ((X, Y, X, Y), (Zc, W, Zc, W)) |}.

(** [MatMulPackedProgramCS]: holes of the template besides [Common]. *)
Record CodeCS : Type := mkCodeCS
  { cs_common : Common;
    cs_TS : Z;
    cs_addBiasSnippet : string }.

(** [MatMulPackedProgramCSV2]. *)
Record CodeCSV2 : Type := mkCodeCSV2
  { v2_common : Common;
    v2_TS : Z;
    v2_WPT : Z;
    v2_RTS : Z;
    v2_addBiasSnippet : string }.

(** [MatMulPackedProgramCSV3]. *)
Record CodeCSV3 : Type := mkCodeCSV3
  { v3_common : Common;
    v3_TS : Z;
    v3_WPT : Z;
    v3_RTS : Z;
    v3_outRows : Z;             (* Math.ceil(this.outputShape[1] / 2) *)
    v3_outCols : Z }.           (* Math.ceil(this.outputShape[2] / 2) *)

(** [MatMulPackedProgramCSV4]. *)
Record CodeCSV4 : Type := mkCodeCSV4
  { v4_common : Common;
    v4_TSM : Z; v4_TSN : Z; v4_TSK : Z;
    v4_WPTM : Z; v4_WPTN : Z;
    v4_LPTA : Z;
    v4_RTSM : Z; v4_RTSN : Z;
    v4_outRows : Z;
    v4_outCols : Z }.

(** [TS / WPT] and the like are divisions of JavaScript numbers; the
    generators are used with tile sizes the work-per-thread factor
    divides, where the quotient is the integer written here. *)
Definition MatMulPackedProgramCS
    (aShape outputShape : Z * Z * Z) (transposeA transposeB : bool)
    (TS : Z) (addBias : bool) (activation : option string)
    : run (GPGPUProgram CodeCS) :=
  let c := common aShape transposeA transposeB TS activation
             "result = activation(result);" in
  let addBiasSnippet :=
    if addBias then "result += getBiasAtOutCoords();"%string else ""%string in
  let variableNames := ["matrixA"; "matrixB"]%string in
  let variableNames :=
    if addBias then variableNames ++ ["bias"%string] else variableNames in
  ret {| variableNames := variableNames;
         usesPackedTextures := true;
         outputShape := outputShape;
         userCode := {| cs_common := c; cs_TS := TS;
                        cs_addBiasSnippet := addBiasSnippet |};
         localGroupSize := [TS; TS];
         workPerThread := None |}.

Definition MatMulPackedProgramCSV2
    (aShape outputShape : Z * Z * Z) (transposeA transposeB : bool)
    (TS WPT : Z) (addBias : bool) (activation : option string)
    : run (GPGPUProgram CodeCSV2) :=
  let c := common aShape transposeA transposeB TS activation
             "result = activation(result);" in
  let RTS := TS / WPT in
  let addBiasSnippet :=
    if addBias then "result += getBiasAtOutCoords();"%string else ""%string in
  let variableNames := ["matrixA"; "matrixB"]%string in
  let variableNames :=
    if addBias then variableNames ++ ["bias"%string] else variableNames in
  ret {| variableNames := variableNames;
         usesPackedTextures := true;
         outputShape := outputShape;
         userCode := {| v2_common := c; v2_TS := TS; v2_WPT := WPT;
                        v2_RTS := RTS;
                        v2_addBiasSnippet := addBiasSnippet |};
         localGroupSize := [TS; RTS];
         workPerThread := Some [1; WPT] |}.

Definition MatMulPackedProgramCSV3
    (aShape outputShape : Z * Z * Z) (transposeA transposeB : bool)
    (TS WPT : Z) (addBias : bool) (activation : option string)
    : run (GPGPUProgram CodeCSV3) :=
  let c := common aShape transposeA transposeB TS activation
             "result[innerRow][innerCol] = activation(result[innerRow][innerCol]);" in
  let RTS := TS / WPT in
  bind (if addBias then console_error "bias is not supported" else ret tt)
    (fun _ =>
  ret {| variableNames := ["matrixA"; "matrixB"]%string;
         usesPackedTextures := true;
         outputShape := outputShape;
         userCode := {| v3_common := c; v3_TS := TS; v3_WPT := WPT;
                        v3_RTS := RTS;
                        v3_outRows := ceil_div (dim1 outputShape) 2;
                        v3_outCols := ceil_div (dim2 outputShape) 2 |};
         localGroupSize := [RTS; RTS];
         workPerThread := Some [WPT; WPT] |}).

Definition MatMulPackedProgramCSV4
    (aShape outputShape : Z * Z * Z) (transposeA transposeB : bool)
    (TS TSK WPT : Z) (addBias : bool) (activation : option string)
    : run (GPGPUProgram CodeCSV4) :=
  let c := common aShape transposeA transposeB TSK activation
             "acc[wm][wn] = activation(acc[wm][wn]);" in
  let '(TSM, TSN) := (TS, TS) in
  let '(WPTM, WPTN) := (WPT, WPT) in
  let LPTA := TSK * WPTM * WPTN / TSN in
  let '(RTSM, RTSN) := (TSM / WPTM, TSN / WPTN) in
  bind (if addBias then console_error "bias is not supported" else ret tt)
    (fun _ =>
  ret {| variableNames := ["matrixA"; "matrixB"]%string;
         usesPackedTextures := true;
         outputShape := outputShape;
         userCode := {| v4_common := c;
                        v4_TSM := TSM; v4_TSN := TSN; v4_TSK := TSK;
                        v4_WPTM := WPTM; v4_WPTN := WPTN;
                        v4_LPTA := LPTA;
                        v4_RTSM := RTSM; v4_RTSN := RTSN;
                        v4_outRows := ceil_div (dim1 outputShape) 2;
                        v4_outCols := ceil_div (dim2 outputShape) 2 |};
         localGroupSize := [RTSN; RTSM];
         workPerThread := Some [WPTN; WPTM] |}).

(** *** What the generated kernels compute

    One workgroup runs in the phases its barriers delimit: in every tile
    all invocations first write their cells of [Asub] and [Bsub], then
    (after [memoryBarrierShared(); barrier();]) all invocations accumulate
    from the tile, then ([barrier();]) the next tile starts.  An invocation
    is named by its [gl_LocalInvocationID.xy]; a workgroup by its
    [gl_WorkGroupID.xy]; [gl_GlobalInvocationID] is
    [gl_WorkGroupID * localGroupSize + gl_LocalInvocationID]. *)

Definition shared : Type := Z -> Z -> vec4.
Definition store2 (m : shared) (r c : Z) (v : vec4) : shared :=
  fun r' c' => if (r' =? r) && (c' =? c) then v else m r' c'.
Definition store1 (m : Z -> vec4) (i : Z) (v : vec4) : Z -> vec4 :=
  fun i' => if i' =? i then v else m i'.

(** The invocations of a workgroup of size [sizeX] by [sizeY]. *)
Definition threads (sizeX sizeY : Z) : list (Z * Z) :=
  flat_map (fun y => map (fun x => (x, y)) (range sizeX)) (range sizeY).

(** [int sizeTS = (t == (numTiles - 1) && rem != 0) ? rem : tileK;] *)
Definition sizeTS (c : Common) (tileK t : Z) : Z :=
  if (t =? numTiles c - 1) && negb (remainder c =? 0)
  then remainder c else tileK.

(** [acc += (aSwizzle[0] * bSwizzle[0]) + (aSwizzle[1] * bSwizzle[1]);] *)
Definition mac (c : Common) (a b acc : vec4) : vec4 :=
  vec4_add acc
    (vec4_add (vec4_mul (swz a (fst (aSwizzle c))) (swz b (fst (bSwizzle c))))
              (vec4_mul (swz a (snd (aSwizzle c))) (swz b (snd (bSwizzle c))))).

(** The packed positions of the shared dimension that the accumulation
    loops consume: cell [i] of tile [t] holds what the load phase fetched
    at position [tileK * t + i]. *)
Definition accumulated (c : Common) (tileK : Z) : list Z :=
  flat_map (fun t => map (fun i => tileK * t + i) (range (sizeTS c tileK t)))
           (range (numTiles c)).

Definition nonempty (s : string) : bool := negb (String.eqb s "").

(** A store the kernel issues: [imageStore(outputColor, ivec2(x, y), v)]. *)
Definition imageStore : Type := (ivec2 * vec4)%type.

Section Exec.
(** The packed samplers of the two inputs and the output decoder, which
    the shader assembler places before the kernel body. *)
Variables getMatrixA getMatrixB : Z -> Z -> Z -> vec4.
Variable getOutputCoords : Z -> Z -> Z * Z * Z.   (* by gl_GlobalInvocationID.xy *)
Variable getBiasAtOutCoords : Z -> Z -> vec4.     (* by gl_GlobalInvocationID.xy *)
Variable activation : vec4 -> vec4.
(** The workgroup. *)
Variable wg : Z * Z.

Definition loadA (c : Common) (b m k : Z) : vec4 :=
  let '(p, q) := aCoords (aSample c) m k in getMatrixA b p q.
Definition loadB (c : Common) (b k n : Z) : vec4 :=
  let '(p, q) := bCoords (bSample c) k n in getMatrixB b p q.

(** **** MatMulPackedProgramCS *)

Definition cs_load (k : CodeCS) (t : Z) (mem : shared * shared)
    : shared * shared :=
  let c := cs_common k in
  let TS := cs_TS k in
  fold_left
    (fun mem (th : Z * Z) =>
       let '(lx, ly) := th in
       let globalCol := fst wg * TS + lx in
       let globalRow := snd wg * TS + ly in
       let rc := getOutputCoords globalCol globalRow in
       let row := ly in
       let col := lx in
       let tileRow := TS * t + row in
       let tileCol := TS * t + col in
       (store2 (fst mem) row col (loadA c (dim0 rc) globalRow tileCol),
        store2 (snd mem) row col (loadB c (dim0 rc) tileRow globalCol)))
    (threads TS TS) mem.

Definition cs_accum (k : CodeCS) (mem : shared * shared) (t : Z)
    (th : Z * Z) (result : vec4) : vec4 :=
  let c := cs_common k in
  let '(lx, ly) := th in
  let row := ly in
  let col := lx in
  fold_left
    (fun result i =>
       let a := fst mem row i in
       let b := snd mem i col in
       mac c a b result)
    (range (sizeTS c (cs_TS k) t)) result.

Definition cs_tile (k : CodeCS)
    (st : (shared * shared) * (Z * Z -> vec4)) (t : Z)
    : (shared * shared) * (Z * Z -> vec4) :=
  let mem := cs_load k t (fst st) in
  (mem, fun th => cs_accum k mem t th (snd st th)).

(** [vec4 result = vec4(0);] and the loop over all tiles. *)
Definition cs_tiles (k : CodeCS) (mem0 : shared * shared) : Z * Z -> vec4 :=
  snd (fold_left (cs_tile k) (range (numTiles (cs_common k)))
         (mem0, fun _ => vec4_splat 0)).

(** The bias and activation lines, then [setOutput(result)], which
    stores at [ivec2(gl_GlobalInvocationID.xy)]. *)
Definition cs_stores (k : CodeCS) (mem0 : shared * shared) : list imageStore :=
  let TS := cs_TS k in
  map (fun th : Z * Z =>
         let '(lx, ly) := th in
         let gx := fst wg * TS + lx in
         let gy := snd wg * TS + ly in
         let result := cs_tiles k mem0 th in
         let result :=
           if nonempty (cs_addBiasSnippet k)
           then vec4_add result (getBiasAtOutCoords gx gy) else result in
         let result :=
           if nonempty (applyActivationSnippet (cs_common k))
           then activation result else result in
         ((gx, gy), result))
      (threads TS TS).

(** **** MatMulPackedProgramCSV2

    [vec4 result[WPT];] is declared without an initialiser and the
    template never assigns it before [result[w] += ...]: the array starts
    from whatever the registers hold, [uninit] below.  The bias and
    activation lines of this template apply [+=] and [activation] to the
    array itself; the meaning given here is that of the template without
    those two lines. *)

Definition v2_load (k : CodeCSV2) (t : Z) (mem : shared * shared)
    : shared * shared :=
  let c := v2_common k in
  let TS := v2_TS k in
  let RTS := v2_RTS k in
  fold_left
    (fun mem (th : Z * Z) =>
       let '(lx, ly) := th in
       let rc := getOutputCoords (fst wg * TS + lx) (snd wg * RTS + ly) in
       let row := ly in
       let col := lx in
       let globalRow := TS * snd wg + row in
       let globalCol := TS * fst wg + col in
       let tileRow := TS * t + row in
       let tileCol := TS * t + col in
       fold_left
         (fun mem w =>
            (store2 (fst mem) (row + w * RTS) col
               (loadA c (dim0 rc) (globalRow + w * RTS) tileCol),
             store2 (snd mem) (row + w * RTS) col
               (loadB c (dim0 rc) (tileRow + w * RTS) globalCol)))
         (range (v2_WPT k)) mem)
    (threads TS RTS) mem.

Definition v2_accum (k : CodeCSV2) (mem : shared * shared) (t : Z)
    (th : Z * Z) (result : Z -> vec4) : Z -> vec4 :=
  let c := v2_common k in
  let '(lx, ly) := th in
  let row := ly in
  let col := lx in
  fold_left
    (fun result i =>
       let b := snd mem i col in
       fold_left
         (fun result w =>
            let a := fst mem (row + w * v2_RTS k) i in
            store1 result w (mac c a b (result w)))
         (range (v2_WPT k)) result)
    (range (sizeTS c (v2_TS k) t)) result.

Definition v2_tile (k : CodeCSV2)
    (st : (shared * shared) * (Z * Z -> Z -> vec4)) (t : Z)
    : (shared * shared) * (Z * Z -> Z -> vec4) :=
  let mem := v2_load k t (fst st) in
  (mem, fun th => v2_accum k mem t th (snd st th)).

Definition v2_tiles (k : CodeCSV2) (mem0 : shared * shared)
    (uninit : Z * Z -> Z -> vec4) : Z * Z -> Z -> vec4 :=
  snd (fold_left (v2_tile k) (range (numTiles (v2_common k))) (mem0, uninit)).

(** [for (int w = 0; w < WPT; w++)
       imageStore(outputColor, ivec2(globalCol, globalRow + w*RTS), result[w]);] *)
Definition v2_stores (k : CodeCSV2) (mem0 : shared * shared)
    (uninit : Z * Z -> Z -> vec4) : list imageStore :=
  let TS := v2_TS k in
  let RTS := v2_RTS k in
  flat_map
    (fun th : Z * Z =>
       let '(lx, ly) := th in
       let globalRow := TS * snd wg + ly in
       let globalCol := TS * fst wg + lx in
       let result := v2_tiles k mem0 uninit th in
       map (fun w => ((globalCol, globalRow + w * RTS), result w))
           (range (v2_WPT k)))
    (threads TS RTS).

(** **** MatMulPackedProgramCSV3 and MatMulPackedProgramCSV4

    Both keep a register row [Breg] and a register block of
    accumulators; the accumulation and store loops of the two templates
    differ only in the names of their variables. *)

Definition regs : Type := ((Z -> vec4) * shared)%type.

(** [for (i < n) for (j < m) acc[i][j] = vec4(0);] *)
Definition zero_block (n m : Z) (acc : shared) : shared :=
  fold_left
    (fun acc i =>
       fold_left (fun acc j => store2 acc i j (vec4_splat 0)) (range m) acc)
    (range n) acc.

(** [for (k < sizeTS) {
       for (wn < WPTN) Breg[wn] = Bsub[k][col + wn * RTSN];
       for (wm < WPTM) {
         vec4 a = Asub[row + wm * RTSM][k];
         for (wn < WPTN) { vec4 b = Breg[wn]; acc[wm][wn] += ...; } } }] *)
Definition block_accum (c : Common) (WPTM WPTN RTSM RTSN size : Z)
    (mem : shared * shared) (row col : Z) (r : regs) : regs :=
  fold_left
    (fun (r : regs) k =>
       let Breg :=
         fold_left
           (fun Breg wn => store1 Breg wn (snd mem k (col + wn * RTSN)))
           (range WPTN) (fst r) in
       let acc :=
         fold_left
           (fun acc wm =>
              let a := fst mem (row + wm * RTSM) k in
              fold_left
                (fun acc wn =>
                   let b := Breg wn in
                   store2 acc wm wn (mac c a b (acc wm wn)))
                (range WPTN) acc)
           (range WPTM) (snd r) in
       (Breg, acc))
    (range size) r.

(** [for (wm < WPTM) {
       int outputRow = globalRow + wm * RTSM;
       if (outputRow >= outRows) continue;
       for (wn < WPTN) {
         int outputCol = globalCol + wn * RTSN;
         if (outputCol >= outCols) continue;
         <applyActivationSnippet>
         imageStore(outputColor, ivec2(outputCol, outputRow), acc[wm][wn]); } }] *)
Definition block_stores (c : Common) (WPTM WPTN RTSM RTSN outRows outCols : Z)
    (globalRow globalCol : Z) (acc : shared) : list imageStore :=
  flat_map
    (fun wm =>
       let outputRow := globalRow + wm * RTSM in
       if outputRow >=? outRows then []
       else
         flat_map
           (fun wn =>
              let outputCol := globalCol + wn * RTSN in
              if outputCol >=? outCols then []
              else
                let v := acc wm wn in
                let v := if nonempty (applyActivationSnippet c)
                         then activation v else v in
                [((outputCol, outputRow), v)])
           (range WPTN))
    (range WPTM).

Definition v3_load (k : CodeCSV3) (t : Z) (mem : shared * shared)
    : shared * shared :=
  let c := v3_common k in
  let TS := v3_TS k in
  let RTS := v3_RTS k in
  fold_left
    (fun mem (th : Z * Z) =>
       let '(lx, ly) := th in
       let rc := getOutputCoords (fst wg * RTS + lx) (snd wg * RTS + ly) in
       let row := ly in
       let col := lx in
       let globalRow := TS * snd wg + row in
       let globalCol := TS * fst wg + col in
       let tileRow := TS * t + row in
       let tileCol := TS * t + col in
       fold_left
         (fun mem innerRow =>
            let inputRow := row + innerRow * RTS in
            fold_left
              (fun mem innerCol =>
                 let inputCol := col + innerCol * RTS in
                 (store2 (fst mem) inputRow inputCol
                    (loadA c (dim0 rc) (globalRow + innerRow * RTS)
                       (tileCol + innerCol * RTS)),
                  store2 (snd mem) inputRow inputCol
                    (loadB c (dim0 rc) (tileRow + innerRow * RTS)
                       (globalCol + innerCol * RTS))))
              (range (v3_WPT k)) mem)
         (range (v3_WPT k)) mem)
    (threads RTS RTS) mem.

Definition v3_tile (k : CodeCSV3)
    (st : (shared * shared) * (Z * Z -> regs)) (t : Z)
    : (shared * shared) * (Z * Z -> regs) :=
  let mem := v3_load k t (fst st) in
  (mem,
   fun th =>
     block_accum (v3_common k) (v3_WPT k) (v3_WPT k) (v3_RTS k) (v3_RTS k)
       (sizeTS (v3_common k) (v3_TS k) t) mem (snd th) (fst th) (snd st th)).

Definition v3_tiles (k : CodeCSV3) (mem0 : shared * shared)
    (uninit : Z * Z -> regs) : Z * Z -> regs :=
  snd (fold_left (v3_tile k) (range (numTiles (v3_common k)))
         (mem0,
          fun th => (fst (uninit th),
                     zero_block (v3_WPT k) (v3_WPT k) (snd (uninit th))))).

Definition v3_stores (k : CodeCSV3) (mem0 : shared * shared)
    (uninit : Z * Z -> regs) : list imageStore :=
  flat_map
    (fun th : Z * Z =>
       let '(lx, ly) := th in
       let globalRow := v3_TS k * snd wg + ly in
       let globalCol := v3_TS k * fst wg + lx in
       block_stores (v3_common k) (v3_WPT k) (v3_WPT k) (v3_RTS k) (v3_RTS k)
         (v3_outRows k) (v3_outCols k) globalRow globalCol
         (snd (v3_tiles k mem0 uninit th)))
    (threads (v3_RTS k) (v3_RTS k)).

Definition v4_load (k : CodeCSV4) (t : Z) (mem : shared * shared)
    : shared * shared :=
  let c := v4_common k in
  fold_left
    (fun mem (th : Z * Z) =>
       let '(lx, ly) := th in
       let rc := getOutputCoords (fst wg * v4_RTSN k + lx)
                                 (snd wg * v4_RTSM k + ly) in
       let tidm := ly in
       let tidn := lx in
       let offsetM := v4_TSM k * snd wg in
       let offsetN := v4_TSN k * fst wg in
       fold_left
         (fun mem i =>
            let tid := tidm * v4_RTSN k + tidn in
            let id := i * v4_RTSN k * v4_RTSM k + tid in
            let row := id ÷ v4_TSK k in
            let col := imod id (v4_TSK k) in
            let tiledIndex := v4_TSK k * t + col in
            (store2 (fst mem) row col
               (loadA c (dim0 rc) (offsetM + row) tiledIndex),
             store2 (snd mem) col row
               (loadB c (dim0 rc) tiledIndex (offsetN + row))))
         (range (v4_LPTA k)) mem)
    (threads (v4_RTSN k) (v4_RTSM k)) mem.

Definition v4_tile (k : CodeCSV4)
    (st : (shared * shared) * (Z * Z -> regs)) (t : Z)
    : (shared * shared) * (Z * Z -> regs) :=
  let mem := v4_load k t (fst st) in
  (mem,
   fun th =>
     block_accum (v4_common k) (v4_WPTM k) (v4_WPTN k) (v4_RTSM k) (v4_RTSN k)
       (sizeTS (v4_common k) (v4_TSK k) t) mem (snd th) (fst th) (snd st th)).

Definition v4_tiles (k : CodeCSV4) (mem0 : shared * shared)
    (uninit : Z * Z -> regs) : Z * Z -> regs :=
  snd (fold_left (v4_tile k) (range (numTiles (v4_common k)))
         (mem0,
          fun th => (fst (uninit th),
                     zero_block (v4_WPTM k) (v4_WPTN k) (snd (uninit th))))).

Definition v4_stores (k : CodeCSV4) (mem0 : shared * shared)
    (uninit : Z * Z -> regs) : list imageStore :=
  flat_map
    (fun th : Z * Z =>
       let '(lx, ly) := th in
       let globalRow := v4_TSM k * snd wg + ly in
       let globalCol := v4_TSN k * fst wg + lx in
       block_stores (v4_common k) (v4_WPTM k) (v4_WPTN k) (v4_RTSM k) (v4_RTSN k)
         (v4_outRows k) (v4_outCols k) globalRow globalCol
         (snd (v4_tiles k mem0 uninit th)))
    (threads (v4_RTSN k) (v4_RTSM k)).

End Exec.

End MatMul.

(** ** Cache-tiled convolution: the two program classes *)

Module Conv.
Import JS GLSL.

(** The fields of [Conv2DInfo] (declared in [ops/conv_util]) the two
    generators read. *)
Record PadInfo : Type := mkPadInfo { top : Z; left : Z }.

Record Conv2DInfo : Type := mkConv2DInfo
  { outShape : Z * Z * Z * Z;
    padInfo : PadInfo;
    strideHeight : Z; strideWidth : Z;
    dilationHeight : Z; dilationWidth : Z;
    filterHeight : Z; filterWidth : Z;
    inChannels : Z; outChannels : Z;
    inHeight : Z; inWidth : Z }.

Definition ivec4 : Type := (Z * Z * Z * Z)%type.
Definition c0 (v : ivec4) : Z := fst (fst (fst v)).
Definition c1 (v : ivec4) : Z := snd (fst (fst v)).
Definition c2 (v : ivec4) : Z := snd (fst v).
Definition c3 (v : ivec4) : Z := snd v.

Record ConvProgram (Code : Type) : Type := mkConvProgram
  { variableNames : list string;
    outputShape : Z * Z * Z * Z;
    userCode : Code;
    localGroupSize : Z * Z }.
Arguments mkConvProgram {Code}.
Arguments variableNames {Code}.
Arguments outputShape {Code}.
Arguments userCode {Code}.
Arguments localGroupSize {Code}.

(** The numbers interpolated into the template of [Conv2DProgramCS]. *)
Record CodeConv : Type := mkCodeConv
  { strides : Z * Z;
    pads : Z * Z;
    CACHE_H : Z;
    CACHE_W : Z;
    CACHE_C : Z;
    k_dilationHeight : Z;
    k_dilationWidth : Z;
    k_inHeight : Z;
    k_inWidth : Z;
    k_groupSize : Z;           (* localGroupSize[0] * localGroupSize[1] *)
    k_outChannels : Z;
    k_filterHeight : Z;
    k_filterWidth : Z;
    k_inputDepthNearestVec4 : Z;
    k_inputDepthVec4Remainder : Z }.

Definition CACHE_WC (k : CodeConv) : Z := CACHE_W k * CACHE_C k.
Definition CACHE_HWC (k : CodeConv) : Z := CACHE_H k * CACHE_W k * CACHE_C k.

Definition Conv2DProgramCS (convInfo : Conv2DInfo) : ConvProgram CodeConv :=
  let padTop := top (padInfo convInfo) in
  let padLeft := left (padInfo convInfo) in
  let inputDepthNearestVec4 := (inChannels convInfo / 4) * 4 in
  let inputDepthVec4Remainder := rem (inChannels convInfo) 4 in
  let localGroupSize := (8, 7) in
  {| variableNames := ["x"; "W"]%string;
     outputShape := outShape convInfo;
     localGroupSize := localGroupSize;
     userCode :=
       {| strides := (strideHeight convInfo, strideWidth convInfo);
          pads := (padTop, padLeft);
          CACHE_H := filterHeight convInfo;
          CACHE_W := (snd localGroupSize - 1) * strideWidth convInfo
                     + filterWidth convInfo
                     + (filterWidth convInfo - 1) * (dilationWidth convInfo - 1);
          CACHE_C := inChannels convInfo;
          k_dilationHeight := dilationHeight convInfo;
          k_dilationWidth := dilationWidth convInfo;
          k_inHeight := inHeight convInfo;
          k_inWidth := inWidth convInfo;
          k_groupSize := fst localGroupSize * snd localGroupSize;
          k_outChannels := outChannels convInfo;
          k_filterHeight := filterHeight convInfo;
          k_filterWidth := filterWidth convInfo;
          k_inputDepthNearestVec4 := inputDepthNearestVec4;
          k_inputDepthVec4Remainder := inputDepthVec4Remainder |} |}.

(** The numbers interpolated into the template of
    [DepthwiseConv2DProgramCS].  [channelMul] is
    [outChannels / inChannels], a division of JavaScript numbers: the integer
    written here when [inChannels] divides [outChannels]. *)
Record CodeDepthwise : Type := mkCodeDepthwise
  { d_strides : Z * Z;
    d_pads : Z * Z;
    d_CACHE_H : Z;
    d_CACHE_W : Z;
    d_CACHE_C : Z;
    d_channelMul : Z;
    d_dilationHeight : Z;
    d_dilationWidth : Z;
    d_inHeight : Z;
    d_inWidth : Z;
    d_inChannels : Z;
    d_groupSize : Z;
    d_outChannels : Z;
    d_filterHeight : Z;
    d_filterWidth : Z;
    d_xNumRows : Z;
    d_xNumCols : Z }.

Definition d_CACHE_WC (k : CodeDepthwise) : Z := d_CACHE_W k * d_CACHE_C k.
Definition d_CACHE_HWC (k : CodeDepthwise) : Z :=
  d_CACHE_H k * d_CACHE_W k * d_CACHE_C k.

Definition DepthwiseConv2DProgramCS (convInfo : Conv2DInfo)
    : ConvProgram CodeDepthwise :=
  let xNumRows := inHeight convInfo in
  let xNumCols := inWidth convInfo in
  let padTop := top (padInfo convInfo) in
  let padLeft := left (padInfo convInfo) in
  let channelMul := outChannels convInfo / inChannels convInfo in
  let localGroupSize := (8 * channelMul, 7) in
  {| variableNames := ["x"; "W"]%string;
     outputShape := outShape convInfo;
     localGroupSize := localGroupSize;
     userCode :=
       {| d_strides := (strideHeight convInfo, strideWidth convInfo);
          d_pads := (padTop, padLeft);
          d_CACHE_H := filterHeight convInfo;
          d_CACHE_W := (snd localGroupSize - 1) * strideWidth convInfo
                       + filterWidth convInfo
                       + (filterWidth convInfo - 1) * (dilationWidth convInfo - 1);
          d_CACHE_C := fst localGroupSize / channelMul;
          d_channelMul := channelMul;
          d_dilationHeight := dilationHeight convInfo;
          d_dilationWidth := dilationWidth convInfo;
          d_inHeight := inHeight convInfo;
          d_inWidth := inWidth convInfo;
          d_inChannels := inChannels convInfo;
          d_groupSize := fst localGroupSize * snd localGroupSize;
          d_outChannels := outChannels convInfo;
          d_filterHeight := filterHeight convInfo;
          d_filterWidth := filterWidth convInfo;
          d_xNumRows := xNumRows;
          d_xNumCols := xNumCols |} |}.

(** *** What the generated kernels do with the cache

    [shared float cache[CACHE_H][CACHE_W * CACHE_C]]: a cell is [None] until
    the fill phase of this dispatch writes it (it then still holds whatever
    an earlier use of the shared memory left there). *)
Definition cache : Type := Z -> Z -> option Z.
Definition emptyCache : cache := fun _ _ => None.
Definition writeCell (m : cache) (cell : Z * Z) (v : Z) : cache :=
  fun r c => if (r =? fst cell) && (c =? snd cell) then Some v else m r c.

Section Kernels.
(** The sampler of the input [x]. *)
Variable getX : Z -> Z -> Z -> Z -> Z.
(** [getFirstThreadOutputCoords()]: its definition is not part of these
    sources; its value for the workgroup is taken as given. *)
Variable first : ivec4.

(** **** Conv2DProgramCS *)

(** One iteration of the fill loop at [index]: the cell it writes and the
    input position it reads, if its bounds test passes.
    [int r = index / CACHE_WC;  int cd = index - r * CACHE_WC;
     int c = cd / CACHE_C;      int d = cd - c * CACHE_C;
     int xR = cacheRCorner + r * dilationHeight;
     int xC = cacheCCorner + c;
     if (xR >= 0 && xR < inHeight && xC >= 0 && xC < inWidth)
       cache[r][cd] = getX(batch, xR, xC, d);] *)
Definition conv_fill_at (k : CodeConv) (index : Z) : option ((Z * Z) * ivec4) :=
  let batch := c0 first in
  let cacheRCorner := c1 first * fst (strides k) - fst (pads k) in
  let cacheCCorner := c2 first * snd (strides k) - snd (pads k) in
  let r := index ÷ CACHE_WC k in
  let cd := index - r * CACHE_WC k in
  let c := cd ÷ CACHE_C k in
  let d := cd - c * CACHE_C k in
  let xR := cacheRCorner + r * k_dilationHeight k in
  let xC := cacheCCorner + c in
  if (xR >=? 0) && (xR <? k_inHeight k) && (xC >=? 0) && (xC <? k_inWidth k)
  then Some ((r, cd), (batch, xR, xC, d))
  else None.

Definition fill_write (at_ : Z -> option ((Z * Z) * ivec4)) (m : cache) (index : Z)
    : cache :=
  match at_ index with
  | Some (cell, (b, xR, xC, d)) => writeCell m cell (getX b xR xC d)
  | None => m
  end.

(** [int index = int(gl_LocalInvocationIndex);
     while (index < CACHE_HWC) { ...; index += groupSize; }]
    [None] when the fuel runs out before the loop ends. *)
Fixpoint fill_loop (fuel : nat) (at_ : Z -> option ((Z * Z) * ivec4))
    (hwc groupSize : Z) (index : Z) (m : cache) : option cache :=
  if index <? hwc then
    match fuel with
    | O => None
    | S fuel' =>
        fill_loop fuel' at_ hwc groupSize (index + groupSize)
          (fill_write at_ m index)
    end
  else Some m.

(** The fill phase of a workgroup: every invocation runs its loop, then
    [memoryBarrierShared(); barrier();]. *)
Definition fill_phase (fuel : nat) (at_ : Z -> option ((Z * Z) * ivec4))
    (hwc groupSize : Z) (m : cache) : option cache :=
  fold_left
    (fun (om : option cache) localIndex =>
       match om with
       | Some m => fill_loop fuel at_ hwc groupSize localIndex m
       | None => None
       end)
    (range groupSize) (Some m).

Definition conv_fill (fuel : nat) (k : CodeConv) : option cache :=
  fill_phase fuel (conv_fill_at k) (CACHE_HWC k) (k_groupSize k) emptyCache.

(** A filter tap of the compute loop of an invocation whose
    [getOutputCoords()] is [coords]: the input position [(xR, xC)] it stands
    for and the cache position [(sR, sC)] it reads from, when both bounds
    tests pass.
    [int xR = xRCorner + wR * dilationHeight;
     if (xR < 0 || xR >= inHeight) continue;
     int sR = wR;
     int xC = xCCorner + wC * dilationWidth;
     if (xC < 0 || xC >= inWidth) continue;
     int sC = (xC - cacheCCorner) * CACHE_C;] *)
Definition conv_tap (k : CodeConv) (coords : ivec4) (wR wC : Z)
    : option ((Z * Z) * (Z * Z)) :=
  let cacheCCorner := c2 first * snd (strides k) - snd (pads k) in
  let xRCorner := c1 coords * fst (strides k) - fst (pads k) in
  let xCCorner := c2 coords * snd (strides k) - snd (pads k) in
  let xR := xRCorner + wR * k_dilationHeight k in
  if (xR <? 0) || (xR >=? k_inHeight k) then None
  else
    let sR := wR in
    let xC := xCCorner + wC * k_dilationWidth k in
    if (xC <? 0) || (xC >=? k_inWidth k) then None
    else
      let sC := (xC - cacheCCorner) * CACHE_C k in
      Some ((xR, xC), (sR, sC)).

(** **** DepthwiseConv2DProgramCS *)

(** [int cacheDCorner = coords.w / channelMul;] and one iteration of the fill
    loop:
    [if ((cacheRCorner + r) >= 0 && (cacheCCorner + c) >= 0 &&
         (cacheRCorner + r) < inHeight && (cacheCCorner + c) < inWidth &&
         (cacheDCorner + d) < inChannels)
       cache[r][cd] = getX(batch, cacheRCorner + r * dilationHeight,
                           cacheCCorner + c, cacheDCorner + d);] *)
Definition depthwise_fill_at (k : CodeDepthwise) (index : Z)
    : option ((Z * Z) * ivec4) :=
  let batch := c0 first in
  let cacheRCorner := c1 first * fst (d_strides k) - fst (d_pads k) in
  let cacheCCorner := c2 first * snd (d_strides k) - snd (d_pads k) in
  let cacheDCorner := c3 first ÷ d_channelMul k in
  let r := index ÷ d_CACHE_WC k in
  let cd := index - r * d_CACHE_WC k in
  let c := cd ÷ d_CACHE_C k in
  let d := cd - c * d_CACHE_C k in
  if (cacheRCorner + r >=? 0) && (cacheCCorner + c >=? 0) &&
     (cacheRCorner + r <? d_inHeight k) && (cacheCCorner + c <? d_inWidth k) &&
     (cacheDCorner + d <? d_inChannels k)
  then Some ((r, cd),
             (batch, cacheRCorner + r * d_dilationHeight k, cacheCCorner + c,
              cacheDCorner + d))
  else None.

Definition depthwise_fill (fuel : nat) (k : CodeDepthwise) : option cache :=
  fill_phase fuel (depthwise_fill_at k) (d_CACHE_HWC k) (d_groupSize k) emptyCache.

(** A filter tap of the compute loop: the input position and channel it
    stands for and the cache cell it reads.
    [int d1 = d2 / channelMul;
     int xR = xRCorner + wR;
     if (xR < 0 || xR >= xNumRows) continue;
     int sR = xR - cacheRCorner;
     int xC = xCCorner + wC * dilationWidth;
     if (xC < 0 || xC >= xNumCols) continue;
     int sC = (xC - cacheCCorner) * CACHE_C;
     float xVal = cache[sR][sC + d1 - cacheDCorner];] *)
Definition depthwise_tap (k : CodeDepthwise) (coords : ivec4) (wR wC : Z)
    : option ((Z * Z * Z) * (Z * Z)) :=
  let cacheRCorner := c1 first * fst (d_strides k) - fst (d_pads k) in
  let cacheCCorner := c2 first * snd (d_strides k) - snd (d_pads k) in
  let cacheDCorner := c3 first ÷ d_channelMul k in
  let xRCorner := c1 coords * fst (d_strides k) - fst (d_pads k) in
  let xCCorner := c2 coords * snd (d_strides k) - snd (d_pads k) in
  let d2 := c3 coords in
  let d1 := d2 ÷ d_channelMul k in
  let xR := xRCorner + wR in
  if (xR <? 0) || (xR >=? d_xNumRows k) then None
  else
    let sR := xR - cacheRCorner in
    let xC := xCCorner + wC * d_dilationWidth k in
    if (xC <? 0) || (xC >=? d_xNumCols k) then None
    else
      let sC := (xC - cacheCCorner) * d_CACHE_C k in
      Some ((xR, xC, d1), (sR, sC + d1 - cacheDCorner)).

End Kernels.

(** A depthwise convolution with "same" padding: a 2 x 7 input of 8
    channels, a 2 x 1 filter applied with row dilation 2 (three input rows
    high, hence one row of padding above and below), stride 1. *)
Definition dilatedDepthwise : Conv2DInfo :=
  {| outShape := (1, 2, 7, 8);
     padInfo := {| top := 1; left := 0 |};
     strideHeight := 1; strideWidth := 1;
     dilationHeight := 2; dilationWidth := 1;
     filterHeight := 2; filterWidth := 1;
     inChannels := 8; outChannels := 8;
     inHeight := 2; inWidth := 7 |}.

(** *** Statements about the cache

    Every written cell holds the input value some iteration of the fill
    loop read for this very cell; [at_] gives, for a fill index, the cell
    and the input position of the iteration. *)
Definition sound (getX : Z -> Z -> Z -> Z -> Z)
    (at_ : Z -> option ((Z * Z) * ivec4)) (hwc : Z) (m : cache) : Prop :=
  forall r c v, m r c = Some v ->
    exists index b xR xC d,
      0 <= index < hwc /\ at_ index = Some ((r, c), (b, xR, xC, d)) /\
      v = getX b xR xC d.

(** No written cell is lost. *)
Definition grows (m m' : cache) : Prop :=
  forall r c, m r c <> None -> m' r c <> None.

End Conv.

(** ** Statements about the matmul programs *)

Module MatMulSpec.
Import JS GLSL MatMul.

Definition tiles_ok (c : Common) (tileK : Z) : Prop :=
  let sdp := sharedDimensionPacked c in
  (numTiles c - 1) * tileK < sdp <= numTiles c * tileK /\
  (forall t, 0 <= t < numTiles c ->
     sizeTS c tileK t =
       if (t =? numTiles c - 1) && negb (sdp mod tileK =? 0)
       then sdp mod tileK else tileK) /\
  accumulated c tileK = range sdp /\
  (forall p, In p (accumulated c tileK) -> 0 <= p < sdp).

(** A store lies inside the packed output: column below
    [ceil(outputShape[2] / 2)], row below [ceil(outputShape[1] / 2)]. *)
Definition in_output (outputShape : Z * Z * Z) (st : imageStore) : Prop :=
  fst (fst st) < ceil_div (dim2 outputShape) 2 /\
  snd (fst st) < ceil_div (dim1 outputShape) 2.

Definition in_outputb (outputShape : Z * Z * Z) (st : imageStore) : bool :=
  (fst (fst st) <? ceil_div (dim2 outputShape) 2) &&
  (snd (fst st) <? ceil_div (dim1 outputShape) 2).

(** A constructor call rejects its arguments when it throws. *)
Definition rejects {A} (r : run A) : Prop := returned r = None.

(** Samplers that read 0 everywhere, for running a kernel when only the
    positions of its stores matter. *)
Definition zeroSampler : Z -> Z -> Z -> vec4 := fun _ _ _ => vec4_splat 0.
(** A sampler that tells one logical column apart: 1 in every channel
    when called with that column, 0 otherwise. *)
Definition probeColumn (column : Z) : Z -> Z -> Z -> vec4 :=
  fun _ _ col => if col =? column then vec4_splat 1 else vec4_splat 0.
Definition batch0 : Z -> Z -> Z * Z * Z := fun _ _ => (0, 0, 0).
Definition zeroMem : shared * shared :=
  (fun _ _ => vec4_splat 0, fun _ _ => vec4_splat 0).
Definition zeroRegs : Z * Z -> regs :=
  fun _ => (fun _ => vec4_splat 0, fun _ _ => vec4_splat 0).

(** *** Phases of a workgroup, for the statements about the kernels *)

(** The writes of a load phase to [Asub] and [Bsub], one work item after
    the other: item [x] writes [va x] to [Asub] at [ka x] and [vb x] to
    [Bsub] at [kb x]. *)
Definition writes {T : Type} (ka kb : T -> Z * Z) (va vb : T -> vec4)
    (items : list T) (mem : shared * shared) : shared * shared :=
  fold_left
    (fun mem x =>
       (store2 (fst mem) (fst (ka x)) (snd (ka x)) (va x),
        store2 (snd mem) (fst (kb x)) (snd (kb x)) (vb x)))
    items mem.

(** One step of every accumulation loop: the texels of [A] and [B] at
    position [p] of the packed shared dimension, for the packed row [m] and
    the packed column [n] of the output. *)
Definition macAt (getMatrixA getMatrixB : Z -> Z -> Z -> vec4) (c : Common)
    (b m n : Z) (acc : vec4) (p : Z) : vec4 :=
  mac c (loadA getMatrixA c b m p) (loadB getMatrixB c b p n) acc.

(** [int tid = tidm * RTSN + tidn; int id = i * RTSN * RTSM + tid;] of the
    load loop of [MatMulPackedProgramCSV4], for the invocation [(tidn, tidm)]
    and the iteration [i]. *)
Definition loadId (k : CodeCSV4) (x : Z * Z * Z) : Z :=
  snd x * v4_RTSN k * v4_RTSM k + (snd (fst x) * v4_RTSN k + fst (fst x)).

(** *** The reference product and the outputs of the four kernels *)

(** A logical tensor of rank 3: its element at [batch, row, col]. *)
Definition tensor3 : Type := Z -> Z -> Z -> Z.

(** The 2 x 2 block of a tensor that holds the position [(row, col)] of
    batch [b], as a vec4: the elements at [(2tr, 2tc)], [(2tr, 2tc+1)],
    [(2tr+1, 2tc)], [(2tr+1, 2tc+1)] in the channels r, g, b, a.  This is
    the value the reference side works with; what [get<Name>] of an input
    returns is [generatedSampler] below. *)
Definition blockTexel (T : tensor3) : Z -> Z -> Z -> vec4 :=
  fun b row col =>
    let r := 2 * (row / 2) in
    let c := 2 * (col / 2) in
    mkVec4 (T b r c) (T b r (c + 1)) (T b (r + 1) c) (T b (r + 1) (c + 1)).

Definition shapeList (shape : Z * Z * Z) : list Z :=
  [dim0 shape; dim1 shape; dim2 shape].

(** A texel position lies inside the packed texture of shape [texShape],
    which is [ceil(texShape[1] / 2)] texels wide and
    [ceil(texShape[0] / 2)] texels high. *)
Definition insideTexture (texShape : Z * Z) (uv : ivec2) : bool :=
  let packed := ShaderCompiler.packedTexShape texShape in
  (0 <=? fst uv) && (fst uv <? snd packed) &&
  (0 <=? snd uv) && (snd uv <? fst packed).

(** Modelled from the spec: the textures of the inputs are filled outside
    these sources.  By section 4.2 a texel of a packed texture holds a 2 x 2
    block of the tensor, row-major in its channels; the block a texel holds
    is the one whose position the packed output decoder of the sources
    ([getPackedOutputSamplingSnippetCS]) returns at that texel, since that
    is where a program that computes a packed tensor stores the block.  The
    elements of a block beyond the shape (padding) are those [T] gives
    there; a fetch outside the texture returns [outside]. *)
Definition packedTexture (T : tensor3) (shape : Z * Z * Z) (texShape : Z * Z)
    (outside : ivec2 -> vec4) : ivec2 -> vec4 :=
  fun uv =>
    if insideTexture texShape uv then
      match returned (ShaderCompiler.getPackedOutputSamplingSnippetCS
                        (shapeList shape) texShape) with
      | Some decode =>
          match decode uv with
          | [b; r; c] => blockTexel T b r c
          | _ => outside uv
          end
      | None => outside uv
      end
    else outside uv.

(** The [InputInfo] of a packed rank-3 input that is no uniform. *)
Definition matrixInfo (name : string) (shape : Z * Z * Z) (texShape : Z * Z)
    : ShaderCompiler.InputInfo :=
  {| ShaderCompiler.name := name;
     ShaderCompiler.shapeInfo :=
       {| ShaderCompiler.logicalShape := shapeList shape;
          ShaderCompiler.texShape := texShape;
          ShaderCompiler.isUniform := false;
          ShaderCompiler.isPacked := true;
          ShaderCompiler.flatOffset := None |} |}.

(** [get<Name>(b, row, col)] of a packed input as the shader assembler
    generates it ([getPackedSamplerFromInInfoCS]), reading the texture
    [tex]: the texel at the position the generated function fetches.  (The
    generated function of a rank-3 input takes three arguments and fetches a
    texel; there is no function when the generator throws.) *)
Definition generatedSampler (inInfo : ShaderCompiler.InputInfo)
    (tex : ivec2 -> vec4) : option (Z -> Z -> Z -> vec4) :=
  match ShaderCompiler.getPackedSamplerFromInInfoCS inInfo with
  | Some r =>
      option_map
        (fun (f : ShaderCompiler.samplerFn) b row col =>
           match f 0 [b; row; col] with
           | ShaderCompiler.Texel uv => tex uv
           | _ => vec4_splat 0
           end)
        (returned r)
  | None => None
  end.

(** The sampler of the tensor [T] of shape [shape] held in a packed texture
    of shape [texShape]. *)
Definition inputSampler (name : string) (shape : Z * Z * Z) (texShape : Z * Z)
    (T : tensor3) (outside : ivec2 -> vec4) : option (Z -> Z -> Z -> vec4) :=
  generatedSampler (matrixInfo name shape texShape)
    (packedTexture T shape texShape outside).

(** [get] returns, at every position within [shape], the 2 x 2 block of [T]
    that holds the position. *)
Definition holdsBlocks (get : Z -> Z -> Z -> vec4) (shape : Z * Z * Z)
    (T : tensor3) : Prop :=
  forall b row col,
    0 <= b < dim0 shape -> 0 <= row < dim1 shape -> 0 <= col < dim2 shape ->
    get b row col = blockTexel T b row col.

(** The operands as the product sees them: [A] is stored as [batch, k, m]
    when [transposeA], [B] as [batch, n, k] when [transposeB]. *)
Definition operandA (transposeA : bool) (A : tensor3) : tensor3 :=
  fun b m k => if transposeA then A b k m else A b m k.
Definition operandB (transposeB : bool) (B : tensor3) : tensor3 :=
  fun b k n => if transposeB then B b n k else B b k n.

(** The naive triple-loop product: [C[b, i, j]] is the sum over [k] of
    [A[b, i, k] * B[b, k, j]]. *)
Definition naive (A B : tensor3) (K : Z) : tensor3 :=
  fun b i j => fold_left (fun acc k => acc + A b i k * B b k j) (range K) 0.

(** The texel of the packed output at packed row [m] and packed column [n]
    that the naive product gives. *)
Definition referenceTexel (transposeA transposeB : bool) (A B : tensor3)
    (K : Z) (b m n : Z) : vec4 :=
  blockTexel (naive (operandA transposeA A) (operandB transposeB B) K)
                b (2 * m) (2 * n).

(** The same sum taken texel by texel over the packed shared dimension, as
    the kernels take it. *)
Definition texelProduct (getMatrixA getMatrixB : Z -> Z -> Z -> vec4)
    (c : Common) (b m n : Z) : vec4 :=
  fold_left (macAt getMatrixA getMatrixB c b m n)
    (range (sharedDimensionPacked c)) (vec4_splat 0).

(** [sharedDim] of the constructors. *)
Definition sharedDimOf (aShape : Z * Z * Z) (transposeA : bool) : Z :=
  if transposeA then dim1 aShape else dim2 aShape.

Definition vec4_eqb (a b : vec4) : bool :=
  (vx a =? vx b) && (vy a =? vy b) && (vz a =? vz b) && (vw a =? vw b).

(** [getOutputCoords] of a packed rank-3 output whose texture has the shape
    of its matrices. *)
Definition outputCoords (outputShape : Z * Z * Z) : Z -> Z -> Z * Z * Z :=
  fun gx gy =>
    match ShaderCompiler.getOutputPacked3DCoordsCS
            [dim0 outputShape; dim1 outputShape; dim2 outputShape]
            (dim0 outputShape * dim1 outputShape, dim2 outputShape) (gx, gy)
    with
    | [b; r; c] => (b, r, c)
    | _ => (0, 0, 0)
    end.

(** The workgroups of a dispatch that covers the packed output with tiles of
    [TS] by [TS] texels. *)
Definition dispatch (outputShape : Z * Z * Z) (TS : Z) : list (Z * Z) :=
  threads (ceil_div (ceil_div (dim2 outputShape) 2) TS)
          (ceil_div (ceil_div (dim1 outputShape) 2) TS).

(** The packed positions of the output. *)
Definition outputTexels (outputShape : Z * Z * Z) : list (Z * Z) :=
  threads (ceil_div (dim2 outputShape) 2) (ceil_div (dim1 outputShape) 2).

(** The stores inside the output carry the reference's texels, and every
    texel of the output is stored. *)
Definition matches (ref : Z -> Z -> vec4) (outputShape : Z * Z * Z)
    (stores : list imageStore) : bool :=
  forallb (fun st : imageStore =>
             if in_outputb outputShape st
             then vec4_eqb (snd st) (ref (snd (fst st)) (fst (fst st)))
             else true) stores &&
  forallb (fun xy : Z * Z =>
             existsb (fun st : imageStore =>
                        (fst (fst st) =? fst xy) && (snd (fst st) =? snd xy))
                     stores)
          (outputTexels outputShape).

(** The values a kernel stores are the reference's texels plus [junk]. *)
Definition shifted (ref : Z -> Z -> vec4) (junk : vec4)
    (stores : list imageStore) : bool :=
  forallb (fun st : imageStore =>
             vec4_eqb (snd st)
                      (vec4_add junk (ref (snd (fst st)) (fst (fst st)))))
          stores.

(** Running the kernel of each class on a whole dispatch, without bias or
    activation.  [mem0] is what shared memory holds and [uninit] what the
    registers hold when the kernel starts. *)
Definition noBias : Z -> Z -> vec4 := fun _ _ => vec4_splat 0.
Definition noActivation : vec4 -> vec4 := fun v => v.

Definition outputs_CS (aShape outputShape : Z * Z * Z)
    (transposeA transposeB : bool) (TS : Z)
    (getMatrixA getMatrixB : Z -> Z -> Z -> vec4)
    (mem0 : shared * shared) : option (list imageStore) :=
  option_map
    (fun p =>
       flat_map (fun wg =>
                   cs_stores getMatrixA getMatrixB
                     (outputCoords outputShape) noBias noActivation wg
                     (userCode p) mem0)
                (dispatch outputShape TS))
    (returned (MatMulPackedProgramCS aShape outputShape transposeA transposeB
                 TS false None)).

Definition outputs_CSV2 (aShape outputShape : Z * Z * Z)
    (transposeA transposeB : bool) (TS WPT : Z)
    (getMatrixA getMatrixB : Z -> Z -> Z -> vec4)
    (mem0 : shared * shared) (uninit : Z * Z -> Z -> vec4)
    : option (list imageStore) :=
  option_map
    (fun p =>
       flat_map (fun wg =>
                   v2_stores getMatrixA getMatrixB
                     (outputCoords outputShape) wg (userCode p) mem0 uninit)
                (dispatch outputShape TS))
    (returned (MatMulPackedProgramCSV2 aShape outputShape transposeA transposeB
                 TS WPT false None)).

Definition outputs_CSV3 (aShape outputShape : Z * Z * Z)
    (transposeA transposeB : bool) (TS WPT : Z)
    (getMatrixA getMatrixB : Z -> Z -> Z -> vec4)
    (mem0 : shared * shared) (uninit : Z * Z -> regs)
    : option (list imageStore) :=
  option_map
    (fun p =>
       flat_map (fun wg =>
                   v3_stores getMatrixA getMatrixB
                     (outputCoords outputShape) noActivation wg (userCode p)
                     mem0 uninit)
                (dispatch outputShape TS))
    (returned (MatMulPackedProgramCSV3 aShape outputShape transposeA transposeB
                 TS WPT false None)).

Definition outputs_CSV4 (aShape outputShape : Z * Z * Z)
    (transposeA transposeB : bool) (TS TSK WPT : Z)
    (getMatrixA getMatrixB : Z -> Z -> Z -> vec4)
    (mem0 : shared * shared) (uninit : Z * Z -> regs)
    : option (list imageStore) :=
  option_map
    (fun p =>
       flat_map (fun wg =>
                   v4_stores getMatrixA getMatrixB
                     (outputCoords outputShape) noActivation wg (userCode p)
                     mem0 uninit)
                (dispatch outputShape TS))
    (returned (MatMulPackedProgramCSV4 aShape outputShape transposeA transposeB
                 TS TSK WPT false None)).

Definition check (ref : Z -> Z -> vec4) (outputShape : Z * Z * Z)
    (o : option (list imageStore)) : bool :=
  match o with
  | Some stores => matches ref outputShape stores
  | None => false
  end.

(** Two fixed inputs, a 4 x 8 output, tiles of 2 x 2 texels with two outputs
    per invocation and axis, and shared memory and registers that hold
    other values than 0 when the kernel starts. *)
Definition exampleA : tensor3 := fun b i k => 1 + i + 3 * k + i * k.
Definition exampleB : tensor3 := fun b k j => 2 + k - j + 2 * k * j.
Definition exampleOut : Z * Z * Z := (1, 4, 8).
Definition exampleAShape (transposeA : bool) (sharedDim : Z) : Z * Z * Z :=
  if transposeA then (1, sharedDim, 4) else (1, 4, sharedDim).
Definition staleMem : shared * shared :=
  (fun _ _ => vec4_splat 7, fun _ _ => vec4_splat 9).
Definition staleRegs : Z * Z -> regs :=
  fun _ => (fun _ => vec4_splat 5, fun _ _ => vec4_splat 1).
Definition staleResult : Z * Z -> Z -> vec4 := fun _ _ => vec4_splat 1.
Definition zeroResult : Z * Z -> Z -> vec4 := fun _ _ => vec4_splat 0.

(** The cases of the comparison: the four settings of the transposition
    flags, with a shared dimension the tile size divides (8, packed 4) and
    one it does not (6, packed 3). *)
Definition cases : list (bool * bool * Z) :=
  flat_map (fun tA => flat_map (fun tB => [(tA, tB, 8); (tA, tB, 6)])
                               [false; true])
           [false; true].

Definition exampleRef (cs : bool * bool * Z) : Z -> Z -> vec4 :=
  let '(tA, tB, sharedDim) := cs in
  referenceTexel tA tB exampleA exampleB sharedDim 0.

Definition exampleBShape (transposeB : bool) (sharedDim : Z) : Z * Z * Z :=
  if transposeB then (1, 8, sharedDim) else (1, sharedDim, 8).

(** A texture shape other than the matrix's own: two rows (one row of
    texels), long enough for all blocks of the matrix. *)
Definition rowTexture (shape : Z * Z * Z) : Z * Z :=
  (2, 2 * (ceil_div (dim1 shape) 2 * ceil_div (dim2 shape) 2)).

(** The texture shape that is the matrix's own shape. *)
Definition ownTexture (shape : Z * Z * Z) : Z * Z := (dim1 shape, dim2 shape).

(** What the comparison finds in one case, with [getMatrixA] and
    [getMatrixB] the generated functions of the two inputs, held in
    textures of shapes other than their own: the kernels of
    [MatMulPackedProgramCS], [MatMulPackedProgramCSV3] and
    [MatMulPackedProgramCSV4] give the naive product; the kernel of
    [MatMulPackedProgramCSV2] gives it when its registers start from 0, and
    gives the product plus what its registers held otherwise. *)
Definition comparison (cs : bool * bool * Z) : Prop :=
  let '(tA, tB, sharedDim) := cs in
  let aShape := exampleAShape tA sharedDim in
  let bShape := exampleBShape tB sharedDim in
  let ref := exampleRef cs in
  forall outsideA outsideB : ivec2 -> vec4,
    match inputSampler "matrixA" aShape (rowTexture aShape) exampleA outsideA,
          inputSampler "matrixB" bShape (rowTexture bShape) exampleB outsideB
    with
    | Some getMatrixA, Some getMatrixB =>
        check ref exampleOut
          (outputs_CS aShape exampleOut tA tB 2 getMatrixA getMatrixB
             staleMem) = true /\
        check ref exampleOut
          (outputs_CSV3 aShape exampleOut tA tB 2 2 getMatrixA getMatrixB
             staleMem staleRegs) = true /\
        check ref exampleOut
          (outputs_CSV4 aShape exampleOut tA tB 2 2 2 getMatrixA getMatrixB
             staleMem staleRegs) = true /\
        check ref exampleOut
          (outputs_CSV2 aShape exampleOut tA tB 2 2 getMatrixA getMatrixB
             staleMem zeroResult) = true /\
        check ref exampleOut
          (outputs_CSV2 aShape exampleOut tA tB 2 2 getMatrixA getMatrixB
             staleMem staleResult) = false /\
        option_map (shifted ref (vec4_splat 1))
          (outputs_CSV2 aShape exampleOut tA tB 2 2 getMatrixA getMatrixB
             staleMem staleResult) = Some true
    | _, _ => False
    end.

(** The values stored at the packed position [xy] of the output. *)
Definition storedAt (xy : Z * Z) (o : option (list imageStore))
    : option (list vec4) :=
  option_map
    (fun stores =>
       map snd
         (filter (fun st : imageStore =>
                    (fst (fst st) =? fst xy) && (snd (fst st) =? snd xy))
                 stores))
    o.

(** The same inputs in textures of the matrices' own shapes: a 2 x 2
    matrix [A] (one texel) and a 2 x 8 matrix [B] (a row of 4 texels), for a
    2 x 8 output.  The generated [getMatrixB], asked for the block at
    column 2, fetches the texel at column 2 of the texture, which holds the
    block at column 4; each of the four kernels stores at packed column 1
    of the output the product of [A] with that block, which is the texel
    of the naive product at packed column 2 and not the one at packed
    column 1.  (No fetch outside a texture takes part in these values.) *)
Definition sameShapeComparison : Prop :=
  let aShape := (1, 2, 2) in
  let bShape := (1, 2, 8) in
  let outShape := (1, 2, 8) in
  let ref := referenceTexel false false exampleA exampleB 2 0 0 in
  forall outsideA outsideB : ivec2 -> vec4,
    match inputSampler "matrixA" aShape (ownTexture aShape) exampleA outsideA,
          inputSampler "matrixB" bShape (ownTexture bShape) exampleB outsideB
    with
    | Some getMatrixA, Some getMatrixB =>
        getMatrixB 0 0 2 = blockTexel exampleB 0 0 4 /\
        blockTexel exampleB 0 0 4 <> blockTexel exampleB 0 0 2 /\
        ref 2 <> ref 1 /\
        storedAt (1, 0)
          (outputs_CS aShape outShape false false 2 getMatrixA getMatrixB
             zeroMem) = Some [ref 2] /\
        storedAt (1, 0)
          (outputs_CSV2 aShape outShape false false 2 2 getMatrixA getMatrixB
             zeroMem zeroResult) = Some [ref 2] /\
        storedAt (1, 0)
          (outputs_CSV3 aShape outShape false false 2 2 getMatrixA getMatrixB
             zeroMem zeroRegs) = Some [ref 2] /\
        storedAt (1, 0)
          (outputs_CSV4 aShape outShape false false 2 2 2 getMatrixA
             getMatrixB zeroMem zeroRegs) = Some [ref 2]
    | _, _ => False
    end.

(** A 4 x 5 matrix, its texture padded with 0 beyond column 4, and a
    texture outside of which a fetch returns 0. *)
Definition paddedA : tensor3 :=
  fun b i k => if k <? 5 then exampleA b i k else 0.
Definition zeroTexel : ivec2 -> vec4 := fun _ => vec4_splat 0.

End MatMulSpec.

(** ** Statements about single workgroups of the matmul kernels *)

Module KernelSpec.
Import JS GLSL MatMul MatMulSpec.

(** The invocations of the workgroup [wg], of [sizeX] by [sizeY]
    invocations, all get batch [b] from [getOutputCoords()]. *)
Definition sameBatch (getOutputCoords : Z -> Z -> Z * Z * Z) (wg : Z * Z)
    (sizeX sizeY b : Z) : Prop :=
  forall lx ly, 0 <= lx < sizeX -> 0 <= ly < sizeY ->
    dim0 (getOutputCoords (fst wg * sizeX + lx) (snd wg * sizeY + ly)) = b.

(** The product as a sum of texels: for the packed row [row] and the packed
    column [col] of the output, the sum over the positions [p] of the packed
    shared dimension of the swizzled product of the texel of [A] at
    [(row, p)] and the texel of [B] at [(p, col)], as the samplers
    [getMatrixA] and [getMatrixB] of the two inputs return them.  (Tile size
    and activation are no part of it.) *)
Definition product (getMatrixA getMatrixB : Z -> Z -> Z -> vec4)
    (aShape : Z * Z * Z) (transposeA transposeB : bool) (b row col : Z) : vec4 :=
  texelProduct getMatrixA getMatrixB
    (common aShape transposeA transposeB 1 None ""%string) b row col.

(** What the lines [result += getBiasAtOutCoords();] and
    [result = activation(result);] make of a value, when the constructor
    emitted them. *)
Definition finish (addBias : bool) (activation : option string)
    (bias : vec4) (act : vec4 -> vec4) (v : vec4) : vec4 :=
  let v := if addBias then vec4_add v bias else v in
  if truthy activation then act v else v.




(** A work item of the load loop of [MatMulPackedProgramCSV4]: the
    invocation [(tidn, tidm)] of the workgroup and the iteration [i] of its
    loop; and the cell [Asub[row][col]] the work item writes (it writes
    [Bsub[col][row]] too). *)
Definition loadItem (k : CodeCSV4) (x : Z * Z * Z) : Prop :=
  (0 <= fst (fst x) < v4_RTSN k /\ 0 <= snd (fst x) < v4_RTSM k) /\
  0 <= snd x < v4_LPTA k.

Definition loadCell (k : CodeCSV4) (x : Z * Z * Z) : Z * Z :=
  (loadId k x ÷ v4_TSK k, imod (loadId k x) (v4_TSK k)).

(** A 4 x 6 by 6 x 8 product in one batch, tiles of 2 x 2 texels, the
    workgroup at (1, 0), ReLU as the activation. *)
Definition relu (v : vec4) : vec4 :=
  mkVec4 (Z.max 0 (vx v)) (Z.max 0 (vy v)) (Z.max 0 (vz v)) (Z.max 0 (vw v)).
Definition exampleBias : Z -> Z -> vec4 := fun gx gy => mkVec4 gx gy (- gx) 1.

End KernelSpec.

(** ** The compute phase of the convolution kernels *)

Module ConvKernel.
Import JS GLSL Conv.

(** What an invocation does after the barrier: it returns at
    [if (int(gl_GlobalInvocationID.x) >= outChannels) return;], or it reads a
    cache cell that no iteration of the fill phase wrote (whose content is
    whatever shared memory held), or it ends in [setOutput(dotProd)]. *)
Inductive outcome : Type :=
| Discarded
| Unwritten
| SetOutput (dotProd : Z).

Definition finished (dotProd : option Z) : outcome :=
  match dotProd with Some v => SetOutput v | None => Unwritten end.

(** The values [d1] of a loop [for (int d1 = 0; d1 < n; d1 += 4)]. *)
Definition strided4 (n : Z) : list Z := map (fun i => 4 * i) (range (ceil_div n 4)).

Section Compute.
Variable getW : Z -> Z -> Z -> Z -> Z.
Variable first : ivec4.

(** **** Conv2DProgramCS *)

(** The channels of one filter tap:
    [for (int d1 = 0; d1 < inputDepthNearestVec4; d1 += 4) {
       vec4 xValues = vec4(cache[sR][sC + d1], ..., cache[sR][sC + d1 + 3]);
       vec4 wValues = vec4(getW(wR, wC, d1, d2), ..., getW(wR, wC, d1 + 3, d2));
       dotProd += dot(xValues, wValues); }
     if (inputDepthVec4Remainder === 1) {
       dotProd += cache[sR][sC + inputDepthNearestVec4]
                  * getW(wR, wC, inputDepthNearestVec4, d2);
     } else if (inputDepthVec4Remainder === 2) { ... dot of two ...
     } else if (inputDepthVec4Remainder === 3) { ... dot of three ... }] *)
Definition conv_channels (k : CodeConv) (m : cache) (sR sC wR wC d2 : Z)
    (dotProd : option Z) : option Z :=
  let n := k_inputDepthNearestVec4 k in
  let dotProd :=
    fold_left
      (fun dotProd d1 =>
         match dotProd, m sR (sC + d1), m sR (sC + d1 + 1),
               m sR (sC + d1 + 2), m sR (sC + d1 + 3) with
         | Some acc, Some x0, Some x1, Some x2, Some x3 =>
             Some (acc + (x0 * getW wR wC d1 d2 + x1 * getW wR wC (d1 + 1) d2
                          + x2 * getW wR wC (d1 + 2) d2
                          + x3 * getW wR wC (d1 + 3) d2))
         | _, _, _, _, _ => None
         end)
      (strided4 n) dotProd in
  if k_inputDepthVec4Remainder k =? 1 then
    match dotProd, m sR (sC + n) with
    | Some acc, Some x0 => Some (acc + x0 * getW wR wC n d2)
    | _, _ => None
    end
  else if k_inputDepthVec4Remainder k =? 2 then
    match dotProd, m sR (sC + n), m sR (sC + n + 1) with
    | Some acc, Some x0, Some x1 =>
        Some (acc + (x0 * getW wR wC n d2 + x1 * getW wR wC (n + 1) d2))
    | _, _, _ => None
    end
  else if k_inputDepthVec4Remainder k =? 3 then
    match dotProd, m sR (sC + n), m sR (sC + n + 1), m sR (sC + n + 2) with
    | Some acc, Some x0, Some x1, Some x2 =>
        Some (acc + (x0 * getW wR wC n d2 + x1 * getW wR wC (n + 1) d2
                     + x2 * getW wR wC (n + 2) d2))
    | _, _, _, _ => None
    end
  else dotProd.

(** The invocation [gl_GlobalInvocationID.x = gidx] whose
    [getOutputCoords()] is [coords], on the cache [m] the fill phase left:
    [float dotProd = 0.0;
     for (int wR = 0; wR < filterHeight; wR++) {
       int xR = xRCorner + wR * dilationHeight;
       if (xR < 0 || xR >= inHeight) continue;
       int sR = wR;
       for (int wC = 0; wC < filterWidth; wC++) {
         int xC = xCCorner + wC * dilationWidth;
         if (xC < 0 || xC >= inWidth) continue;
         int sC = (xC - cacheCCorner) * CACHE_C;
         <the channels> } }
     setOutput(dotProd);] *)
Definition conv_compute (k : CodeConv) (m : cache) (gidx : Z) (coords : ivec4)
    : outcome :=
  if gidx >=? k_outChannels k then Discarded
  else
    let cacheCCorner := c2 first * snd (strides k) - snd (pads k) in
    let d2 := c3 coords in
    let xRCorner := c1 coords * fst (strides k) - fst (pads k) in
    let xCCorner := c2 coords * snd (strides k) - snd (pads k) in
    finished
      (fold_left
         (fun dotProd wR =>
            let xR := xRCorner + wR * k_dilationHeight k in
            if (xR <? 0) || (xR >=? k_inHeight k) then dotProd
            else
              let sR := wR in
              fold_left
                (fun dotProd wC =>
                   let xC := xCCorner + wC * k_dilationWidth k in
                   if (xC <? 0) || (xC >=? k_inWidth k) then dotProd
                   else
                     let sC := (xC - cacheCCorner) * CACHE_C k in
                     conv_channels k m sR sC wR wC d2 dotProd)
                (range (k_filterWidth k)) dotProd)
         (range (k_filterHeight k)) (Some 0)).

(** **** DepthwiseConv2DProgramCS *)

(** [int d1 = d2 / channelMul;  int q = d2 - d1 * channelMul;
     for (int wR ...) {
       int xR = xRCorner + wR;
       if (xR < 0 || xR >= xNumRows) continue;
       int sR = xR - cacheRCorner;
       for (int wC ...) {
         int xC = xCCorner + wC * dilationWidth;
         if (xC < 0 || xC >= xNumCols) continue;
         int sC = (xC - cacheCCorner) * CACHE_C;
         float xVal = cache[sR][sC + d1 - cacheDCorner];
         float wVal = getW(wR, wC, d1, q);
         dotProd += xVal * wVal; } }
     setOutput(dotProd);] *)
Definition depthwise_compute (k : CodeDepthwise) (m : cache) (gidx : Z)
    (coords : ivec4) : outcome :=
  if gidx >=? d_outChannels k then Discarded
  else
    let cacheRCorner := c1 first * fst (d_strides k) - fst (d_pads k) in
    let cacheCCorner := c2 first * snd (d_strides k) - snd (d_pads k) in
    let cacheDCorner := c3 first ÷ d_channelMul k in
    let xRCorner := c1 coords * fst (d_strides k) - fst (d_pads k) in
    let xCCorner := c2 coords * snd (d_strides k) - snd (d_pads k) in
    let d2 := c3 coords in
    let d1 := d2 ÷ d_channelMul k in
    let q := d2 - d1 * d_channelMul k in
    finished
      (fold_left
         (fun dotProd wR =>
            let xR := xRCorner + wR in
            if (xR <? 0) || (xR >=? d_xNumRows k) then dotProd
            else
              let sR := xR - cacheRCorner in
              fold_left
                (fun dotProd wC =>
                   let xC := xCCorner + wC * d_dilationWidth k in
                   if (xC <? 0) || (xC >=? d_xNumCols k) then dotProd
                   else
                     let sC := (xC - cacheCCorner) * d_CACHE_C k in
                     match dotProd, m sR (sC + d1 - cacheDCorner) with
                     | Some acc, Some xVal => Some (acc + xVal * getW wR wC d1 q)
                     | _, _ => None
                     end)
                (range (d_filterWidth k)) dotProd)
         (range (d_filterHeight k)) (Some 0)).

End Compute.

(** *** The convolutions the kernels are meant to compute *)

Definition sumZ (f : Z -> Z) (l : list Z) : Z :=
  fold_left (fun acc x => acc + f x) l 0.

(** The input with zeros around it. *)
Definition padded (getX : Z -> Z -> Z -> Z -> Z) (info : Conv2DInfo)
    (b r c d : Z) : Z :=
  if (0 <=? r) && (r <? inHeight info) && (0 <=? c) && (c <? inWidth info)
  then getX b r c d else 0.

(** [y[b, yR, yC, d2]] is the sum over the filter taps [(wR, wC)] and the
    input channels [d1] of
    [x[b, yR * strideHeight - padTop + wR * dilationHeight,
          yC * strideWidth - padLeft + wC * dilationWidth, d1]
     * W[wR, wC, d1, d2]], the input being 0 outside its bounds. *)
Definition conv2d (getX getW : Z -> Z -> Z -> Z -> Z) (info : Conv2DInfo)
    (coords : ivec4) : Z :=
  let xRCorner := c1 coords * strideHeight info - top (padInfo info) in
  let xCCorner := c2 coords * strideWidth info - left (padInfo info) in
  sumZ (fun wR =>
          sumZ (fun wC =>
                  sumZ (fun d1 =>
                          padded getX info (c0 coords)
                            (xRCorner + wR * dilationHeight info)
                            (xCCorner + wC * dilationWidth info) d1
                          * getW wR wC d1 (c3 coords))
                       (range (inChannels info)))
               (range (filterWidth info)))
       (range (filterHeight info)).

(** The depthwise convolution: output channel [d2] takes input channel
    [d1 = d2 / channelMul] and filter [W[wR, wC, d1, d2 mod channelMul]]. *)
Definition depthwiseConv2d (getX getW : Z -> Z -> Z -> Z -> Z)
    (info : Conv2DInfo) (coords : ivec4) : Z :=
  let channelMul := outChannels info / inChannels info in
  let xRCorner := c1 coords * strideHeight info - top (padInfo info) in
  let xCCorner := c2 coords * strideWidth info - left (padInfo info) in
  let d1 := c3 coords / channelMul in
  let q := c3 coords mod channelMul in
  sumZ (fun wR =>
          sumZ (fun wC =>
                  padded getX info (c0 coords)
                    (xRCorner + wR * dilationHeight info)
                    (xCCorner + wC * dilationWidth info) d1
                  * getW wR wC d1 q)
               (range (filterWidth info)))
       (range (filterHeight info)).

(** The invocation with [getOutputCoords()] = [coords] belongs to the
    workgroup whose first invocation has the coordinates [first]: same
    batch and output row, at most [localGroupSize[1] - 1 = 6] output columns
    to the right. *)
Definition inWorkgroupRow (first coords : ivec4) : Prop :=
  c0 coords = c0 first /\ c1 coords = c1 first /\
  0 <= c2 coords - c2 first <= 6.

(** The input channel of the invocation is one of the 8 channels the cache
    of the depthwise kernel holds, counted from the input channel of the
    first invocation ([cacheDCorner]). *)
Definition inWorkgroupChannels (first coords : ivec4) (channelMul : Z) : Prop :=
  0 <= c3 coords /\
  c3 first ÷ channelMul <= c3 coords ÷ channelMul < c3 first ÷ channelMul + 8.

(** A 5 x 9 input of 6 channels, a 3 x 3 filter with dilation 2 and stride 1,
    padding 2, 4 output channels. *)
Definition exampleConv : Conv2DInfo :=
  {| outShape := (1, 5, 9, 4);
     padInfo := {| top := 2; left := 2 |};
     strideHeight := 1; strideWidth := 1;
     dilationHeight := 2; dilationWidth := 2;
     filterHeight := 3; filterWidth := 3;
     inChannels := 6; outChannels := 4;
     inHeight := 5; inWidth := 9 |}.
(** A 4 x 9 input of 10 channels, 2 output channels for each, a 2 x 3
    filter with column dilation 2, stride 2, padding 1. *)
Definition exampleDepthwise : Conv2DInfo :=
  {| outShape := (1, 2, 4, 20);
     padInfo := {| top := 1; left := 1 |};
     strideHeight := 2; strideWidth := 2;
     dilationHeight := 1; dilationWidth := 2;
     filterHeight := 2; filterWidth := 3;
     inChannels := 10; outChannels := 20;
     inHeight := 4; inWidth := 9 |}.
Definition exampleX : Z -> Z -> Z -> Z -> Z :=
  fun b r c d => 1 + r + 2 * c + 3 * d + r * c.
Definition exampleW : Z -> Z -> Z -> Z -> Z :=
  fun wR wC d1 d2 => 1 + wR - wC + d1 * d2.

End ConvKernel.

(** ** The 16 x 16 variant of [Conv2DProgramCS]: its cache *)

Module ConvBlock.
Import JS GLSL Conv.

Definition BLOCK_SIZE : Z := 16.

(** The numbers interpolated into the declaration of the cache and into
    the loads that precede the barrier:
    [const ivec2 strides = ivec2(strideHeight, strideWidth);
     const ivec2 pads = ivec2(padTop, padLeft);
     shared float cache[BLOCK_SIZE * strideHeight + 2]
       [(BLOCK_SIZE * strideHeight + 2) * inChannels];] *)
Record CodeBlock : Type := mkCodeBlock
  { b_strides : Z * Z;
    b_pads : Z * Z;
    cacheRows : Z;
    cacheCols : Z;
    b_inChannels : Z }.

Definition Conv2DProgramCS (convInfo : Conv2DInfo) : ConvProgram CodeBlock :=
  let padTop := top (padInfo convInfo) in
  let padLeft := left (padInfo convInfo) in
  {| variableNames := ["x"; "W"]%string;
     outputShape := outShape convInfo;
     localGroupSize := (16, 16);
     userCode :=
       {| b_strides := (strideHeight convInfo, strideWidth convInfo);
          b_pads := (padTop, padLeft);
          cacheRows := BLOCK_SIZE * strideHeight convInfo + 2;
          cacheCols := (BLOCK_SIZE * strideHeight convInfo + 2)
                       * inChannels convInfo;
          b_inChannels := inChannels convInfo |} |}.

(** One of the four blocks of assignments: for every channel [i],
    [cache[r][c * inChannels + i] = getX(batch, xR, xC, i);
     cache[r][(c + 1) * inChannels + i] = getX(batch, xR, xC + 1, i);
     cache[r + 1][c * inChannels + i] = getX(batch, xR + 1, xC, i);
     cache[r + 1][(c + 1) * inChannels + i] = getX(batch, xR + 1, xC + 1, i);]
    as the list of the cells written with the input positions read. *)
Definition patch (k : CodeBlock) (r c batch xR xC : Z) : list ((Z * Z) * ivec4) :=
  flat_map
    (fun i =>
       [ ((r, c * b_inChannels k + i), (batch, xR, xC, i));
         ((r, (c + 1) * b_inChannels k + i), (batch, xR, xC + 1, i));
         ((r + 1, c * b_inChannels k + i), (batch, xR + 1, xC, i));
         ((r + 1, (c + 1) * b_inChannels k + i), (batch, xR + 1, xC + 1, i)) ])
    (range (b_inChannels k)).

(** What the invocation [gl_LocalInvocationID.xy = lid] with
    [getOutputCoords()] = [coords] writes before the barrier:
    [int row = 2 * int(gl_LocalInvocationID.x);
     int col = 2 * int(gl_LocalInvocationID.y);
     <its own 2 x 2 patch at [row][col]>
     if (row == 0) { int sXR = xRCorner + BLOCK_SIZE * 2;
                     <the patch at [BLOCK_SIZE * 2][col]> }
     if (col == 0) { int sXC = xCCorner + BLOCK_SIZE * 2;
                     <the patch at [row][BLOCK_SIZE * 2]> }
     if (row == 0 && col == 0) { <the patch at [BLOCK_SIZE * 2][BLOCK_SIZE * 2]> }] *)
Definition fill_writes (k : CodeBlock) (lid : Z * Z) (coords : ivec4)
    : list ((Z * Z) * ivec4) :=
  let batch := c0 coords in
  let xRCorner := c1 coords * fst (b_strides k) - fst (b_pads k) in
  let xCCorner := c2 coords * snd (b_strides k) - snd (b_pads k) in
  let row := 2 * fst lid in
  let col := 2 * snd lid in
  patch k row col batch xRCorner xCCorner
  ++ (if row =? 0 then
        let sXR := xRCorner + BLOCK_SIZE * 2 in
        patch k (BLOCK_SIZE * 2) col batch sXR xCCorner
      else [])
  ++ (if col =? 0 then
        let sXC := xCCorner + BLOCK_SIZE * 2 in
        patch k row (BLOCK_SIZE * 2) batch xRCorner sXC
      else [])
  ++ (if (row =? 0) && (col =? 0) then
        let sXR := xRCorner + BLOCK_SIZE * 2 in
        let sXC := xCCorner + BLOCK_SIZE * 2 in
        patch k (BLOCK_SIZE * 2) (BLOCK_SIZE * 2) batch sXR sXC
      else []).

(** A cell of the declared array. *)
Definition inCache (k : CodeBlock) (cell : Z * Z) : Prop :=
  0 <= fst cell < cacheRows k /\ 0 <= snd cell < cacheCols k.

(** Every write of every invocation of a workgroup is to a cell of the
    declared array. *)
Definition writesInsideCache (k : CodeBlock) : Prop :=
  forall lx ly coords,
    0 <= lx < 16 -> 0 <= ly < 16 ->
    Forall (fun w => inCache k (fst w)) (fill_writes k (lx, ly) coords).

End ConvBlock.

(** ** Assembling a shader: [makeShader] and [makeCSShader] *)

Module Shader.
Import JS GLSL Util ShaderCompiler.


(** The lines of [inputPrefixSnippet], before [join]:
    [if (x.shapeInfo.isUniform)
       prefixSnippets.push(`uniform float ${x.name}${size > 1 ? `[${size}]` : ''};`);
     else {
       prefixSnippets.push(`uniform sampler2D ${x.name};`);
       prefixSnippets.push(`uniform int offset${x.name};`); }] *)
Definition inputPrefixSnippet (inputsInfo : list InputInfo) : list string :=
  flat_map
    (fun x =>
       let size := sizeFromShape (logicalShape (shapeInfo x)) in
       if isUniform (shapeInfo x) then
         [("uniform float " ++ name x
           ++ (if (1 <? size)%Z then "[" ++ show_nat (Z.to_nat size) ++ "]"
               else EmptyString)
           ++ ";")%string]
       else
         [("uniform sampler2D " ++ name x ++ ";")%string;
          ("uniform int offset" ++ name x ++ ";")%string])
    inputsInfo.

(** [inputsInfo.map(x => f(x))]: the calls are made in the order of the
    inputs, and the first one that throws ends the map. *)
Fixpoint mapInputs {A} (f : InputInfo -> option (run A))
    (inputsInfo : list InputInfo) : option (run (list A)) :=
  match inputsInfo with
  | [] => Some (ret [])
  | x :: rest =>
      match f x with
      | None => None
      | Some r =>
          match result r with
          | Thrown msg => Some (mkRun (console r) (Thrown msg))
          | Returned _ =>
              match mapInputs f rest with
              | None => None
              | Some rs =>
                  Some (bind r (fun a => bind rs (fun l => ret (a :: l))))
              end
          end
      end
  end.

(** The constant texts of the prefix are recorded by what selects them:
    the image format handed to [getShaderPrefixCS] ([None] for
    [getShaderPrefix], which takes none), whether [SHADER_PACKED_PREFIX] is
    appended, and which of the two [setOutput] snippets is taken. *)
Inductive imageFormat : Type := rgba32f | r32f.
Inductive setOutputSnippet : Type := FloatTextureSetRGBA | FloatTextureSetR.

(** The parts of [source], in the order they are joined. *)
Record source (I O Code : Type) : Type := mkSource
  { shaderPrefix : option imageFormat * bool;
    floatTextureSetOutputSnippet : setOutputSnippet;
    inputPrefix : list string;
    outputSamplingSnippet : O;
    inputSamplingSnippet : list (I * option accessor);
    code : Code }.
Arguments mkSource {I O Code}.

Definition makeShader {Code} (inputsInfo : list InputInfo) (outputShape : ShapeInfo)
    (userCode : Code) (usesPackedTextures : bool)
    : option (run (source snippet snippet Code)) :=
  let inputPrefixSnippet := inputPrefixSnippet inputsInfo in
  match mapInputs
          (fun x => getInputSamplingSnippet x outputShape usesPackedTextures)
          inputsInfo with
  | None => None
  | Some inputs =>
      Some (bind inputs (fun inputSamplingSnippet =>
        let outTexShape := texShape outputShape in
        bind (if isPacked outputShape
              then getPackedOutputSamplingSnippet (logicalShape outputShape)
                     outTexShape
              else getOutputSamplingSnippet (logicalShape outputShape)
                     outTexShape)
          (fun outputSamplingSnippet =>
             ret {| shaderPrefix := (None, usesPackedTextures);
                    floatTextureSetOutputSnippet :=
                      if isPacked outputShape then FloatTextureSetRGBA
                      else FloatTextureSetR;
                    inputPrefix := inputPrefixSnippet;
                    outputSamplingSnippet := outputSamplingSnippet;
                    inputSamplingSnippet := inputSamplingSnippet;
                    code := userCode |})))
  end.

Definition makeCSShader {Code}
    (UVfrom3D : Z -> Z -> Z -> Z -> Z -> Z -> Z -> ivec2)
    (UVfrom4D : Z -> Z -> Z -> Z -> Z -> Z -> Z -> Z -> Z -> ivec2)
    (inputsInfo : list InputInfo) (outputShape : ShapeInfo)
    (userCode : Code) (usesPackedTextures : bool)
    : option (run (source samplerFn outputSnippet Code)) :=
  let inputPrefixSnippet := inputPrefixSnippet inputsInfo in
  match mapInputs
          (fun x => getInputSamplingSnippetCS UVfrom3D UVfrom4D x outputShape
                      usesPackedTextures)
          inputsInfo with
  | None => None
  | Some inputs =>
      Some (bind inputs (fun inputSamplingSnippet =>
        let outTexShape := texShape outputShape in
        bind (if isPacked outputShape
              then bind (getPackedOutputSamplingSnippetCS
                           (logicalShape outputShape) outTexShape)
                        (fun d => ret (Indexed d))
              else getOutputSamplingSnippetCS (logicalShape outputShape)
                     outTexShape)
          (fun outputSamplingSnippet =>
             ret {| shaderPrefix :=
                      (Some (if isPacked outputShape then rgba32f else r32f),
                       usesPackedTextures);
                    floatTextureSetOutputSnippet :=
                      if isPacked outputShape then FloatTextureSetRGBA
                      else FloatTextureSetR;
                    inputPrefix := inputPrefixSnippet;
                    outputSamplingSnippet := outputSamplingSnippet;
                    inputSamplingSnippet := inputSamplingSnippet;
                    code := userCode |})))
  end.

(** *** Which programs the two functions assemble *)

(** The accessor [get<Name>AtOutCoords] is generated for an input whose
    rank does not exceed the output's. *)
Definition hasAccessor (x : InputInfo) (outputShape : ShapeInfo) : bool :=
  (rankOf x <=? List.length (logicalShape outputShape))%nat.

(** The output rank has a coordinate type ([getCoordsDataType]). *)
Definition hasCoordsType (outputShape : ShapeInfo) : bool :=
  (List.length (logicalShape outputShape) <=? 6)%nat.

Definition inputAcceptedCS (outputShape : ShapeInfo) (usesPackedTextures : bool)
    (x : InputInfo) : bool :=
  if usesPackedTextures
  then negb (hasAccessor x outputShape) || hasCoordsType outputShape
  else (rankOf x <=? 4)%nat.

Definition inputAccepted (outputShape : ShapeInfo) (usesPackedTextures : bool)
    (x : InputInfo) : bool :=
  if usesPackedTextures
  then negb (hasAccessor x outputShape) || hasCoordsType outputShape
  else (rankOf x <=? 6)%nat &&
       (negb (hasAccessor x outputShape) || sameTexel x outputShape
        || hasCoordsType outputShape).

Definition outputAccepted (outputShape : ShapeInfo) : bool :=
  isPacked outputShape || hasCoordsType outputShape.

(** *** What the packed accessor returns *)

(** The [return] of the packed accessor, applied to [outputValue]. *)
Definition runOutputExpr (o : outputExpr) (outputValue : vec4) : vec4 :=
  match o with
  | OutSwizzle sw => swz outputValue sw
  | OutXX00 => mkVec4 (vx outputValue) (vx outputValue) 0 0
  end.

(** [vec4 get<Name>AtOutCoords() {
       <type> coords = getOutputCoords();
       <coordsSnippet>
       vec4 outputValue = get<Name>(<unpackedCoordsSnippet>);
       <output> }]
    for the value [coords] of [getOutputCoords()], [getName] being the
    meaning of [get<Name>]. *)
Definition runAccessor (a : accessor) (getName : list Z -> vec4)
    (coords : list Z) : option vec4 :=
  match a with
  | ViaSampler zeroing args output =>
      Some (runOutputExpr output
              (getName (runArgsSnippet args (runCoordsSnippet zeroing coords))))
  | _ => None
  end.

(** The last two components [(row, col)] of a coordinate. *)
Definition innerDims (coords : list Z) : Z * Z :=
  (nth (List.length coords - 2) coords 0, nth (List.length coords - 1) coords 0).

(** [getName] reads a packed texture that holds the tensor [A] of shape
    [shape]: the texel it returns is that of the 2 x 2 block of its
    arguments, and for arguments within the shape the channel [getChannel]
    selects is the element of [A] there. *)
Definition holdsPacked (getName : list Z -> vec4) (shape : list Z)
    (A : list Z -> Z) : Prop :=
  forall args, inBounds shape args ->
    getName (blockOrigin args) = getName args /\
    getChannel (getName args) (innerDims args) = A args.

(** The same for a packed vector, whose texels hold two consecutive
    elements that [getChannel(frag, dim)] tells apart. *)
Definition holdsPackedVector (getName : list Z -> vec4) (shape : list Z)
    (A : list Z -> Z) : Prop :=
  forall args, inBounds shape args ->
    getName (blockOrigin args) = getName args /\
    getChannel1 (getName args) (nth 0 args 0) = A args.

(** Every axis of the input has size 1 or the size of the output axis it
    lines up with from the right. *)
Definition broadcastable (inShape outShape : list Z) : Prop :=
  forall i, (i < List.length inShape)%nat ->
    nth i inShape 1 = 1 \/
    nth i inShape 1
    = nth (i + (List.length outShape - List.length inShape)) outShape 1.

(** A packed row vector [1, 3] read for a packed 2 x 3 output; the texel of
    the block at column [c] holds [10 + c] and [11 + c] in its first row
    and -1 as padding. *)
Definition packedRow : InputInfo :=
  {| name := "bias";
     shapeInfo := {| logicalShape := [1; 3]; texShape := (1, 2);
                     isUniform := false; isPacked := true;
                     flatOffset := None |} |}.
Definition packedOutput : ShapeInfo :=
  {| logicalShape := [2; 3]; texShape := (1, 2);
     isUniform := false; isPacked := true; flatOffset := None |}.
Definition getPackedRow (args : list Z) : vec4 :=
  let c := 2 * (nth 1 args 0 / 2) in mkVec4 (10 + c) (11 + c) (-1) (-1).
Definition packedRowValues (args : list Z) : Z := 10 + nth 1 args 0.

(** A packed bias vector of length 3 for the packed 2 x 3 output. *)
Definition packedBias : InputInfo :=
  {| name := "bias";
     shapeInfo := {| logicalShape := [3]; texShape := (1, 2);
                     isUniform := false; isPacked := true;
                     flatOffset := None |} |}.
Definition getPackedBias (args : list Z) : vec4 :=
  let c := 2 * (nth 0 args 0 / 2) in mkVec4 (10 + c) (11 + c) (-1) (-1).
Definition packedBiasValues (args : list Z) : Z := 10 + nth 0 args 0.


End Shader.

(** * Properties *)

Import GLSL.

Lemma wrap_small (z : Z) : is_int z -> wrap z = z.
Proof.
  unfold is_int, int_min, int_max, wrap. intros H.
  rewrite Z.mod_small; lia.
Qed.

Lemma imod_nonneg_eq (x y : Z) : 0 <= x -> 0 < y -> imod x y = x mod y.
Proof.
  intros Hx Hy. unfold imod.
  rewrite Z.quot_div_nonneg by lia.
  rewrite Z.mod_eq by lia. reflexivity.
Qed.

Lemma imod_is_rem (x y : Z) : y <> 0 -> imod x y = Z.rem x y.
Proof.
  intros Hy. unfold imod.
  pose proof (Z.quot_rem' x y). lia.
Qed.

Lemma rem_sign_bound (x y : Z) :
  0 < y ->
  (0 <= x -> 0 <= Z.rem x y < y) /\ (x <= 0 -> - y < Z.rem x y <= 0).
Proof.
  intros Hy. split; intros Hx.
  - apply Z.rem_bound_pos; lia.
  - pose proof (Z.rem_bound_pos (- x) y ltac:(lia) Hy) as Hb.
    rewrite Z.rem_opp_l in Hb by lia. lia.
Qed.

Lemma quot_sign_bound (x y : Z) :
  0 < y ->
  (0 <= x -> 0 <= x ÷ y <= x) /\ (x <= 0 -> x <= x ÷ y <= 0).
Proof.
  intros Hy.
  assert (P : forall a, 0 <= a -> 0 <= a ÷ y <= a).
  { intros a Ha. split.
    - apply Z.quot_pos; lia.
    - apply Z.quot_le_upper_bound; nia. }
  split; intros Hx.
  - apply P; assumption.
  - pose proof (P (- x) ltac:(lia)) as Hb.
    rewrite Z.quot_opp_l in Hb by lia. lia.
Qed.

(** C10. For [x >= 0] and [y > 0] the emitted [imod(x, y)] is the
    mathematical remainder [x mod y] and lies in [[0, y)]; for [x < 0] it is
    a non-positive value in [(-y, 0]].  On 32-bit integers the helper
    computes the same value. *)
Theorem C10_imod_sign_and_range :
  forall x y : Z, 0 < y ->
    (0 <= x -> imod x y = x mod y /\ 0 <= imod x y < y) /\
    (x < 0 -> - y < imod x y <= 0) /\
    (is_int x -> is_int y -> imod32 x y = imod x y).
Proof.
  intros x y Hy.
  destruct (rem_sign_bound x y Hy) as [Rpos Rneg].
  destruct (quot_sign_bound x y Hy) as [Qpos Qneg].
  pose proof (Z.quot_rem' x y) as E.
  split; [| split].
  - intros Hx. rewrite imod_nonneg_eq by assumption.
    split; [reflexivity | apply Z.mod_pos_bound; assumption].
  - intros Hx. rewrite imod_is_rem by lia. apply Rneg; lia.
  - unfold imod32, imod, is_int, int_min, int_max. intros Ix Iy.
    assert (Hq : is_int (x ÷ y)).
    { unfold is_int, int_min, int_max.
      destruct (Z_le_gt_dec 0 x); [specialize (Qpos ltac:(lia)) | specialize (Qneg ltac:(lia))]; lia. }
    rewrite (wrap_small _ Hq).
    assert (Hm : is_int (y * (x ÷ y))).
    { unfold is_int, int_min, int_max.
      destruct (Z_le_gt_dec 0 x);
        [specialize (Rpos ltac:(lia)) | specialize (Rneg ltac:(lia))]; lia. }
    rewrite (wrap_small _ Hm).
    apply wrap_small. unfold is_int, int_min, int_max.
    destruct (Z_le_gt_dec 0 x);
      [specialize (Rpos ltac:(lia)) | specialize (Rneg ltac:(lia))]; lia.
Qed.

Lemma C10_imod_sign_and_range_witness :
  (imod 7 3 = 7 mod 3 /\ 0 <= imod 7 3 < 3) /\
  (- 3 < imod (-7) 3 <= 0) /\
  imod32 (-7) 3 = imod (-7) 3.
Proof.
  split; [| split].
  - apply (C10_imod_sign_and_range 7 3); lia.
  - apply (C10_imod_sign_and_range (-7) 3); lia.
  - apply (C10_imod_sign_and_range (-7) 3);
      unfold is_int, int_min, int_max; lia.
Defined.

(** ** Loops over [range] *)

Lemma range_0 : range 0 = [].
Proof. reflexivity. Qed.

Lemma range_nonpos (n : Z) : n <= 0 -> range n = [].
Proof.
  intros H. unfold range. destruct n; try reflexivity. lia.
Qed.

Lemma range_succ (n : Z) : 0 <= n -> range (n + 1) = range n ++ [n].
Proof.
  intros H. unfold range.
  replace (Z.to_nat (n + 1)) with (S (Z.to_nat n)) by lia.
  rewrite seq_S, map_app. simpl. rewrite Z2Nat.id by lia. reflexivity.
Qed.

Lemma In_range (n i : Z) : In i (range n) <-> 0 <= i < n.
Proof.
  unfold range. rewrite in_map_iff. split.
  - intros [k [<- Hk]]. apply in_seq in Hk. lia.
  - intros H. exists (Z.to_nat i). split; [lia |]. apply in_seq. lia.
Qed.

Lemma range_app (a b : Z) :
  0 <= a -> 0 <= b -> range (a + b) = range a ++ map (Z.add a) (range b).
Proof.
  intros Ha Hb. revert b Hb.
  apply natlike_ind.
  - rewrite Z.add_0_r, range_0. simpl. rewrite app_nil_r. reflexivity.
  - intros b Hb IH. unfold Z.succ.
    rewrite Z.add_assoc, range_succ by lia.
    rewrite (range_succ b) by lia.
    rewrite IH, map_app, app_assoc. reflexivity.
Qed.

Lemma flat_map_ext_In {A B} (f g : A -> list B) (l : list A) :
  (forall a, In a l -> f a = g a) -> flat_map f l = flat_map g l.
Proof.
  induction l as [| a l IH]; intros H; simpl.
  - reflexivity.
  - rewrite (H a) by (left; reflexivity).
    rewrite IH; [reflexivity |]. intros b Hb. apply H. right. exact Hb.
Qed.

Lemma full_tiles (K n : Z) :
  0 <= K -> 0 <= n ->
  flat_map (fun t => map (fun i => K * t + i) (range K)) (range n) = range (n * K).
Proof.
  intros HK. revert n. apply natlike_ind.
  - reflexivity.
  - intros n Hn IH. unfold Z.succ.
    rewrite range_succ by lia. rewrite flat_map_app, IH. simpl.
    rewrite app_nil_r.
    replace ((n + 1) * K) with (n * K + K) by lia.
    rewrite range_app by nia.
    f_equal. apply map_ext. intros i. lia.
Qed.

(** ** Tiles of the shared dimension *)

Import JS MatMul MatMulSpec.

Lemma ceil_div_spec (a b : Z) :
  0 < b -> (ceil_div a b - 1) * b < a <= ceil_div a b * b.
Proof.
  intros Hb. unfold ceil_div.
  pose proof (Z.div_mod (- a) b ltac:(lia)) as E.
  pose proof (Z.mod_pos_bound (- a) b Hb) as Hm.
  nia.
Qed.

Lemma ceil_div_cases (a b : Z) :
  0 < b ->
  (a mod b = 0 /\ ceil_div a b = a / b) \/
  (a mod b <> 0 /\ ceil_div a b = a / b + 1).
Proof.
  intros Hb. pose proof (ceil_div_spec a b Hb) as Hc.
  pose proof (Z.div_mod a b ltac:(lia)) as E.
  pose proof (Z.mod_pos_bound a b Hb) as Hm.
  destruct (Z.eq_dec (a mod b) 0) as [H0 | H0]; [left | right];
    (split; [assumption | nia]).
Qed.

Lemma common_tiles_ok aShape (transposeA transposeB : bool) tileK activation applyText :
  0 < tileK ->
  0 <= (if transposeA then dim1 aShape else dim2 aShape) ->
  tiles_ok (common aShape transposeA transposeB tileK activation applyText) tileK.
Proof.
  intros HK Hdim.
  set (c := common aShape transposeA transposeB tileK activation applyText).
  set (sdp := sharedDimensionPacked c).
  assert (Hsdp : 0 <= sdp).
  { subst sdp c. simpl.
    pose proof (ceil_div_spec (if transposeA then dim1 aShape else dim2 aShape) 2
                  ltac:(lia)). lia. }
  assert (Hn : numTiles c = ceil_div sdp tileK) by reflexivity.
  assert (Hr : remainder c = sdp mod tileK).
  { subst sdp c. simpl. unfold rem. apply Z.rem_mod_nonneg; [exact Hsdp | lia]. }
  assert (Hacc : accumulated c tileK = range sdp).
  { unfold accumulated.
    pose proof (Z.div_mod sdp tileK ltac:(lia)) as E.
    pose proof (Z.mod_pos_bound sdp tileK HK) as Hm.
    assert (Hq : 0 <= sdp / tileK) by (apply Z.div_pos; lia).
    destruct (ceil_div_cases sdp tileK HK) as [[H0 Hc] | [H0 Hc]].
    - rewrite (flat_map_ext_In _ (fun t => map (fun i => tileK * t + i) (range tileK))).
      + rewrite Hn, Hc, full_tiles by lia. f_equal. lia.
      + intros t _. unfold sizeTS. rewrite Hr, H0. simpl.
        rewrite andb_false_r. reflexivity.
    - rewrite Hn, Hc, range_succ, flat_map_app by lia.
      rewrite (flat_map_ext_In _ (fun t => map (fun i => tileK * t + i) (range tileK))).
      + rewrite full_tiles by lia. simpl. rewrite app_nil_r.
        unfold sizeTS. rewrite Hn, Hc, Hr.
        replace (sdp / tileK + 1 - 1) with (sdp / tileK) by lia.
        rewrite Z.eqb_refl. simpl.
        destruct (Z.eqb_spec (sdp mod tileK) 0) as [Hz | Hz]; [contradiction |].
        simpl.
        replace sdp with (sdp / tileK * tileK + sdp mod tileK) at 3 by lia.
        rewrite range_app by nia.
        f_equal. apply map_ext. intros i. lia.
      + intros t Ht. apply In_range in Ht. unfold sizeTS.
        rewrite Hn, Hc.
        destruct (Z.eqb_spec t (sdp / tileK + 1 - 1)) as [Ht' | Ht']; [lia |].
        reflexivity. }
  unfold tiles_ok. fold sdp. split; [| split; [| split]].
  - rewrite Hn. apply ceil_div_spec. exact HK.
  - intros t Ht. unfold sizeTS. rewrite Hr. reflexivity.
  - exact Hacc.
  - intros p Hp. rewrite Hacc in Hp. apply In_range in Hp. exact Hp.
Qed.

(** ** Bias requests *)

(** C2, as stated, fails: with [addBias = true] none of
    [MatMulPackedProgramCSV2], [MatMulPackedProgramCSV3] and
    [MatMulPackedProgramCSV4] throws; each returns a descriptor. *)
Lemma C2_bias_request_not_rejected :
  ~ rejects (MatMulPackedProgramCSV2 (1, 4, 4) (1, 4, 4) false false 2 2 true None) /\
  ~ rejects (MatMulPackedProgramCSV3 (1, 4, 4) (1, 4, 4) false false 2 2 true None) /\
  ~ rejects (MatMulPackedProgramCSV4 (1, 4, 4) (1, 4, 4) false false 2 2 2 true None).
Proof.
  unfold rejects. repeat split; intros H; vm_compute in H; discriminate H.
Qed.

(** C2, amended.  No matmul constructor throws on [addBias = true].
    [MatMulPackedProgramCS] and [MatMulPackedProgramCSV2] take the request:
    they log nothing and return a descriptor whose inputs are
    [matrixA, matrixB, bias] and whose body has the line
    [result += getBiasAtOutCoords();].  [MatMulPackedProgramCSV3] and
    [MatMulPackedProgramCSV4] write [bias is not supported] to the error
    console and return exactly the descriptor they return for
    [addBias = false]. *)
Theorem C2_bias_request_outcome :
  forall aShape outputShape transposeA transposeB TS TSK WPT activation,
    (let r := MatMulPackedProgramCS aShape outputShape transposeA transposeB
                TS true activation in
     console r = [] /\
     exists p, result r = Returned p /\
       variableNames p = ["matrixA"; "matrixB"; "bias"]%string /\
       cs_addBiasSnippet (userCode p) = "result += getBiasAtOutCoords();"%string) /\
    (let r := MatMulPackedProgramCSV2 aShape outputShape transposeA transposeB
                TS WPT true activation in
     console r = [] /\
     exists p, result r = Returned p /\
       variableNames p = ["matrixA"; "matrixB"; "bias"]%string /\
       v2_addBiasSnippet (userCode p) = "result += getBiasAtOutCoords();"%string) /\
    (let r := MatMulPackedProgramCSV3 aShape outputShape transposeA transposeB
                TS WPT true activation in
     console r = ["bias is not supported"]%string /\
     result r = result (MatMulPackedProgramCSV3 aShape outputShape transposeA
                          transposeB TS WPT false activation) /\
     exists p, result r = Returned p /\
       variableNames p = ["matrixA"; "matrixB"]%string) /\
    (let r := MatMulPackedProgramCSV4 aShape outputShape transposeA transposeB
                TS TSK WPT true activation in
     console r = ["bias is not supported"]%string /\
     result r = result (MatMulPackedProgramCSV4 aShape outputShape transposeA
                          transposeB TS TSK WPT false activation) /\
     exists p, result r = Returned p /\
       variableNames p = ["matrixA"; "matrixB"]%string).
Proof.
  intros. repeat split; try reflexivity; eexists; repeat split; reflexivity.
Qed.

(** ** The final stores *)

Lemma block_stores_guarded act c WPTM WPTN RTSM RTSN outRows outCols gR gC acc :
  Forall (fun st : imageStore => fst (fst st) < outCols /\ snd (fst st) < outRows)
    (block_stores act c WPTM WPTN RTSM RTSN outRows outCols gR gC acc).
Proof.
  unfold block_stores. apply Forall_flat_map. apply Forall_forall. intros wm _.
  destruct (Z.geb_spec (gR + wm * RTSM) outRows) as [Hr | Hr]; [constructor |].
  apply Forall_flat_map. apply Forall_forall. intros wn _.
  destruct (Z.geb_spec (gC + wn * RTSN) outCols) as [Hc | Hc]; constructor.
  - simpl. lia.
  - constructor.
Qed.

(** C8, as stated, fails: [MatMulPackedProgramCS] and
    [MatMulPackedProgramCSV2] for a 2 x 2 output (one packed texel) with
    [TS = 2] store at packed position (1, 1), outside the packed output. *)
Lemma C8_unguarded_stores_in_CS_and_CSV2 :
  (exists p,
     returned (MatMulPackedProgramCS (1, 2, 2) (1, 2, 2) false false 2 false None)
       = Some p /\
     In (1, 1)
        (map fst (cs_stores zeroSampler zeroSampler batch0
                    (fun _ _ => vec4_splat 0) (fun v => v) (0, 0)
                    (userCode p) zeroMem)) /\
     existsb (fun st => negb (in_outputb (outputShape p) st))
       (cs_stores zeroSampler zeroSampler batch0 (fun _ _ => vec4_splat 0)
          (fun v => v) (0, 0) (userCode p) zeroMem) = true) /\
  (exists p,
     returned (MatMulPackedProgramCSV2 (1, 2, 2) (1, 2, 2) false false 2 1
                 false None) = Some p /\
     In (1, 1)
        (map fst (v2_stores zeroSampler zeroSampler batch0 (0, 0)
                    (userCode p) zeroMem (fun _ _ => vec4_splat 0))) /\
     existsb (fun st => negb (in_outputb (outputShape p) st))
       (v2_stores zeroSampler zeroSampler batch0 (0, 0) (userCode p)
          zeroMem (fun _ _ => vec4_splat 0)) = true).
Proof.
  split; eexists; (split; [reflexivity |]); split;
    vm_compute; try reflexivity; tauto.
Qed.

(** C8, amended.  In [MatMulPackedProgramCSV3] and [MatMulPackedProgramCSV4]
    every store of every invocation lies inside the packed output: a value
    computed for a packed row at or beyond [ceil(outputShape[1] / 2)] or a
    packed column at or beyond [ceil(outputShape[2] / 2)] is not stored.
    [MatMulPackedProgramCS] and [MatMulPackedProgramCSV2] have no such
    guard: in [MatMulPackedProgramCS] each invocation stores once, through
    [setOutput], at its own [gl_GlobalInvocationID.xy]; in
    [MatMulPackedProgramCSV2] each invocation stores all its [WPT] values,
    at column [globalCol] and rows [globalRow + w * RTS] for every
    [w < WPT], wherever these lie. *)
Theorem C8_store_guard :
  forall getMatrixA getMatrixB getOutputCoords getBiasAtOutCoords activationFn
         wg mem0 uninit uninitV2
         aShape outputShape transposeA transposeB TS TSK WPT addBias activation,
    match returned (MatMulPackedProgramCSV3 aShape outputShape transposeA
                      transposeB TS WPT addBias activation) with
    | Some p =>
        Forall (in_output outputShape)
          (v3_stores getMatrixA getMatrixB getOutputCoords activationFn wg
             (userCode p) mem0 uninit)
    | None => False
    end /\
    match returned (MatMulPackedProgramCSV4 aShape outputShape transposeA
                      transposeB TS TSK WPT addBias activation) with
    | Some p =>
        Forall (in_output outputShape)
          (v4_stores getMatrixA getMatrixB getOutputCoords activationFn wg
             (userCode p) mem0 uninit)
    | None => False
    end /\
    match returned (MatMulPackedProgramCS aShape outputShape transposeA
                      transposeB TS addBias activation) with
    | Some p =>
        map fst (cs_stores getMatrixA getMatrixB getOutputCoords
                   getBiasAtOutCoords activationFn wg (userCode p) mem0)
        = map (fun th => (fst wg * TS + fst th, snd wg * TS + snd th))
              (threads TS TS)
    | None => False
    end /\
    match returned (MatMulPackedProgramCSV2 aShape outputShape transposeA
                      transposeB TS WPT addBias activation) with
    | Some p =>
        map fst (v2_stores getMatrixA getMatrixB getOutputCoords wg
                   (userCode p) mem0 uninitV2)
        = flat_map
            (fun th =>
               map (fun w => (TS * fst wg + fst th,
                              TS * snd wg + snd th + w * (TS / WPT)))
                   (range WPT))
            (threads TS (TS / WPT))
    | None => False
    end.
Proof.
  intros. split; [| split; [| split]].
  - destruct addBias; simpl; unfold v3_stores;
      apply Forall_flat_map, Forall_forall; intros [lx ly] _;
      apply block_stores_guarded.
  - destruct addBias; simpl; unfold v4_stores;
      apply Forall_flat_map, Forall_forall; intros [lx ly] _;
      apply block_stores_guarded.
  - simpl. unfold cs_stores. rewrite map_map. apply map_ext.
    intros [lx ly]. reflexivity.
  - simpl. unfold v2_stores. cbn [v2_TS v2_RTS v2_WPT].
    generalize (threads TS (TS / WPT)). intros l.
    induction l as [| [lx ly] l IH]; [reflexivity |].
    cbn [flat_map]. rewrite map_app.
    f_equal; [rewrite map_map; reflexivity | exact IH].
Qed.

(** ** The 2 x 2 packing of a texel *)

Lemma float_of_int_exact (x : Z) : Z.abs x < 2 ^ 24 -> float_of_int x = x.
Proof.
  intros H. unfold float_of_int.
  destruct (Z.ltb_spec (Z.abs x) (2 ^ 24)) as [_ | Hge]; [reflexivity | lia].
Qed.

Lemma fmod2_cases (x : Z) :
  Z.abs x < 2 ^ 24 -> fmod2 x = x mod 2 /\ (fmod2 x = 0 \/ fmod2 x = 1).
Proof.
  intros Hx. unfold fmod2. rewrite (float_of_int_exact x Hx). cbv zeta.
  pose proof (Z.mod_pos_bound x 2 ltac:(lia)).
  pose proof (Z.mod_eq x 2 ltac:(lia)). lia.
Qed.

Lemma fmod2_block (t d : Z) :
  Z.abs (2 * t + d) < 2 ^ 24 -> 0 <= d <= 1 -> fmod2 (2 * t + d) = d.
Proof.
  intros Hx Hd. unfold fmod2. rewrite (float_of_int_exact _ Hx). cbv zeta.
  replace ((2 * t + d) / 2) with t; [lia |].
  apply Z.div_unique with (r := d); lia.
Qed.

Lemma quot2_block (t d : Z) : 0 <= t -> 0 <= d <= 1 -> (2 * t + d) ÷ 2 = t.
Proof.
  intros Ht Hd. rewrite Z.quot_div_nonneg by lia.
  symmetry. apply Z.div_unique with (r := d); lia.
Qed.

(** The normalised position [(texC + 1/2) / texNumC] lies in texel column
    [texC] of a texture [texNumC] texels wide. *)
Lemma texel_of_centre (t n : Z) :
  0 < n ->
  Qfloor (Qmult (Qdiv (Qplus (inject_Z t) (Qmake 1 2)) (inject_Z n)) (inject_Z n))
  = t.
Proof.
  intros Hn.
  assert (E : Qeq (Qmult (Qdiv (Qplus (inject_Z t) (Qmake 1 2)) (inject_Z n))
                         (inject_Z n))
                  (Qplus (inject_Z t) (Qmake 1 2))).
  { rewrite Qmult_comm. apply Qmult_div_r.
    intros H0. unfold Qeq, inject_Z in H0. simpl in H0. lia. }
  rewrite (Qfloor_comp _ _ E).
  unfold Qfloor, Qplus, inject_Z. cbn [Qnum Qden].
  replace (t * 2 + 1 * 1) with (1 + t * 2) by lia.
  change (Z.pos (1 * 2)) with 2.
  rewrite Z.div_add by lia. reflexivity.
Qed.

(** C5 fails for coordinates that a float does not hold: 16777217 =
    [2^24 + 1] is odd, but its float is [2^24], so [getChannel] takes it for
    an even column and selects channel r where the claim has g. *)
Lemma C5_parity_lost_beyond_float_precision :
  0 mod 2 = 0 /\ (2 ^ 24 + 1) mod 2 = 1 /\
  getChannel_comp (0, 2 ^ 24 + 1) <> Y /\
  getChannel_comp (0, 2 ^ 24 + 1) = X /\
  getChannel (mkVec4 10 11 12 13) (0, 2 ^ 24 + 1) = 10.
Proof.
  repeat split; try (vm_compute; reflexivity).
  vm_compute. discriminate.
Qed.

(** C5, amended.  For a 2D logical shape in packed mode and coordinates
    below [2^24] (which a float holds exactly): both versions of
    [packedUVfrom2D] send the logical position [(row, col)] to the texel of
    index [(row / 2) * texelsInLogicalRow + (col / 2)] (the compute-shader
    version returns its integer position, column [index mod texNumC] and
    row [index / texNumC]; the sampling version returns a normalised
    position that, its division taken exactly, lies inside that same
    texel), and [getChannel] picks channel r, g,
    b or a according to the parities of [(row, col)] being (0,0), (0,1),
    (1,0) or (1,1).  So the four logical positions [(2tr, 2tc)],
    [(2tr, 2tc+1)], [(2tr+1, 2tc)], [(2tr+1, 2tc+1)] all address the texel at
    packed position [(tr, tc)] and read its channels r, g, b, a in this
    order. *)
Theorem C5_packed_texel_layout :
  forall texelsInLogicalRow texNumR texNumC tr tc dr dc (frag : vec4),
    0 <= tr -> 0 <= tc -> 0 <= dr <= 1 -> 0 <= dc <= 1 ->
    2 * tr + dr < 2 ^ 24 -> 2 * tc + dc < 2 ^ 24 ->
    0 <= texelsInLogicalRow -> 0 < texNumR -> 0 < texNumC ->
    let row := 2 * tr + dr in
    let col := 2 * tc + dc in
    let index := tr * texelsInLogicalRow + tc in
    texelIndex2D texelsInLogicalRow row col
      = (row / 2) * texelsInLogicalRow + col / 2 /\
    texelIndex2D texelsInLogicalRow row col = index /\
    packedUVfrom2D texelsInLogicalRow texNumR texNumC row col
      = (index mod texNumC, index / texNumC) /\
    (let uv := packedUVfrom2D_sampling texelsInLogicalRow texNumR texNumC
                 row col in
     Qfloor (Qmult (fst uv) (inject_Z texNumC)) = index mod texNumC /\
     Qfloor (Qmult (snd uv) (inject_Z texNumR)) = index / texNumC) /\
    getChannel_comp (row, col)
      = (if row mod 2 =? 0 then (if col mod 2 =? 0 then X else Y)
         else (if col mod 2 =? 0 then Zc else W)) /\
    getChannel frag (row, col)
      = (if dr =? 0 then (if dc =? 0 then vx frag else vy frag)
         else (if dc =? 0 then vz frag else vw frag)).
Proof.
  intros W R C tr tc dr dc frag Htr Htc Hdr Hdc Hrb Hcb HW HR HC row col index.
  assert (Hrow : row ÷ 2 = tr) by (apply quot2_block; lia).
  assert (Hcol : col ÷ 2 = tc) by (apply quot2_block; lia).
  assert (Hidx : texelIndex2D W row col = index).
  { unfold texelIndex2D. rewrite Hrow, Hcol. reflexivity. }
  assert (Hpos : 0 <= index) by (subst index; nia).
  assert (Hq : index ÷ C = index / C) by (apply Z.quot_div_nonneg; lia).
  assert (Hm : index - index / C * C = index mod C).
  { pose proof (Z.div_mod index C ltac:(lia)). lia. }
  split; [| split; [| split; [| split; [| split]]]].
  - unfold texelIndex2D. rewrite !Z.quot_div_nonneg by lia. reflexivity.
  - exact Hidx.
  - unfold packedUVfrom2D. rewrite Hidx. cbv zeta. rewrite Hq, Hm. reflexivity.
  - unfold packedUVfrom2D_sampling. rewrite Hidx. cbv zeta. cbn [fst snd].
    rewrite Hq, Hm. split; apply texel_of_centre; assumption.
  - unfold getChannel_comp. simpl.
    destruct (fmod2_cases row ltac:(subst row; lia)) as [-> _],
             (fmod2_cases col ltac:(subst col; lia)) as [-> _].
    reflexivity.
  - unfold getChannel, getChannel_comp. simpl. subst row col.
    rewrite !fmod2_block by lia.
    assert (dr = 0 \/ dr = 1) as [-> | ->] by lia;
      assert (dc = 0 \/ dc = 1) as [-> | ->] by lia; reflexivity.
Qed.

Lemma C5_packed_texel_layout_witness :
  texelIndex2D 4 3 5 = (3 / 2) * 4 + 5 / 2 /\
  texelIndex2D 4 3 5 = 1 * 4 + 2 /\
  packedUVfrom2D 4 2 4 3 5 = ((1 * 4 + 2) mod 4, (1 * 4 + 2) / 4) /\
  (let uv := packedUVfrom2D_sampling 4 2 4 3 5 in
   Qfloor (Qmult (fst uv) (inject_Z 4)) = (1 * 4 + 2) mod 4 /\
   Qfloor (Qmult (snd uv) (inject_Z 2)) = (1 * 4 + 2) / 4) /\
  getChannel_comp (3, 5) = W /\
  getChannel (mkVec4 10 11 12 13) (3, 5) = 13.
Proof.
  apply (C5_packed_texel_layout 4 2 4 1 2 1 1 (mkVec4 10 11 12 13)); lia.
Defined.

(** ** The cache of the convolution kernels *)

Module ConvFacts.
Import Conv.

Section Fill.
Variable getX : Z -> Z -> Z -> Z -> Z.
Variable at_ : Z -> option ((Z * Z) * ivec4).
Variables hwc groupSize : Z.
Hypothesis groupSize_pos : 0 < groupSize.

Lemma writeCell_same m cell v : writeCell m cell v (fst cell) (snd cell) = Some v.
Proof. unfold writeCell. rewrite !Z.eqb_refl. reflexivity. Qed.

Lemma writeCell_cases m cell v r c :
  (r = fst cell /\ c = snd cell /\ writeCell m cell v r c = Some v) \/
  writeCell m cell v r c = m r c.
Proof.
  unfold writeCell.
  destruct (Z.eqb_spec r (fst cell)), (Z.eqb_spec c (snd cell)); simpl; auto.
Qed.

Lemma fill_write_sound m index :
  0 <= index < hwc -> sound getX at_ hwc m -> sound getX at_ hwc (fill_write getX at_ m index).
Proof.
  intros Hi Hm. unfold fill_write.
  destruct (at_ index) as [[cell [[[b xR] xC] d]] |] eqn:E; [| exact Hm].
  intros r c v Hv.
  destruct (writeCell_cases m cell (getX b xR xC d) r c) as [[Hr [Hc Hw]] | Hw];
    rewrite Hw in Hv.
  - inversion Hv; subst v. exists index, b, xR, xC, d.
    destruct cell as [cr cc]; simpl in *; subst. auto.
  - apply Hm. exact Hv.
Qed.

Lemma fill_write_grows m index : grows m (fill_write getX at_ m index).
Proof.
  unfold fill_write, grows.
  destruct (at_ index) as [[cell [[[b xR] xC] d]] |]; [| auto].
  intros r c H.
  destruct (writeCell_cases m cell (getX b xR xC d) r c) as [[_ [_ Hw]] | Hw];
    rewrite Hw; [discriminate | exact H].
Qed.

Lemma fill_write_writes m index cell x :
  at_ index = Some (cell, x) ->
  fill_write getX at_ m index (fst cell) (snd cell) <> None.
Proof.
  intros E. unfold fill_write. rewrite E. destruct x as [[[b xR] xC] d].
  rewrite writeCell_same. discriminate.
Qed.

(** The loop of one invocation returns when the fuel covers the cache. *)
Lemma fill_loop_spec fuel : forall start m,
  0 <= start -> (Z.to_nat (hwc - start) <= fuel)%nat -> sound getX at_ hwc m ->
  exists m',
    fill_loop getX fuel at_ hwc groupSize start m = Some m' /\
    sound getX at_ hwc m' /\ grows m m' /\
    (forall index cell x,
        start <= index < hwc -> (index - start) mod groupSize = 0 ->
        at_ index = Some (cell, x) -> m' (fst cell) (snd cell) <> None).
Proof.
  induction fuel as [| fuel IH]; intros start m Hs Hf Hm; simpl.
  - destruct (Z.ltb_spec start hwc) as [Hlt | Hge]; [lia |].
    exists m. repeat split; auto.
    + intros r c H; exact H.
    + intros; lia.
  - destruct (Z.ltb_spec start hwc) as [Hlt | Hge].
    + destruct (IH (start + groupSize) (fill_write getX at_ m start))
        as [m' [E [S' [G' C']]]]; [lia | lia | apply fill_write_sound; [lia | exact Hm] |].
      exists m'. split; [exact E |]. split; [exact S' |]. split.
      * intros r c H. apply G'. apply fill_write_grows. exact H.
      * intros index cell x Hi Hmod Hat.
        destruct (Z.eq_dec index start) as [-> | Hne].
        -- apply G'. eapply fill_write_writes. exact Hat.
        -- apply (C' index cell x); [| | exact Hat].
           ++ assert (groupSize <= index - start).
              { assert (Hd : (groupSize | index - start))
                  by (apply Z.mod_divide; [lia | exact Hmod]).
                destruct Hd as [q Hq].
                assert (0 < q) by nia. nia. }
              lia.
           ++ replace (index - (start + groupSize))
                with (index - start + (-1) * groupSize) by lia.
              rewrite Z.mod_add by lia. exact Hmod.
    + exists m. repeat split; auto.
      * intros r c H; exact H.
      * intros; lia.
Qed.

(** The fill phase of the whole workgroup. *)
Lemma fill_phase_spec fuel m :
  (Z.to_nat hwc <= fuel)%nat -> sound getX at_ hwc m ->
  exists m',
    fill_phase getX fuel at_ hwc groupSize m = Some m' /\
    sound getX at_ hwc m' /\ grows m m' /\
    (forall index cell x,
        0 <= index < hwc -> at_ index = Some (cell, x) ->
        m' (fst cell) (snd cell) <> None).
Proof.
  intros Hf Hm. unfold fill_phase.
  assert (P : forall n, 0 <= n -> n <= groupSize ->
    exists m',
      fold_left
        (fun (om : option cache) localIndex =>
           match om with
           | Some m => fill_loop getX fuel at_ hwc groupSize localIndex m
           | None => None
           end) (range n) (Some m) = Some m' /\
      sound getX at_ hwc m' /\ grows m m' /\
      (forall index cell x,
          0 <= index < hwc -> index mod groupSize < n ->
          at_ index = Some (cell, x) -> m' (fst cell) (snd cell) <> None)).
  { apply (natlike_ind (fun n => n <= groupSize -> _)).
    - intros _. exists m. simpl. repeat split; auto.
      + intros r c H; exact H.
      + intros index cell x _ Hlt.
        pose proof (Z.mod_pos_bound index groupSize groupSize_pos). lia.
    - intros n Hn IH Hle. destruct (IH ltac:(lia)) as [m1 [E1 [S1 [G1 C1]]]].
      unfold Z.succ. rewrite range_succ by lia. rewrite fold_left_app, E1. simpl.
      destruct (fill_loop_spec fuel n m1 Hn ltac:(lia) S1) as [m2 [E2 [S2 [G2 C2]]]].
      exists m2. split; [exact E2 |]. split; [exact S2 |]. split.
      + intros r c H. apply G2, G1, H.
      + intros index cell x Hi Hmod Hat.
        pose proof (Z.mod_pos_bound index groupSize groupSize_pos) as Hb.
        destruct (Z.eq_dec (index mod groupSize) n) as [Heq | Hne].
        * apply (C2 index cell x); [| | exact Hat].
          -- pose proof (Z.div_mod index groupSize ltac:(lia)) as D.
             assert (0 <= index / groupSize) by (apply Z.div_pos; lia). nia.
          -- rewrite <- Heq. rewrite Zminus_mod, Z.mod_mod by lia.
             rewrite Z.sub_diag. reflexivity.
        * apply G2. apply (C1 index cell x); [exact Hi | lia | exact Hat]. }
  destruct (P groupSize ltac:(lia) ltac:(lia)) as [m' [E [S' [G' C']]]].
  exists m'. repeat split; auto.
  intros index cell x Hi Hat. apply (C' index cell x); auto.
  apply Z.mod_pos_bound. exact groupSize_pos.
Qed.

End Fill.

Lemma quot_decompose (q r b : Z) :
  0 <= q -> 0 <= r < b -> (q * b + r) ÷ b = q.
Proof.
  intros Hq Hr. rewrite Z.quot_div_nonneg by nia.
  symmetry. apply Z.div_unique with (r := r); lia.
Qed.

Section Conv2D.
Variable getX : Z -> Z -> Z -> Z -> Z.
Variable first : ivec4.
Variable k : CodeConv.
Hypothesis C_pos : 0 < CACHE_C k.
Hypothesis W_pos : 0 < CACHE_W k.
Hypothesis H_is_filterHeight : CACHE_H k = k_filterHeight k.
Hypothesis group_pos : 0 < k_groupSize k.

Let cacheCCorner := c2 first * snd (strides k) - snd (pads k).

Lemma conv_fill_at_index index cell x :
  conv_fill_at first k index = Some (cell, x) ->
  index = fst cell * CACHE_WC k + snd cell.
Proof.
  unfold conv_fill_at. intros H.
  destruct (_ && _) in H; [| discriminate]. inversion H; subst; simpl. lia.
Qed.

Lemma conv_fill_at_inbounds index cell b xR xC d :
  0 <= index ->
  conv_fill_at first k index = Some (cell, (b, xR, xC, d)) ->
  b = c0 first /\ 0 <= xR < k_inHeight k /\ 0 <= xC < k_inWidth k /\
  0 <= d < CACHE_C k.
Proof.
  unfold conv_fill_at. intros Hi H.
  destruct (_ && _) eqn:G in H; [| discriminate]. inversion H; subst; clear H.
  rewrite !andb_true_iff in G. destruct G as [[[G1 G2] G3] G4].
  split; [reflexivity |]. split; [lia |]. split; [lia |].
  set (r := index ÷ CACHE_WC k).
  assert (Hwc : 0 < CACHE_WC k) by (unfold CACHE_WC; nia).
  assert (Hcd : 0 <= index - r * CACHE_WC k).
  { subst r. rewrite Z.quot_div_nonneg by lia.
    pose proof (Z.mod_pos_bound index (CACHE_WC k) Hwc).
    pose proof (Z.div_mod index (CACHE_WC k) ltac:(lia)). lia. }
  rewrite Z.quot_div_nonneg by lia.
  pose proof (Z.mod_pos_bound (index - r * CACHE_WC k) (CACHE_C k) C_pos).
  pose proof (Z.div_mod (index - r * CACHE_WC k) (CACHE_C k) ltac:(lia)). lia.
Qed.

Lemma conv_fill_at_cell r c d :
  0 <= r -> 0 <= c < CACHE_W k -> 0 <= d < CACHE_C k ->
  conv_fill_at first k (r * CACHE_WC k + (c * CACHE_C k + d)) =
    let xR := c1 first * fst (strides k) - fst (pads k) + r * k_dilationHeight k in
    let xC := cacheCCorner + c in
    if (xR >=? 0) && (xR <? k_inHeight k) && (xC >=? 0) && (xC <? k_inWidth k)
    then Some ((r, c * CACHE_C k + d), (c0 first, xR, xC, d))
    else None.
Proof.
  intros Hr Hc Hd. unfold conv_fill_at.
  assert (Hcd : 0 <= c * CACHE_C k + d < CACHE_WC k) by (unfold CACHE_WC; nia).
  rewrite (quot_decompose r _ _ Hr Hcd).
  replace (r * CACHE_WC k + (c * CACHE_C k + d) - r * CACHE_WC k)
    with (c * CACHE_C k + d) by lia.
  rewrite (quot_decompose c d (CACHE_C k)) by lia.
  replace (c * CACHE_C k + d - c * CACHE_C k) with d by lia.
  reflexivity.
Qed.

(** The cache of [Conv2DProgramCS] after the fill phase. *)
Lemma conv_cache_after_fill :
  exists m,
    conv_fill getX first (Z.to_nat (CACHE_HWC k)) k = Some m /\
    (forall r c v, m r c = Some v ->
       exists xR xC d,
         conv_fill_at first k (r * CACHE_WC k + c)
           = Some ((r, c), (c0 first, xR, xC, d)) /\
         0 <= xR < k_inHeight k /\ 0 <= xC < k_inWidth k /\
         v = getX (c0 first) xR xC d) /\
    (forall r c d,
       0 <= r < CACHE_H k -> 0 <= c < CACHE_W k -> 0 <= d < CACHE_C k ->
       conv_fill_at first k (r * CACHE_WC k + (c * CACHE_C k + d)) <> None ->
       m r (c * CACHE_C k + d) <> None).
Proof.
  destruct (fill_phase_spec getX (conv_fill_at first k) (CACHE_HWC k)
              (k_groupSize k) group_pos (Z.to_nat (CACHE_HWC k)) emptyCache
              (le_n _)) as [m [E [S [_ C]]]].
  { intros r c v H. discriminate H. }
  exists m. split; [exact E |]. split.
  - intros r c v Hv. destruct (S r c v Hv) as [index [b [xR [xC [d [Hi [Hat ->]]]]]]].
    pose proof (conv_fill_at_index _ _ _ Hat) as Hidx. simpl in Hidx.
    destruct (conv_fill_at_inbounds index _ _ _ _ _ (proj1 Hi) Hat) as [-> [HR [HC _]]].
    exists xR, xC, d. rewrite <- Hidx. auto.
  - intros r c d Hr Hc Hd Hat.
    destruct (conv_fill_at first k (r * CACHE_WC k + (c * CACHE_C k + d)))
      as [[cell x] |] eqn:E'; [| contradiction].
    pose proof E' as E''.
    rewrite (conv_fill_at_cell r c d ltac:(lia) Hc Hd) in E''. cbv zeta in E''.
    destruct (_ && _) in E''; [| discriminate]. inversion E''; subst cell x.
    assert (Hcd : 0 <= c * CACHE_C k + d < CACHE_WC k) by (unfold CACHE_WC; nia).
    assert (Hidx : 0 <= r * CACHE_WC k + (c * CACHE_C k + d) < CACHE_HWC k).
    { assert (CACHE_HWC k = CACHE_H k * CACHE_WC k)
        by (unfold CACHE_HWC, CACHE_WC; ring).
      nia. }
    apply (C (r * CACHE_WC k + (c * CACHE_C k + d)) _ _ Hidx E').
Qed.

End Conv2D.

(** [Conv2DProgramCS]: the fill phase ends; a cell it wrote holds an input
    value from inside the input; and when the invocation computes an output
    of the row its workgroup filled the cache for (same batch and output row
    as the first invocation, at most [localGroupSize[1] - 1 = 6] columns to
    its right), every tap that passes the bounds tests reads cells the fill
    phase wrote, holding the input values of that tap. *)
Lemma conv2d_taps_read_filled_cells getX (first coords : ivec4) (info : Conv2DInfo) :
  0 < filterHeight info -> 0 < filterWidth info -> 0 < inChannels info ->
  0 <= strideWidth info -> 0 <= dilationWidth info ->
  c0 coords = c0 first -> c1 coords = c1 first ->
  0 <= c2 coords - c2 first <= 6 ->
  let k := userCode (Conv2DProgramCS info) in
  exists m,
    conv_fill getX first (Z.to_nat (CACHE_HWC k)) k = Some m /\
    (forall r c v, m r c = Some v ->
       exists xR xC d,
         0 <= xR < inHeight info /\ 0 <= xC < inWidth info /\
         v = getX (c0 first) xR xC d) /\
    (forall wR wC xR xC sR sC d,
       0 <= wR < filterHeight info -> 0 <= wC < filterWidth info ->
       conv_tap first k coords wR wC = Some ((xR, xC), (sR, sC)) ->
       0 <= d < inChannels info ->
       m sR (sC + d) = Some (getX (c0 coords) xR xC d)).
Proof.
  intros HfH HfW HC Hsw Hdw Hb Hrow Hcol k.
  assert (C_pos : 0 < CACHE_C k) by exact HC.
  assert (HW : CACHE_W k = 6 * strideWidth info + (filterWidth info - 1)
                 * dilationWidth info + 1).
  { subst k. cbv [Conv2DProgramCS userCode CACHE_W snd fst]. ring. }
  assert (W_pos : 0 < CACHE_W k) by nia.
  assert (G_pos : 0 < k_groupSize k) by (subst k; simpl; lia).
  destruct (conv_cache_after_fill getX first k C_pos W_pos G_pos)
    as [m [E [S C]]].
  exists m. split; [exact E |]. split.
  - intros r c v Hv. destruct (S r c v Hv) as [xR [xC [d [_ [HR [HCc Hval]]]]]].
    exists xR, xC, d. auto.
  - intros wR wC xR xC sR sC d HwR HwC Htap Hd.
    unfold conv_tap in Htap.
    destruct (_ || _) eqn:G1 in Htap; [discriminate |].
    destruct (_ || _) eqn:G2 in Htap; [discriminate |].
    inversion Htap; subst xR xC sR sC; clear Htap.
    apply orb_false_iff in G1, G2. destruct G1 as [G1a G1b], G2 as [G2a G2b].
    set (c := (c2 coords - c2 first) * strideWidth info
              + wC * dilationWidth info).
    assert (Hc : 0 <= c < CACHE_W k).
    { rewrite HW. subst c. nia. }
    match goal with
    | |- m wR ?e = _ =>
        replace e with (c * CACHE_C k + d)
          by (subst c; cbv [k Conv2DProgramCS userCode CACHE_C]; ring)
    end.
    assert (Hat : conv_fill_at first k (wR * CACHE_WC k + (c * CACHE_C k + d))
                  = Some ((wR, c * CACHE_C k + d),
                          (c0 first,
                           c1 coords * fst (strides k) - fst (pads k)
                             + wR * k_dilationHeight k,
                           c2 coords * snd (strides k) - snd (pads k)
                             + wC * k_dilationWidth k, d))).
    { rewrite (conv_fill_at_cell first k C_pos wR c d ltac:(lia) Hc Hd).
      cbv zeta. rewrite <- Hrow.
      replace (c2 first * snd (strides k) - snd (pads k) + c)
        with (c2 coords * snd (strides k) - snd (pads k) + wC * k_dilationWidth k)
        by (subst c k; simpl; ring).
      replace (_ && _) with true; [reflexivity |].
      symmetry. rewrite !andb_true_iff. subst k; simpl in *. lia. }
    assert (Hne : m wR (c * CACHE_C k + d) <> None).
    { apply C; [subst k; simpl; lia | exact Hc | exact Hd |].
      rewrite Hat. discriminate. }
    destruct (m wR (c * CACHE_C k + d)) as [v |] eqn:Ev; [| contradiction].
    destruct (S _ _ _ Ev) as [xR' [xC' [d' [Hat' [_ [_ ->]]]]]].
    rewrite Hat in Hat'. inversion Hat'; subst xR' xC' d'.
    rewrite Hb. reflexivity.
Qed.

(** C9 fails in [DepthwiseConv2DProgramCS] when [dilationHeight] is not 1.
    For the workgroup of output row 1 of [dilatedDepthwise]: the fill
    iteration at index 56 (cache row 1) passes the bounds test on input row
    1 but reads input row 2, which is outside the 2 input rows; the tap
    [wR = 1] of the compute loop passes its bounds test with [xR = 1] and
    reads that cell, which holds [getX(0, 2, 0, 0)] and not the value at
    the tap's row. *)
Theorem C9_depthwise_fill_ignores_row_dilation :
  forall getX : Z -> Z -> Z -> Z -> Z,
    let k := userCode (DepthwiseConv2DProgramCS dilatedDepthwise) in
    let first : ivec4 := (0, 1, 0, 0) in
    inHeight dilatedDepthwise = 2 /\
    depthwise_fill_at first k 56 = Some ((1, 0), (0, 2, 0, 0)) /\
    depthwise_tap first k first 1 0 = Some ((1, 0, 0), (1, 0)) /\
    option_map (fun m : cache => m 1 0)
      (depthwise_fill getX first (Z.to_nat (d_CACHE_HWC k)) k)
      = Some (Some (getX 0 2 0 0)).
Proof.
  intros getX k first. repeat split; vm_compute; reflexivity.
Qed.

End ConvFacts.

(** ** Ranks the dispatchers accept *)

Import ShaderCompiler Util.

Lemma squeezeFrom_length i shape :
  List.length (fst (squeezeFrom i shape)) = List.length (snd (squeezeFrom i shape))
  /\ (List.length (fst (squeezeFrom i shape)) <= List.length shape)%nat.
Proof.
  revert i. induction shape as [| s rest IH]; intros i; simpl.
  - split; reflexivity.
  - destruct (squeezeFrom (S i) rest) as [ns kd] eqn:E.
    specialize (IH (S i)). rewrite E in IH. simpl in IH.
    destruct (s =? 1); simpl; lia.
Qed.

Lemma succeeds_bind_ret {A B} (o : option (run A)) (f : A -> B) :
  succeeds o = true ->
  succeeds (match o with
            | None => None
            | Some r => Some (bind r (fun inner => ret (f inner)))
            end) = true.
Proof.
  destruct o as [r |]; simpl; [| discriminate].
  unfold returns, bind. destruct (result r); simpl; [reflexivity | discriminate].
Qed.

Ltac split_generator :=
  repeat match goal with
         | |- context [let '(_, _) := ?p in _] => destruct p eqn:?
         | |- context [if ?b then _ else _] => destruct b eqn:?
         end.

Lemma getSamplerFromInInfo_fuel_succeeds fuel : forall inInfo,
  (rankOf inInfo < fuel)%nat -> (rankOf inInfo <= 6)%nat ->
  succeeds (getSamplerFromInInfo_fuel fuel inInfo) = true.
Proof.
  induction fuel as [| fuel IH]; intros inInfo Hf H6; [lia |].
  unfold rankOf in *. simpl.
  assert (Sq : forall newShape keptDims,
             (List.length newShape <? List.length (logicalShape (shapeInfo inInfo)))%nat
               = true ->
             succeeds (squeezedSnippet (getSamplerFromInInfo_fuel fuel) inInfo
                         newShape keptDims) = true).
  { intros newShape keptDims Hlt. apply Nat.ltb_lt in Hlt.
    unfold squeezedSnippet. apply succeeds_bind_ret. apply IH; simpl; lia. }
  destruct (List.length (logicalShape (shapeInfo inInfo)))
    as [| [| [| [| [| [| [| n]]]]]]] eqn:E; try lia;
    unfold getSamplerScalar, getSampler1D, getSampler2D, getSampler3D,
      getSampler4D, getSampler5D, getSampler6D;
    split_generator; try reflexivity; apply Sq; rewrite <- E; assumption.
Qed.

Lemma getSamplerFromInInfoCS_fuel_succeeds uv3 uv4 fuel : forall inInfo,
  (rankOf inInfo < fuel)%nat -> (rankOf inInfo <= 4)%nat ->
  succeeds (getSamplerFromInInfoCS_fuel uv3 uv4 fuel inInfo) = true.
Proof.
  induction fuel as [| fuel IH]; intros inInfo Hf H4; [lia |].
  unfold rankOf in *. simpl.
  assert (Sq : forall newShape keptDims arity,
             (List.length newShape <? List.length (logicalShape (shapeInfo inInfo)))%nat
               = true ->
             succeeds (squeezed (getSamplerFromInInfoCS_fuel uv3 uv4 fuel) inInfo
                         newShape keptDims arity) = true).
  { intros newShape keptDims arity Hlt. apply Nat.ltb_lt in Hlt.
    unfold squeezed. apply succeeds_bind_ret. apply IH; simpl; lia. }
  destruct (List.length (logicalShape (shapeInfo inInfo)))
    as [| [| [| [| [| n]]]]] eqn:E; try lia;
    unfold getSamplerScalarCS, getSampler1DCS, getSampler2DCS, getSampler3DCS,
      getSampler4DCS;
    split_generator; try reflexivity; apply Sq; rewrite <- E; assumption.
Qed.

Lemma getPackedSamplerFromInInfo_fuel_succeeds fuel : forall inInfo,
  (rankOf inInfo < fuel)%nat ->
  succeeds (getPackedSamplerFromInInfo_fuel fuel inInfo) = true.
Proof.
  induction fuel as [| fuel IH]; intros inInfo Hf; [lia |].
  unfold rankOf in *. simpl.
  destruct (List.length (logicalShape (shapeInfo inInfo)))
    as [| [| [| [| n]]]] eqn:E; try reflexivity.
  - unfold getPackedSampler2D. split_generator; reflexivity.
  - unfold getPackedSampler3D. split_generator; [| reflexivity].
    unfold squeezedSnippet. apply succeeds_bind_ret. apply IH. simpl.
    destruct (logicalShape (shapeInfo inInfo)); simpl in *; lia.
Qed.

Lemma getPackedSamplerFromInInfoCS_fuel_succeeds fuel : forall inInfo,
  (rankOf inInfo < fuel)%nat ->
  succeeds (getPackedSamplerFromInInfoCS_fuel fuel inInfo) = true.
Proof.
  induction fuel as [| fuel IH]; intros inInfo Hf; [lia |].
  unfold rankOf in *. simpl.
  destruct (List.length (logicalShape (shapeInfo inInfo)))
    as [| [| [| [| n]]]] eqn:E; try reflexivity.
  - unfold getPackedSampler2DCS. split_generator; reflexivity.
  - unfold getPackedSampler3DCS. split_generator; [| reflexivity].
    unfold squeezed. apply succeeds_bind_ret. apply IH. simpl.
    destruct (logicalShape (shapeInfo inInfo)); simpl in *; lia.
Qed.

Lemma fails_not_succeeds {A} (o : option (run A)) :
  succeeds o = true -> fails o = false.
Proof.
  destruct o as [r |]; simpl; [| discriminate]. intros ->. reflexivity.
Qed.

(** C3, as stated, fails: the compute-shader path throws on an input of
    rank 5, which the claim says it accepts (the sampling path accepts
    it). *)
Lemma C3_indexed_path_rejects_rank_5 :
  getSamplerFromInInfoCS (fun _ _ _ _ _ _ _ => (0, 0))
    (fun _ _ _ _ _ _ _ _ _ => (0, 0)) rank5Input
  = Some (throw "5-D input sampling is not yet supported") /\
  succeeds (getSamplerFromInInfo rank5Input) = true.
Proof.
  split; reflexivity.
Qed.

Lemma rank_above (n : nat) {A} (l : list A) :
  (n < List.length l)%nat ->
  exists m, List.length l = (S n + m)%nat.
Proof. intros H. exists (List.length l - S n)%nat. lia. Qed.

(** C3, amended.  The input dispatcher of the sampling path
    ([getSamplerFromInInfo]) succeeds for every input of rank 0 to 6 and
    throws [<rank>-D input sampling is not yet supported] for every rank
    above 6.  The input dispatcher of the compute-shader path
    ([getSamplerFromInInfoCS]) succeeds for rank 0 to 4 and throws the same
    message for every rank above 4.  Both unpacked output dispatchers succeed
    for rank 0 to 6 and throw [<rank>-D output sampling is not yet supported]
    above 6.  The four packed dispatchers have no rank limit: they succeed
    for every rank. *)
Theorem C3_supported_ranks :
  forall UVfrom3D UVfrom4D (inInfo : InputInfo) (outShape : list Z)
         (outTexShape : Z * Z),
    let rank := rankOf inInfo in
    let outRank := List.length outShape in
    (if (rank <=? 6)%nat
     then succeeds (getSamplerFromInInfo inInfo) = true
     else getSamplerFromInInfo inInfo
          = Some (throw (show_nat rank ++ "-D input sampling is not yet supported"))) /\
    (if (rank <=? 4)%nat
     then succeeds (getSamplerFromInInfoCS UVfrom3D UVfrom4D inInfo) = true
     else getSamplerFromInInfoCS UVfrom3D UVfrom4D inInfo
          = Some (throw (show_nat rank ++ "-D input sampling is not yet supported"))) /\
    (if (outRank <=? 6)%nat
     then returns (getOutputSamplingSnippet outShape outTexShape) = true
          /\ returns (getOutputSamplingSnippetCS outShape outTexShape) = true
     else getOutputSamplingSnippet outShape outTexShape
            = throw (show_nat outRank ++ "-D output sampling is not yet supported")
          /\ getOutputSamplingSnippetCS outShape outTexShape
            = throw (show_nat outRank ++ "-D output sampling is not yet supported")) /\
    succeeds (getPackedSamplerFromInInfo inInfo) = true /\
    succeeds (getPackedSamplerFromInInfoCS inInfo) = true /\
    returns (getPackedOutputSamplingSnippet outShape outTexShape) = true /\
    returns (getPackedOutputSamplingSnippetCS outShape outTexShape) = true.
Proof.
  intros uv3 uv4 inInfo outShape outTexShape rank outRank.
  split; [| split; [| split; [| split; [| split; [| split]]]]].
  - destruct (Nat.leb_spec rank 6) as [H | H].
    + apply getSamplerFromInInfo_fuel_succeeds; unfold rankOf in *; lia.
    + unfold getSamplerFromInInfo. subst rank. unfold rankOf in *.
      destruct (rank_above 6 _ H) as [m Hm]. simpl. rewrite Hm. reflexivity.
  - destruct (Nat.leb_spec rank 4) as [H | H].
    + apply getSamplerFromInInfoCS_fuel_succeeds; unfold rankOf in *; lia.
    + unfold getSamplerFromInInfoCS. subst rank. unfold rankOf in *.
      destruct (rank_above 4 _ H) as [m Hm]. simpl. rewrite Hm. reflexivity.
  - unfold getOutputSamplingSnippet, getOutputSamplingSnippetCS. subst outRank.
    destruct (Nat.leb_spec (List.length outShape) 6) as [H | H].
    + destruct (List.length outShape) as [| [| [| [| [| [| [| n]]]]]]];
        try lia; split; reflexivity.
    + destruct (rank_above 6 _ H) as [m Hm]. rewrite Hm. split; reflexivity.
  - apply getPackedSamplerFromInInfo_fuel_succeeds. unfold rankOf. lia.
  - apply getPackedSamplerFromInInfoCS_fuel_succeeds. unfold rankOf. lia.
  - unfold getPackedOutputSamplingSnippet.
    destruct (List.length outShape) as [| [| [| [| n]]]]; reflexivity.
  - unfold getPackedOutputSamplingSnippetCS.
    destruct (List.length outShape) as [| [| [| [| n]]]]; reflexivity.
Qed.

(** ** Broadcasting in [get<Name>AtOutCoords] *)

Lemma nth_zeroField (coords : list Z) (f j : nat) :
  nth j (zeroField coords f) 0 = if (j =? f)%nat then 0 else nth j coords 0.
Proof.
  unfold zeroField. revert coords j.
  induction f as [| f IH]; intros coords j.
  - destruct coords as [| c rest]; simpl.
    + destruct j; reflexivity.
    + destruct j; reflexivity.
  - destruct coords as [| c rest].
    + simpl. destruct j; simpl; [reflexivity |].
      destruct (j =? f)%nat; destruct j; reflexivity.
    + destruct j as [| j]; [reflexivity |]. simpl. apply (IH rest j).
Qed.

Lemma nth_fold_zeroField (fields : list nat) : forall (coords : list Z) (j : nat),
  nth j (fold_left zeroField fields coords) 0
  = if existsb (Nat.eqb j) fields then 0 else nth j coords 0.
Proof.
  induction fields as [| f fields IH]; intros coords j; simpl.
  - reflexivity.
  - rewrite IH, nth_zeroField.
    destruct (j =? f)%nat; simpl; [| reflexivity].
    destruct (existsb (Nat.eqb j) fields); reflexivity.
Qed.

Lemma existsb_shift (rankDiff i : nat) (dims : list nat) :
  existsb (Nat.eqb (i + rankDiff)) (map (fun d => (d + rankDiff)%nat) dims)
  = existsb (Nat.eqb i) dims.
Proof.
  induction dims as [| d dims IH]; simpl; [reflexivity |].
  rewrite IH. f_equal.
  destruct (Nat.eqb_spec (i + rankDiff) (d + rankDiff)),
           (Nat.eqb_spec i d); try reflexivity; lia.
Qed.

Lemma getBroadcastDims_bound inShape outShape d :
  In d (getBroadcastDims inShape outShape) -> (d < List.length inShape)%nat.
Proof.
  unfold getBroadcastDims. intros H. apply filter_In in H.
  destruct H as [H _]. apply in_seq in H. lia.
Qed.

(** What the two snippets built from [broadcastDims] do to the output
    coordinate. *)
Lemma outCoordsSnippets_args inShape outShape coords :
  (List.length inShape <= List.length outShape)%nat ->
  List.length coords = Nat.max 1 (List.length outShape) ->
  let '(zeroing, args) := outCoordsSnippets inShape outShape in
  runArgsSnippet args (runCoordsSnippet zeroing coords)
  = broadcastArgs inShape outShape coords.
Proof.
  intros Hrank Hlen. unfold outCoordsSnippets, broadcastArgs.
  set (bd := getBroadcastDims inShape outShape).
  set (rankDiff := (List.length outShape - List.length inShape)%nat).
  destruct (Nat.ltb_spec (List.length outShape) 2) as [Hout | Hout]; simpl.
  - (* the output coordinate is an int *)
    assert (Hc : List.length coords = 1%nat) by lia.
    destruct coords as [| c [| c' rest]]; simpl in Hc; try lia.
    destruct (List.length inShape) as [| [| n]] eqn:Hin; simpl.
    + reflexivity.
    + assert (rankDiff = 0%nat) by (subst rankDiff; lia).
      rewrite H. simpl.
      destruct bd as [| d bd'] eqn:Ebd; simpl.
      * reflexivity.
      * assert (Hd : In d bd) by (rewrite Ebd; left; reflexivity).
        apply getBroadcastDims_bound in Hd. rewrite Hin in Hd.
        assert (d = 0%nat) by lia. subst d. reflexivity.
    + lia.
  - destruct (Nat.eqb_spec (List.length inShape) 0) as [Hin | Hin].
    + rewrite Hin. reflexivity.
    + destruct (List.length inShape) as [| n] eqn:E; [contradiction |].
      cbn [Nat.ltb Nat.leb andb runCoordsSnippet runArgsSnippet].
      rewrite map_map. apply map_ext. intros i.
      rewrite nth_fold_zeroField, existsb_shift. reflexivity.
Qed.

Lemma getCoordsDataType_returns (rank : nat) :
  (rank <= 6)%nat -> exists type, getCoordsDataType rank = ret type.
Proof.
  intros H. unfold getCoordsDataType.
  destruct rank as [| [| [| [| [| [| [| n]]]]]]]; simpl; try lia; eexists; reflexivity.
Qed.

(** Where the zeroing is generated.  For an input whose rank is at most
    the output's rank (at most 6), the packed accessor, and the unpacked
    accessor of the sampling path unless it reads the input at the output's
    own position, call [get<Name>] with, for every input axis, 0 when the
    axis has size 1 against an output axis of size above 1 (aligned from the
    right), and the output coordinate of the aligned axis otherwise; the
    unpacked accessor of the compute-shader path is the same-position read
    or the flat-index remapping. *)
Lemma accessors_call_with_broadcast_arguments :
  forall (inputInfo : InputInfo) (outShapeInfo : ShapeInfo),
    let inShape := logicalShape (shapeInfo inputInfo) in
    let outShape := logicalShape outShapeInfo in
    (List.length inShape <= List.length outShape)%nat ->
    (List.length outShape <= 6)%nat ->
    (exists zeroing args output,
        result (getPackedSamplerAtOutputCoords inputInfo outShapeInfo)
          = Returned (ViaSampler zeroing args output) /\
        forall coords,
          List.length coords = Nat.max 1 (List.length outShape) ->
          accessorArgs (ViaSampler zeroing args output) coords
          = Some (broadcastArgs inShape outShape coords)) /\
    (sameTexel inputInfo outShapeInfo = false ->
     exists zeroing args,
        result (getSamplerAtOutputCoords inputInfo outShapeInfo)
          = Returned (ViaSampler zeroing args (OutSwizzle (X, Y, Zc, W))) /\
        forall coords,
          List.length coords = Nat.max 1 (List.length outShape) ->
          accessorArgs (ViaSampler zeroing args (OutSwizzle (X, Y, Zc, W))) coords
          = Some (broadcastArgs inShape outShape coords)) /\
    (forall coords coords',
        (forall i, (i < List.length inShape)%nat ->
           existsb (Nat.eqb i) (getBroadcastDims inShape outShape) = false ->
           nth (i + (List.length outShape - List.length inShape)) coords 0
           = nth (i + (List.length outShape - List.length inShape)) coords' 0) ->
        broadcastArgs inShape outShape coords
        = broadcastArgs inShape outShape coords') /\
    (result (getSamplerAtOutputCoordsCS inputInfo outShapeInfo)
       = Returned (if sameTexel inputInfo outShapeInfo then SampleAtInvocation
                   else FlatRemap (snd (texShape outShapeInfo))
                                  (snd (texShape (shapeInfo inputInfo))))).
Proof.
  intros inputInfo outShapeInfo inShape outShape Hrank H6.
  destruct (getCoordsDataType_returns _ H6) as [type Htype].
  split; [| split; [| split]].
  - unfold getPackedSamplerAtOutputCoords. fold inShape outShape.
    rewrite Htype.
    pose proof (outCoordsSnippets_args inShape outShape) as Hargs.
    destruct (outCoordsSnippets inShape outShape) as [zeroing args] eqn:E.
    eexists zeroing, args, _. split.
    + simpl. reflexivity.
    + intros coords Hlen. simpl. f_equal. apply (Hargs coords Hrank Hlen).
  - intros Hfast. unfold getSamplerAtOutputCoords.
    unfold sameTexel in Hfast. rewrite Hfast. fold inShape outShape.
    rewrite Htype.
    pose proof (outCoordsSnippets_args inShape outShape) as Hargs.
    destruct (outCoordsSnippets inShape outShape) as [zeroing args] eqn:E.
    eexists zeroing, args. split.
    + simpl. reflexivity.
    + intros coords Hlen. simpl. f_equal. apply (Hargs coords Hrank Hlen).
  - intros coords coords' Hagree. unfold broadcastArgs.
    apply map_ext_in. intros i Hi. apply in_seq in Hi.
    destruct (existsb (Nat.eqb i) (getBroadcastDims inShape outShape)) eqn:E;
      [reflexivity |].
    apply Hagree; [lia | exact E].
  - unfold getSamplerAtOutputCoordsCS, sameTexel.
    destruct (_ && _); reflexivity.
Qed.

(** C4.  The zeroing the claim asks for in all modes is missing from two
    generated accessors.

    Unpacked, compute-shader path: for the row vector [1, 4] (a 1 x 4
    texture) read for a 4 x 4 output, axis 0 is a broadcast axis, but
    [getSamplerAtOutputCoordsCS] emits the flat-index remapping and never
    calls [get<Name>]: the invocations of the output positions [0, 0] and
    [1, 0], which differ only along the broadcast axis, fetch the two
    different texels (0, 0) and (0, 1), the second in a row the 1 x 4
    texture does not have.  Its sibling [getSamplerAtOutputCoords] zeroes
    component 0 and calls [get<Name>(0, 0)] for both.

    Packed: for a vector of one element read for a 2 x 2 output, the
    accessor zeroes component 1, calls [get<Name>(0)] and returns
    [vec4(outputValue.xy, outputValue.xy)]: the output positions of column 1
    get channel g of the texel, the slot of index 1, which a vector of
    one element does not have; only column 0 gets the element (channel
    r). *)
Theorem C4_accessors_miss_broadcast_zeroing :
  (getBroadcastDims (logicalShape (shapeInfo rowVector)) (logicalShape squareOutput)
     = [0%nat] /\
   result (getSamplerAtOutputCoordsCS rowVector squareOutput)
     = Returned (FlatRemap 4 4) /\
   accessorArgs (FlatRemap 4 4) [0; 0] = None /\
   accessorArgs (FlatRemap 4 4) [1; 0] = None /\
   getOutput2DCoordsCS (logicalShape squareOutput) (texShape squareOutput) (0, 0)
     = [0; 0] /\
   getOutput2DCoordsCS (logicalShape squareOutput) (texShape squareOutput) (0, 1)
     = [1; 0] /\
   flatRemap 4 4 (0, 0) = (0, 0) /\
   flatRemap 4 4 (0, 1) = (0, 1) /\
   broadcastArgs [1; 4] [4; 4] [0; 0] = [0; 0] /\
   broadcastArgs [1; 4] [4; 4] [1; 0] = [0; 0] /\
   result (getSamplerAtOutputCoords rowVector squareOutput)
     = Returned (ViaSampler (ZeroFields [0%nat]) (Fields [0%nat; 1%nat])
                   (OutSwizzle (X, Y, Zc, W))) /\
   accessorArgs (ViaSampler (ZeroFields [0%nat]) (Fields [0%nat; 1%nat])
                   (OutSwizzle (X, Y, Zc, W))) [0; 0] = Some [0; 0] /\
   accessorArgs (ViaSampler (ZeroFields [0%nat]) (Fields [0%nat; 1%nat])
                   (OutSwizzle (X, Y, Zc, W))) [1; 0] = Some [0; 0]) /\
  (getBroadcastDims (logicalShape (shapeInfo packedOne)) (logicalShape packedSquare)
     = [0%nat] /\
   result (getPackedSamplerAtOutputCoords packedOne packedSquare)
     = Returned (ViaSampler (ZeroFields [1%nat]) (Fields [1%nat])
                   (OutSwizzle (X, Y, X, Y))) /\
   forall texel : vec4,
     let getName := fun args : list Z =>
                      match args with [0] => texel | _ => vec4_splat 0 end in
     getChannel1 (getName [0]) 0 = vx texel /\
     Shader.runAccessor (ViaSampler (ZeroFields [1%nat]) (Fields [1%nat])
                           (OutSwizzle (X, Y, X, Y))) getName [0; 0]
       = Some (mkVec4 (vx texel) (vy texel) (vx texel) (vy texel)) /\
     getChannel (mkVec4 (vx texel) (vy texel) (vx texel) (vy texel)) (0, 0)
       = vx texel /\
     getChannel (mkVec4 (vx texel) (vy texel) (vx texel) (vy texel)) (0, 1)
       = vy texel /\
     getChannel (mkVec4 (vx texel) (vy texel) (vx texel) (vy texel)) (1, 1)
       = vy texel).
Proof.
  split.
  - repeat split; reflexivity.
  - split; [reflexivity | split; [reflexivity |]].
    intros [x y z w] getName. repeat split; reflexivity.
Qed.

(** ** Encoding a coordinate and decoding it back, compute-shader path *)

Lemma sizeFromShape_prod (shape : list Z) : sizeFromShape shape = prod shape.
Proof.
  unfold sizeFromShape, prod.
  assert (G : forall acc, fold_left Z.mul shape acc = acc * fold_right Z.mul 1 shape).
  { induction shape as [| s shape IH]; intros acc; simpl; [lia |].
    rewrite IH. ring. }
  rewrite G. lia.
Qed.

Lemma flatFrom_bound shape coords :
  inBounds shape coords -> forall acc, 0 <= acc ->
  acc * prod shape <= flatFrom acc shape coords < (acc + 1) * prod shape.
Proof.
  induction 1 as [| s c shape coords Hc Hrest IH]; intros acc Hacc; simpl.
  - lia.
  - specialize (IH (acc * s + c) ltac:(nia)).
    assert (0 <= prod shape).
    { clear - Hrest. induction Hrest; simpl; [lia | nia]. }
    nia.
Qed.

Lemma flatIndex_bound shape coords :
  inBounds shape coords -> 0 <= flatIndex shape coords < prod shape.
Proof.
  intros H. pose proof (flatFrom_bound shape coords H 0 ltac:(lia)).
  unfold flatIndex. lia.
Qed.

Lemma uvFromFlat_spec (texNumR texNumC index : Z) :
  0 < texNumC -> 0 <= index ->
  exists x y, uvFromFlat texNumR texNumC index = (x, y) /\
              0 <= x < texNumC /\ 0 <= y /\ y * texNumC + x = index.
Proof.
  intros HC Hi. unfold uvFromFlat.
  rewrite Z.quot_div_nonneg by lia.
  pose proof (Z.div_mod index texNumC ltac:(lia)).
  pose proof (Z.mod_pos_bound index texNumC HC).
  assert (0 <= index / texNumC) by (apply Z.div_pos; lia).
  eexists _, _. split; [reflexivity |]. lia.
Qed.

(** Splitting a flat index by a stride. *)
Lemma quot_stride (q r stride : Z) :
  0 <= q -> 0 <= r < stride -> (q * stride + r) ÷ stride = q.
Proof.
  intros Hq Hr. rewrite Z.quot_div_nonneg by nia.
  symmetry. apply Z.div_unique with (r := r); lia.
Qed.

Lemma inBounds_1 s coords :
  inBounds [s] coords -> exists i, coords = [i] /\ 0 <= i < s.
Proof.
  intros H. inversion H as [| ? i ? ? Hi Hr]; subst. inversion Hr; subst.
  exists i. auto.
Qed.

Lemma inBounds_2 s0 s1 coords :
  inBounds [s0; s1] coords ->
  exists a b, coords = [a; b] /\ 0 <= a < s0 /\ 0 <= b < s1.
Proof.
  intros H. inversion H as [| ? a ? ? Ha Hr]; subst.
  destruct (inBounds_1 _ _ Hr) as [b [-> Hb]]. exists a, b. auto.
Qed.

Lemma inBounds_3 s0 s1 s2 coords :
  inBounds [s0; s1; s2] coords ->
  exists a b c, coords = [a; b; c] /\ 0 <= a < s0 /\ 0 <= b < s1 /\ 0 <= c < s2.
Proof.
  intros H. inversion H as [| ? a ? ? Ha Hr]; subst.
  destruct (inBounds_2 _ _ _ Hr) as [b [c [-> [Hb Hc]]]]. exists a, b, c. auto.
Qed.

Lemma inBounds_4 s0 s1 s2 s3 coords :
  inBounds [s0; s1; s2; s3] coords ->
  exists a b c d, coords = [a; b; c; d] /\
    0 <= a < s0 /\ 0 <= b < s1 /\ 0 <= c < s2 /\ 0 <= d < s3.
Proof.
  intros H. inversion H as [| ? a ? ? Ha Hr]; subst.
  destruct (inBounds_3 _ _ _ _ Hr) as [b [c [d [-> [Hb [Hc Hd]]]]]].
  exists a, b, c, d. auto.
Qed.

Lemma flatIndex_1 s i : flatIndex [s] [i] = i.
Proof. unfold flatIndex. cbn [flatFrom]. ring. Qed.

Lemma flatIndex_2 s0 s1 a b : flatIndex [s0; s1] [a; b] = a * s1 + b.
Proof. unfold flatIndex. cbn [flatFrom]. ring. Qed.

Lemma flatIndex_3 s0 s1 s2 a b c :
  flatIndex [s0; s1; s2] [a; b; c] = a * (s1 * s2) + b * s2 + c.
Proof. unfold flatIndex. cbn [flatFrom]. ring. Qed.

Lemma flatIndex_4 s0 s1 s2 s3 a b c d :
  flatIndex [s0; s1; s2; s3] [a; b; c; d]
  = a * (s1 * (s2 * s3)) + b * (s2 * s3) + c * s3 + d.
Proof. unfold flatIndex. cbn [flatFrom]. ring. Qed.

(** *** The unpacked decoders invert the row-major encoding *)

Lemma getOutput1DCoordsCS_decodes s R C :
  0 < C -> s <= R * C ->
  decodes (getOutput1DCoordsCS [s] (R, C)) [s] C.
Proof.
  intros HC Hcap coords x y Hb Hx Hy Hflat.
  destruct (inBounds_1 _ _ Hb) as [i [-> Hi]]. rewrite flatIndex_1 in Hflat.
  unfold getOutput1DCoordsCS. cbn [fst snd].
  destruct (Z.eqb_spec R 1) as [-> | HR].
  - assert (y = 0) by (destruct (Z.eq_dec y 0); [assumption | nia]).
    subst y. cbn [fst snd]. f_equal. lia.
  - destruct (Z.eqb_spec C 1) as [-> | HC1]; cbn [fst snd]; f_equal; lia.
Qed.

Lemma same_row_col (C y x a b : Z) :
  0 <= x < C -> 0 <= b < C -> y * C + x = a * C + b -> y = a /\ x = b.
Proof. intros Hx Hb H. assert (y = a) by nia. subst. lia. Qed.

Lemma getOutput2DCoordsCS_decodes s0 s1 R C :
  0 < C -> s0 * s1 <= R * C ->
  decodes (getOutput2DCoordsCS [s0; s1] (R, C)) [s0; s1] C.
Proof.
  intros HC Hcap coords x y Hb Hx Hy Hflat.
  destruct (inBounds_2 _ _ _ Hb) as [a [b [-> [Ha Hbb]]]].
  rewrite flatIndex_2 in Hflat.
  assert (General :
    (if s1 =? 1
     then fun gid : ivec2 => [snd gid * C + fst gid; 0]
     else
       if s0 =? 1
       then fun gid : ivec2 => [0; snd gid * C + fst gid]
       else
         fun gid : ivec2 =>
           [(snd gid * C + fst gid) ÷ s1;
            snd gid * C + fst gid - (snd gid * C + fst gid) ÷ s1 * s1])
      (x, y) = [a; b]).
  { destruct (Z.eqb_spec s1 1) as [-> | H1]; cbn [fst snd].
    - assert (b = 0) by lia. subst b. f_equal. lia.
    - destruct (Z.eqb_spec s0 1) as [-> | H0]; cbn [fst snd].
      + assert (a = 0) by lia. subst a. f_equal. f_equal. lia.
      + rewrite Hflat, quot_stride by lia. f_equal. f_equal. lia. }
  unfold getOutput2DCoordsCS, arraysEqual, dim. cbn [fst snd nth].
  destruct (Z.eqb_spec s0 R) as [E0 | E0]; cbn [andb]; [| exact General].
  destruct (Z.eqb_spec s1 C) as [E1 | E1]; [| exact General].
  subst. cbn [fst snd].
  destruct (same_row_col C y x a b Hx Hbb Hflat) as [-> ->]. reflexivity.
Qed.

Lemma mixed_bound (b c s1 s2 : Z) :
  0 <= b < s1 -> 0 <= c < s2 -> 0 <= b * s2 + c < s1 * s2.
Proof.
  intros Hb Hc. split; [nia |].
  assert (b * s2 <= (s1 - 1) * s2) by nia. lia.
Qed.

Lemma getOutput3DCoordsCS_decodes s0 s1 s2 R C :
  decodes (getOutput3DCoordsCS [s0; s1; s2] (R, C)) [s0; s1; s2] C.
Proof.
  intros coords x y Hb Hx Hy Hflat.
  destruct (inBounds_3 _ _ _ _ Hb) as [a [b [c [-> [Ha [Hbb Hc]]]]]].
  rewrite flatIndex_3 in Hflat.
  unfold getOutput3DCoordsCS, dim. cbn [fst snd nth]. rewrite Hflat.
  pose proof (mixed_bound b c s1 s2 Hbb Hc) as B1.
  replace (a * (s1 * s2) + b * s2 + c) with (a * (s1 * s2) + (b * s2 + c)) by ring.
  rewrite (quot_stride a (b * s2 + c) (s1 * s2)) by lia.
  replace (a * (s1 * s2) + (b * s2 + c) - a * (s1 * s2)) with (b * s2 + c) by ring.
  rewrite (quot_stride b c s2) by lia.
  f_equal. f_equal. f_equal. lia.
Qed.

Lemma getOutput4DCoordsCS_decodes s0 s1 s2 s3 R C :
  decodes (getOutput4DCoordsCS [s0; s1; s2; s3] (R, C)) [s0; s1; s2; s3] C.
Proof.
  intros coords x y Hb Hx Hy Hflat.
  destruct (inBounds_4 _ _ _ _ _ Hb) as [a [b [c [d [-> [Ha [Hbb [Hc Hd]]]]]]]].
  rewrite flatIndex_4 in Hflat.
  unfold getOutput4DCoordsCS, dim. cbn [fst snd nth]. rewrite Hflat.
  pose proof (mixed_bound c d s2 s3 Hc Hd) as B1.
  pose proof (mixed_bound b (c * s3 + d) s1 (s2 * s3) Hbb B1) as B2.
  replace (a * (s1 * (s2 * s3)) + b * (s2 * s3) + c * s3 + d)
    with (a * (s1 * (s2 * s3)) + (b * (s2 * s3) + (c * s3 + d))) by ring.
  rewrite (quot_stride a _ (s1 * (s2 * s3))) by lia.
  replace (a * (s1 * (s2 * s3)) + (b * (s2 * s3) + (c * s3 + d))
           - a * (s1 * (s2 * s3)))
    with (b * (s2 * s3) + (c * s3 + d)) by ring.
  rewrite (quot_stride b _ (s2 * s3)) by lia.
  replace (b * (s2 * s3) + (c * s3 + d) - b * (s2 * s3)) with (c * s3 + d) by ring.
  rewrite (quot_stride c d s3) by lia.
  f_equal. f_equal. f_equal. f_equal. lia.
Qed.

(** *** The unpacked input functions encode row-major *)

Lemma squeezeFrom_coords shape coords :
  inBounds shape coords -> forall pre acc,
  let ns := fst (squeezeFrom (List.length pre) shape) in
  let args := map (fun d => nth d (pre ++ coords) 0)
                  (snd (squeezeFrom (List.length pre) shape)) in
  inBounds ns args /\
  flatFrom acc ns args = flatFrom acc shape coords /\
  prod ns = prod shape.
Proof.
  induction 1 as [| s c shape coords Hc Hrest IH]; intros pre acc.
  - simpl. repeat split. constructor.
  - specialize (IH (pre ++ [c])).
    rewrite length_app in IH. simpl in IH.
    replace (List.length pre + 1)%nat with (S (List.length pre)) in IH by lia.
    simpl.
    destruct (squeezeFrom (S (List.length pre)) shape) as [ns kd] eqn:E.
    simpl in IH.
    assert (Happ : forall d, nth d ((pre ++ [c]) ++ coords) 0
                             = nth d (pre ++ c :: coords) 0).
    { intros d. rewrite <- app_assoc. reflexivity. }
    destruct (Z.eqb_spec s 1) as [-> | Hs]; simpl.
    + assert (c = 0) by lia. subst c.
      destruct (IH acc) as [B [F P]].
      rewrite (map_ext _ _ Happ) in B, F.
      split; [exact B |]. split; [| rewrite P; destruct (prod shape); reflexivity].
      rewrite F. f_equal. lia.
    + destruct (IH (acc * s + c)) as [B [F P]].
      rewrite (map_ext _ _ Happ) in B, F.
      rewrite nth_middle.
      split; [constructor; assumption |]. split; [exact F |].
      rewrite P. reflexivity.
Qed.

Lemma squeezeShape_coords shape coords :
  inBounds shape coords ->
  let ns := fst (squeezeShape shape) in
  let args := getSqueezedParams coords (snd (squeezeShape shape)) in
  inBounds ns args /\ flatIndex ns args = flatIndex shape coords /\
  prod ns = prod shape.
Proof.
  intros H. exact (squeezeFrom_coords shape coords H [] 0).
Qed.

Lemma inBounds_length shape coords :
  inBounds shape coords -> List.length coords = List.length shape.
Proof. intros H. symmetry. exact (Forall2_length H). Qed.

Lemma squeezed_encodes rec inputInfo shape texNumC :
  shape = logicalShape (shapeInfo inputInfo) ->
  encodes (rec (squeezeInputInfo inputInfo (fst (squeezeShape shape))))
          (fst (squeezeShape shape)) texNumC ->
  encodes (squeezed rec inputInfo (fst (squeezeShape shape))
             (snd (squeezeShape shape)) (List.length shape))
          shape texNumC.
Proof.
  intros Hshape [r [inner [Hrec [Hres Hinner]]]].
  unfold squeezed. rewrite Hrec.
  eexists _, _. split; [reflexivity |]. split.
  - unfold bind. rewrite Hres. simpl. reflexivity.
  - intros coords Hb.
    destruct (squeezeShape_coords shape coords Hb) as [B [F _]].
    destruct (Hinner _ B) as [x [y [E [Hx [Hy Hflat]]]]].
    exists x, y. rewrite (inBounds_length _ _ Hb), Nat.eqb_refl.
    split; [exact E |]. rewrite <- F. auto.
Qed.

Ltac texel_at :=
  eexists _, _; split; [reflexivity |].

Lemma getSamplerScalarCS_encodes inputInfo :
  logicalShape (shapeInfo inputInfo) = [] ->
  isUniform (shapeInfo inputInfo) = false ->
  0 < snd (texShape (shapeInfo inputInfo)) ->
  encodes (Some (getSamplerScalarCS inputInfo)) []
          (snd (texShape (shapeInfo inputInfo))).
Proof.
  intros Hshape Hu HC. unfold getSamplerScalarCS.
  destruct (texShape (shapeInfo inputInfo)) as [R C]. simpl in HC.
  rewrite Hu. cbn [snd].
  destruct ((R =? 1) && (C =? 1)); eexists _, _;
    (split; [reflexivity |]); (split; [reflexivity |]);
    intros coords Hb; inversion Hb; subst.
  - texel_at. unfold flatIndex. simpl. lia.
  - destruct (uvFromFlat_spec R C 0 HC ltac:(lia)) as [x [y [E H]]].
    exists x, y. rewrite E. unfold flatIndex. simpl. split; [reflexivity | lia].
Qed.

Lemma getSampler1DCS_encodes inputInfo s :
  logicalShape (shapeInfo inputInfo) = [s] ->
  isUniform (shapeInfo inputInfo) = false ->
  0 < snd (texShape (shapeInfo inputInfo)) ->
  s <= fst (texShape (shapeInfo inputInfo)) * snd (texShape (shapeInfo inputInfo)) ->
  encodes (Some (getSampler1DCS inputInfo)) [s]
          (snd (texShape (shapeInfo inputInfo))).
Proof.
  intros Hshape Hu HC Hcap. unfold getSampler1DCS.
  destruct (texShape (shapeInfo inputInfo)) as [R C]. simpl in HC, Hcap.
  rewrite Hu. cbn [snd].
  destruct (Z.eqb_spec C 1) as [-> | HC1]; cbn [andb];
    [destruct (Z.eqb_spec R 1) as [-> | HR1] |
     destruct (Z.eqb_spec R 1) as [-> | HR1]];
    eexists _, _; (split; [reflexivity |]); (split; [reflexivity |]);
    intros coords Hb; destruct (inBounds_1 _ _ Hb) as [i [-> Hi]];
    rewrite flatIndex_1.
  - texel_at. lia.
  - texel_at. lia.
  - texel_at. lia.
  - destruct (uvFromFlat_spec R C (i + 0) HC ltac:(lia)) as [x [y [E H]]].
    exists x, y. rewrite E. split; [reflexivity | lia].
Qed.

Ltac open_sampler Hshape Hu :=
  rewrite Hshape;
  match goal with
  | |- context [texShape ?si] => destruct (texShape si) as [R C]
  end;
  cbn [fst snd] in *; cbv zeta;
  match goal with
  | |- context [squeezeShape ?sh] =>
      rewrite (surjective_pairing (squeezeShape sh))
  end;
  try rewrite Hu.

Ltac plain_sampler :=
  eexists _, _; (split; [reflexivity |]); (split; [reflexivity |]).

Lemma getSampler2DCS_encodes rec inputInfo s0 s1 :
  logicalShape (shapeInfo inputInfo) = [s0; s1] ->
  isUniform (shapeInfo inputInfo) = false ->
  0 < snd (texShape (shapeInfo inputInfo)) ->
  s0 * s1 <= fst (texShape (shapeInfo inputInfo))
             * snd (texShape (shapeInfo inputInfo)) ->
  ((List.length (fst (squeezeShape [s0; s1])) < 2)%nat ->
   encodes (rec (squeezeInputInfo inputInfo (fst (squeezeShape [s0; s1]))))
           (fst (squeezeShape [s0; s1]))
           (snd (texShape (shapeInfo inputInfo)))) ->
  encodes (getSampler2DCS rec inputInfo) [s0; s1]
          (snd (texShape (shapeInfo inputInfo))).
Proof.
  intros Hshape Hu HC Hcap Hrec. unfold getSampler2DCS.
  open_sampler Hshape Hu.
  destruct (arraysEqual [s0; s1] (R, C)) eqn:Heq.
  - cbn [arraysEqual fst snd] in Heq.
    apply andb_true_iff in Heq. destruct Heq as [H0 H1].
    apply Z.eqb_eq in H0, H1. subst R C.
    plain_sampler. intros coords Hb.
    destruct (inBounds_2 _ _ _ Hb) as [a [b [-> [Ha Hb']]]].
    rewrite flatIndex_2. texel_at. lia.
  - destruct (Nat.ltb_spec (List.length (fst (squeezeShape [s0; s1])))
                           (List.length [s0; s1])) as [Hlt | Hge].
    + exact (squeezed_encodes rec inputInfo [s0; s1] C (eq_sym Hshape)
               (Hrec Hlt)).
    + destruct (Z.eqb_spec C 1) as [-> | HC1];
        [| destruct (Z.eqb_spec R 1) as [-> | HR1]];
        plain_sampler; intros coords Hb;
        destruct (inBounds_2 _ _ _ Hb) as [a [b [-> [Ha Hb']]]];
        rewrite flatIndex_2; cbn [dim nth];
        pose proof (mixed_bound a b s0 s1 Ha Hb').
      * texel_at. lia.
      * texel_at. lia.
      * destruct (uvFromFlat_spec R C (a * s1 + b + 0) HC ltac:(lia))
          as [x [y [E H']]].
        exists x, y. cbv zeta. rewrite E. split; [reflexivity | lia].
Qed.

Lemma getSampler3DCS_encodes UVfrom3D rec inputInfo s0 s1 s2 :
  UVfrom3D_flat UVfrom3D ->
  logicalShape (shapeInfo inputInfo) = [s0; s1; s2] ->
  0 < snd (texShape (shapeInfo inputInfo)) ->
  ((List.length (fst (squeezeShape [s0; s1; s2])) < 3)%nat ->
   encodes (rec (squeezeInputInfo inputInfo (fst (squeezeShape [s0; s1; s2]))))
           (fst (squeezeShape [s0; s1; s2]))
           (snd (texShape (shapeInfo inputInfo)))) ->
  encodes (getSampler3DCS UVfrom3D rec inputInfo) [s0; s1; s2]
          (snd (texShape (shapeInfo inputInfo))).
Proof.
  intros HUV Hshape HC Hrec. unfold getSampler3DCS.
  open_sampler Hshape Hshape.
  destruct (Nat.ltb_spec (List.length (fst (squeezeShape [s0; s1; s2])))
                         (List.length [s0; s1; s2])) as [Hlt | Hge].
  - exact (squeezed_encodes rec inputInfo [s0; s1; s2] C (eq_sym Hshape)
             (Hrec Hlt)).
  - cbn [dim nth].
    destruct (Z.eqb_spec C (s1 * s2)) as [-> | HC0];
      [| destruct (Z.eqb_spec C s2) as [-> | HC1]];
      plain_sampler; intros coords Hb;
      destruct (inBounds_3 _ _ _ _ Hb) as [a [b [c [-> [Ha [Hb' Hc]]]]]];
      rewrite flatIndex_3.
    + texel_at. pose proof (mixed_bound b c s1 s2 Hb' Hc). lia.
    + texel_at. pose proof (mixed_bound a b s0 s1 Ha Hb'). split; [lia |].
      split; [lia | ring].
    + rewrite HUV.
      pose proof (mixed_bound b c s1 s2 Hb' Hc).
      assert (0 <= a * (s1 * s2)) by nia.
      destruct (uvFromFlat_spec R C (a * (s1 * s2) + b * s2 + c) HC
                  ltac:(lia)) as [x [y [E H']]].
      exists x, y. rewrite E. split; [reflexivity | lia].
Qed.

Lemma getSampler4DCS_encodes UVfrom4D rec inputInfo s0 s1 s2 s3 :
  UVfrom4D_flat UVfrom4D ->
  logicalShape (shapeInfo inputInfo) = [s0; s1; s2; s3] ->
  0 < snd (texShape (shapeInfo inputInfo)) ->
  ((List.length (fst (squeezeShape [s0; s1; s2; s3])) < 4)%nat ->
   encodes
     (rec (squeezeInputInfo inputInfo (fst (squeezeShape [s0; s1; s2; s3]))))
     (fst (squeezeShape [s0; s1; s2; s3]))
     (snd (texShape (shapeInfo inputInfo)))) ->
  encodes (getSampler4DCS UVfrom4D rec inputInfo) [s0; s1; s2; s3]
          (snd (texShape (shapeInfo inputInfo))).
Proof.
  intros HUV Hshape HC Hrec. unfold getSampler4DCS.
  open_sampler Hshape Hshape.
  destruct (Nat.ltb_spec (List.length (fst (squeezeShape [s0; s1; s2; s3])))
                         (List.length [s0; s1; s2; s3])) as [Hlt | Hge].
  - exact (squeezed_encodes rec inputInfo [s0; s1; s2; s3] C (eq_sym Hshape)
             (Hrec Hlt)).
  - cbn [dim nth].
    destruct (Z.eqb_spec C (s1 * (s2 * s3))) as [-> | HC0];
      [| destruct (Z.eqb_spec C s3) as [-> | HC1]];
      plain_sampler; intros coords Hb;
      destruct (inBounds_4 _ _ _ _ _ Hb)
        as [a [b [c [d [-> [Ha [Hb' [Hc Hd]]]]]]]];
      rewrite flatIndex_4;
      pose proof (mixed_bound c d s2 s3 Hc Hd) as Hcd;
      pose proof (mixed_bound b (c * s3 + d) s1 (s2 * s3) Hb' Hcd) as Hbcd.
    + texel_at. split; [lia |]. split; [lia | ring].
    + texel_at. pose proof (mixed_bound a b s0 s1 Ha Hb') as Hab.
      pose proof (mixed_bound (a * s1 + b) c (s0 * s1) s2 Hab Hc).
      split; [lia |]. split; [lia | ring].
    + rewrite HUV.
      assert (0 <= a * (s1 * (s2 * s3))) by nia.
      destruct (uvFromFlat_spec R C
                  (a * (s1 * (s2 * s3)) + b * (s2 * s3) + c * s3 + d) HC
                  ltac:(lia)) as [x [y [E H']]].
      exists x, y. rewrite E. split; [reflexivity | lia].
Qed.

Lemma squeezeFrom_prod shape : forall i,
  prod (fst (squeezeFrom i shape)) = prod shape.
Proof.
  induction shape as [| s shape IH]; intros i; [reflexivity |].
  simpl. specialize (IH (S i)).
  destruct (squeezeFrom (S i) shape) as [ns kd]. simpl in IH.
  destruct (Z.eqb_spec s 1) as [-> | Hs]; simpl.
  - rewrite IH. unfold prod. destruct (fold_right Z.mul 1 shape); reflexivity.
  - unfold prod in *. simpl. rewrite IH. reflexivity.
Qed.

Lemma getSamplerFromInInfoCS_fuel_encodes UVfrom3D UVfrom4D :
  UVfrom3D_flat UVfrom3D -> UVfrom4D_flat UVfrom4D ->
  forall fuel inInfo,
  (List.length (logicalShape (shapeInfo inInfo)) < fuel)%nat ->
  (List.length (logicalShape (shapeInfo inInfo)) <= 4)%nat ->
  isUniform (shapeInfo inInfo) = false ->
  0 < snd (texShape (shapeInfo inInfo)) ->
  prod (logicalShape (shapeInfo inInfo))
    <= fst (texShape (shapeInfo inInfo)) * snd (texShape (shapeInfo inInfo)) ->
  encodes (getSamplerFromInInfoCS_fuel UVfrom3D UVfrom4D fuel inInfo)
          (logicalShape (shapeInfo inInfo))
          (snd (texShape (shapeInfo inInfo))).
Proof.
  intros H3 H4. induction fuel as [| fuel IH]; intros inInfo Hf Hr Hu HC Hcap;
    [lia |].
  assert (Hrec : forall shape,
            logicalShape (shapeInfo inInfo) = shape ->
            (List.length (fst (squeezeShape shape)) < List.length shape)%nat ->
            encodes (getSamplerFromInInfoCS_fuel UVfrom3D UVfrom4D fuel
                       (squeezeInputInfo inInfo (fst (squeezeShape shape))))
                    (fst (squeezeShape shape))
                    (snd (texShape (shapeInfo inInfo)))).
  { intros shape Hshape Hlt. rewrite Hshape in *.
    apply (IH (squeezeInputInfo inInfo (fst (squeezeShape shape))));
      cbn [squeezeInputInfo shapeInfo logicalShape texShape isUniform];
      try assumption; try lia.
    unfold squeezeShape. rewrite squeezeFrom_prod. exact Hcap. }
  cbn [getSamplerFromInInfoCS_fuel].
  destruct (logicalShape (shapeInfo inInfo))
    as [| s0 [| s1 [| s2 [| s3 [| s4 rest]]]]] eqn:Hshape;
    cbn [List.length] in *.
  - apply getSamplerScalarCS_encodes; assumption.
  - apply getSampler1DCS_encodes; try assumption.
    unfold prod in Hcap. simpl in Hcap. lia.
  - apply getSampler2DCS_encodes; try assumption.
    + unfold prod in Hcap. simpl in Hcap. lia.
    + intros Hlt. apply Hrec; [reflexivity | exact Hlt].
  - apply getSampler3DCS_encodes; try assumption.
    intros Hlt. apply Hrec; [reflexivity | exact Hlt].
  - apply getSampler4DCS_encodes; try assumption.
    intros Hlt. apply Hrec; [reflexivity | exact Hlt].
  - lia.
Qed.

Lemma getOutputSamplingSnippetCS_decodes shape R C :
  (1 <= List.length shape <= 4)%nat -> 0 < C -> prod shape <= R * C ->
  exists d,
    result (getOutputSamplingSnippetCS shape (R, C)) = Returned (Indexed d) /\
    decodes d shape C.
Proof.
  intros Hr HC Hcap.
  destruct shape as [| s0 [| s1 [| s2 [| s3 [| s4 rest]]]]];
    cbn [List.length] in Hr; try lia;
    unfold prod in Hcap; simpl in Hcap;
    eexists; (split; [reflexivity |]).
  - apply getOutput1DCoordsCS_decodes; [assumption | lia].
  - apply getOutput2DCoordsCS_decodes; [assumption | lia].
  - apply getOutput3DCoordsCS_decodes.
  - apply getOutput4DCoordsCS_decodes.
Qed.

(** *** Packed tensors: the decoder gives the origin of the 2 x 2 block *)

Lemma half_bound (c s : Z) : 0 <= c < s -> 0 <= c ÷ 2 < ceil_div s 2.
Proof.
  intros Hc. rewrite Z.quot_div_nonneg by lia.
  pose proof (ceil_div_spec s 2 ltac:(lia)).
  pose proof (Z.div_mod c 2 ltac:(lia)).
  pose proof (Z.mod_pos_bound c 2 ltac:(lia)).
  lia.
Qed.

Lemma half_quot (c : Z) : 0 <= c -> c ÷ 2 = c / 2.
Proof. intros Hc. apply Z.quot_div_nonneg; lia. Qed.

Lemma imod_stride (q r stride : Z) :
  0 <= q -> 0 <= r < stride -> imod (q * stride + r) stride = r.
Proof.
  intros Hq Hr. unfold imod. rewrite quot_stride by assumption. ring.
Qed.

Lemma getPackedSampler1DCS_round_trip inputInfo s :
  logicalShape (shapeInfo inputInfo) = [s] ->
  let packed := packedTexShape (texShape (shapeInfo inputInfo)) in
  fst packed = 1 \/ snd packed = 1 ->
  0 < snd packed ->
  ceil_div s 2 <= fst packed * snd packed ->
  exists f,
    result (getPackedSampler1DCS inputInfo) = Returned f /\
    roundTrips f (getOutputPacked1DCoordsCS [s] (texShape (shapeInfo inputInfo)))
               [s] blockOrigin.
Proof.
  intros Hshape packed. unfold getPackedSampler1DCS, getOutputPacked1DCoordsCS.
  fold packed. destruct packed as [pR pC]. cbn [fst snd].
  intros Hone HC Hcap.
  eexists. split; [reflexivity |].
  intros coords Hb. destruct (inBounds_1 _ _ Hb) as [i [-> Hi]].
  eexists. split; [reflexivity |].
  unfold packedUVfrom1D.
  pose proof (half_bound i s Hi) as Hh.
  cbn [blockOrigin]. rewrite <- (half_quot i) by lia.
  destruct (Z.eqb_spec pR 1) as [HR | HR].
  - subst pR. cbn [fst snd]. rewrite (Z.quot_small (i ÷ 2) pC) by lia.
    f_equal. lia.
  - destruct Hone as [Hone | Hone]; [contradiction |].
    subst pC. rewrite Z.eqb_refl.
    cbn [fst snd]. rewrite Z.quot_1_r. reflexivity.
Qed.

Lemma getPackedSampler2DCS_round_trip inputInfo s0 s1 :
  logicalShape (shapeInfo inputInfo) = [s0; s1] ->
  arraysEqual [s0; s1] (texShape (shapeInfo inputInfo)) = false ->
  exists f,
    result (getPackedSampler2DCS inputInfo) = Returned f /\
    roundTrips f
      (getOutputPacked2DCoordsCS [s0; s1] (texShape (shapeInfo inputInfo)))
      [s0; s1] blockOrigin.
Proof.
  intros Hshape Hne. unfold getPackedSampler2DCS, getOutputPacked2DCoordsCS.
  rewrite Hshape, Hne.
  eexists. split; [reflexivity |].
  intros coords Hb.
  destruct (inBounds_2 _ _ _ Hb) as [a [b [-> [Ha Hb']]]].
  eexists. split; [reflexivity |].
  unfold packedUVfrom2D, texelIndex2D. cbn [fst snd dim nth blockOrigin].
  pose proof (half_bound a s0 Ha) as Hha.
  pose proof (half_bound b s1 Hb') as Hhb.
  rewrite <- (half_quot a), <- (half_quot b) by lia.
  match goal with
  | |- context [?q * ?c + (?i - ?q * ?c)] =>
      replace (q * c + (i - q * c)) with i by ring
  end.
  rewrite quot_stride, imod_stride by lia.
  f_equal. f_equal. ring.
Qed.

Lemma getPackedSampler3DCS_round_trip rec inputInfo s0 s1 s2 :
  logicalShape (shapeInfo inputInfo) = [s0; s1; s2] ->
  s0 <> 1 ->
  exists r f,
    getPackedSampler3DCS rec inputInfo = Some r /\
    result r = Returned f /\
    roundTrips f
      (getOutputPacked3DCoordsCS [s0; s1; s2] (texShape (shapeInfo inputInfo)))
      [s0; s1; s2] blockOrigin.
Proof.
  intros Hshape Hne. unfold getPackedSampler3DCS, getOutputPacked3DCoordsCS.
  rewrite Hshape. cbn [dim nth].
  destruct (Z.eqb_spec s0 1) as [| _]; [contradiction |].
  eexists _, _. split; [reflexivity |]. split; [reflexivity |].
  intros coords Hb.
  destruct (inBounds_3 _ _ _ _ Hb) as [a [b [c [-> [Ha [Hb' Hc]]]]]].
  eexists. split; [reflexivity |].
  unfold packedUVfrom3D. cbn [fst snd blockOrigin].
  pose proof (half_bound b s1 Hb') as Hhb.
  pose proof (half_bound c s2 Hc) as Hhc.
  rewrite <- (half_quot b), <- (half_quot c) by lia.
  match goal with
  | |- context [?q * ?n + (?i - ?q * ?n)] =>
      replace (q * n + (i - q * n)) with i by ring
  end.
  pose proof (mixed_bound (b ÷ 2) (c ÷ 2) (ceil_div s1 2) (ceil_div s2 2)
                Hhb Hhc) as Hin.
  set (W := ceil_div s2 2) in *. set (H := ceil_div s1 2) in *.
  replace (a * (W * H) + b ÷ 2 * W + c ÷ 2)
    with (a * (W * H) + (b ÷ 2 * W + c ÷ 2)) by ring.
  rewrite (quot_stride a (b ÷ 2 * W + c ÷ 2) (W * H)) by lia.
  replace (a * (W * H) + (b ÷ 2 * W + c ÷ 2) - a * (W * H))
    with (b ÷ 2 * W + c ÷ 2) by ring.
  rewrite quot_stride, imod_stride by lia.
  f_equal. f_equal. f_equal. ring.
Qed.

Lemma getPackedSampler3DCS_squeezed_round_trip fuel inputInfo s1 s2 :
  logicalShape (shapeInfo inputInfo) = [1; s1; s2] ->
  arraysEqual [s1; s2] (texShape (shapeInfo inputInfo)) = false ->
  exists r f,
    getPackedSampler3DCS (getPackedSamplerFromInInfoCS_fuel (S fuel)) inputInfo
      = Some r /\
    result r = Returned f /\
    roundTrips f
      (getOutputPacked3DCoordsCS [1; s1; s2] (texShape (shapeInfo inputInfo)))
      [1; s1; s2] blockOrigin.
Proof.
  intros Hshape Hne. unfold getPackedSampler3DCS, squeezed.
  rewrite Hshape. cbn [dim nth tl Z.eqb Pos.eqb].
  cbn [getPackedSamplerFromInInfoCS_fuel squeezeInputInfo shapeInfo
       logicalShape List.length].
  unfold getPackedSampler2DCS, getOutputPacked3DCoordsCS.
  cbn [squeezeInputInfo shapeInfo logicalShape texShape]. rewrite Hne.
  eexists _, _. split; [reflexivity |]. split; [reflexivity |].
  intros coords Hb.
  destruct (inBounds_3 _ _ _ _ Hb) as [a [b [c [-> [Ha [Hb' Hc]]]]]].
  assert (a = 0) by lia. subst a.
  eexists. split; [reflexivity |].
  unfold packedUVfrom2D, texelIndex2D. cbn [fst snd dim nth blockOrigin].
  pose proof (half_bound b s1 Hb') as Hhb.
  pose proof (half_bound c s2 Hc) as Hhc.
  rewrite <- (half_quot b), <- (half_quot c) by lia.
  match goal with
  | |- context [?q * ?n + (?i - ?q * ?n)] =>
      replace (q * n + (i - q * n)) with i by ring
  end.
  pose proof (mixed_bound (b ÷ 2) (c ÷ 2) (ceil_div s1 2) (ceil_div s2 2)
                Hhb Hhc) as Hin.
  set (W := ceil_div s2 2) in *. set (H := ceil_div s1 2) in *.
  rewrite (Z.quot_small (b ÷ 2 * W + c ÷ 2) (W * H)) by lia.
  replace (b ÷ 2 * W + c ÷ 2 - 0 * (W * H)) with (b ÷ 2 * W + c ÷ 2) by ring.
  rewrite quot_stride, imod_stride by lia.
  f_equal. f_equal. f_equal. ring.
Qed.

(** **** Packed tensors of rank 4 and more: a mixed-radix index *)

Lemma batchMultipliers_length ds : forall t,
  List.length (batchMultipliers t ds) = List.length ds.
Proof.
  induction ds as [| d ds IH]; intros t; [reflexivity |].
  cbn [batchMultipliers]. rewrite length_app, IH. simpl. lia.
Qed.

Lemma weighted_app bs ms b m :
  List.length bs = List.length ms ->
  weighted (bs ++ [b]) (ms ++ [m]) = weighted bs ms + b * m.
Proof.
  revert ms. induction bs as [| b0 bs IH]; intros [| m0 ms] Hlen;
    simpl in Hlen; try discriminate.
  - simpl. lia.
  - cbn [app weighted]. rewrite IH by lia. ring.
Qed.

Lemma peelBatches_app ms m : forall index,
  peelBatches index (ms ++ [m])
  = (fst (peelBatches index ms) ++ [snd (peelBatches index ms) ÷ m],
     snd (peelBatches index ms) - snd (peelBatches index ms) ÷ m * m).
Proof.
  induction ms as [| m0 ms IH]; intros index.
  - reflexivity.
  - cbn [app peelBatches]. rewrite IH.
    destruct (peelBatches (index - index ÷ m0 * m0) ms) as [bs i']. reflexivity.
Qed.

Lemma Forall2_rev_bound (ss cs : list Z) :
  inBounds ss cs -> inBounds (rev ss) (rev cs).
Proof.
  induction 1 as [| s c ss cs Hc Hrest IH]; [constructor |].
  simpl. apply Forall2_app; [exact IH |]. constructor; [exact Hc | constructor].
Qed.

(** Peeling the batch coordinates off an index, outermost axis first, gives
    back the coordinates the index was built from. *)
Lemma peelBatches_weighted ds : forall d t s0 bsr inner,
  inBounds (ds ++ [s0]) bsr ->
  0 <= inner < t * d ->
  peelBatches (weighted (rev bsr) (batchMultipliers t (d :: ds)) + inner)
              (batchMultipliers t (d :: ds))
  = (rev bsr, inner).
Proof.
  induction ds as [| d' ds IH]; intros d t s0 bsr inner Hb Hi.
  - destruct (inBounds_1 _ _ Hb) as [c [-> Hc]].
    cbn [batchMultipliers app rev weighted peelBatches].
    replace (c * (t * d) + 0 + inner) with (c * (t * d) + inner) by ring.
    rewrite quot_stride by lia. f_equal. ring.
  - inversion Hb as [| ? c ? bsr' Hc Hrest]; subst.
    change (batchMultipliers t (d :: d' :: ds))
      with (batchMultipliers (t * d) (d' :: ds) ++ [t * d]).
    cbn [rev].
    assert (Hlen : List.length (rev bsr')
                   = List.length (batchMultipliers (t * d) (d' :: ds))).
    { rewrite length_rev, batchMultipliers_length.
      rewrite <- (Forall2_length Hrest), length_app. simpl. lia. }
    rewrite weighted_app by exact Hlen.
    pose proof (mixed_bound c inner d' (t * d) Hc Hi) as Hin.
    replace (weighted (rev bsr') (batchMultipliers (t * d) (d' :: ds))
             + c * (t * d) + inner)
      with (weighted (rev bsr') (batchMultipliers (t * d) (d' :: ds))
            + (c * (t * d) + inner)) by ring.
    rewrite peelBatches_app.
    rewrite (IH d' (t * d) s0 bsr' (c * (t * d) + inner) Hrest)
      by (replace (t * d * d') with (d' * (t * d)) by ring; exact Hin).
    cbn [fst snd]. rewrite quot_stride by lia. f_equal. ring.
Qed.

Lemma blockOrigin_batches outer b r c :
  blockOrigin (outer ++ [b; r; c]) = outer ++ [b; 2 * (r / 2); 2 * (c / 2)].
Proof.
  induction outer as [| o outer IH]; [reflexivity |].
  cbn [app]. rewrite <- IH.
  destruct outer as [| o1 [| o2 outer]]; reflexivity.
Qed.

Lemma split_last3 (l : list Z) :
  (4 <= List.length l)%nat ->
  exists s0 os sb sr sc, l = (s0 :: os) ++ [sb; sr; sc].
Proof.
  intros Hlen. rewrite <- (rev_involutive l).
  assert (Hr : (4 <= List.length (rev l))%nat) by (rewrite length_rev; exact Hlen).
  destruct (rev l) as [| sc [| sr [| sb rest]]]; simpl in Hr; try lia.
  assert (Hrest : rev rest <> []).
  { intros E. apply (f_equal (@List.length Z)) in E.
    rewrite length_rev in E. simpl in E. lia. }
  destruct (rev rest) as [| s0 os] eqn:E; [contradiction |].
  exists s0, os, sb, sr, sc. simpl. rewrite E.
  repeat rewrite <- app_assoc. reflexivity.
Qed.

Lemma getPackedSamplerNDCS_round_trip inputInfo s0 os sb sr sc :
  logicalShape (shapeInfo inputInfo) = (s0 :: os) ++ [sb; sr; sc] ->
  exists f,
    result (getPackedSamplerNDCS inputInfo) = Returned f /\
    roundTrips f
      (getOutputPackedNDCoordsCS ((s0 :: os) ++ [sb; sr; sc])
                                 (texShape (shapeInfo inputInfo)))
      ((s0 :: os) ++ [sb; sr; sc]) blockOrigin.
Proof.
  intros Hshape. unfold getPackedSamplerNDCS, getOutputPackedNDCoordsCS.
  rewrite Hshape.
  set (shape := (s0 :: os) ++ [sb; sr; sc]).
  assert (Hlen : List.length shape = (List.length (s0 :: os) + 3)%nat).
  { unfold shape. rewrite length_app. reflexivity. }
  assert (E1 : dim shape (List.length shape - 1) = sc).
  { rewrite Hlen. unfold dim, shape.
    replace (List.length (s0 :: os) + 3 - 1)%nat
      with (List.length (s0 :: os) + 2)%nat by lia.
    rewrite app_nth2_plus. reflexivity. }
  assert (E2 : dim shape (List.length shape - 2) = sr).
  { rewrite Hlen. unfold dim, shape.
    replace (List.length (s0 :: os) + 3 - 2)%nat
      with (List.length (s0 :: os) + 1)%nat by lia.
    rewrite app_nth2_plus. reflexivity. }
  assert (E3 : outerDimsInnerFirst shape = sb :: rev os).
  { unfold outerDimsInnerFirst. rewrite Hlen. unfold shape.
    cbn [app tl List.length].
    replace (S (List.length os) + 3 - 3)%nat
      with (List.length os + 1)%nat by lia.
    rewrite firstn_app_2. cbn [firstn]. rewrite rev_app_distr. reflexivity. }
  rewrite E1, E2, E3.
  set (W := ceil_div sc 2). set (H := ceil_div sr 2).
  set (ms := batchMultipliers (W * H) (sb :: rev os)).
  assert (Hms : List.length ms = List.length (s0 :: os)).
  { unfold ms. rewrite batchMultipliers_length. simpl. rewrite length_rev.
    reflexivity. }
  eexists. split; [reflexivity |].
  intros coords Hb.
  destruct (Forall2_app_inv_l _ _ Hb) as [oc [inner [Ho [Hi ->]]]].
  destruct (inBounds_3 _ _ _ _ Hi) as [b [r [c [-> [Hb' [Hr Hc]]]]]].
  assert (Hoc : List.length oc = List.length ms).
  { rewrite Hms. symmetry. exact (Forall2_length Ho). }
  eexists. split.
  - rewrite length_app. cbn [List.length].
    rewrite Hoc, Nat.eqb_refl. rewrite <- Hoc.
    rewrite (firstn_app (List.length oc)), firstn_all, Nat.sub_diag.
    cbn [firstn]. rewrite app_nil_r.
    rewrite nth_middle.
    rewrite (app_nth2_plus oc [b; r; c] 0 1), (app_nth2_plus oc [b; r; c] 0 2).
    cbn [nth]. reflexivity.
  - cbn [fst snd].
    match goal with
    | |- context [?q * ?n + (?i - ?q * ?n)] =>
        replace (q * n + (i - q * n)) with i by ring
    end.
    pose proof (half_bound r sr Hr) as Hhr.
    pose proof (half_bound c sc Hc) as Hhc.
    fold W in Hhc. fold H in Hhr.
    pose proof (mixed_bound (r ÷ 2) (c ÷ 2) H W Hhr Hhc) as Hin.
    assert (Hin2 : 0 <= b * (W * H) + r ÷ 2 * W + c ÷ 2 < W * H * sb).
    { pose proof (mixed_bound b (r ÷ 2 * W + c ÷ 2) sb (W * H) Hb'
                    ltac:(lia)). lia. }
    pose proof (peelBatches_weighted (rev os) sb (W * H) s0 (rev oc)
                  (b * (W * H) + r ÷ 2 * W + c ÷ 2)) as Hpeel.
    rewrite rev_involutive in Hpeel. fold ms in Hpeel.
    rewrite Hpeel.
    + rewrite blockOrigin_batches.
      rewrite <- (half_quot r), <- (half_quot c) by lia.
      replace (b * (W * H) + r ÷ 2 * W + c ÷ 2)
        with (b * (W * H) + (r ÷ 2 * W + c ÷ 2)) by ring.
      rewrite (quot_stride b (r ÷ 2 * W + c ÷ 2) (W * H)) by lia.
      replace (b * (W * H) + (r ÷ 2 * W + c ÷ 2) - b * (W * H))
        with (r ÷ 2 * W + c ÷ 2) by ring.
      rewrite quot_stride, imod_stride by lia.
      f_equal. f_equal. f_equal. f_equal. ring.
    + replace (rev os ++ [s0]) with (rev (s0 :: os)) by reflexivity.
      apply Forall2_rev_bound. exact Ho.
    + exact Hin2.
Qed.

Lemma packed_dispatch_ND inInfo tex :
  (4 <= List.length (logicalShape (shapeInfo inInfo)))%nat ->
  getPackedSamplerFromInInfoCS inInfo = Some (getPackedSamplerNDCS inInfo) /\
  getPackedOutputSamplingSnippetCS (logicalShape (shapeInfo inInfo)) tex
  = ret (getOutputPackedNDCoordsCS (logicalShape (shapeInfo inInfo)) tex).
Proof.
  intros Hlen.
  unfold getPackedSamplerFromInInfoCS, getPackedOutputSamplingSnippetCS.
  cbn [getPackedSamplerFromInInfoCS_fuel].
  destruct (logicalShape (shapeInfo inInfo))
    as [| s0 [| s1 [| s2 [| s3 rest]]]]; simpl in Hlen; try lia.
  split; reflexivity.
Qed.

Lemma unpacked_round_trip UVfrom3D UVfrom4D inInfo :
  UVfrom3D_flat UVfrom3D -> UVfrom4D_flat UVfrom4D ->
  (1 <= List.length (logicalShape (shapeInfo inInfo)) <= 4)%nat ->
  isUniform (shapeInfo inInfo) = false ->
  0 < snd (texShape (shapeInfo inInfo)) ->
  prod (logicalShape (shapeInfo inInfo))
    <= fst (texShape (shapeInfo inInfo)) * snd (texShape (shapeInfo inInfo)) ->
  exists r f d,
    getSamplerFromInInfoCS UVfrom3D UVfrom4D inInfo = Some r /\
    result r = Returned f /\
    result (getOutputSamplingSnippetCS (logicalShape (shapeInfo inInfo))
                                       (texShape (shapeInfo inInfo)))
      = Returned (Indexed d) /\
    roundTrips f d (logicalShape (shapeInfo inInfo)) (fun coords => coords).
Proof.
  intros H3 H4 Hr Hu HC Hcap.
  destruct (getSamplerFromInInfoCS_fuel_encodes UVfrom3D UVfrom4D H3 H4
              (S (List.length (logicalShape (shapeInfo inInfo)))) inInfo
              ltac:(lia) ltac:(lia) Hu HC Hcap) as [r [f [Hs [Hres Ha]]]].
  rewrite (surjective_pairing (texShape (shapeInfo inInfo))).
  destruct (getOutputSamplingSnippetCS_decodes
              (logicalShape (shapeInfo inInfo))
              (fst (texShape (shapeInfo inInfo)))
              (snd (texShape (shapeInfo inInfo))) Hr HC Hcap) as [d [Hd Hdec]].
  exists r, f, d. repeat split; try assumption.
  intros coords Hb. destruct (Ha coords Hb) as [x [y [E [Hx [Hy Hflat]]]]].
  exists (x, y). split; [exact E |].
  apply Hdec; assumption.
Qed.

Lemma packed_round_trip inInfo :
  blockConsistent (logicalShape (shapeInfo inInfo))
                  (texShape (shapeInfo inInfo)) ->
  exists r f d,
    getPackedSamplerFromInInfoCS inInfo = Some r /\
    result r = Returned f /\
    result (getPackedOutputSamplingSnippetCS (logicalShape (shapeInfo inInfo))
                                             (texShape (shapeInfo inInfo)))
      = Returned d /\
    roundTrips f d (logicalShape (shapeInfo inInfo)) blockOrigin.
Proof.
  intros Hok.
  destruct (le_lt_dec 4 (List.length (logicalShape (shapeInfo inInfo))))
    as [Hge | Hlt].
  - destruct (packed_dispatch_ND inInfo (texShape (shapeInfo inInfo)) Hge)
      as [Es Ed].
    rewrite Es, Ed.
    destruct (split_last3 _ Hge) as [s0 [os [sb [sr [sc E]]]]].
    destruct (getPackedSamplerNDCS_round_trip inInfo s0 os sb sr sc E)
      as [f [Hres Hrt]].
    rewrite E. eexists _, f, _.
    split; [reflexivity |]. split; [exact Hres |]. split; [reflexivity |].
    exact Hrt.
  - unfold getPackedSamplerFromInInfoCS, getPackedOutputSamplingSnippetCS.
    cbn [getPackedSamplerFromInInfoCS_fuel].
    destruct (logicalShape (shapeInfo inInfo))
      as [| s0 [| s1 [| s2 [| s3 rest]]]] eqn:Hshape;
      simpl in Hlt; try lia; cbn [List.length].
    + contradiction.
    + destruct Hok as [Hone [HC Hcap]].
      destruct (getPackedSampler1DCS_round_trip inInfo s0 Hshape Hone HC Hcap)
        as [f [Hres Hrt]].
      eexists _, f, _.
      split; [reflexivity |]. split; [exact Hres |]. split; [reflexivity |].
      exact Hrt.
    + destruct (getPackedSampler2DCS_round_trip inInfo s0 s1 Hshape Hok)
        as [f [Hres Hrt]].
      eexists _, f, _.
      split; [reflexivity |]. split; [exact Hres |]. split; [reflexivity |].
      exact Hrt.
    + cbn [blockConsistent] in Hok.
      destruct (Z.eq_dec s0 1) as [-> | Hne].
      * destruct (getPackedSampler3DCS_squeezed_round_trip 2 inInfo s1 s2
                    Hshape (Hok eq_refl)) as [r [f [Hs [Hres Hrt]]]].
        exists r, f. eexists.
        split; [exact Hs |]. split; [exact Hres |]. split; [reflexivity |].
        exact Hrt.
      * destruct (getPackedSampler3DCS_round_trip
                    (getPackedSamplerFromInInfoCS_fuel 3) inInfo s0 s1 s2
                    Hshape Hne) as [r [f [Hs [Hres Hrt]]]].
        exists r, f. eexists.
        split; [exact Hs |]. split; [exact Hres |]. split; [reflexivity |].
        exact Hrt.
Qed.

(** C7, as the claim is worded, fails on packed tensors: a texel of a packed
    texture holds a 2 x 2 block, so the packed decoder can only give one
    coordinate for the four that are encoded to the texel.  In a packed
    2 x 8 matrix the coordinate (1, 3) is encoded to texel (1, 0), and that
    texel is decoded to (0, 2). *)
Lemma C7_packed_coordinate_not_recovered :
  exists r f d,
    getPackedSamplerFromInInfoCS packedMatrix = Some r /\
    result r = Returned f /\
    result (getPackedOutputSamplingSnippetCS
              (logicalShape (shapeInfo packedMatrix))
              (texShape (shapeInfo packedMatrix))) = Returned d /\
    inBounds (logicalShape (shapeInfo packedMatrix)) [1; 3] /\
    f 0 [1; 3] = Texel (1, 0) /\
    d (1, 0) = [0; 2] /\
    d (1, 0) <> [1; 3].
Proof.
  eexists _, _, _.
  split; [reflexivity |]. split; [reflexivity |]. split; [reflexivity |].
  split; [repeat constructor; simpl; lia |].
  split; [reflexivity |]. split; [reflexivity | discriminate].
Qed.

(** C7, amended.  On the compute-shader path, with [UVfrom3D] and [UVfrom4D]
    giving the texel of the row-major flat index:
    - for an unpacked tensor of rank 1 to 4 that is not a uniform, in a
      texture that holds it, the input function made by
      [getSamplerFromInInfoCS] is made without an error, and for every
      coordinate within the logical shape the texel it fetches is decoded by
      the decoder of [getOutputSamplingSnippetCS] to the same coordinate;
    - for a packed tensor on which the two generators agree
      ([blockConsistent]), the input function of
      [getPackedSamplerFromInInfoCS] and the decoder of
      [getPackedOutputSamplingSnippetCS] give, for every coordinate within
      the logical shape, the origin of its 2 x 2 block: the coordinate with
      its last two components rounded down to even. *)
Theorem C7_compute_shader_round_trip :
  forall UVfrom3D UVfrom4D (inInfo : InputInfo),
    UVfrom3D_flat UVfrom3D -> UVfrom4D_flat UVfrom4D ->
    let shape := logicalShape (shapeInfo inInfo) in
    let tex := texShape (shapeInfo inInfo) in
    ((1 <= List.length shape <= 4)%nat ->
     isUniform (shapeInfo inInfo) = false ->
     0 < snd tex -> prod shape <= fst tex * snd tex ->
     exists r f d,
       getSamplerFromInInfoCS UVfrom3D UVfrom4D inInfo = Some r /\
       result r = Returned f /\
       result (getOutputSamplingSnippetCS shape tex) = Returned (Indexed d) /\
       roundTrips f d shape (fun coords => coords)) /\
    (blockConsistent shape tex ->
     exists r f d,
       getPackedSamplerFromInInfoCS inInfo = Some r /\
       result r = Returned f /\
       result (getPackedOutputSamplingSnippetCS shape tex) = Returned d /\
       roundTrips f d shape blockOrigin).
Proof.
  intros UVfrom3D UVfrom4D inInfo H3 H4 shape tex. split.
  - intros Hr Hu HC Hcap.
    exact (unpacked_round_trip UVfrom3D UVfrom4D inInfo H3 H4 Hr Hu HC Hcap).
  - intros Hok. exact (packed_round_trip inInfo Hok).
Qed.

Lemma C7_compute_shader_round_trip_witness :
  UVfrom3D_flat flatUVfrom3D /\ UVfrom4D_flat flatUVfrom4D /\
  (1 <= List.length (logicalShape (shapeInfo unpackedTensor)) <= 4)%nat /\
  isUniform (shapeInfo unpackedTensor) = false /\
  0 < snd (texShape (shapeInfo unpackedTensor)) /\
  prod (logicalShape (shapeInfo unpackedTensor))
    <= fst (texShape (shapeInfo unpackedTensor))
       * snd (texShape (shapeInfo unpackedTensor)) /\
  blockConsistent (logicalShape (shapeInfo unpackedTensor))
                  (texShape (shapeInfo unpackedTensor)) /\
  (exists r f d,
     getSamplerFromInInfoCS flatUVfrom3D flatUVfrom4D unpackedTensor = Some r /\
     result r = Returned f /\
     result (getOutputSamplingSnippetCS
               (logicalShape (shapeInfo unpackedTensor))
               (texShape (shapeInfo unpackedTensor)))
       = Returned (Indexed d) /\
     roundTrips f d (logicalShape (shapeInfo unpackedTensor))
                (fun coords => coords)) /\
  (exists r f d,
     getPackedSamplerFromInInfoCS unpackedTensor = Some r /\
     result r = Returned f /\
     result (getPackedOutputSamplingSnippetCS
               (logicalShape (shapeInfo unpackedTensor))
               (texShape (shapeInfo unpackedTensor))) = Returned d /\
     roundTrips f d (logicalShape (shapeInfo unpackedTensor)) blockOrigin).
Proof.
  assert (H3 : UVfrom3D_flat flatUVfrom3D) by (intros ? ? ? ? ? ? ?; reflexivity).
  assert (H4 : UVfrom4D_flat flatUVfrom4D)
    by (intros ? ? ? ? ? ? ? ? ?; reflexivity).
  assert (Hr : (1 <= List.length (logicalShape (shapeInfo unpackedTensor)) <= 4)%nat)
    by (simpl; lia).
  assert (HC : 0 < snd (texShape (shapeInfo unpackedTensor))) by (simpl; lia).
  assert (Hcap : prod (logicalShape (shapeInfo unpackedTensor))
                 <= fst (texShape (shapeInfo unpackedTensor))
                    * snd (texShape (shapeInfo unpackedTensor)))
    by (vm_compute; discriminate).
  assert (Hok : blockConsistent (logicalShape (shapeInfo unpackedTensor))
                                (texShape (shapeInfo unpackedTensor)))
    by (simpl; intros E; discriminate E).
  split; [exact H3 |]. split; [exact H4 |]. split; [exact Hr |].
  split; [reflexivity |]. split; [exact HC |]. split; [exact Hcap |].
  split; [exact Hok |].
  destruct (C7_compute_shader_round_trip flatUVfrom3D flatUVfrom4D
              unpackedTensor H3 H4) as [Hu Hp].
  split; [exact (Hu Hr eq_refl HC Hcap) | exact (Hp Hok)].
Defined.

(** ** The four tilings against the naive product *)

(** C1 does not hold: two defects keep the kernels from the naive product.

    The generated [get<Name>] of a packed matrix held in a texture of the
    matrix's own shape ([getPackedSampler2DCS], reached from
    [getPackedSampler3DCS] for a batch of 1) fetches the texel at
    [ivec2(col, row)], where the texel of the block is at
    [(col / 2, row / 2)] (as the decoder of the same texture has it, and as
    the sampling sibling [getPackedSampler2D] addresses it): for a 2 x 8
    matrix [B] the function of rank 3 fetches texel (2, 0) for the block at
    column 2, and that texel is decoded to column 4.  With such textures
    each of the four kernels stores at packed column 1 of a 2 x 8 output
    the texel of the product that belongs at packed column 2.

    The kernel of [MatMulPackedProgramCSV2] declares [vec4 result[WPT];]
    and accumulates with [result[w] += ...] without ever assigning the
    array, where [MatMulPackedProgramCS] starts from [vec4 result = vec4(0)]
    and the other two zero their accumulators in a loop.  With textures of
    other shapes than the matrices' own, on a 4 x 8 output with tiles of
    2 x 2 texels, for each setting of the transposition flags and for a
    shared dimension the tile size divides (8) and one it does not (6): the
    kernels of the other three classes store exactly the texels of the
    naive triple-loop product on every texel of the output, whatever shared
    memory and registers held and whatever a fetch outside a texture
    returns; the kernel of [MatMulPackedProgramCSV2] does so when its
    registers start from 0, and stores the product plus the previous
    content of its registers otherwise. *)
Theorem C1_kernels_against_the_naive_product :
  (exists r f d,
     ShaderCompiler.getPackedSamplerFromInInfoCS
       (matrixInfo "matrixB" (1, 2, 8) (ownTexture (1, 2, 8))) = Some r /\
     result r = Returned f /\
     result (ShaderCompiler.getPackedOutputSamplingSnippetCS
               (shapeList (1, 2, 8)) (ownTexture (1, 2, 8))) = Returned d /\
     f 0 [0; 0; 2] = ShaderCompiler.Texel (2, 0) /\
     d (2, 0) = [0; 0; 4] /\
     d (1, 0) = [0; 0; 2]) /\
  sameShapeComparison /\
  Forall comparison cases.
Proof.
  split; [| split].
  - eexists _, _, _. repeat split; reflexivity.
  - intros outsideA outsideB. vm_compute.
    repeat split; try reflexivity; discriminate.
  - unfold cases. cbn [flat_map app].
    repeat (apply Forall_cons || apply Forall_nil);
      intros outsideA outsideB; vm_compute; repeat split; reflexivity.
Qed.

(** ** The four kernels on every input *)

Lemma fold_left_ext_In {A B : Type} (f g : A -> B -> A) (l : list B) :
  (forall a x, In x l -> f a x = g a x) ->
  forall a, fold_left f l a = fold_left g l a.
Proof.
  induction l as [| x l IH]; intros H a; [reflexivity |].
  simpl. rewrite (H a x) by (left; reflexivity).
  apply IH. intros a' y Hy. apply H. right. exact Hy.
Qed.

Lemma fold_left_flat_map {A B C : Type} (f : A -> C -> A) (g : B -> list C)
    (l : list B) : forall a,
  fold_left f (flat_map g l) a = fold_left (fun a x => fold_left f (g x) a) l a.
Proof.
  induction l as [| x l IH]; intros a; [reflexivity |].
  simpl. rewrite fold_left_app. apply IH.
Qed.

Lemma fold_left_map {A B C : Type} (f : A -> C -> A) (g : B -> C)
    (l : list B) : forall a,
  fold_left f (map g l) a = fold_left (fun a x => f a (g x)) l a.
Proof.
  induction l as [| x l IH]; intros a; [reflexivity |]. simpl. apply IH.
Qed.

Lemma In_threads (sizeX sizeY x y : Z) :
  In (x, y) (threads sizeX sizeY) <-> 0 <= x < sizeX /\ 0 <= y < sizeY.
Proof.
  unfold threads. rewrite in_flat_map. split.
  - intros [y' [Hy Hx]]. apply in_map_iff in Hx. destruct Hx as [x' [E Hx]].
    injection E as <- <-. apply In_range in Hy, Hx. auto.
  - intros [Hx Hy]. exists y. split; [apply In_range; exact Hy |].
    apply in_map_iff. exists x. split; [reflexivity | apply In_range; exact Hx].
Qed.

Lemma store2_same (m : shared) r c v : store2 m r c v r c = v.
Proof. unfold store2. rewrite !Z.eqb_refl. reflexivity. Qed.

Lemma store2_other (m : shared) r c v r' c' :
  (r, c) <> (r', c') -> store2 m r c v r' c' = m r' c'.
Proof.
  intros H. unfold store2.
  destruct (Z.eqb_spec r' r) as [-> | Hr]; [| reflexivity].
  destruct (Z.eqb_spec c' c) as [-> | Hc]; [| reflexivity].
  contradiction H. reflexivity.
Qed.

(** A phase of writes leaves in a cell the value of its writers, when they
    all write the same value. *)
Lemma scatter {T : Type} (key : T -> Z * Z) (val : T -> vec4) r c v
    (l : list T) : forall m,
  (forall x, In x l -> key x = (r, c) -> val x = v) ->
  (m r c = v \/ exists x, In x l /\ key x = (r, c)) ->
  fold_left (fun m x => store2 m (fst (key x)) (snd (key x)) (val x)) l m r c
  = v.
Proof.
  induction l as [| x l IH]; intros m Hval Hsome.
  - destruct Hsome as [E | [x [[] _]]]. exact E.
  - simpl. apply IH.
    + intros y Hy. apply Hval. right. exact Hy.
    + destruct (Z.eq_dec (fst (key x)) r) as [Er | Nr];
        [destruct (Z.eq_dec (snd (key x)) c) as [Ec | Nc] |].
      * left. rewrite Er, Ec, store2_same. apply Hval; [left; reflexivity |].
        rewrite (surjective_pairing (key x)), Er, Ec. reflexivity.
      * destruct Hsome as [E | [y [[-> | Hy] Ky]]].
        -- left. rewrite store2_other; [exact E |].
           intros E'. injection E' as _ E'. contradiction.
        -- rewrite Ky in Nc. contradiction Nc. reflexivity.
        -- right. exists y. auto.
      * destruct Hsome as [E | [y [[-> | Hy] Ky]]].
        -- left. rewrite store2_other; [exact E |].
           intros E'. injection E' as E' _. contradiction.
        -- rewrite Ky in Nr. contradiction Nr. reflexivity.
        -- right. exists y. auto.
Qed.

Lemma writes_split {T : Type} (ka kb : T -> Z * Z) (va vb : T -> vec4)
    (l : list T) : forall mem,
  writes ka kb va vb l mem
  = (fold_left (fun m x => store2 m (fst (ka x)) (snd (ka x)) (va x)) l (fst mem),
     fold_left (fun m x => store2 m (fst (kb x)) (snd (kb x)) (vb x)) l (snd mem)).
Proof.
  unfold writes. induction l as [| x l IH]; intros mem.
  - destruct mem; reflexivity.
  - simpl. rewrite IH. reflexivity.
Qed.

Lemma writes_A {T : Type} (ka kb : T -> Z * Z) (va vb : T -> vec4)
    (l : list T) mem r c v :
  (forall x, In x l -> ka x = (r, c) -> va x = v) ->
  (exists x, In x l /\ ka x = (r, c)) ->
  fst (writes ka kb va vb l mem) r c = v.
Proof.
  intros Hval Hsome. rewrite writes_split. cbn [fst].
  apply (scatter ka va); [exact Hval | right; exact Hsome].
Qed.

Lemma writes_B {T : Type} (ka kb : T -> Z * Z) (va vb : T -> vec4)
    (l : list T) mem r c v :
  (forall x, In x l -> kb x = (r, c) -> vb x = v) ->
  (exists x, In x l /\ kb x = (r, c)) ->
  snd (writes ka kb va vb l mem) r c = v.
Proof.
  intros Hval Hsome. rewrite writes_split. cbn [snd].
  apply (scatter kb vb); [exact Hval | right; exact Hsome].
Qed.

Lemma sizeTS_bound (c : Common) (tileK t : Z) :
  tiles_ok c tileK -> 0 < tileK -> 0 <= t < numTiles c ->
  0 <= sizeTS c tileK t <= tileK.
Proof.
  intros [_ [Hsize _]] HK Ht. rewrite (Hsize t Ht).
  pose proof (Z.mod_pos_bound (sharedDimensionPacked c) tileK HK).
  destruct ((t =? numTiles c - 1)
            && negb (sharedDimensionPacked c mod tileK =? 0)); lia.
Qed.

(** The loop over the tiles: when the accumulation of every tile, after
    its load phase, is a fold over the positions of the tile, the loop is
    the fold over the positions of all tiles. *)
Lemma tiles_fold {M R Th O : Type}
    (load : Z -> M -> M) (acc : M -> Z -> Th -> R -> R)
    (obs : R -> O -> vec4) (step : Th -> O -> vec4 -> Z -> vec4)
    (positions : Z -> list Z) (P : Th -> O -> Prop) (l : list Z) :
  (forall t mem th o r, In t l -> P th o ->
     obs (acc (load t mem) t th r) o
     = fold_left (step th o) (positions t) (obs r o)) ->
  forall st th o, P th o ->
    obs (snd (fold_left
                (fun (st : M * (Th -> R)) t =>
                   (load t (fst st),
                    fun th => acc (load t (fst st)) t th (snd st th)))
                l st) th) o
    = fold_left (step th o) (flat_map positions l) (obs (snd st th) o).
Proof.
  induction l as [| t l IH]; intros Hacc st th o HP; [reflexivity |].
  simpl. rewrite fold_left_app.
  rewrite IH; [| intros; apply Hacc; [right |]; assumption | exact HP].
  cbn [snd]. rewrite Hacc; [reflexivity | left; reflexivity | exact HP].
Qed.

Section KernelCS.
Variables getMatrixA getMatrixB : Z -> Z -> Z -> vec4.
Variable getOutputCoords : Z -> Z -> Z * Z * Z.
Variable wg : Z * Z.
Variable b : Z.
Variable k : CodeCS.
Hypothesis HTS : 0 < cs_TS k.
Hypothesis Htiles : tiles_ok (cs_common k) (cs_TS k).
(** The invocations of the workgroup are in batch [b]. *)
Hypothesis Hbatch : forall lx ly,
  0 <= lx < cs_TS k -> 0 <= ly < cs_TS k ->
  dim0 (getOutputCoords (fst wg * cs_TS k + lx) (snd wg * cs_TS k + ly)) = b.

Lemma cs_load_writes t mem :
  cs_load getMatrixA getMatrixB getOutputCoords wg k t mem
  = writes (fun th : Z * Z => (snd th, fst th))
           (fun th : Z * Z => (snd th, fst th))
           (fun th : Z * Z =>
              loadA getMatrixA (cs_common k)
                (dim0 (getOutputCoords (fst wg * cs_TS k + fst th)
                                       (snd wg * cs_TS k + snd th)))
                (snd wg * cs_TS k + snd th) (cs_TS k * t + fst th))
           (fun th : Z * Z =>
              loadB getMatrixB (cs_common k)
                (dim0 (getOutputCoords (fst wg * cs_TS k + fst th)
                                       (snd wg * cs_TS k + snd th)))
                (cs_TS k * t + snd th) (fst wg * cs_TS k + fst th))
           (threads (cs_TS k) (cs_TS k)) mem.
Proof.
  unfold cs_load, writes. apply fold_left_ext_In.
  intros m [lx ly] _. reflexivity.
Qed.

Lemma cs_load_spec t mem r c :
  0 <= r < cs_TS k -> 0 <= c < cs_TS k ->
  fst (cs_load getMatrixA getMatrixB getOutputCoords wg k t mem) r c
    = loadA getMatrixA (cs_common k) b (snd wg * cs_TS k + r) (cs_TS k * t + c) /\
  snd (cs_load getMatrixA getMatrixB getOutputCoords wg k t mem) r c
    = loadB getMatrixB (cs_common k) b (cs_TS k * t + r) (fst wg * cs_TS k + c).
Proof.
  intros Hr Hc. rewrite cs_load_writes. split.
  - apply writes_A.
    + intros [lx ly] Hin E. cbn [fst snd] in *. injection E as -> ->.
      apply In_threads in Hin. rewrite Hbatch by lia. reflexivity.
    + exists (c, r). split; [apply In_threads; lia | reflexivity].
  - apply writes_B.
    + intros [lx ly] Hin E. cbn [fst snd] in *. injection E as -> ->.
      apply In_threads in Hin. rewrite Hbatch by lia. reflexivity.
    + exists (c, r). split; [apply In_threads; lia | reflexivity].
Qed.

Lemma cs_accum_spec t mem (th : Z * Z) result :
  In t (range (numTiles (cs_common k))) ->
  0 <= fst th < cs_TS k /\ 0 <= snd th < cs_TS k ->
  cs_accum k (cs_load getMatrixA getMatrixB getOutputCoords wg k t mem) t
           th result
  = fold_left
      (macAt getMatrixA getMatrixB (cs_common k) b
             (snd wg * cs_TS k + snd th) (fst wg * cs_TS k + fst th))
      (map (fun i => cs_TS k * t + i) (range (sizeTS (cs_common k) (cs_TS k) t)))
      result.
Proof.
  destruct th as [lx ly]. cbn [fst snd]. intros Ht [Hx Hy].
  apply In_range in Ht.
  pose proof (sizeTS_bound _ _ t Htiles HTS Ht) as Hs.
  unfold cs_accum. rewrite fold_left_map. apply fold_left_ext_In.
  intros acc i Hi. apply In_range in Hi.
  destruct (cs_load_spec t mem ly i ltac:(lia) ltac:(lia)) as [-> _].
  destruct (cs_load_spec t mem i lx ltac:(lia) ltac:(lia)) as [_ ->].
  reflexivity.
Qed.

Lemma cs_tiles_spec mem0 lx ly :
  0 <= lx < cs_TS k -> 0 <= ly < cs_TS k ->
  cs_tiles getMatrixA getMatrixB getOutputCoords wg k mem0 (lx, ly)
  = texelProduct getMatrixA getMatrixB (cs_common k) b
      (snd wg * cs_TS k + ly) (fst wg * cs_TS k + lx).
Proof.
  intros Hx Hy. unfold cs_tiles, texelProduct.
  destruct Htiles as [_ [_ [<- _]]]. unfold accumulated.
  pose proof (tiles_fold
           (cs_load getMatrixA getMatrixB getOutputCoords wg k)
           (cs_accum k)
           (fun (r : vec4) (_ : unit) => r)
           (fun (th : Z * Z) (_ : unit) =>
              macAt getMatrixA getMatrixB (cs_common k) b
                (snd wg * cs_TS k + snd th) (fst wg * cs_TS k + fst th))
           (fun t => map (fun i => cs_TS k * t + i)
                         (range (sizeTS (cs_common k) (cs_TS k) t)))
           (fun (th : Z * Z) (_ : unit) =>
              0 <= fst th < cs_TS k /\ 0 <= snd th < cs_TS k)
           (range (numTiles (cs_common k)))) as H.
  cbv beta in H.
  exact (H (fun t mem th o r Ht HP => cs_accum_spec t mem th r Ht HP)
           (mem0, fun _ => vec4_splat 0) (lx, ly) tt (conj Hx Hy)).
Qed.

End KernelCS.

(** *** Register arrays updated in a loop *)

Ltac bool_lia :=
  repeat match goal with
         | |- context [?a <? ?b] => destruct (Z.ltb_spec a b)
         | |- context [?a <=? ?b] => destruct (Z.leb_spec a b)
         end;
  cbn [andb]; solve [reflexivity | lia].

Lemma store1_updates (G : Z -> vec4 -> vec4) (n : Z) : forall r w0,
  fold_left (fun r w => store1 r w (G w (r w))) (range n) r w0
  = if (0 <=? w0) && (w0 <? n) then G w0 (r w0) else r w0.
Proof.
  destruct (Z_le_gt_dec 0 n) as [Hn | Hn].
  - revert n Hn. apply (natlike_ind (fun n => forall r w0, _ = _)).
    + intros r w0. rewrite range_0. simpl.
      replace ((0 <=? w0) && (w0 <? 0)) with false by bool_lia. reflexivity.
    + intros n Hn IH r w0. unfold Z.succ.
      rewrite range_succ, fold_left_app by lia. simpl. unfold store1 at 1.
      destruct (Z.eqb_spec w0 n) as [-> | Hne].
      * rewrite (IH r n).
        replace (n <? n) with false by bool_lia. rewrite andb_false_r.
        replace ((0 <=? n) && (n <? n + 1)) with true by bool_lia. reflexivity.
      * rewrite (IH r w0).
        replace (w0 <? n + 1) with (w0 <? n) by bool_lia. reflexivity.
  - intros r w0. rewrite range_nonpos by lia. simpl.
    replace ((0 <=? w0) && (w0 <? n)) with false by bool_lia. reflexivity.
Qed.

Lemma store2_row_updates (G : Z -> vec4 -> vec4) (i m : Z) : forall acc i0 j0,
  fold_left (fun acc j => store2 acc i j (G j (acc i j))) (range m) acc i0 j0
  = if (i0 =? i) && ((0 <=? j0) && (j0 <? m)) then G j0 (acc i j0)
    else acc i0 j0.
Proof.
  destruct (Z_le_gt_dec 0 m) as [Hm | Hm].
  - revert m Hm. apply (natlike_ind (fun m => forall acc i0 j0, _ = _)).
    + intros acc i0 j0. rewrite range_0. simpl.
      replace ((0 <=? j0) && (j0 <? 0)) with false by bool_lia.
      rewrite andb_false_r. reflexivity.
    + intros m Hm IH acc i0 j0. unfold Z.succ.
      rewrite range_succ, fold_left_app by lia. simpl. unfold store2 at 1.
      destruct (Z.eqb_spec i0 i) as [-> | Hi]; cbn [andb].
      * destruct (Z.eqb_spec j0 m) as [-> | Hj].
        -- rewrite (IH acc i m), Z.eqb_refl.
           replace ((0 <=? m) && (m <? m)) with false by bool_lia.
           replace ((0 <=? m) && (m <? m + 1)) with true by bool_lia. reflexivity.
        -- rewrite (IH acc i j0), Z.eqb_refl. cbn [andb].
           replace (j0 <? m + 1) with (j0 <? m) by bool_lia. reflexivity.
      * rewrite (IH acc i0 j0).
        destruct (Z.eqb_spec i0 i) as [E | _]; [contradiction | reflexivity].
  - intros acc i0 j0. rewrite range_nonpos by lia. simpl.
    replace ((0 <=? j0) && (j0 <? m)) with false by bool_lia.
    rewrite andb_false_r. reflexivity.
Qed.

Lemma store2_block_updates (G : Z -> Z -> vec4 -> vec4) (n m : Z) :
  forall acc i0 j0,
  fold_left
    (fun acc i =>
       fold_left (fun acc j => store2 acc i j (G i j (acc i j))) (range m) acc)
    (range n) acc i0 j0
  = if ((0 <=? i0) && (i0 <? n)) && ((0 <=? j0) && (j0 <? m))
    then G i0 j0 (acc i0 j0) else acc i0 j0.
Proof.
  destruct (Z_le_gt_dec 0 n) as [Hn | Hn].
  - revert n Hn. apply (natlike_ind (fun n => forall acc i0 j0, _ = _)).
    + intros acc i0 j0. rewrite range_0. simpl.
      replace ((0 <=? i0) && (i0 <? 0)) with false by bool_lia. reflexivity.
    + intros n Hn IH acc i0 j0. unfold Z.succ.
      rewrite range_succ, fold_left_app by lia. cbn [fold_left].
      rewrite (store2_row_updates (G n) n m).
      destruct (Z.eqb_spec i0 n) as [-> | Hi]; cbn [andb].
      * rewrite !(IH acc n).
        replace ((0 <=? n) && (n <? n)) with false by bool_lia.
        replace ((0 <=? n) && (n <? n + 1)) with true by bool_lia. reflexivity.
      * rewrite (IH acc i0 j0).
        replace (i0 <? n + 1) with (i0 <? n) by bool_lia. reflexivity.
  - intros acc i0 j0. rewrite (range_nonpos n) by lia. simpl.
    replace ((0 <=? i0) && (i0 <? n)) with false by bool_lia. reflexivity.
Qed.

Lemma block_accum_spec c WPTM WPTN RTSM RTSN size mem row col r wm wn :
  0 <= wm < WPTM -> 0 <= wn < WPTN ->
  snd (block_accum c WPTM WPTN RTSM RTSN size mem row col r) wm wn
  = fold_left
      (fun acc k =>
         mac c (fst mem (row + wm * RTSM) k) (snd mem k (col + wn * RTSN)) acc)
      (range size) (snd r wm wn).
Proof.
  intros Hwm Hwn. unfold block_accum.
  generalize (range size) as l. intros l. revert r.
  induction l as [| p l IH]; intros r; [reflexivity |].
  cbn [fold_left]. rewrite IH. f_equal. cbv zeta. cbn [snd].
  set (Breg := fold_left
                 (fun Breg wn0 => store1 Breg wn0 (snd mem p (col + wn0 * RTSN)))
                 (range WPTN) (fst r)).
  pose proof (store2_block_updates
                (fun i j v => mac c (fst mem (row + i * RTSM) p) (Breg j) v)
                WPTM WPTN (snd r) wm wn) as H.
  cbv beta in H. rewrite H.
  replace (((0 <=? wm) && (wm <? WPTM)) && ((0 <=? wn) && (wn <? WPTN)))
    with true by bool_lia.
  pose proof (store1_updates (fun w _ => snd mem p (col + w * RTSN))
                WPTN (fst r) wn) as HB.
  cbv beta in HB. fold Breg in HB. rewrite HB.
  replace ((0 <=? wn) && (wn <? WPTN)) with true by bool_lia.
  reflexivity.
Qed.

Lemma v2_accum_spec (k : CodeCSV2) mem t lx ly result w :
  0 <= w < v2_WPT k ->
  v2_accum k mem t (lx, ly) result w
  = fold_left
      (fun acc i =>
         mac (v2_common k) (fst mem (ly + w * v2_RTS k) i) (snd mem i lx) acc)
      (range (sizeTS (v2_common k) (v2_TS k) t)) (result w).
Proof.
  intros Hw. unfold v2_accum.
  generalize (range (sizeTS (v2_common k) (v2_TS k) t)) as l.
  intros l. revert result.
  induction l as [| i l IH]; intros result; [reflexivity |].
  cbn [fold_left]. rewrite IH. f_equal. cbv zeta.
  pose proof (store1_updates
                (fun w0 v =>
                   mac (v2_common k) (fst mem (ly + w0 * v2_RTS k) i)
                       (snd mem i lx) v)
                (v2_WPT k) result w) as H.
  cbv beta in H. rewrite H.
  replace ((0 <=? w) && (w <? v2_WPT k)) with true by bool_lia.
  reflexivity.
Qed.

Lemma loadA_ext getMatrixA c b m m' p p' :
  m = m' -> p = p' -> loadA getMatrixA c b m p = loadA getMatrixA c b m' p'.
Proof. intros -> ->. reflexivity. Qed.

Lemma loadB_ext getMatrixB c b p p' n n' :
  p = p' -> n = n' -> loadB getMatrixB c b p n = loadB getMatrixB c b p' n'.
Proof. intros -> ->. reflexivity. Qed.

Lemma vec4_add_assoc (x y z : vec4) :
  vec4_add (vec4_add x y) z = vec4_add x (vec4_add y z).
Proof. unfold vec4_add. cbn [vx vy vz vw]. f_equal; ring. Qed.

Lemma vec4_add_0_r (x : vec4) : vec4_add x (vec4_splat 0) = x.
Proof. destruct x. unfold vec4_add, vec4_splat. cbn [vx vy vz vw]. f_equal; ring. Qed.

(** An accumulation that starts from [x] gives [x] plus the accumulation
    that starts from 0. *)
Lemma fold_macAt_shift getMatrixA getMatrixB c b m n (l : list Z) : forall x y,
  fold_left (macAt getMatrixA getMatrixB c b m n) l (vec4_add x y)
  = vec4_add x (fold_left (macAt getMatrixA getMatrixB c b m n) l y).
Proof.
  induction l as [| p l IH]; intros x y; [reflexivity |].
  cbn [fold_left]. rewrite <- IH. f_equal.
  unfold macAt, mac. apply vec4_add_assoc.
Qed.

Lemma fold_macAt_from getMatrixA getMatrixB c b m n (l : list Z) x :
  fold_left (macAt getMatrixA getMatrixB c b m n) l x
  = vec4_add x (fold_left (macAt getMatrixA getMatrixB c b m n) l (vec4_splat 0)).
Proof.
  rewrite <- fold_macAt_shift, vec4_add_0_r. reflexivity.
Qed.

Lemma In_items (sizeX sizeY n x y w : Z) :
  In (x, y, w)
     (flat_map (fun th : Z * Z => map (pair th) (range n)) (threads sizeX sizeY))
  <-> (0 <= x < sizeX /\ 0 <= y < sizeY) /\ 0 <= w < n.
Proof.
  rewrite in_flat_map. split.
  - intros [[x' y'] [Hth Hw]]. apply in_map_iff in Hw.
    destruct Hw as [w' [E Hw]]. injection E as -> -> ->.
    apply In_threads in Hth. apply In_range in Hw. auto.
  - intros [Hth Hw]. exists (x, y). split; [apply In_threads; exact Hth |].
    apply in_map_iff. exists w. split; [reflexivity | apply In_range; exact Hw].
Qed.

Section KernelCSV2.
Variables getMatrixA getMatrixB : Z -> Z -> Z -> vec4.
Variable getOutputCoords : Z -> Z -> Z * Z * Z.
Variable wg : Z * Z.
Variable b : Z.
Variable k : CodeCSV2.
Hypothesis HRTS : 0 < v2_RTS k.
Hypothesis HTS : v2_TS k = v2_WPT k * v2_RTS k.
Hypothesis Htiles : tiles_ok (v2_common k) (v2_TS k).
Hypothesis Hbatch : forall lx ly,
  0 <= lx < v2_TS k -> 0 <= ly < v2_RTS k ->
  dim0 (getOutputCoords (fst wg * v2_TS k + lx) (snd wg * v2_RTS k + ly)) = b.

Lemma v2_load_writes t mem :
  v2_load getMatrixA getMatrixB getOutputCoords wg k t mem
  = writes
      (fun x : Z * Z * Z => (snd (fst x) + snd x * v2_RTS k, fst (fst x)))
      (fun x : Z * Z * Z => (snd (fst x) + snd x * v2_RTS k, fst (fst x)))
      (fun x : Z * Z * Z =>
         loadA getMatrixA (v2_common k)
           (dim0 (getOutputCoords (fst wg * v2_TS k + fst (fst x))
                                  (snd wg * v2_RTS k + snd (fst x))))
           (v2_TS k * snd wg + snd (fst x) + snd x * v2_RTS k)
           (v2_TS k * t + fst (fst x)))
      (fun x : Z * Z * Z =>
         loadB getMatrixB (v2_common k)
           (dim0 (getOutputCoords (fst wg * v2_TS k + fst (fst x))
                                  (snd wg * v2_RTS k + snd (fst x))))
           (v2_TS k * t + snd (fst x) + snd x * v2_RTS k)
           (v2_TS k * fst wg + fst (fst x)))
      (flat_map (fun th : Z * Z => map (pair th) (range (v2_WPT k)))
                (threads (v2_TS k) (v2_RTS k)))
      mem.
Proof.
  unfold v2_load, writes. rewrite fold_left_flat_map.
  apply fold_left_ext_In. intros m [lx ly] _.
  rewrite fold_left_map. reflexivity.
Qed.

Lemma v2_load_spec t mem r c :
  0 <= r < v2_TS k -> 0 <= c < v2_TS k ->
  fst (v2_load getMatrixA getMatrixB getOutputCoords wg k t mem) r c
    = loadA getMatrixA (v2_common k) b (v2_TS k * snd wg + r) (v2_TS k * t + c) /\
  snd (v2_load getMatrixA getMatrixB getOutputCoords wg k t mem) r c
    = loadB getMatrixB (v2_common k) b (v2_TS k * t + r) (v2_TS k * fst wg + c).
Proof.
  intros Hr Hc. rewrite v2_load_writes.
  assert (Hsome : exists x : Z * Z * Z,
             In x (flat_map (fun th : Z * Z => map (pair th) (range (v2_WPT k)))
                            (threads (v2_TS k) (v2_RTS k))) /\
             (snd (fst x) + snd x * v2_RTS k, fst (fst x)) = (r, c)).
  { exists (c, r mod v2_RTS k, r / v2_RTS k). cbn [fst snd].
    pose proof (Z.div_mod r (v2_RTS k) ltac:(lia)) as E.
    pose proof (Z.mod_pos_bound r (v2_RTS k) HRTS) as Hm.
    assert (0 <= r / v2_RTS k) by (apply Z.div_pos; lia).
    assert (r / v2_RTS k < v2_WPT k).
    { apply Z.div_lt_upper_bound; [lia |]. rewrite Z.mul_comm, <- HTS. lia. }
    split; [apply In_items; lia |]. f_equal. lia. }
  split.
  - apply writes_A; [| exact Hsome].
    intros [[lx ly] w] Hin E. cbn [fst snd] in *. injection E as E ->.
    apply In_items in Hin. rewrite Hbatch by lia.
    apply loadA_ext; lia.
  - apply writes_B; [| exact Hsome].
    intros [[lx ly] w] Hin E. cbn [fst snd] in *. injection E as E ->.
    apply In_items in Hin. rewrite Hbatch by lia.
    apply loadB_ext; lia.
Qed.

Lemma v2_accum_macAt t mem (th : Z * Z) (w : Z) result :
  In t (range (numTiles (v2_common k))) ->
  (0 <= fst th < v2_TS k /\ 0 <= snd th < v2_RTS k) /\ 0 <= w < v2_WPT k ->
  v2_accum k (v2_load getMatrixA getMatrixB getOutputCoords wg k t mem) t
           th result w
  = fold_left
      (macAt getMatrixA getMatrixB (v2_common k) b
             (v2_TS k * snd wg + snd th + w * v2_RTS k)
             (v2_TS k * fst wg + fst th))
      (map (fun i => v2_TS k * t + i) (range (sizeTS (v2_common k) (v2_TS k) t)))
      (result w).
Proof.
  destruct th as [lx ly]. cbn [fst snd]. intros Ht [[Hx Hy] Hw].
  apply In_range in Ht.
  assert (HTSpos : 0 < v2_TS k) by nia.
  pose proof (sizeTS_bound _ _ t Htiles HTSpos Ht) as Hs.
  rewrite v2_accum_spec by exact Hw.
  rewrite fold_left_map. apply fold_left_ext_In.
  intros acc i Hi. apply In_range in Hi.
  assert (Hrow : 0 <= ly + w * v2_RTS k < v2_TS k) by nia.
  destruct (v2_load_spec t mem (ly + w * v2_RTS k) i Hrow ltac:(lia)) as [-> _].
  destruct (v2_load_spec t mem i lx ltac:(lia) ltac:(lia)) as [_ ->].
  unfold macAt. f_equal. apply loadA_ext; lia.
Qed.

(** The registers of the kernel after the last tile: what they held at
    the start plus the product. *)
Lemma v2_tiles_spec mem0 uninit lx ly w :
  0 <= lx < v2_TS k -> 0 <= ly < v2_RTS k -> 0 <= w < v2_WPT k ->
  v2_tiles getMatrixA getMatrixB getOutputCoords wg k mem0 uninit (lx, ly) w
  = vec4_add (uninit (lx, ly) w)
      (texelProduct getMatrixA getMatrixB (v2_common k) b
         (v2_TS k * snd wg + ly + w * v2_RTS k) (v2_TS k * fst wg + lx)).
Proof.
  intros Hx Hy Hw. unfold v2_tiles, texelProduct.
  rewrite <- fold_macAt_from.
  destruct Htiles as [_ [_ [<- _]]]. unfold accumulated.
  pose proof (tiles_fold
           (v2_load getMatrixA getMatrixB getOutputCoords wg k)
           (v2_accum k)
           (fun (r : Z -> vec4) (w : Z) => r w)
           (fun (th : Z * Z) (w : Z) =>
              macAt getMatrixA getMatrixB (v2_common k) b
                (v2_TS k * snd wg + snd th + w * v2_RTS k)
                (v2_TS k * fst wg + fst th))
           (fun t => map (fun i => v2_TS k * t + i)
                         (range (sizeTS (v2_common k) (v2_TS k) t)))
           (fun (th : Z * Z) (w : Z) =>
              (0 <= fst th < v2_TS k /\ 0 <= snd th < v2_RTS k) /\
              0 <= w < v2_WPT k)
           (range (numTiles (v2_common k)))) as H.
  cbv beta in H.
  exact (H (fun t mem th o r Ht HP => v2_accum_macAt t mem th o r Ht HP)
           (mem0, uninit) (lx, ly) w (conj (conj Hx Hy) Hw)).
Qed.

End KernelCSV2.

Lemma zero_block_spec n m acc i j :
  0 <= i < n -> 0 <= j < m -> zero_block n m acc i j = vec4_splat 0.
Proof.
  intros Hi Hj. unfold zero_block.
  pose proof (store2_block_updates (fun _ _ _ => vec4_splat 0) n m acc i j) as H.
  cbv beta in H. rewrite H.
  replace (((0 <=? i) && (i <? n)) && ((0 <=? j) && (j <? m)))
    with true by bool_lia.
  reflexivity.
Qed.

Lemma split_index (r size : Z) :
  0 < size -> 0 <= r ->
  0 <= r mod size < size /\ 0 <= r / size /\ r mod size + r / size * size = r.
Proof.
  intros Hs Hr.
  pose proof (Z.div_mod r size ltac:(lia)).
  pose proof (Z.mod_pos_bound r size Hs).
  assert (0 <= r / size) by (apply Z.div_pos; lia).
  lia.
Qed.

Lemma split_index_bound (r size n : Z) :
  0 < size -> 0 <= r < n * size -> r / size < n.
Proof.
  intros Hs Hr. apply Z.div_lt_upper_bound; [lia |].
  rewrite Z.mul_comm. lia.
Qed.

Section KernelCSV3.
Variables getMatrixA getMatrixB : Z -> Z -> Z -> vec4.
Variable getOutputCoords : Z -> Z -> Z * Z * Z.
Variable wg : Z * Z.
Variable b : Z.
Variable k : CodeCSV3.
Hypothesis HRTS : 0 < v3_RTS k.
Hypothesis HWPT : 0 < v3_WPT k.
Hypothesis HTS : v3_TS k = v3_WPT k * v3_RTS k.
Hypothesis Htiles : tiles_ok (v3_common k) (v3_TS k).
Hypothesis Hbatch : forall lx ly,
  0 <= lx < v3_RTS k -> 0 <= ly < v3_RTS k ->
  dim0 (getOutputCoords (fst wg * v3_RTS k + lx) (snd wg * v3_RTS k + ly)) = b.

(** The work items of the load phase: invocation, [innerRow], [innerCol]. *)
Lemma In_items_v3 (x y iR iC : Z) :
  In (x, y, iR, iC)
     (flat_map
        (fun th : Z * Z =>
           flat_map (fun iR => map (fun iC => (th, iR, iC)) (range (v3_WPT k)))
                    (range (v3_WPT k)))
        (threads (v3_RTS k) (v3_RTS k)))
  <-> (0 <= x < v3_RTS k /\ 0 <= y < v3_RTS k) /\
      0 <= iR < v3_WPT k /\ 0 <= iC < v3_WPT k.
Proof.
  rewrite in_flat_map. split.
  - intros [[x' y'] [Hth Hin]]. apply in_flat_map in Hin.
    destruct Hin as [iR' [HR Hin]]. apply in_map_iff in Hin.
    destruct Hin as [iC' [E HC]]. injection E as -> -> -> ->.
    apply In_threads in Hth. apply In_range in HR, HC. auto.
  - intros [Hth [HR HC]]. exists (x, y). split; [apply In_threads; exact Hth |].
    apply in_flat_map. exists iR. split; [apply In_range; exact HR |].
    apply in_map_iff. exists iC. split; [reflexivity | apply In_range; exact HC].
Qed.

Lemma v3_load_writes t mem :
  v3_load getMatrixA getMatrixB getOutputCoords wg k t mem
  = writes
      (fun x : Z * Z * Z * Z =>
         (snd (fst (fst x)) + snd (fst x) * v3_RTS k,
          fst (fst (fst x)) + snd x * v3_RTS k))
      (fun x : Z * Z * Z * Z =>
         (snd (fst (fst x)) + snd (fst x) * v3_RTS k,
          fst (fst (fst x)) + snd x * v3_RTS k))
      (fun x : Z * Z * Z * Z =>
         loadA getMatrixA (v3_common k)
           (dim0 (getOutputCoords (fst wg * v3_RTS k + fst (fst (fst x)))
                                  (snd wg * v3_RTS k + snd (fst (fst x)))))
           (v3_TS k * snd wg + snd (fst (fst x)) + snd (fst x) * v3_RTS k)
           (v3_TS k * t + fst (fst (fst x)) + snd x * v3_RTS k))
      (fun x : Z * Z * Z * Z =>
         loadB getMatrixB (v3_common k)
           (dim0 (getOutputCoords (fst wg * v3_RTS k + fst (fst (fst x)))
                                  (snd wg * v3_RTS k + snd (fst (fst x)))))
           (v3_TS k * t + snd (fst (fst x)) + snd (fst x) * v3_RTS k)
           (v3_TS k * fst wg + fst (fst (fst x)) + snd x * v3_RTS k))
      (flat_map
         (fun th : Z * Z =>
            flat_map (fun iR => map (fun iC => (th, iR, iC)) (range (v3_WPT k)))
                     (range (v3_WPT k)))
         (threads (v3_RTS k) (v3_RTS k)))
      mem.
Proof.
  unfold v3_load, writes. rewrite fold_left_flat_map.
  apply fold_left_ext_In. intros m [lx ly] _.
  rewrite fold_left_flat_map.
  apply fold_left_ext_In. intros m' iR _.
  rewrite fold_left_map. reflexivity.
Qed.

Lemma v3_load_spec t mem r c :
  0 <= r < v3_TS k -> 0 <= c < v3_TS k ->
  fst (v3_load getMatrixA getMatrixB getOutputCoords wg k t mem) r c
    = loadA getMatrixA (v3_common k) b (v3_TS k * snd wg + r) (v3_TS k * t + c) /\
  snd (v3_load getMatrixA getMatrixB getOutputCoords wg k t mem) r c
    = loadB getMatrixB (v3_common k) b (v3_TS k * t + r) (v3_TS k * fst wg + c).
Proof.
  intros Hr Hc. rewrite v3_load_writes.
  destruct (split_index r (v3_RTS k) HRTS ltac:(lia)) as [Hr1 [Hr2 Hr3]].
  destruct (split_index c (v3_RTS k) HRTS ltac:(lia)) as [Hc1 [Hc2 Hc3]].
  pose proof (split_index_bound r (v3_RTS k) (v3_WPT k) HRTS ltac:(lia)).
  pose proof (split_index_bound c (v3_RTS k) (v3_WPT k) HRTS ltac:(lia)).
  assert (Hsome : exists x : Z * Z * Z * Z,
             In x (flat_map
                     (fun th : Z * Z =>
                        flat_map
                          (fun iR => map (fun iC => (th, iR, iC))
                                         (range (v3_WPT k)))
                          (range (v3_WPT k)))
                     (threads (v3_RTS k) (v3_RTS k))) /\
             (snd (fst (fst x)) + snd (fst x) * v3_RTS k,
              fst (fst (fst x)) + snd x * v3_RTS k) = (r, c)).
  { exists (c mod v3_RTS k, r mod v3_RTS k, r / v3_RTS k, c / v3_RTS k).
    cbn [fst snd]. split; [apply In_items_v3; lia |]. f_equal; lia. }
  split.
  - apply writes_A; [| exact Hsome].
    intros [[[lx ly] iR] iC] Hin E. cbn [fst snd] in *. injection E as Er Ec.
    apply In_items_v3 in Hin. rewrite Hbatch by lia.
    apply loadA_ext; lia.
  - apply writes_B; [| exact Hsome].
    intros [[[lx ly] iR] iC] Hin E. cbn [fst snd] in *. injection E as Er Ec.
    apply In_items_v3 in Hin. rewrite Hbatch by lia.
    apply loadB_ext; lia.
Qed.

Lemma v3_accum_macAt t mem (th : Z * Z) (w : Z * Z) (r : regs) :
  In t (range (numTiles (v3_common k))) ->
  (0 <= fst th < v3_RTS k /\ 0 <= snd th < v3_RTS k) /\
  (0 <= fst w < v3_WPT k /\ 0 <= snd w < v3_WPT k) ->
  snd (block_accum (v3_common k) (v3_WPT k) (v3_WPT k) (v3_RTS k) (v3_RTS k)
         (sizeTS (v3_common k) (v3_TS k) t)
         (v3_load getMatrixA getMatrixB getOutputCoords wg k t mem)
         (snd th) (fst th) r) (fst w) (snd w)
  = fold_left
      (macAt getMatrixA getMatrixB (v3_common k) b
             (v3_TS k * snd wg + snd th + fst w * v3_RTS k)
             (v3_TS k * fst wg + fst th + snd w * v3_RTS k))
      (map (fun i => v3_TS k * t + i) (range (sizeTS (v3_common k) (v3_TS k) t)))
      (snd r (fst w) (snd w)).
Proof.
  destruct th as [lx ly], w as [wm wn]. cbn [fst snd].
  intros Ht [[Hx Hy] [Hwm Hwn]]. apply In_range in Ht.
  assert (HTSpos : 0 < v3_TS k) by nia.
  pose proof (sizeTS_bound _ _ t Htiles HTSpos Ht) as Hs.
  rewrite block_accum_spec by assumption.
  rewrite fold_left_map. apply fold_left_ext_In.
  intros acc i Hi. apply In_range in Hi.
  assert (Hrow : 0 <= ly + wm * v3_RTS k < v3_TS k) by nia.
  assert (Hcol : 0 <= lx + wn * v3_RTS k < v3_TS k) by nia.
  destruct (v3_load_spec t mem (ly + wm * v3_RTS k) i Hrow ltac:(lia)) as [-> _].
  destruct (v3_load_spec t mem i (lx + wn * v3_RTS k) ltac:(lia) Hcol) as [_ ->].
  unfold macAt. f_equal; [apply loadA_ext | apply loadB_ext]; lia.
Qed.

Lemma v3_tiles_spec mem0 uninit lx ly wm wn :
  0 <= lx < v3_RTS k -> 0 <= ly < v3_RTS k ->
  0 <= wm < v3_WPT k -> 0 <= wn < v3_WPT k ->
  snd (v3_tiles getMatrixA getMatrixB getOutputCoords wg k mem0 uninit (lx, ly))
      wm wn
  = texelProduct getMatrixA getMatrixB (v3_common k) b
      (v3_TS k * snd wg + ly + wm * v3_RTS k)
      (v3_TS k * fst wg + lx + wn * v3_RTS k).
Proof.
  intros Hx Hy Hwm Hwn. unfold v3_tiles, texelProduct.
  destruct Htiles as [_ [_ [<- _]]]. unfold accumulated.
  pose proof (tiles_fold
           (v3_load getMatrixA getMatrixB getOutputCoords wg k)
           (fun mem t (th : Z * Z) (r : regs) =>
              block_accum (v3_common k) (v3_WPT k) (v3_WPT k) (v3_RTS k)
                (v3_RTS k) (sizeTS (v3_common k) (v3_TS k) t) mem
                (snd th) (fst th) r)
           (fun (r : regs) (w : Z * Z) => snd r (fst w) (snd w))
           (fun (th : Z * Z) (w : Z * Z) =>
              macAt getMatrixA getMatrixB (v3_common k) b
                (v3_TS k * snd wg + snd th + fst w * v3_RTS k)
                (v3_TS k * fst wg + fst th + snd w * v3_RTS k))
           (fun t => map (fun i => v3_TS k * t + i)
                         (range (sizeTS (v3_common k) (v3_TS k) t)))
           (fun (th : Z * Z) (w : Z * Z) =>
              (0 <= fst th < v3_RTS k /\ 0 <= snd th < v3_RTS k) /\
              (0 <= fst w < v3_WPT k /\ 0 <= snd w < v3_WPT k))
           (range (numTiles (v3_common k)))) as H.
  cbv beta in H.
  specialize (H (fun t mem th o r Ht HP => v3_accum_macAt t mem th o r Ht HP)
                (mem0,
                 fun th => (fst (uninit th),
                            zero_block (v3_WPT k) (v3_WPT k) (snd (uninit th))))
                (lx, ly) (wm, wn)
                (conj (conj Hx Hy) (conj Hwm Hwn))).
  cbn [fst snd] in H.
  rewrite zero_block_spec in H by assumption.
  exact H.
Qed.

End KernelCSV3.

Section KernelCSV4.
Variables getMatrixA getMatrixB : Z -> Z -> Z -> vec4.
Variable getOutputCoords : Z -> Z -> Z * Z * Z.
Variable wg : Z * Z.
Variable b : Z.
Variable k : CodeCSV4.
Hypothesis HTSK : 0 < v4_TSK k.
Hypothesis HRTSN : 0 < v4_RTSN k.
Hypothesis HRTSM : 0 < v4_RTSM k.
Hypothesis HTSM : v4_TSM k = v4_WPTM k * v4_RTSM k.
Hypothesis HTSN : v4_TSN k = v4_WPTN k * v4_RTSN k.
Hypothesis Hsquare : v4_TSM k = v4_TSN k.
(** The loads of the workgroup cover the tile exactly. *)
Hypothesis HLPTA : v4_LPTA k * (v4_RTSN k * v4_RTSM k) = v4_TSM k * v4_TSK k.
Hypothesis Htiles : tiles_ok (v4_common k) (v4_TSK k).
Hypothesis Hbatch : forall lx ly,
  0 <= lx < v4_RTSN k -> 0 <= ly < v4_RTSM k ->
  dim0 (getOutputCoords (fst wg * v4_RTSN k + lx) (snd wg * v4_RTSM k + ly)) = b.

Lemma v4_load_writes t mem :
  v4_load getMatrixA getMatrixB getOutputCoords wg k t mem
  = writes
      (fun x : Z * Z * Z => (loadId k x ÷ v4_TSK k, imod (loadId k x) (v4_TSK k)))
      (fun x : Z * Z * Z => (imod (loadId k x) (v4_TSK k), loadId k x ÷ v4_TSK k))
      (fun x : Z * Z * Z =>
         loadA getMatrixA (v4_common k)
           (dim0 (getOutputCoords (fst wg * v4_RTSN k + fst (fst x))
                                  (snd wg * v4_RTSM k + snd (fst x))))
           (v4_TSM k * snd wg + loadId k x ÷ v4_TSK k)
           (v4_TSK k * t + imod (loadId k x) (v4_TSK k)))
      (fun x : Z * Z * Z =>
         loadB getMatrixB (v4_common k)
           (dim0 (getOutputCoords (fst wg * v4_RTSN k + fst (fst x))
                                  (snd wg * v4_RTSM k + snd (fst x))))
           (v4_TSK k * t + imod (loadId k x) (v4_TSK k))
           (v4_TSN k * fst wg + loadId k x ÷ v4_TSK k))
      (flat_map (fun th : Z * Z => map (pair th) (range (v4_LPTA k)))
                (threads (v4_RTSN k) (v4_RTSM k)))
      mem.
Proof.
  unfold v4_load, writes. rewrite fold_left_flat_map.
  apply fold_left_ext_In. intros m [lx ly] _.
  rewrite fold_left_map. reflexivity.
Qed.

(** Every cell index of the tile is the [id] of one iteration of one
    invocation. *)
Lemma loadId_covers id0 :
  0 <= id0 < v4_TSM k * v4_TSK k ->
  exists x : Z * Z * Z,
    In x (flat_map (fun th : Z * Z => map (pair th) (range (v4_LPTA k)))
                   (threads (v4_RTSN k) (v4_RTSM k))) /\
    loadId k x = id0.
Proof.
  intros Hid.
  set (S := v4_RTSN k * v4_RTSM k) in *.
  assert (HS : 0 < S) by (unfold S; nia).
  destruct (split_index id0 S HS ltac:(lia)) as [Ht1 [Hi1 Hsum]].
  assert (Hi2 : id0 / S < v4_LPTA k).
  { apply split_index_bound; [exact HS |]. rewrite HLPTA. lia. }
  set (tid := id0 mod S) in *.
  destruct (split_index tid (v4_RTSN k) HRTSN ltac:(lia)) as [Hx [Hy1 Hsum']].
  assert (Hy2 : tid / v4_RTSN k < v4_RTSM k).
  { apply split_index_bound; [exact HRTSN |]. unfold S in Ht1. lia. }
  exists (tid mod v4_RTSN k, tid / v4_RTSN k, id0 / S).
  split; [apply In_items; lia |].
  unfold loadId. cbn [fst snd].
  replace (id0 / S * v4_RTSN k * v4_RTSM k) with (id0 / S * S)
    by (unfold S; ring).
  lia.
Qed.

Lemma loadId_nonneg x :
  In x (flat_map (fun th : Z * Z => map (pair th) (range (v4_LPTA k)))
                 (threads (v4_RTSN k) (v4_RTSM k))) ->
  0 <= loadId k x.
Proof.
  destruct x as [[lx ly] i]. intros Hin. apply In_items in Hin.
  unfold loadId. cbn [fst snd]. nia.
Qed.

Lemma v4_load_spec_A t mem r c :
  0 <= r < v4_TSM k -> 0 <= c < v4_TSK k ->
  fst (v4_load getMatrixA getMatrixB getOutputCoords wg k t mem) r c
  = loadA getMatrixA (v4_common k) b (v4_TSM k * snd wg + r) (v4_TSK k * t + c).
Proof.
  intros Hr Hc. rewrite v4_load_writes. apply writes_A.
  - intros [[lx ly] i] Hin E. injection E as Er Ec.
    apply In_items in Hin. cbn [fst snd]. rewrite Hbatch by lia.
    rewrite Er, Ec. reflexivity.
  - destruct (loadId_covers (r * v4_TSK k + c)) as [x [Hin Hid]]; [nia |].
    exists x. split; [exact Hin |]. rewrite Hid.
    rewrite quot_stride, imod_stride by lia. reflexivity.
Qed.

Lemma v4_load_spec_B t mem p n :
  0 <= p < v4_TSK k -> 0 <= n < v4_TSN k ->
  snd (v4_load getMatrixA getMatrixB getOutputCoords wg k t mem) p n
  = loadB getMatrixB (v4_common k) b (v4_TSK k * t + p) (v4_TSN k * fst wg + n).
Proof.
  intros Hp Hn. rewrite v4_load_writes. apply writes_B.
  - intros [[lx ly] i] Hin E. injection E as Ep En.
    apply In_items in Hin. cbn [fst snd]. rewrite Hbatch by lia.
    rewrite Ep, En. reflexivity.
  - destruct (loadId_covers (n * v4_TSK k + p)) as [x [Hin Hid]]; [nia |].
    exists x. split; [exact Hin |]. rewrite Hid.
    rewrite quot_stride, imod_stride by lia. reflexivity.
Qed.

Lemma v4_accum_macAt t mem (th : Z * Z) (w : Z * Z) (r : regs) :
  In t (range (numTiles (v4_common k))) ->
  (0 <= fst th < v4_RTSN k /\ 0 <= snd th < v4_RTSM k) /\
  (0 <= fst w < v4_WPTM k /\ 0 <= snd w < v4_WPTN k) ->
  snd (block_accum (v4_common k) (v4_WPTM k) (v4_WPTN k) (v4_RTSM k)
         (v4_RTSN k) (sizeTS (v4_common k) (v4_TSK k) t)
         (v4_load getMatrixA getMatrixB getOutputCoords wg k t mem)
         (snd th) (fst th) r) (fst w) (snd w)
  = fold_left
      (macAt getMatrixA getMatrixB (v4_common k) b
             (v4_TSM k * snd wg + snd th + fst w * v4_RTSM k)
             (v4_TSN k * fst wg + fst th + snd w * v4_RTSN k))
      (map (fun i => v4_TSK k * t + i)
           (range (sizeTS (v4_common k) (v4_TSK k) t)))
      (snd r (fst w) (snd w)).
Proof.
  destruct th as [lx ly], w as [wm wn]. cbn [fst snd].
  intros Ht [[Hx Hy] [Hwm Hwn]]. apply In_range in Ht.
  pose proof (sizeTS_bound _ _ t Htiles HTSK Ht) as Hs.
  rewrite block_accum_spec by assumption.
  rewrite fold_left_map. apply fold_left_ext_In.
  intros acc i Hi. apply In_range in Hi.
  assert (Hrow : 0 <= ly + wm * v4_RTSM k < v4_TSM k) by nia.
  assert (Hcol : 0 <= lx + wn * v4_RTSN k < v4_TSN k) by nia.
  rewrite (v4_load_spec_A t mem (ly + wm * v4_RTSM k) i Hrow) by lia.
  rewrite (v4_load_spec_B t mem i (lx + wn * v4_RTSN k)) by lia.
  unfold macAt. f_equal; [apply loadA_ext | apply loadB_ext]; lia.
Qed.

Lemma v4_tiles_spec mem0 uninit lx ly wm wn :
  0 <= lx < v4_RTSN k -> 0 <= ly < v4_RTSM k ->
  0 <= wm < v4_WPTM k -> 0 <= wn < v4_WPTN k ->
  snd (v4_tiles getMatrixA getMatrixB getOutputCoords wg k mem0 uninit (lx, ly))
      wm wn
  = texelProduct getMatrixA getMatrixB (v4_common k) b
      (v4_TSM k * snd wg + ly + wm * v4_RTSM k)
      (v4_TSN k * fst wg + lx + wn * v4_RTSN k).
Proof.
  intros Hx Hy Hwm Hwn. unfold v4_tiles, texelProduct.
  destruct Htiles as [_ [_ [<- _]]]. unfold accumulated.
  pose proof (tiles_fold
           (v4_load getMatrixA getMatrixB getOutputCoords wg k)
           (fun mem t (th : Z * Z) (r : regs) =>
              block_accum (v4_common k) (v4_WPTM k) (v4_WPTN k) (v4_RTSM k)
                (v4_RTSN k) (sizeTS (v4_common k) (v4_TSK k) t) mem
                (snd th) (fst th) r)
           (fun (r : regs) (w : Z * Z) => snd r (fst w) (snd w))
           (fun (th : Z * Z) (w : Z * Z) =>
              macAt getMatrixA getMatrixB (v4_common k) b
                (v4_TSM k * snd wg + snd th + fst w * v4_RTSM k)
                (v4_TSN k * fst wg + fst th + snd w * v4_RTSN k))
           (fun t => map (fun i => v4_TSK k * t + i)
                         (range (sizeTS (v4_common k) (v4_TSK k) t)))
           (fun (th : Z * Z) (w : Z * Z) =>
              (0 <= fst th < v4_RTSN k /\ 0 <= snd th < v4_RTSM k) /\
              (0 <= fst w < v4_WPTM k /\ 0 <= snd w < v4_WPTN k))
           (range (numTiles (v4_common k)))) as H.
  cbv beta in H.
  specialize (H (fun t mem th o r Ht HP => v4_accum_macAt t mem th o r Ht HP)
                (mem0,
                 fun th => (fst (uninit th),
                            zero_block (v4_WPTM k) (v4_WPTN k) (snd (uninit th))))
                (lx, ly) (wm, wn)
                (conj (conj Hx Hy) (conj Hwm Hwn))).
  cbn [fst snd] in H.
  rewrite zero_block_spec in H by assumption.
  exact H.
Qed.

End KernelCSV4.

(** *** The texel-wise sum is the naive product *)

Lemma naive_succ2 (A B : tensor3) (K b i j : Z) :
  0 <= K ->
  naive A B (K + 2) b i j
  = naive A B K b i j + A b i K * B b K j + A b i (K + 1) * B b (K + 1) j.
Proof.
  intros HK. unfold naive.
  replace (K + 2) with (K + 1 + 1) by ring.
  rewrite (range_succ (K + 1)), (range_succ K) by lia.
  rewrite !fold_left_app. reflexivity.
Qed.

Lemma blockTexel_even (T : tensor3) (b m n : Z) :
  blockTexel T b (m * 2) (n * 2)
  = mkVec4 (T b (2 * m) (2 * n)) (T b (2 * m) (2 * n + 1))
           (T b (2 * m + 1) (2 * n)) (T b (2 * m + 1) (2 * n + 1)).
Proof.
  unfold blockTexel. rewrite !Z.div_mul by lia. reflexivity.
Qed.

(** The sum the kernels take over the packed shared dimension, on textures
    that hold the 2 x 2 blocks of [A] and [B], is the texel of the naive
    product over twice as many positions. *)
Lemma texelProduct_naive aShape (transposeA transposeB : bool) tileK activation
    applyText (A B : tensor3) (b m n : Z) :
  let c := common aShape transposeA transposeB tileK activation applyText in
  0 <= sharedDimensionPacked c ->
  texelProduct (blockTexel A) (blockTexel B) c b m n
  = referenceTexel transposeA transposeB A B (2 * sharedDimensionPacked c) b m n.
Proof.
  intros c. unfold texelProduct, referenceTexel.
  generalize (sharedDimensionPacked c) as sdp.
  apply (natlike_ind (fun sdp => fold_left _ (range sdp) _ = _)).
  - rewrite range_0. cbn [fold_left].
    rewrite (Z.mul_comm 2 m), (Z.mul_comm 2 n), blockTexel_even.
    reflexivity.
  - intros sdp Hsdp IH. unfold Z.succ.
    rewrite range_succ, fold_left_app by exact Hsdp. cbn [fold_left].
    rewrite IH.
    replace (2 * (sdp + 1)) with (2 * sdp + 2) by ring.
    rewrite (Z.mul_comm 2 m), (Z.mul_comm 2 n), !blockTexel_even.
    unfold macAt, mac, loadA, loadB, c, common, aCoords, bCoords.
    cbn [aSample bSample aSwizzle bSwizzle].
    rewrite !naive_succ2 by lia.
    destruct transposeA, transposeB;
      cbn [fst snd]; rewrite !blockTexel_even;
      unfold vec4_add, vec4_mul, swz, get, operandA, operandB;
      cbn [vx vy vz vw]; f_equal; ring.
Qed.

(** *** What each kernel stores, for every input and every tiling *)

Lemma sharedDimensionPacked_nonneg aShape (transposeA transposeB : bool) tileK
    activation applyText :
  0 <= sharedDimOf aShape transposeA ->
  0 <= sharedDimensionPacked
         (common aShape transposeA transposeB tileK activation applyText).
Proof.
  intros H. cbn [common sharedDimensionPacked].
  pose proof (ceil_div_spec (if transposeA then dim1 aShape else dim2 aShape) 2
                ltac:(lia)).
  unfold sharedDimOf in H. lia.
Qed.

Lemma exact_quotient (TS WPT : Z) :
  0 < WPT -> 0 < TS -> TS mod WPT = 0 ->
  0 < TS / WPT /\ TS = WPT * (TS / WPT).
Proof.
  intros HW HT Hm.
  pose proof (Z.div_mod TS WPT ltac:(lia)) as E. rewrite Hm in E.
  split; [nia | lia].
Qed.


(** When the shared dimension is even the product above runs over exactly
    [sharedDim] positions; when it is odd, over one more, which adds nothing
    if the padding of one of the operands is 0. *)
Lemma even_sharedDim (h : Z) : 2 * ceil_div (2 * h) 2 = 2 * h.
Proof.
  pose proof (ceil_div_spec (2 * h) 2 ltac:(lia)). lia.
Qed.

Lemma odd_sharedDim (h : Z) : 2 * ceil_div (2 * h + 1) 2 = 2 * h + 1 + 1.
Proof.
  pose proof (ceil_div_spec (2 * h + 1) 2 ltac:(lia)). lia.
Qed.

Lemma naive_padding (A B : tensor3) (K b i j : Z) :
  0 <= K -> A b i K * B b K j = 0 ->
  naive A B (K + 1) b i j = naive A B K b i j.
Proof.
  intros HK Hpad. unfold naive.
  rewrite range_succ, fold_left_app by lia. cbn [fold_left]. lia.
Qed.

(** With samplers that return the blocks of [A] and [B] at every position
    within their shapes, the sum the kernels take for a texel of the output
    is the sum on the blocks themselves: the kernels ask only for
    positions within the shapes. *)
Lemma texelProduct_blocks aShape bShape (transposeA transposeB : bool) tileK
    activation applyText getMatrixA getMatrixB (A B : tensor3) (b m n : Z) :
  let c := common aShape transposeA transposeB tileK activation applyText in
  0 <= sharedDimOf aShape transposeA ->
  (if transposeB then dim2 bShape else dim1 bShape)
    = sharedDimOf aShape transposeA ->
  holdsBlocks getMatrixA aShape A -> holdsBlocks getMatrixB bShape B ->
  0 <= b < dim0 aShape -> 0 <= b < dim0 bShape ->
  0 <= 2 * m < (if transposeA then dim2 aShape else dim1 aShape) ->
  0 <= 2 * n < (if transposeB then dim1 bShape else dim2 bShape) ->
  texelProduct getMatrixA getMatrixB c b m n
  = texelProduct (blockTexel A) (blockTexel B) c b m n.
Proof.
  intros c HK HKb HA HB Hba Hbb Hm Hn. unfold texelProduct.
  apply fold_left_ext_In. intros acc p Hp. apply In_range in Hp.
  assert (Hp2 : 0 <= 2 * p < sharedDimOf aShape transposeA).
  { unfold c, common in Hp. cbn [sharedDimensionPacked] in Hp.
    unfold sharedDimOf.
    pose proof (ceil_div_spec (if transposeA then dim1 aShape else dim2 aShape) 2
                  ltac:(lia)). lia. }
  unfold macAt, loadA, loadB, c, common, aCoords, bCoords.
  cbn [aSample bSample]. unfold sharedDimOf in *.
  f_equal.
  - destruct transposeA; apply HA; lia.
  - destruct transposeB; apply HB; lia.
Qed.

(** *** The positions of the shared dimension a kernel reads and consumes *)

(** C6, as stated, fails in its last part: the load phase reads past the
    bound.  [MatMulPackedProgramCS] for a shared dimension of 6 (3 packed
    positions) and [TS = 2] has 2 tiles, the last of 1 position; in the load
    phase of that tile the invocation of local column 1 calls [getMatrixA]
    at the packed position [tileCol = 3] (logical column 6), which is not
    below 3, and stores what it gets in [Asub[0][1]]. *)
Lemma C6_load_phase_reads_past_the_packed_bound :
  exists p,
    returned (MatMulPackedProgramCS (1, 4, 6) (1, 4, 4) false false 2 false None)
      = Some p /\
    sharedDimensionPacked (cs_common (userCode p)) = 3 /\
    numTiles (cs_common (userCode p)) = 2 /\
    sizeTS (cs_common (userCode p)) 2 1 = 1 /\
    (forall getMatrixA mem,
       fst (cs_load getMatrixA zeroSampler batch0 (0, 0) (userCode p) 1 mem) 0 1
       = getMatrixA 0 0 (2 * 3)) /\
    fst (cs_load (probeColumn 6) zeroSampler batch0 (0, 0) (userCode p) 1
           zeroMem) 0 1 = vec4_splat 1 /\
    fst (cs_load zeroSampler zeroSampler batch0 (0, 0) (userCode p) 1
           zeroMem) 0 1 = vec4_splat 0.
Proof.
  eexists. split; [reflexivity |].
  repeat split; try reflexivity.
Qed.

(** C6, amended.  In each of the four matmul programs [numTiles] is the
    ceiling of [sharedDimensionPacked / tileK] and the bound [sizeTS] of the
    inner accumulation loop is [tileK] on every tile, except on the last one
    when [sharedDimensionPacked mod tileK <> 0], where it is that remainder.
    So the accumulation loops of the kernels consume exactly the packed
    positions [0 .. sharedDimensionPacked - 1], each once and none past the
    bound: whatever shared memory holds at the start, after the last tile
    the accumulator of an invocation is the sum, over exactly these
    positions [p] in order, of the swizzled products of the texel of [A] at
    [(row, p)] and the texel of [B] at [(p, col)] (in
    [MatMulPackedProgramCSV2], that sum added to what the register held at
    the start).  The load phase is not limited in this way: on every tile
    [t], the last included, it fills every cell of the shared tile, cell
    [Asub[r][c]] with the texel of [A] at packed position [tileK * t + c]
    and cell [Bsub[r][c]] with the texel of [B] at packed position
    [tileK * t + r], whether or not the position is below
    [sharedDimensionPacked].
    (Stated per workgroup whose invocations are in the batch [b], for [WPT]
    dividing [TS], and [TS] dividing [TSK * WPT * WPT] in the fourth
    program.) *)
Theorem C6_accumulation_stops_at_the_packed_bound :
  forall getMatrixA getMatrixB getOutputCoords wg b mem0 uninit uninitV2
         aShape outputShape (transposeA transposeB : bool) TS TSK WPT addBias
         activation x1 y1 x2 y2 w x3 y3 wm wn t mem r c ck,
    0 < TS -> 0 < TSK -> 0 < WPT -> TS mod WPT = 0 ->
    (TSK * WPT * WPT) mod TS = 0 ->
    0 <= sharedDimOf aShape transposeA ->
    KernelSpec.sameBatch getOutputCoords wg TS TS b ->
    KernelSpec.sameBatch getOutputCoords wg TS (TS / WPT) b ->
    KernelSpec.sameBatch getOutputCoords wg (TS / WPT) (TS / WPT) b ->
    0 <= x1 < TS -> 0 <= y1 < TS ->
    0 <= x2 < TS -> 0 <= y2 < TS / WPT -> 0 <= w < WPT ->
    0 <= x3 < TS / WPT -> 0 <= y3 < TS / WPT ->
    0 <= wm < WPT -> 0 <= wn < WPT ->
    0 <= r < TS -> 0 <= c < TS -> 0 <= ck < TSK ->
    match returned (MatMulPackedProgramCS aShape outputShape transposeA
                      transposeB TS addBias activation) with
    | Some p =>
        let k := cs_common (userCode p) in
        tiles_ok k TS /\
        cs_tiles getMatrixA getMatrixB getOutputCoords wg (userCode p) mem0
          (x1, y1)
        = fold_left
            (macAt getMatrixA getMatrixB k b
               (snd wg * TS + y1) (fst wg * TS + x1))
            (range (sharedDimensionPacked k)) (vec4_splat 0) /\
        fst (cs_load getMatrixA getMatrixB getOutputCoords wg (userCode p)
               t mem) r c
        = loadA getMatrixA k b (snd wg * TS + r) (TS * t + c) /\
        snd (cs_load getMatrixA getMatrixB getOutputCoords wg (userCode p)
               t mem) r c
        = loadB getMatrixB k b (TS * t + r) (fst wg * TS + c)
    | None => False
    end /\
    match returned (MatMulPackedProgramCSV2 aShape outputShape transposeA
                      transposeB TS WPT addBias activation) with
    | Some p =>
        let k := v2_common (userCode p) in
        tiles_ok k TS /\
        v2_tiles getMatrixA getMatrixB getOutputCoords wg (userCode p) mem0
          uninitV2 (x2, y2) w
        = vec4_add (uninitV2 (x2, y2) w)
            (fold_left
               (macAt getMatrixA getMatrixB k b
                  (TS * snd wg + y2 + w * (TS / WPT)) (TS * fst wg + x2))
               (range (sharedDimensionPacked k)) (vec4_splat 0)) /\
        fst (v2_load getMatrixA getMatrixB getOutputCoords wg (userCode p)
               t mem) r c
        = loadA getMatrixA k b (TS * snd wg + r) (TS * t + c) /\
        snd (v2_load getMatrixA getMatrixB getOutputCoords wg (userCode p)
               t mem) r c
        = loadB getMatrixB k b (TS * t + r) (TS * fst wg + c)
    | None => False
    end /\
    match returned (MatMulPackedProgramCSV3 aShape outputShape transposeA
                      transposeB TS WPT addBias activation) with
    | Some p =>
        let k := v3_common (userCode p) in
        tiles_ok k TS /\
        snd (v3_tiles getMatrixA getMatrixB getOutputCoords wg (userCode p)
               mem0 uninit (x3, y3)) wm wn
        = fold_left
            (macAt getMatrixA getMatrixB k b
               (TS * snd wg + y3 + wm * (TS / WPT))
               (TS * fst wg + x3 + wn * (TS / WPT)))
            (range (sharedDimensionPacked k)) (vec4_splat 0) /\
        fst (v3_load getMatrixA getMatrixB getOutputCoords wg (userCode p)
               t mem) r c
        = loadA getMatrixA k b (TS * snd wg + r) (TS * t + c) /\
        snd (v3_load getMatrixA getMatrixB getOutputCoords wg (userCode p)
               t mem) r c
        = loadB getMatrixB k b (TS * t + r) (TS * fst wg + c)
    | None => False
    end /\
    match returned (MatMulPackedProgramCSV4 aShape outputShape transposeA
                      transposeB TS TSK WPT addBias activation) with
    | Some p =>
        let k := v4_common (userCode p) in
        tiles_ok k TSK /\
        snd (v4_tiles getMatrixA getMatrixB getOutputCoords wg (userCode p)
               mem0 uninit (x3, y3)) wm wn
        = fold_left
            (macAt getMatrixA getMatrixB k b
               (TS * snd wg + y3 + wm * (TS / WPT))
               (TS * fst wg + x3 + wn * (TS / WPT)))
            (range (sharedDimensionPacked k)) (vec4_splat 0) /\
        fst (v4_load getMatrixA getMatrixB getOutputCoords wg (userCode p)
               t mem) r ck
        = loadA getMatrixA k b (TS * snd wg + r) (TSK * t + ck) /\
        snd (v4_load getMatrixA getMatrixB getOutputCoords wg (userCode p)
               t mem) ck r
        = loadB getMatrixB k b (TSK * t + ck) (TS * fst wg + r)
    | None => False
    end.
Proof.
  intros getMatrixA getMatrixB getOutputCoords wg b mem0 uninit uninitV2
         aShape outputShape transposeA transposeB TS TSK WPT addBias activation
         x1 y1 x2 y2 w x3 y3 wm wn t mem r c ck
         HTS HTSK HWPT Hmod Hmod' Hdim Hb1 Hb2 Hb3
         Hx1 Hy1 Hx2 Hy2 Hw Hx3 Hy3 Hwm Hwn Hr Hc Hck.
  destruct (exact_quotient TS WPT HWPT HTS Hmod) as [HRTS Hexact].
  assert (HLPTA : TSK * WPT * WPT / TS * (TS / WPT * (TS / WPT)) = TS * TSK).
  { pose proof (Z.div_mod (TSK * WPT * WPT) TS ltac:(lia)) as E.
    rewrite Hmod' in E.
    set (L := TSK * WPT * WPT / TS) in *. set (R := TS / WPT) in *.
    assert (E1 : WPT * (L * R) = WPT * (TSK * WPT)).
    { rewrite Hexact in E at 1. lia. }
    apply Z.mul_cancel_l in E1; [| lia].
    rewrite Hexact at 1. rewrite Z.mul_assoc, E1. ring. }
  unfold sharedDimOf in Hdim.
  split; [| split; [| split]].
  - pose proof (common_tiles_ok aShape transposeA transposeB TS activation
                  "result = activation(result);" HTS Hdim) as Htiles.
    destruct addBias; cbn [returned result bind ret MatMulPackedProgramCS userCode];
      cbv zeta; cbn [cs_common]; (split; [exact Htiles |]);
      (split;
       [ erewrite cs_tiles_spec;
         [reflexivity | exact HTS | exact Htiles | exact Hb1 | exact Hx1
          | exact Hy1]
       | eapply cs_load_spec; cbn [cs_TS]; first [exact Hb1 | lia] ]).
  - pose proof (common_tiles_ok aShape transposeA transposeB TS activation
                  "result = activation(result);" HTS Hdim) as Htiles.
    destruct addBias; cbn [returned result bind ret MatMulPackedProgramCSV2 userCode];
      cbv zeta; cbn [v2_common]; (split; [exact Htiles |]);
      (split;
       [ erewrite v2_tiles_spec;
         [reflexivity | exact HRTS | exact Hexact | exact Htiles | exact Hb2
          | exact Hx2 | exact Hy2 | exact Hw]
       | eapply v2_load_spec; cbn [v2_TS v2_RTS v2_WPT];
         first [exact Hb2 | exact Hexact | lia] ]).
  - pose proof (common_tiles_ok aShape transposeA transposeB TS activation
                  "result[innerRow][innerCol] = activation(result[innerRow][innerCol]);"
                  HTS Hdim) as Htiles.
    destruct addBias; cbn; cbv zeta; (split; [exact Htiles |]);
      (split;
       [ erewrite v3_tiles_spec;
         [reflexivity | exact HRTS | exact HWPT | exact Hexact | exact Htiles
          | exact Hb3 | exact Hx3 | exact Hy3 | exact Hwm | exact Hwn]
       | eapply v3_load_spec; cbn [v3_TS v3_RTS v3_WPT];
         first [exact Hb3 | exact Hexact | lia] ]).
  - pose proof (common_tiles_ok aShape transposeA transposeB TSK activation
                  "acc[wm][wn] = activation(acc[wm][wn]);" HTSK Hdim) as Htiles.
    destruct addBias; cbn; cbv zeta; (split; [exact Htiles |]);
      (split;
       [ erewrite v4_tiles_spec;
         [reflexivity | exact HTSK | exact HRTS | exact HRTS | exact Hexact
          | exact Hexact | reflexivity | exact HLPTA | exact Htiles
          | exact Hb3 | exact Hx3 | exact Hy3 | exact Hwm | exact Hwn]
       | split;
         [ eapply v4_load_spec_A | eapply v4_load_spec_B ];
         cbn [v4_TSM v4_TSN v4_TSK v4_RTSM v4_RTSN v4_WPTM v4_WPTN v4_LPTA];
         first [exact Hb3 | exact Hexact | exact HLPTA | reflexivity | lia] ]).
Qed.

Lemma C6_accumulation_stops_at_the_packed_bound_witness :
  match returned (MatMulPackedProgramCS (1, 4, 6) (1, 4, 8) false false 2
                    false None) with
  | Some p =>
      let k := cs_common (userCode p) in
      tiles_ok k 2 /\
      cs_tiles (blockTexel exampleA) (blockTexel exampleB) batch0 (0, 0)
        (userCode p) staleMem (1, 0)
      = fold_left
          (macAt (blockTexel exampleA) (blockTexel exampleB) k 0
             (0 * 2 + 0) (0 * 2 + 1))
          (range (sharedDimensionPacked k)) (vec4_splat 0) /\
      fst (cs_load (blockTexel exampleA) (blockTexel exampleB) batch0 (0, 0)
             (userCode p) 1 staleMem) 0 1
      = loadA (blockTexel exampleA) k 0 (0 * 2 + 0) (2 * 1 + 1) /\
      snd (cs_load (blockTexel exampleA) (blockTexel exampleB) batch0 (0, 0)
             (userCode p) 1 staleMem) 0 1
      = loadB (blockTexel exampleB) k 0 (2 * 1 + 0) (0 * 2 + 1)
  | None => False
  end /\
  match returned (MatMulPackedProgramCSV2 (1, 4, 6) (1, 4, 8) false false 2 2
                    false None) with
  | Some p =>
      let k := v2_common (userCode p) in
      tiles_ok k 2 /\
      v2_tiles (blockTexel exampleA) (blockTexel exampleB) batch0 (0, 0)
        (userCode p) staleMem (fun _ _ => vec4_splat 1) (1, 0) 1
      = vec4_add (vec4_splat 1)
          (fold_left
             (macAt (blockTexel exampleA) (blockTexel exampleB) k 0
                (2 * 0 + 0 + 1 * (2 / 2)) (2 * 0 + 1))
             (range (sharedDimensionPacked k)) (vec4_splat 0)) /\
      fst (v2_load (blockTexel exampleA) (blockTexel exampleB) batch0 (0, 0)
             (userCode p) 1 staleMem) 0 1
      = loadA (blockTexel exampleA) k 0 (2 * 0 + 0) (2 * 1 + 1) /\
      snd (v2_load (blockTexel exampleA) (blockTexel exampleB) batch0 (0, 0)
             (userCode p) 1 staleMem) 0 1
      = loadB (blockTexel exampleB) k 0 (2 * 1 + 0) (2 * 0 + 1)
  | None => False
  end /\
  match returned (MatMulPackedProgramCSV3 (1, 4, 6) (1, 4, 8) false false 2 2
                    false None) with
  | Some p =>
      let k := v3_common (userCode p) in
      tiles_ok k 2 /\
      snd (v3_tiles (blockTexel exampleA) (blockTexel exampleB) batch0
             (0, 0) (userCode p) staleMem staleRegs (0, 0)) 1 0
      = fold_left
          (macAt (blockTexel exampleA) (blockTexel exampleB) k 0
             (2 * 0 + 0 + 1 * (2 / 2)) (2 * 0 + 0 + 0 * (2 / 2)))
          (range (sharedDimensionPacked k)) (vec4_splat 0) /\
      fst (v3_load (blockTexel exampleA) (blockTexel exampleB) batch0 (0, 0)
             (userCode p) 1 staleMem) 0 1
      = loadA (blockTexel exampleA) k 0 (2 * 0 + 0) (2 * 1 + 1) /\
      snd (v3_load (blockTexel exampleA) (blockTexel exampleB) batch0 (0, 0)
             (userCode p) 1 staleMem) 0 1
      = loadB (blockTexel exampleB) k 0 (2 * 1 + 0) (2 * 0 + 1)
  | None => False
  end /\
  match returned (MatMulPackedProgramCSV4 (1, 4, 6) (1, 4, 8) false false 2 2 2
                    false None) with
  | Some p =>
      let k := v4_common (userCode p) in
      tiles_ok k 2 /\
      snd (v4_tiles (blockTexel exampleA) (blockTexel exampleB) batch0
             (0, 0) (userCode p) staleMem staleRegs (0, 0)) 1 0
      = fold_left
          (macAt (blockTexel exampleA) (blockTexel exampleB) k 0
             (2 * 0 + 0 + 1 * (2 / 2)) (2 * 0 + 0 + 0 * (2 / 2)))
          (range (sharedDimensionPacked k)) (vec4_splat 0) /\
      fst (v4_load (blockTexel exampleA) (blockTexel exampleB) batch0 (0, 0)
             (userCode p) 1 staleMem) 0 1
      = loadA (blockTexel exampleA) k 0 (2 * 0 + 0) (2 * 1 + 1) /\
      snd (v4_load (blockTexel exampleA) (blockTexel exampleB) batch0 (0, 0)
             (userCode p) 1 staleMem) 1 0
      = loadB (blockTexel exampleB) k 0 (2 * 1 + 1) (2 * 0 + 0)
  | None => False
  end.
Proof.
  apply (C6_accumulation_stops_at_the_packed_bound
           (blockTexel exampleA) (blockTexel exampleB) batch0 (0, 0) 0
           staleMem staleRegs (fun _ _ => vec4_splat 1)
           (1, 4, 6) (1, 4, 8) false false 2 2 2 false None
           1 0 1 0 1 0 0 1 0 1 staleMem 0 1 1);
    try (intros lx ly _ _; reflexivity); try reflexivity;
    unfold sharedDimOf; change (2 / 2) with 1; simpl; lia.
Defined.

(** * Further properties of the code *)

(** ** The matmul kernels, one workgroup *)

Import KernelSpec.

Lemma nonempty_if (flag : bool) (text : string) :
  text <> ""%string -> nonempty (if flag then text else ""%string) = flag.
Proof.
  intros Htext. destruct flag; unfold nonempty.
  - destruct (String.eqb_spec text ""); [contradiction | reflexivity].
  - reflexivity.
Qed.

(** The sum does not depend on the tile size or the activation of the
    program. *)
Lemma texelProduct_product getMatrixA getMatrixB aShape
    (transposeA transposeB : bool) tileK activation applyText b row col :
  texelProduct getMatrixA getMatrixB
    (common aShape transposeA transposeB tileK activation applyText) b row col
  = product getMatrixA getMatrixB aShape transposeA transposeB b row col.
Proof. reflexivity. Qed.

(** X1.  [MatMulPackedProgramCS], for every pair of input samplers, every
    shape, transposition, tile size, bias and activation setting: the
    workgroup issues one store per invocation, at the invocation's own
    position [(TS * wg.x + lx, TS * wg.y + ly)], and the value stored there
    is the sum of the texel products for that packed row and column, with
    the bias added (if requested) and then the activation applied (if
    given), each once.  What shared memory held before does not matter. *)
Theorem X1_CS_workgroup_stores_the_product :
  forall aShape outputShape (transposeA transposeB : bool) TS addBias
         activation getMatrixA getMatrixB getOutputCoords getBiasAtOutCoords
         act wg b mem0,
    0 < TS -> 0 <= sharedDimOf aShape transposeA ->
    sameBatch getOutputCoords wg TS TS b ->
    option_map
      (fun p => cs_stores getMatrixA getMatrixB getOutputCoords
                  getBiasAtOutCoords act wg (userCode p) mem0)
      (returned (MatMulPackedProgramCS aShape outputShape transposeA
                   transposeB TS addBias activation))
    = Some
        (map (fun th : Z * Z =>
                let gx := fst wg * TS + fst th in
                let gy := snd wg * TS + snd th in
                ((gx, gy),
                 finish addBias activation (getBiasAtOutCoords gx gy) act
                   (product getMatrixA getMatrixB aShape transposeA transposeB
                      b gy gx)))
             (threads TS TS)).
Proof.
  intros aShape outputShape transposeA transposeB TS addBias activation
         getMatrixA getMatrixB getOutputCoords getBias act wg b mem0
         HTS Hdim Hbatch.
  cbn [MatMulPackedProgramCS returned result ret option_map userCode].
  f_equal. unfold cs_stores. cbn [cs_TS].
  apply map_ext_in. intros [lx ly] Hth. apply In_threads in Hth.
  destruct Hth as [Hx Hy]. cbn [fst snd].
  set (k := {| cs_common := common aShape transposeA transposeB TS activation
                              "result = activation(result);";
               cs_TS := TS;
               cs_addBiasSnippet :=
                 if addBias then "result += getBiasAtOutCoords();"%string
                 else ""%string |}).
  rewrite (cs_tiles_spec getMatrixA getMatrixB getOutputCoords
             wg b k HTS
             (common_tiles_ok aShape transposeA transposeB TS activation _
                HTS Hdim)
             Hbatch mem0 lx ly Hx Hy).
  cbn [cs_TS cs_common cs_addBiasSnippet k].
  rewrite texelProduct_product.
  cbn [common applyActivationSnippet].
  rewrite !nonempty_if by discriminate.
  reflexivity.
Qed.

Lemma X1_CS_workgroup_stores_the_product_witness :
  0 < 2 /\ 0 <= sharedDimOf (1, 4, 6) false /\
  sameBatch batch0 (1, 0) 2 2 0 /\
  option_map
    (fun p => cs_stores (blockTexel exampleA) (blockTexel exampleB)
                batch0 exampleBias relu (1, 0) (userCode p) staleMem)
    (returned (MatMulPackedProgramCS (1, 4, 6) (1, 4, 8) false false 2 true
                 (Some "return max(x, 0.0);"%string)))
  = Some
      (map (fun th : Z * Z =>
              let gx := fst (1, 0) * 2 + fst th in
              let gy := snd (1, 0) * 2 + snd th in
              ((gx, gy),
               finish true (Some "return max(x, 0.0);"%string)
                 (exampleBias gx gy) relu
                 (product (blockTexel exampleA) (blockTexel exampleB)
                    (1, 4, 6) false false 0 gy gx)))
           (threads 2 2)).
Proof.
  assert (H1 : 0 < 2) by lia.
  assert (H2 : 0 <= sharedDimOf (1, 4, 6) false) by (simpl; lia).
  assert (H3 : sameBatch batch0 (1, 0) 2 2 0) by (intros lx ly _ _; reflexivity).
  split; [exact H1 |]. split; [exact H2 |]. split; [exact H3 |].
  exact (X1_CS_workgroup_stores_the_product (1, 4, 6) (1, 4, 8) false false 2
           true (Some "return max(x, 0.0);"%string)
           (blockTexel exampleA) (blockTexel exampleB) batch0
           exampleBias relu (1, 0) 0 staleMem H1 H2 H3).
Defined.










(** X5.  The swizzles of the four kernels multiply 2 x 2 blocks.  When
    the generated functions of [A] and [B] return, at every position within
    the shapes, the 2 x 2 block that holds the position (row-major within a
    texel), the sum of the swizzled texel products over the packed shared
    dimension is, channel by channel, the texel of the naive product
    [sum over k < sharedDim of A[i, k] * B[k, j]], for each of the four
    settings of [transposeA] and [transposeB] and every texel of the
    output, provided [sharedDim] is even or, when it is odd, the element of
    padding it brings in contributes 0 ([A[i, sharedDim] * B[sharedDim, j]]
    is 0). *)
Theorem X5_swizzled_texel_products_are_the_block_product :
  forall getMatrixA getMatrixB aShape bShape (transposeA transposeB : bool)
         (A B : tensor3) b row col,
    0 <= sharedDimOf aShape transposeA ->
    (if transposeB then dim2 bShape else dim1 bShape)
      = sharedDimOf aShape transposeA ->
    holdsBlocks getMatrixA aShape A -> holdsBlocks getMatrixB bShape B ->
    0 <= b < dim0 aShape -> 0 <= b < dim0 bShape ->
    0 <= 2 * row < (if transposeA then dim2 aShape else dim1 aShape) ->
    0 <= 2 * col < (if transposeB then dim1 bShape else dim2 bShape) ->
    (Z.even (sharedDimOf aShape transposeA) = true \/
     forall i j,
       operandA transposeA A b i (sharedDimOf aShape transposeA)
       * operandB transposeB B b (sharedDimOf aShape transposeA) j = 0) ->
    product getMatrixA getMatrixB aShape transposeA transposeB b row col
    = referenceTexel transposeA transposeB A B
        (sharedDimOf aShape transposeA) b row col.
Proof.
  intros getMatrixA getMatrixB aShape bShape transposeA transposeB A B b row
         col Hdim HKb HA HB Hba Hbb Hrow Hcol Hpad.
  unfold product.
  rewrite (texelProduct_blocks aShape bShape transposeA transposeB 1 None
             ""%string getMatrixA getMatrixB A B b row col
             Hdim HKb HA HB Hba Hbb Hrow Hcol).
  rewrite texelProduct_naive
    by (apply sharedDimensionPacked_nonneg; exact Hdim).
  cbn [common sharedDimensionPacked].
  fold (sharedDimOf aShape transposeA).
  set (K := sharedDimOf aShape transposeA) in *.
  destruct (Z.Even_or_Odd K) as [[h Hh] | [h Hh]].
  - rewrite Hh, even_sharedDim. reflexivity.
  - destruct Hpad as [Heven | Hpad].
    + rewrite Hh in Heven. replace (2 * h + 1) with (1 + 2 * h) in Heven by lia.
      rewrite Z.even_add_mul_2 in Heven. discriminate.
    + rewrite Hh, odd_sharedDim. rewrite <- Hh.
      unfold referenceTexel, blockTexel.
      rewrite !naive_padding by (try exact Hdim; apply Hpad).
      reflexivity.
Qed.

Lemma X5_swizzled_texel_products_are_the_block_product_witness :
  exists getMatrixA getMatrixB,
    inputSampler "matrixA" (1, 4, 5) (rowTexture (1, 4, 5)) paddedA zeroTexel
      = Some getMatrixA /\
    inputSampler "matrixB" (1, 5, 4) (rowTexture (1, 5, 4)) exampleB zeroTexel
      = Some getMatrixB /\
    0 <= sharedDimOf (1, 4, 5) false /\
    dim1 (1, 5, 4) = sharedDimOf (1, 4, 5) false /\
    holdsBlocks getMatrixA (1, 4, 5) paddedA /\
    holdsBlocks getMatrixB (1, 5, 4) exampleB /\
    Z.even (sharedDimOf (1, 4, 5) false) = false /\
    (forall i j,
       operandA false paddedA 0 i (sharedDimOf (1, 4, 5) false)
       * operandB false exampleB 0 (sharedDimOf (1, 4, 5) false) j = 0) /\
    product getMatrixA getMatrixB (1, 4, 5) false false 0 1 1
    = referenceTexel false false paddedA exampleB
        (sharedDimOf (1, 4, 5) false) 0 1 1.
Proof.
  eexists _, _.
  split; [reflexivity |]. split; [reflexivity |].
  assert (H1 : 0 <= sharedDimOf (1, 4, 5) false) by (vm_compute; discriminate).
  assert (H2 : dim1 (1, 5, 4) = sharedDimOf (1, 4, 5) false) by reflexivity.
  match goal with
  | |- _ /\ _ /\ holdsBlocks ?gA _ _ /\ holdsBlocks ?gB _ _ /\ _ =>
      assert (HA : holdsBlocks gA (1, 4, 5) paddedA);
      [| assert (HB : holdsBlocks gB (1, 5, 4) exampleB) ]
  end.
  { intros b row col Hb Hr Hc. cbn [dim0 dim1 dim2 fst snd] in Hb, Hr, Hc.
    assert (b = 0) by lia.
    assert (Hrow : row = 0 \/ row = 1 \/ row = 2 \/ row = 3) by lia.
    assert (Hcol : col = 0 \/ col = 1 \/ col = 2 \/ col = 3 \/ col = 4) by lia.
    subst b.
    destruct Hrow as [-> | [-> | [-> | ->]]];
      destruct Hcol as [-> | [-> | [-> | [-> | ->]]]];
      vm_compute; reflexivity. }
  { intros b row col Hb Hr Hc. cbn [dim0 dim1 dim2 fst snd] in Hb, Hr, Hc.
    assert (b = 0) by lia.
    assert (Hrow : row = 0 \/ row = 1 \/ row = 2 \/ row = 3 \/ row = 4) by lia.
    assert (Hcol : col = 0 \/ col = 1 \/ col = 2 \/ col = 3) by lia.
    subst b.
    destruct Hrow as [-> | [-> | [-> | [-> | ->]]]];
      destruct Hcol as [-> | [-> | [-> | ->]]];
      vm_compute; reflexivity. }
  assert (Hpad : forall i j,
             operandA false paddedA 0 i (sharedDimOf (1, 4, 5) false)
             * operandB false exampleB 0 (sharedDimOf (1, 4, 5) false) j = 0)
    by (intros i j; reflexivity).
  split; [exact H1 |]. split; [exact H2 |]. split; [exact HA |].
  split; [exact HB |]. split; [reflexivity |]. split; [exact Hpad |].
  apply (X5_swizzled_texel_products_are_the_block_product _ _
           (1, 4, 5) (1, 5, 4) false false paddedA exampleB 0 1 1
           H1 H2 HA HB);
    try (cbn [dim0 dim1 dim2 fst snd]; lia).
  right. exact Hpad.
Defined.

Lemma mixed_radix_unique (q q' r r' s : Z) :
  0 <= r < s -> 0 <= r' < s -> q * s + r = q' * s + r' -> q = q' /\ r = r'.
Proof.
  intros Hr Hr' E.
  assert (q = q').
  { rewrite (Z.div_unique (q * s + r) s q r) by lia.
    rewrite E. symmetry. apply (Z.div_unique (q' * s + r') s q' r'); lia. }
  subst q'. split; [reflexivity | lia].
Qed.

(** X6.  The load loop of [MatMulPackedProgramCSV4] partitions the tile:
    when [WPT] divides [TS] and [TS] divides [TSK * WPT * WPT], every cell
    [Asub[row][col]] of the [TS] by [TSK] tile is written by exactly one
    iteration of exactly one invocation of the workgroup (and so is every
    cell [Bsub[col][row]]): no cell is left unwritten and no two work items
    write the same cell. *)
Theorem X6_CSV4_load_loop_partitions_the_tile :
  forall aShape outputShape (transposeA transposeB : bool) TS TSK WPT addBias
         activation,
    0 < WPT -> 0 < TS -> 0 < TSK -> TS mod WPT = 0 ->
    (TSK * WPT * WPT) mod TS = 0 ->
    match returned (MatMulPackedProgramCSV4 aShape outputShape transposeA
                      transposeB TS TSK WPT addBias activation) with
    | Some p =>
        forall row col, 0 <= row < TS -> 0 <= col < TSK ->
          exists x,
            (loadItem (userCode p) x /\ loadCell (userCode p) x = (row, col)) /\
            (forall x',
               loadItem (userCode p) x' ->
               loadCell (userCode p) x' = (row, col) -> x' = x)
    | None => False
    end.
Proof.
  intros aShape outputShape transposeA transposeB TS TSK WPT addBias
         activation HWPT HTS HTSK Hmod Hmod'.
  destruct (exact_quotient TS WPT HWPT HTS Hmod) as [HRTS Hexact].
  assert (HLPTA : TSK * WPT * WPT / TS * (TS / WPT * (TS / WPT)) = TS * TSK).
  { pose proof (Z.div_mod (TSK * WPT * WPT) TS ltac:(lia)) as E.
    rewrite Hmod' in E.
    set (L := TSK * WPT * WPT / TS) in *. set (R := TS / WPT) in *.
    assert (E1 : WPT * (L * R) = WPT * (TSK * WPT)).
    { rewrite Hexact in E at 1. lia. }
    apply Z.mul_cancel_l in E1; [| lia].
    rewrite Hexact at 1. rewrite Z.mul_assoc, E1. ring. }
  set (k := {| v4_common := common aShape transposeA transposeB TSK activation
                              "acc[wm][wn] = activation(acc[wm][wn]);";
               v4_TSM := TS; v4_TSN := TS; v4_TSK := TSK;
               v4_WPTM := WPT; v4_WPTN := WPT;
               v4_LPTA := TSK * WPT * WPT / TS;
               v4_RTSM := TS / WPT; v4_RTSN := TS / WPT;
               v4_outRows := ceil_div (dim1 outputShape) 2;
               v4_outCols := ceil_div (dim2 outputShape) 2 |}).
  assert (Hp : returned (MatMulPackedProgramCSV4 aShape outputShape transposeA
                           transposeB TS TSK WPT addBias activation)
               = Some {| variableNames := ["matrixA"; "matrixB"]%string;
                         usesPackedTextures := true;
                         outputShape := outputShape;
                         userCode := k;
                         localGroupSize := [TS / WPT; TS / WPT];
                         workPerThread := Some [WPT; WPT] |})
    by (destruct addBias; reflexivity).
  rewrite Hp. cbn [userCode]. intros row col Hrow Hcol.
  destruct (loadId_covers k HRTS HRTS HLPTA (row * TSK + col)) as [x [Hin Hid]];
    [cbn [v4_TSM v4_TSK k]; nia |].
  exists x. split.
  - split.
    + destruct x as [[lx ly] i]. apply In_items in Hin. exact Hin.
    + unfold loadCell. rewrite Hid. cbn [v4_TSK k].
      rewrite quot_stride, imod_stride by lia. reflexivity.
  - intros x' Hitem Hcell. unfold loadCell in Hcell.
    injection Hcell as Hq Hm. unfold imod in Hm. rewrite Hq in Hm.
    cbn [v4_TSK k] in Hm.
    assert (Hid' : loadId k x' = loadId k x) by lia.
    destruct x as [[lx ly] i], x' as [[lx' ly'] i'].
    apply In_items in Hin. destruct Hin as [[Hlx Hly] Hi].
    destruct Hitem as [[Hlx' Hly'] Hi']. cbn [fst snd] in *.
    unfold loadId in Hid'. cbn [fst snd v4_RTSN v4_RTSM k] in *.
    set (R := TS / WPT) in *.
    assert (Hin1 : 0 <= ly * R + lx < R * R) by nia.
    assert (Hin2 : 0 <= ly' * R + lx' < R * R) by nia.
    destruct (mixed_radix_unique i' i (ly' * R + lx') (ly * R + lx) (R * R)
                Hin2 Hin1 ltac:(lia)) as [-> Hrest].
    destruct (mixed_radix_unique ly' ly lx' lx R Hlx' Hlx Hrest) as [-> ->].
    reflexivity.
Qed.

Lemma X6_CSV4_load_loop_partitions_the_tile_witness :
  0 < 2 /\ 0 < 4 /\ 0 < 2 /\ 4 mod 2 = 0 /\ (2 * 2 * 2) mod 4 = 0 /\
  match returned (MatMulPackedProgramCSV4 (1, 8, 6) (1, 16, 8) false true 4 2 2
                    false None) with
  | Some p =>
      forall row col, 0 <= row < 4 -> 0 <= col < 2 ->
        exists x,
          (loadItem (userCode p) x /\ loadCell (userCode p) x = (row, col)) /\
          (forall x',
             loadItem (userCode p) x' ->
             loadCell (userCode p) x' = (row, col) -> x' = x)
  | None => False
  end.
Proof.
  assert (H1 : 0 < 2) by lia.
  assert (H2 : 0 < 4) by lia.
  assert (H3 : 4 mod 2 = 0) by reflexivity.
  assert (H4 : (2 * 2 * 2) mod 4 = 0) by reflexivity.
  split; [exact H1 |]. split; [exact H2 |]. split; [exact H1 |].
  split; [exact H3 |]. split; [exact H4 |].
  exact (X6_CSV4_load_loop_partitions_the_tile (1, 8, 6) (1, 16, 8) false true
           4 2 2 false None H1 H2 H1 H3 H4).
Defined.

(** ** The convolution kernels, one invocation *)

Import Conv ConvKernel.

Lemma fold_sum_acc (f : Z -> Z) (l : list Z) (a : Z) :
  fold_left (fun acc x => acc + f x) l a = a + sumZ f l.
Proof.
  unfold sumZ. revert a.
  assert (G : forall a b, fold_left (fun acc x => acc + f x) l (a + b)
                          = a + fold_left (fun acc x => acc + f x) l b).
  { induction l as [| x l IH]; intros a b; simpl; [reflexivity |].
    rewrite <- Z.add_assoc. apply IH. }
  intros a. rewrite <- (G a 0). f_equal. lia.
Qed.

Lemma sumZ_app (f : Z -> Z) (l1 l2 : list Z) :
  sumZ f (l1 ++ l2) = sumZ f l1 + sumZ f l2.
Proof.
  unfold sumZ at 1. rewrite fold_left_app. fold (sumZ f l1). apply fold_sum_acc.
Qed.

Lemma sumZ_ext_In (f g : Z -> Z) (l : list Z) :
  (forall x, In x l -> f x = g x) -> sumZ f l = sumZ g l.
Proof.
  induction l as [| x l IH]; intros H; [reflexivity |].
  change (x :: l) with ([x] ++ l). rewrite !sumZ_app.
  rewrite IH by (intros y Hy; apply H; right; exact Hy).
  unfold sumZ at 1 3. simpl. rewrite (H x) by (left; reflexivity). reflexivity.
Qed.

Lemma sumZ_zero (f : Z -> Z) (l : list Z) :
  (forall x, In x l -> f x = 0) -> sumZ f l = 0.
Proof.
  intros H. rewrite (sumZ_ext_In f (fun _ => 0) l H). clear H.
  induction l as [| x l IH]; [reflexivity |].
  change (x :: l) with ([x] ++ l). rewrite sumZ_app, IH. reflexivity.
Qed.

Lemma sumZ_range_succ (f : Z -> Z) (n : Z) :
  0 <= n -> sumZ f (range (n + 1)) = sumZ f (range n) + f n.
Proof.
  intros H. rewrite range_succ by lia. rewrite sumZ_app. reflexivity.
Qed.

(** A loop whose every iteration adds a term to an accumulator that was
    read from written cells only. *)
Lemma fold_option_sum (step : option Z -> Z -> option Z) (g : Z -> Z) (l : list Z) :
  (forall x a, In x l -> step (Some a) x = Some (a + g x)) ->
  forall a, fold_left step l (Some a) = Some (a + sumZ g l).
Proof.
  induction l as [| x l IH]; intros H a.
  - simpl. f_equal. unfold sumZ. simpl. lia.
  - simpl. rewrite H by (left; reflexivity).
    rewrite IH by (intros y b Hy; apply H; right; exact Hy).
    change (x :: l) with ([x] ++ l). rewrite sumZ_app.
    f_equal. change (sumZ g [x]) with (0 + g x). lia.
Qed.

Lemma strided4_exact (q : Z) : 0 <= q -> strided4 (q * 4) = map (fun i => 4 * i) (range q).
Proof.
  intros H. unfold strided4, ceil_div.
  replace (- (q * 4)) with ((- q) * 4) by lia.
  rewrite Z.div_mul by lia. rewrite Z.opp_involutive. reflexivity.
Qed.

Ltac fold_offsets :=
  repeat match goal with
         | |- context [?x + 1 + 1] => replace (x + 1 + 1) with (x + 2) by lia
         | |- context [?x + 2 + 1] => replace (x + 2 + 1) with (x + 3) by lia
         end.

(** The channel loop of [Conv2DProgramCS], vec4 chunks and remainder, adds
    the products of all [inChannels] channels. *)
Lemma conv_channels_spec getW (info : Conv2DInfo) (m : cache)
    (sR sC wR wC d2 : Z) (X : Z -> Z) (a : Z) :
  0 <= inChannels info ->
  (forall d, 0 <= d < inChannels info -> m sR (sC + d) = Some (X d)) ->
  conv_channels getW (userCode (Conv2DProgramCS info)) m sR sC wR wC d2 (Some a)
  = Some (a + sumZ (fun d => X d * getW wR wC d d2) (range (inChannels info))).
Proof.
  intros HC Hm. unfold conv_channels.
  cbv [Conv2DProgramCS userCode k_inputDepthNearestVec4 k_inputDepthVec4Remainder].
  set (C := inChannels info) in *.
  set (q := C / 4).
  assert (Hq : 0 <= q) by (apply Z.div_pos; lia).
  pose proof (Z.div_mod C 4 ltac:(lia)) as HD.
  pose proof (Z.mod_pos_bound C 4 ltac:(lia)) as HR.
  fold q in HD.
  assert (Hrem : rem C 4 = C mod 4) by (unfold rem; apply Z.rem_mod_nonneg; lia).
  rewrite Hrem. rewrite strided4_exact by exact Hq.
  set (F := fun d => X d * getW wR wC d d2).
  assert (L : forall n, 0 <= n -> n <= q ->
    fold_left
      (fun dotProd d1 =>
         match dotProd, m sR (sC + d1), m sR (sC + d1 + 1),
               m sR (sC + d1 + 2), m sR (sC + d1 + 3) with
         | Some acc, Some x0, Some x1, Some x2, Some x3 =>
             Some (acc + (x0 * getW wR wC d1 d2 + x1 * getW wR wC (d1 + 1) d2
                          + x2 * getW wR wC (d1 + 2) d2
                          + x3 * getW wR wC (d1 + 3) d2))
         | _, _, _, _, _ => None
         end)
      (map (fun i => 4 * i) (range n)) (Some a)
    = Some (a + sumZ F (range (4 * n)))).
  { apply (natlike_ind (fun n => n <= q -> _)).
    - intros _. simpl. f_equal. unfold sumZ. simpl. lia.
    - intros n Hn IH Hle. unfold Z.succ.
      rewrite range_succ by lia. rewrite map_app, fold_left_app, IH by lia.
      cbn [map fold_left].
      rewrite (Hm (4 * n)) by lia.
      replace (sC + 4 * n + 1) with (sC + (4 * n + 1)) by lia.
      replace (sC + 4 * n + 2) with (sC + (4 * n + 2)) by lia.
      replace (sC + 4 * n + 3) with (sC + (4 * n + 3)) by lia.
      rewrite (Hm (4 * n + 1)), (Hm (4 * n + 2)), (Hm (4 * n + 3)) by lia.
      f_equal.
      replace (4 * (n + 1)) with (4 * n + 1 + 1 + 1 + 1) by lia.
      rewrite !sumZ_range_succ by lia. unfold F. fold_offsets. lia. }
  rewrite (L q Hq (Z.le_refl q)).
  assert (HC4 : C = 4 * q + C mod 4) by lia.
  destruct (Z.eqb_spec (C mod 4) 1) as [E1 | N1].
  { rewrite (Hm (q * 4)) by lia. f_equal.
    replace (range C) with (range (4 * q + 1)) by (f_equal; lia).
    rewrite sumZ_range_succ by lia.
    unfold F. replace (q * 4) with (4 * q) by lia. lia. }
  destruct (Z.eqb_spec (C mod 4) 2) as [E2 | N2].
  { rewrite (Hm (q * 4)) by lia.
    replace (sC + q * 4 + 1) with (sC + (q * 4 + 1)) by lia.
    rewrite (Hm (q * 4 + 1)) by lia. f_equal.
    replace (range C) with (range (4 * q + 1 + 1)) by (f_equal; lia).
    rewrite !sumZ_range_succ by lia.
    unfold F. replace (q * 4) with (4 * q) by lia. fold_offsets. lia. }
  destruct (Z.eqb_spec (C mod 4) 3) as [E3 | N3].
  { rewrite (Hm (q * 4)) by lia.
    replace (sC + q * 4 + 1) with (sC + (q * 4 + 1)) by lia.
    replace (sC + q * 4 + 2) with (sC + (q * 4 + 2)) by lia.
    rewrite (Hm (q * 4 + 1)), (Hm (q * 4 + 2)) by lia. f_equal.
    replace (range C) with (range (4 * q + 1 + 1 + 1)) by (f_equal; lia).
    rewrite !sumZ_range_succ by lia.
    unfold F. replace (q * 4) with (4 * q) by lia. fold_offsets. lia. }
  f_equal. f_equal. f_equal. f_equal. lia.
Qed.

Lemma padded_outside getX info b r c d :
  (r <? 0) || (r >=? inHeight info) = true \/
  (c <? 0) || (c >=? inWidth info) = true ->
  padded getX info b r c d = 0.
Proof.
  unfold padded. intros [H | H]; apply orb_true_iff in H;
    destruct (Z.leb_spec 0 r), (Z.ltb_spec r (inHeight info)),
             (Z.leb_spec 0 c), (Z.ltb_spec c (inWidth info));
    try reflexivity; destruct H; lia.
Qed.

Lemma padded_inside getX info b r c d :
  (r <? 0) || (r >=? inHeight info) = false ->
  (c <? 0) || (c >=? inWidth info) = false ->
  padded getX info b r c d = getX b r c d.
Proof.
  unfold padded. intros H1 H2. apply orb_false_iff in H1, H2.
  destruct (Z.leb_spec 0 r), (Z.ltb_spec r (inHeight info)),
           (Z.leb_spec 0 c), (Z.ltb_spec c (inWidth info));
    try reflexivity; lia.
Qed.

(** X7. [Conv2DProgramCS], an invocation of a workgroup after the fill
    phase and the barrier: when the invocation computes an output of the
    row its workgroup filled the cache for and
    [gl_GlobalInvocationID.x < outChannels], it never reads an unwritten
    cache cell and [setOutput] receives the zero-padded, strided, dilated
    convolution of [x] with [W] at its output coordinates, the vec4 chunks
    and the 1-, 2- or 3-channel remainder together covering all
    [inChannels] channels. *)
Theorem X7_conv2d_invocation_outputs_the_convolution
    (getX getW : Z -> Z -> Z -> Z -> Z) (first coords : ivec4)
    (info : Conv2DInfo) (gidx : Z) :
  0 < filterHeight info -> 0 < filterWidth info -> 0 < inChannels info ->
  0 <= strideWidth info -> 0 <= dilationWidth info ->
  inWorkgroupRow first coords ->
  gidx < outChannels info ->
  let k := userCode (Conv2DProgramCS info) in
  option_map (fun m => conv_compute getW first k m gidx coords)
    (conv_fill getX first (Z.to_nat (CACHE_HWC k)) k)
  = Some (SetOutput (conv2d getX getW info coords)).
Proof.
  intros HfH HfW HC Hsw Hdw [Hb [Hrow Hcol]] Hg k.
  destruct (ConvFacts.conv2d_taps_read_filled_cells getX first coords info
              HfH HfW HC Hsw Hdw Hb Hrow Hcol) as [m [E [_ T]]].
  fold k in E, T. rewrite E. cbn [option_map]. f_equal.
  unfold conv_compute.
  replace (gidx >=? k_outChannels k) with false
    by (symmetry; rewrite Z.geb_leb; apply Z.leb_gt; exact Hg).
  unfold conv2d.
  change (k_filterHeight k) with (filterHeight info).
  change (k_filterWidth k) with (filterWidth info).
  change (k_dilationHeight k) with (dilationHeight info).
  change (k_dilationWidth k) with (dilationWidth info).
  change (k_inHeight k) with (inHeight info).
  change (k_inWidth k) with (inWidth info).
  change (fst (strides k)) with (strideHeight info).
  change (snd (strides k)) with (strideWidth info).
  change (fst (pads k)) with (top (padInfo info)).
  change (snd (pads k)) with (left (padInfo info)).
  cbv zeta.
  set (xRCorner := c1 coords * strideHeight info - top (padInfo info)).
  set (xCCorner := c2 coords * strideWidth info - left (padInfo info)).
  set (term := fun wR wC =>
         sumZ (fun d1 =>
                 padded getX info (c0 coords)
                   (xRCorner + wR * dilationHeight info)
                   (xCCorner + wC * dilationWidth info) d1
                 * getW wR wC d1 (c3 coords))
              (range (inChannels info))).
  rewrite (fold_option_sum _
             (fun wR => sumZ (term wR) (range (filterWidth info)))).
  { reflexivity. }
  intros wR a HwR. apply In_range in HwR.
  destruct ((xRCorner + wR * dilationHeight info <? 0)
            || (xRCorner + wR * dilationHeight info >=? inHeight info)) eqn:GR.
  { rewrite sumZ_zero; [f_equal; lia |].
    intros wC _. unfold term. apply sumZ_zero. intros d _.
    rewrite padded_outside by (left; exact GR). reflexivity. }
  apply fold_option_sum.
  intros wC a' HwC. apply In_range in HwC.
  destruct ((xCCorner + wC * dilationWidth info <? 0)
            || (xCCorner + wC * dilationWidth info >=? inWidth info)) eqn:GC.
  { unfold term. rewrite sumZ_zero; [f_equal; lia |].
    intros d _. rewrite padded_outside by (right; exact GC). reflexivity. }
  rewrite (conv_channels_spec getW info m wR _ wR wC (c3 coords)
             (fun d => getX (c0 coords) (xRCorner + wR * dilationHeight info)
                         (xCCorner + wC * dilationWidth info) d) a'
             ltac:(lia)).
  - f_equal. f_equal. unfold term. apply sumZ_ext_In. intros d _.
    rewrite padded_inside by assumption. reflexivity.
  - intros d Hd.
    apply (T wR wC _ _ wR _ d HwR HwC); [| exact Hd].
    unfold conv_tap.
    change (k_dilationHeight k) with (dilationHeight info).
    change (k_dilationWidth k) with (dilationWidth info).
    change (k_inHeight k) with (inHeight info).
    change (k_inWidth k) with (inWidth info).
    change (fst (strides k)) with (strideHeight info).
    change (snd (strides k)) with (strideWidth info).
    change (fst (pads k)) with (top (padInfo info)).
    change (snd (pads k)) with (left (padInfo info)).
    cbv zeta. fold xRCorner xCCorner. rewrite GR, GC. reflexivity.
Qed.

Lemma X7_conv2d_invocation_outputs_the_convolution_witness :
  option_map
    (fun m => conv_compute exampleW (0, 3, 0, 0)
                (userCode (Conv2DProgramCS exampleConv)) m 2 (0, 3, 5, 2))
    (conv_fill exampleX (0, 3, 0, 0)
       (Z.to_nat (CACHE_HWC (userCode (Conv2DProgramCS exampleConv))))
       (userCode (Conv2DProgramCS exampleConv)))
  = Some (SetOutput (conv2d exampleX exampleW exampleConv (0, 3, 5, 2))).
Proof.
  apply (X7_conv2d_invocation_outputs_the_convolution exampleX exampleW
           (0, 3, 0, 0) (0, 3, 5, 2) exampleConv 2).
  - simpl; lia.
  - simpl; lia.
  - simpl; lia.
  - simpl; lia.
  - simpl; lia.
  - unfold inWorkgroupRow, c0, c1, c2; simpl; lia.
  - simpl; lia.
Defined.

Section DepthwiseFill.
Variable getX : Z -> Z -> Z -> Z -> Z.
Variable first : ivec4.
Variable k : CodeDepthwise.
Hypothesis C_pos : 0 < d_CACHE_C k.
Hypothesis group_pos : 0 < d_groupSize k.

Lemma depthwise_fill_at_index index cell x :
  depthwise_fill_at first k index = Some (cell, x) ->
  index = fst cell * d_CACHE_WC k + snd cell.
Proof.
  unfold depthwise_fill_at. intros H.
  destruct (_ && _) in H; [| discriminate]. inversion H; subst; simpl. lia.
Qed.

Lemma depthwise_fill_at_cell r c d :
  0 <= r -> 0 <= c < d_CACHE_W k -> 0 <= d < d_CACHE_C k ->
  depthwise_fill_at first k (r * d_CACHE_WC k + (c * d_CACHE_C k + d)) =
    let cacheRCorner := c1 first * fst (d_strides k) - fst (d_pads k) in
    let cacheCCorner := c2 first * snd (d_strides k) - snd (d_pads k) in
    let cacheDCorner := c3 first ÷ d_channelMul k in
    if (cacheRCorner + r >=? 0) && (cacheCCorner + c >=? 0) &&
       (cacheRCorner + r <? d_inHeight k) && (cacheCCorner + c <? d_inWidth k) &&
       (cacheDCorner + d <? d_inChannels k)
    then Some ((r, c * d_CACHE_C k + d),
               (c0 first, cacheRCorner + r * d_dilationHeight k,
                cacheCCorner + c, cacheDCorner + d))
    else None.
Proof.
  intros Hr Hc Hd. unfold depthwise_fill_at.
  assert (Hcd : 0 <= c * d_CACHE_C k + d < d_CACHE_WC k) by (unfold d_CACHE_WC; nia).
  rewrite (ConvFacts.quot_decompose r _ _ Hr Hcd).
  replace (r * d_CACHE_WC k + (c * d_CACHE_C k + d) - r * d_CACHE_WC k)
    with (c * d_CACHE_C k + d) by lia.
  rewrite (ConvFacts.quot_decompose c d (d_CACHE_C k)) by lia.
  replace (c * d_CACHE_C k + d - c * d_CACHE_C k) with d by lia.
  reflexivity.
Qed.

(** The cache of [DepthwiseConv2DProgramCS] after the fill phase: the fill
    ends, and a cell whose iteration passes the bounds test holds the value
    that iteration read. *)
Lemma depthwise_cache_after_fill :
  exists m,
    depthwise_fill getX first (Z.to_nat (d_CACHE_HWC k)) k = Some m /\
    (forall r c d cell b xR xC xD,
       0 <= r < d_CACHE_H k -> 0 <= c < d_CACHE_W k -> 0 <= d < d_CACHE_C k ->
       depthwise_fill_at first k (r * d_CACHE_WC k + (c * d_CACHE_C k + d))
         = Some (cell, (b, xR, xC, xD)) ->
       m r (c * d_CACHE_C k + d) = Some (getX b xR xC xD)).
Proof.
  destruct (ConvFacts.fill_phase_spec getX (depthwise_fill_at first k)
              (d_CACHE_HWC k) (d_groupSize k) group_pos
              (Z.to_nat (d_CACHE_HWC k)) emptyCache (le_n _)) as [m [E [S [_ C]]]].
  { intros r c v H. discriminate H. }
  exists m. split; [exact E |].
  intros r c d cell b xR xC xD Hr Hc Hd Hat.
  assert (Hcell : cell = (r, c * d_CACHE_C k + d)).
  { pose proof Hat as Hat'.
    rewrite (depthwise_fill_at_cell r c d ltac:(lia) Hc Hd) in Hat'.
    cbv zeta in Hat'. destruct (_ && _) in Hat'; [| discriminate].
    inversion Hat'. reflexivity. }
  subst cell.
  assert (Hcd : 0 <= c * d_CACHE_C k + d < d_CACHE_WC k) by (unfold d_CACHE_WC; nia).
  assert (Hidx : 0 <= r * d_CACHE_WC k + (c * d_CACHE_C k + d) < d_CACHE_HWC k).
  { assert (d_CACHE_HWC k = d_CACHE_H k * d_CACHE_WC k)
      by (unfold d_CACHE_HWC, d_CACHE_WC; ring).
    nia. }
  pose proof (C _ _ _ Hidx Hat) as Hne. simpl in Hne.
  destruct (m r (c * d_CACHE_C k + d)) as [v |] eqn:Ev; [| contradiction].
  destruct (S _ _ _ Ev) as [index [b' [xR' [xC' [d' [_ [Hat' ->]]]]]]].
  pose proof (depthwise_fill_at_index _ _ _ Hat') as Hi. simpl in Hi. subst index.
  rewrite Hat in Hat'. inversion Hat'. reflexivity.
Qed.

End DepthwiseFill.

(** X8. [DepthwiseConv2DProgramCS] with row dilation 1, an invocation of a
    workgroup after the fill phase and the barrier: when [inChannels]
    divides [outChannels], the invocation computes an output of the row the
    cache was filled for, on one of the 8 input channels the cache holds,
    and [gl_GlobalInvocationID.x < outChannels], the fill phase ends, the
    invocation never reads an unwritten cell and [setOutput] receives the
    zero-padded depthwise convolution at its output coordinates. *)
Theorem X8_depthwise_invocation_outputs_the_convolution
    (getX getW : Z -> Z -> Z -> Z -> Z) (first coords : ivec4)
    (info : Conv2DInfo) (gidx : Z) :
  0 < filterHeight info -> 0 < filterWidth info ->
  0 < inChannels info -> 0 < outChannels info ->
  outChannels info mod inChannels info = 0 ->
  0 <= strideWidth info -> 0 <= dilationWidth info ->
  dilationHeight info = 1 ->
  inWorkgroupRow first coords ->
  inWorkgroupChannels first coords (outChannels info / inChannels info) ->
  c3 coords < outChannels info ->
  gidx < outChannels info ->
  let k := userCode (DepthwiseConv2DProgramCS info) in
  option_map (fun m => depthwise_compute getW first k m gidx coords)
    (depthwise_fill getX first (Z.to_nat (d_CACHE_HWC k)) k)
  = Some (SetOutput (depthwiseConv2d getX getW info coords)).
Proof.
  intros HfH HfW HiC HoC Hdiv Hsw Hdw HdH [Hb [Hrow Hcol]] [Hd2 Hch] Hd2o Hg k.
  set (cm := outChannels info / inChannels info) in *.
  assert (Hout : outChannels info = cm * inChannels info).
  { pose proof (Z.div_mod (outChannels info) (inChannels info) ltac:(lia)).
    subst cm. lia. }
  assert (Hcm : 0 < cm) by nia.
  assert (HCC : d_CACHE_C k = 8).
  { subst k. cbv [DepthwiseConv2DProgramCS userCode d_CACHE_C fst]. fold cm.
    apply Z.div_mul. lia. }
  assert (HW : d_CACHE_W k = 6 * strideWidth info
                 + (filterWidth info - 1) * dilationWidth info + 1).
  { subst k. cbv [DepthwiseConv2DProgramCS userCode d_CACHE_W snd fst]. ring. }
  assert (W_pos : 0 < d_CACHE_W k) by nia.
  assert (G_pos : 0 < d_groupSize k).
  { subst k. cbv [DepthwiseConv2DProgramCS userCode d_groupSize snd fst].
    fold cm. lia. }
  destruct (depthwise_cache_after_fill getX first k ltac:(lia) G_pos)
    as [m [E T]].
  rewrite E. cbn [option_map]. f_equal.
  unfold depthwise_compute.
  replace (gidx >=? d_outChannels k) with false
    by (symmetry; rewrite Z.geb_leb; apply Z.leb_gt; exact Hg).
  unfold depthwiseConv2d. fold cm.
  change (d_channelMul k) with cm.
  change (d_filterHeight k) with (filterHeight info).
  change (d_filterWidth k) with (filterWidth info).
  change (d_dilationWidth k) with (dilationWidth info).
  change (d_xNumRows k) with (inHeight info).
  change (d_xNumCols k) with (inWidth info).
  change (fst (d_strides k)) with (strideHeight info).
  change (snd (d_strides k)) with (strideWidth info).
  change (fst (d_pads k)) with (top (padInfo info)).
  change (snd (d_pads k)) with (left (padInfo info)).
  cbv zeta.
  rewrite !(Z.quot_div_nonneg (c3 coords) cm) in Hch by lia.
  rewrite !(Z.quot_div_nonneg (c3 coords) cm) by lia.
  set (d1 := c3 coords / cm) in *.
  replace (c3 coords - d1 * cm) with (c3 coords mod cm)
    by (pose proof (Z.div_mod (c3 coords) cm ltac:(lia)); subst d1; lia).
  set (q := c3 coords mod cm).
  set (cacheDCorner := c3 first ÷ cm) in *.
  assert (Hd1 : d1 < inChannels info).
  { subst d1. apply Z.div_lt_upper_bound; lia. }
  set (xRCorner := c1 coords * strideHeight info - top (padInfo info)).
  set (xCCorner := c2 coords * strideWidth info - left (padInfo info)).
  rewrite HdH.
  set (term := fun wR wC =>
         padded getX info (c0 coords) (xRCorner + wR * 1)
           (xCCorner + wC * dilationWidth info) d1 * getW wR wC d1 q).
  rewrite (fold_option_sum _
             (fun wR => sumZ (term wR) (range (filterWidth info)))).
  { reflexivity. }
  intros wR a HwR. apply In_range in HwR.
  destruct ((xRCorner + wR <? 0) || (xRCorner + wR >=? inHeight info)) eqn:GR.
  { rewrite sumZ_zero; [f_equal; lia |].
    intros wC _. unfold term. rewrite Z.mul_1_r.
    rewrite padded_outside by (left; exact GR). reflexivity. }
  apply fold_option_sum.
  intros wC a' HwC. apply In_range in HwC.
  destruct ((xCCorner + wC * dilationWidth info <? 0)
            || (xCCorner + wC * dilationWidth info >=? inWidth info)) eqn:GC.
  { unfold term. rewrite padded_outside by (right; exact GC).
    f_equal. lia. }
  unfold term. rewrite Z.mul_1_r. rewrite padded_inside by assumption.
  set (c := (c2 coords - c2 first) * strideWidth info + wC * dilationWidth info).
  assert (Hc : 0 <= c < d_CACHE_W k) by (rewrite HW; subst c; nia).
  apply orb_false_iff in GR, GC. destruct GR as [GR1 GR2], GC as [GC1 GC2].
  assert (Hcell :
    m (xRCorner + wR - (c1 first * strideHeight info - top (padInfo info)))
      ((xCCorner + wC * dilationWidth info
        - (c2 first * strideWidth info - left (padInfo info))) * d_CACHE_C k
       + d1 - cacheDCorner)
    = Some (getX (c0 coords) (xRCorner + wR)
              (xCCorner + wC * dilationWidth info) d1)).
  { replace (xRCorner + wR - (c1 first * strideHeight info - top (padInfo info)))
      with wR by (subst xRCorner; rewrite Hrow; ring).
    replace ((xCCorner + wC * dilationWidth info
              - (c2 first * strideWidth info - left (padInfo info))) * d_CACHE_C k
             + d1 - cacheDCorner)
      with (c * d_CACHE_C k + (d1 - cacheDCorner))
      by (subst c xCCorner; ring).
    apply (T wR c (d1 - cacheDCorner) (wR, c * d_CACHE_C k + (d1 - cacheDCorner)));
      [subst k; simpl; lia | exact Hc | lia |].
    rewrite (depthwise_fill_at_cell first k ltac:(lia) wR c (d1 - cacheDCorner)
               ltac:(lia) Hc ltac:(lia)).
    cbv zeta.
    change (d_channelMul k) with cm.
    change (d_dilationHeight k) with (dilationHeight info).
    change (d_inHeight k) with (inHeight info).
    change (d_inWidth k) with (inWidth info).
    change (d_inChannels k) with (inChannels info).
    change (fst (d_strides k)) with (strideHeight info).
    change (snd (d_strides k)) with (strideWidth info).
    change (fst (d_pads k)) with (top (padInfo info)).
    change (snd (d_pads k)) with (left (padInfo info)).
    fold cacheDCorner. rewrite HdH, <- Hrow, <- Hb. fold xRCorner.
    replace (c2 first * strideWidth info - left (padInfo info) + c)
      with (xCCorner + wC * dilationWidth info) by (subst c xCCorner; ring).
    replace (cacheDCorner + (d1 - cacheDCorner)) with d1 by lia.
    rewrite Z.mul_1_r.
    replace (_ && _) with true; [reflexivity |].
    symmetry. rewrite !andb_true_iff. repeat split; bool_lia. }
  rewrite Hcell. reflexivity.
Qed.

Lemma X8_depthwise_invocation_outputs_the_convolution_witness :
  option_map
    (fun m => depthwise_compute exampleW (0, 1, 0, 0)
                (userCode (DepthwiseConv2DProgramCS exampleDepthwise)) m 13
                (0, 1, 3, 13))
    (depthwise_fill exampleX (0, 1, 0, 0)
       (Z.to_nat (d_CACHE_HWC (userCode (DepthwiseConv2DProgramCS exampleDepthwise))))
       (userCode (DepthwiseConv2DProgramCS exampleDepthwise)))
  = Some (SetOutput (depthwiseConv2d exampleX exampleW exampleDepthwise (0, 1, 3, 13))).
Proof.
  apply (X8_depthwise_invocation_outputs_the_convolution exampleX exampleW
           (0, 1, 0, 0) (0, 1, 3, 13) exampleDepthwise 13).
  - simpl; lia.
  - simpl; lia.
  - simpl; lia.
  - simpl; lia.
  - reflexivity.
  - simpl; lia.
  - simpl; lia.
  - reflexivity.
  - unfold inWorkgroupRow, c0, c1, c2; simpl; lia.
  - unfold inWorkgroupChannels, c3; vm_compute; repeat split; discriminate.
  - unfold c3; simpl; lia.
  - simpl; lia.
Defined.

(** ** Accessors and assembled shaders *)

Import ShaderCompiler Util Shader.



Lemma returns_bind {A B} (m : run A) (k : A -> run B) :
  returns (bind m k)
  = match result m with Returned a => returns (k a) | Thrown _ => false end.
Proof. unfold returns, bind. destruct (result m); reflexivity. Qed.

Lemma returns_getCoordsDataType (rank : nat) :
  returns (getCoordsDataType rank) = (rank <=? 6)%nat.
Proof.
  destruct rank as [| [| [| [| [| [| [| n]]]]]]]; reflexivity.
Qed.

Lemma succeeds_mapInputs {A} (f : InputInfo -> option (run A)) (l : list InputInfo) :
  (forall x, In x l -> f x <> None) ->
  mapInputs f l <> None /\
  succeeds (mapInputs f l) = forallb (fun x => succeeds (f x)) l.
Proof.
  induction l as [| x l IH]; intros H; simpl.
  - split; [discriminate | reflexivity].
  - destruct (IH (fun y Hy => H y (or_intror Hy))) as [Hn Hs].
    pose proof (H x (or_introl eq_refl)) as Hx.
    destruct (f x) as [r |] eqn:E; [| contradiction].
    change (succeeds (Some r)) with (returns r). unfold returns.
    destruct (result r) as [a | msg] eqn:Er.
    + destruct (mapInputs f l) as [rs |]; [| contradiction].
      split; [discriminate |].
      cbn [succeeds andb]. rewrite returns_bind, Er, returns_bind.
      cbn [succeeds] in Hs. rewrite <- Hs. unfold returns.
      destruct (result rs); reflexivity.
    + split; [discriminate | reflexivity].
Qed.

Lemma forallb_pointwise {A} (f g : A -> bool) (l : list A) :
  (forall x, f x = g x) -> forallb f l = forallb g l.
Proof.
  intros H. induction l as [| x l IH]; simpl; [reflexivity |].
  rewrite H, IH. reflexivity.
Qed.

Lemma succeeds_withAccessor {S} (r : run S) (inShape outShape : list Z)
    (acc : run accessor) :
  succeeds (withAccessor (Some r) inShape outShape acc)
  = returns r
    && (negb (List.length inShape <=? List.length outShape)%nat || returns acc).
Proof.
  simpl. rewrite returns_bind. unfold returns at 2.
  destruct (result r); [| reflexivity].
  destruct (_ <=? _)%nat; simpl; [| reflexivity].
  rewrite returns_bind. unfold returns. destruct (result acc); reflexivity.
Qed.

Lemma sampler_returns_by_rank {A} (o : option (run A)) (ok : bool) (msg : string) :
  (ok = true -> succeeds o = true) ->
  (ok = false -> o = Some (throw msg)) ->
  exists r, o = Some r /\ returns r = ok.
Proof.
  intros Ht Hf. destruct ok.
  - specialize (Ht eq_refl). destruct o as [r |]; [| discriminate].
    exists r. split; [reflexivity | exact Ht].
  - rewrite (Hf eq_refl). eexists. split; reflexivity.
Qed.

Lemma getSamplerFromInInfoCS_returns uv3 uv4 (x : InputInfo) :
  exists r, getSamplerFromInInfoCS uv3 uv4 x = Some r /\
            returns r = (rankOf x <=? 4)%nat.
Proof.
  apply sampler_returns_by_rank
    with (msg := (show_nat (rankOf x) ++ "-D input sampling is not yet supported")%string).
  - intros H. apply Nat.leb_le in H.
    apply getSamplerFromInInfoCS_fuel_succeeds; unfold rankOf in *; lia.
  - intros H. apply Nat.leb_gt in H.
    unfold getSamplerFromInInfoCS, rankOf in *.
    destruct (rank_above 4 _ H) as [m Hm]. simpl. rewrite Hm. reflexivity.
Qed.

Lemma getSamplerFromInInfo_returns (x : InputInfo) :
  exists r, getSamplerFromInInfo x = Some r /\ returns r = (rankOf x <=? 6)%nat.
Proof.
  apply sampler_returns_by_rank
    with (msg := (show_nat (rankOf x) ++ "-D input sampling is not yet supported")%string).
  - intros H. apply Nat.leb_le in H.
    apply getSamplerFromInInfo_fuel_succeeds; unfold rankOf in *; lia.
  - intros H. apply Nat.leb_gt in H.
    unfold getSamplerFromInInfo, rankOf in *.
    destruct (rank_above 6 _ H) as [m Hm]. simpl. rewrite Hm. reflexivity.
Qed.

Lemma returns_getPackedSamplerAtOutputCoords (x : InputInfo) (out : ShapeInfo) :
  returns (getPackedSamplerAtOutputCoords x out) = hasCoordsType out.
Proof.
  unfold getPackedSamplerAtOutputCoords, hasCoordsType.
  rewrite returns_bind, <- returns_getCoordsDataType. unfold returns.
  destruct (result (getCoordsDataType _)); [| reflexivity].
  destruct (outCoordsSnippets _ _). reflexivity.
Qed.

Lemma returns_getSamplerAtOutputCoords (x : InputInfo) (out : ShapeInfo) :
  returns (getSamplerAtOutputCoords x out) = sameTexel x out || hasCoordsType out.
Proof.
  unfold getSamplerAtOutputCoords, sameTexel, hasCoordsType.
  destruct (_ && _); [reflexivity |].
  rewrite returns_bind, <- returns_getCoordsDataType. unfold returns.
  destruct (result (getCoordsDataType _)); [| reflexivity].
  destruct (outCoordsSnippets _ _). reflexivity.
Qed.

Lemma returns_getSamplerAtOutputCoordsCS (x : InputInfo) (out : ShapeInfo) :
  returns (getSamplerAtOutputCoordsCS x out) = true.
Proof.
  unfold getSamplerAtOutputCoordsCS. destruct (_ && _); reflexivity.
Qed.

Lemma getInputSamplingSnippetCS_accepts uv3 uv4 (out : ShapeInfo)
    (usesPackedTextures : bool) (x : InputInfo) :
  getInputSamplingSnippetCS uv3 uv4 x out usesPackedTextures <> None /\
  succeeds (getInputSamplingSnippetCS uv3 uv4 x out usesPackedTextures)
  = inputAcceptedCS out usesPackedTextures x.
Proof.
  unfold getInputSamplingSnippetCS, inputAcceptedCS, hasAccessor, rankOf.
  destruct usesPackedTextures.
  - pose proof (getPackedSamplerFromInInfoCS_fuel_succeeds
                  (S (rankOf x)) x ltac:(lia)) as Hs.
    unfold rankOf in Hs. fold (getPackedSamplerFromInInfoCS x) in Hs.
    destruct (getPackedSamplerFromInInfoCS x) as [r |]; [| discriminate].
    split; [discriminate |].
    rewrite succeeds_withAccessor, returns_getPackedSamplerAtOutputCoords.
    simpl in Hs. rewrite Hs. reflexivity.
  - destruct (getSamplerFromInInfoCS_returns uv3 uv4 x) as [r [E Hr]].
    rewrite E. split; [discriminate |].
    rewrite succeeds_withAccessor, returns_getSamplerAtOutputCoordsCS, Hr.
    unfold rankOf. rewrite orb_true_r, andb_true_r. reflexivity.
Qed.

Lemma getInputSamplingSnippet_accepts (out : ShapeInfo)
    (usesPackedTextures : bool) (x : InputInfo) :
  getInputSamplingSnippet x out usesPackedTextures <> None /\
  succeeds (getInputSamplingSnippet x out usesPackedTextures)
  = inputAccepted out usesPackedTextures x.
Proof.
  unfold getInputSamplingSnippet, inputAccepted, hasAccessor, rankOf.
  destruct usesPackedTextures.
  - pose proof (getPackedSamplerFromInInfo_fuel_succeeds
                  (S (rankOf x)) x ltac:(lia)) as Hs.
    unfold rankOf in Hs. fold (getPackedSamplerFromInInfo x) in Hs.
    destruct (getPackedSamplerFromInInfo x) as [r |]; [| discriminate].
    split; [discriminate |].
    rewrite succeeds_withAccessor, returns_getPackedSamplerAtOutputCoords.
    simpl in Hs. rewrite Hs. reflexivity.
  - destruct (getSamplerFromInInfo_returns x) as [r [E Hr]].
    rewrite E. split; [discriminate |].
    rewrite succeeds_withAccessor, returns_getSamplerAtOutputCoords, Hr.
    unfold rankOf. rewrite orb_assoc. reflexivity.
Qed.

(** X10. [makeCSShader] returns a program exactly when every input is
    accepted and the output is: with unpacked textures an input is
    accepted when its rank is at most 4; with packed textures every rank
    is accepted unless the input gets an accessor (its rank is at most the
    output's) and the output rank is above 6; an unpacked output is
    accepted up to rank 6 and a packed output always. *)
Theorem X10_makeCSShader_returns_iff_ranks_supported :
  forall (Code : Type) UVfrom3D UVfrom4D (inputsInfo : list InputInfo)
         (outputShape : ShapeInfo) (userCode : Code) (usesPackedTextures : bool),
    succeeds (makeCSShader UVfrom3D UVfrom4D inputsInfo outputShape userCode
                usesPackedTextures)
    = forallb (inputAcceptedCS outputShape usesPackedTextures) inputsInfo
      && outputAccepted outputShape.
Proof.
  intros Code uv3 uv4 inputsInfo out userCode packed.
  destruct (succeeds_mapInputs
              (fun x => getInputSamplingSnippetCS uv3 uv4 x out packed) inputsInfo
              (fun x _ => proj1 (getInputSamplingSnippetCS_accepts uv3 uv4 out packed x)))
    as [Hn Hs].
  rewrite (forallb_pointwise _ (inputAcceptedCS out packed) inputsInfo
             (fun x => proj2 (getInputSamplingSnippetCS_accepts uv3 uv4 out packed x)))
    in Hs.
  unfold makeCSShader.
  destruct (mapInputs _ inputsInfo) as [inputs |]; [| contradiction].
  rewrite <- Hs. simpl. rewrite returns_bind. unfold returns at 2.
  destruct (result inputs); [| reflexivity].
  rewrite returns_bind. unfold outputAccepted, hasCoordsType.
  destruct (isPacked out); simpl.
  - unfold getPackedOutputSamplingSnippetCS.
    destruct (List.length (logicalShape out)) as [| [| [| [| n]]]]; reflexivity.
  - unfold getOutputSamplingSnippetCS.
    destruct (List.length (logicalShape out)) as [| [| [| [| [| [| [| n]]]]]]];
      reflexivity.
Qed.

(** X11. [makeShader] returns a program exactly when every input is
    accepted and the output is: with unpacked textures an input is
    accepted when its rank is at most 6 and, if it gets an accessor, it is
    read at the output's own position or the output rank is at most 6;
    with packed textures every rank is accepted unless the input gets an
    accessor and the output rank is above 6; an unpacked output is
    accepted up to rank 6 and a packed output always. *)
Theorem X11_makeShader_returns_iff_ranks_supported :
  forall (Code : Type) (inputsInfo : list InputInfo) (outputShape : ShapeInfo)
         (userCode : Code) (usesPackedTextures : bool),
    succeeds (makeShader inputsInfo outputShape userCode usesPackedTextures)
    = forallb (inputAccepted outputShape usesPackedTextures) inputsInfo
      && outputAccepted outputShape.
Proof.
  intros Code inputsInfo out userCode packed.
  destruct (succeeds_mapInputs
              (fun x => getInputSamplingSnippet x out packed) inputsInfo
              (fun x _ => proj1 (getInputSamplingSnippet_accepts out packed x)))
    as [Hn Hs].
  rewrite (forallb_pointwise _ (inputAccepted out packed) inputsInfo
             (fun x => proj2 (getInputSamplingSnippet_accepts out packed x)))
    in Hs.
  unfold makeShader.
  destruct (mapInputs _ inputsInfo) as [inputs |]; [| contradiction].
  rewrite <- Hs. simpl. rewrite returns_bind. unfold returns at 2.
  destruct (result inputs); [| reflexivity].
  rewrite returns_bind. unfold outputAccepted, hasCoordsType.
  destruct (isPacked out); simpl.
  - unfold getPackedOutputSamplingSnippet.
    destruct (List.length (logicalShape out)) as [| [| [| [| n]]]]; reflexivity.
  - unfold getOutputSamplingSnippet.
    destruct (List.length (logicalShape out)) as [| [| [| [| [| [| [| n]]]]]]];
      reflexivity.
Qed.

(** ** The fill phase of [Conv2DProgramCS] *)

(** X12. The fill phase of a workgroup of [Conv2DProgramCS] ends, and
    whatever the position of the workgroup, every cell it wrote lies
    inside the declared array [cache[CACHE_H][CACHE_W * CACHE_C]] and holds
    the element of [x] at a position inside the input: row
    [cacheRCorner + r * dilationHeight], column [cacheCCorner + c / CACHE_C],
    channel [c mod CACHE_C].  The fill never stores a value fetched from
    outside the input. *)
Theorem X12_conv2d_fill_stays_inside_cache_and_input
    (getX : Z -> Z -> Z -> Z -> Z) (first : ivec4) (info : Conv2DInfo) :
  0 < filterWidth info -> 0 < inChannels info ->
  0 <= strideWidth info -> 0 <= dilationWidth info ->
  let k := userCode (Conv2DProgramCS info) in
  exists m,
    conv_fill getX first (Z.to_nat (CACHE_HWC k)) k = Some m /\
    forall r c v, m r c = Some v ->
      let xR := c1 first * strideHeight info - top (padInfo info)
                + r * dilationHeight info in
      let xC := c2 first * strideWidth info - left (padInfo info)
                + c / inChannels info in
      (0 <= r < CACHE_H k /\ 0 <= c < CACHE_W k * CACHE_C k) /\
      (0 <= xR < inHeight info /\ 0 <= xC < inWidth info) /\
      v = getX (c0 first) xR xC (c mod inChannels info).
Proof.
  intros HfW HC Hsw Hdw k.
  assert (HW : CACHE_W k = 6 * strideWidth info + (filterWidth info - 1)
                 * dilationWidth info + 1).
  { subst k. cbv [Conv2DProgramCS userCode CACHE_W snd fst]. ring. }
  assert (W_pos : 0 < CACHE_W k) by nia.
  assert (C_is : CACHE_C k = inChannels info) by reflexivity.
  assert (WC_pos : 0 < CACHE_WC k) by (unfold CACHE_WC; nia).
  assert (G_pos : 0 < k_groupSize k) by (subst k; simpl; lia).
  destruct (ConvFacts.fill_phase_spec getX (conv_fill_at first k) (CACHE_HWC k)
              (k_groupSize k) G_pos (Z.to_nat (CACHE_HWC k)) emptyCache
              (le_n _)) as [m [E [S _]]].
  { intros r c v H. discriminate H. }
  exists m. split; [exact E |].
  intros r c v Hv.
  destruct (S r c v Hv) as [index [b [xR [xC [d [Hi [Hat ->]]]]]]].
  unfold conv_fill_at in Hat.
  destruct (_ && _) eqn:G in Hat; [| discriminate].
  injection Hat as Hr Hc Hb HxR HxC Hd.
  rewrite !andb_true_iff in G. destruct G as [[[G1 G2] G3] G4].
  pose proof (Z.div_mod index (CACHE_WC k) ltac:(lia)) as D.
  pose proof (Z.mod_pos_bound index (CACHE_WC k) WC_pos) as B.
  assert (Hrdiv : 0 <= index / CACHE_WC k) by (apply Z.div_pos; lia).
  assert (Hq : index ÷ CACHE_WC k = index / CACHE_WC k)
    by (apply Z.quot_div_nonneg; lia).
  rewrite Hq in *.
  assert (Hcmod : index - index / CACHE_WC k * CACHE_WC k = index mod CACHE_WC k)
    by lia.
  rewrite Hcmod in *.
  assert (Hq2 : (index mod CACHE_WC k) ÷ CACHE_C k
                = (index mod CACHE_WC k) / CACHE_C k)
    by (apply Z.quot_div_nonneg; lia).
  rewrite Hq2 in *.
  assert (HHWC : CACHE_HWC k = CACHE_H k * CACHE_WC k)
    by (unfold CACHE_HWC, CACHE_WC; ring).
  assert (Hrlt : index / CACHE_WC k < CACHE_H k).
  { apply Z.div_lt_upper_bound; [lia |]. rewrite Z.mul_comm. lia. }
  pose proof (Z.div_mod (index mod CACHE_WC k) (CACHE_C k) ltac:(lia)) as D2.
  change (k_dilationHeight k) with (dilationHeight info) in *.
  change (fst (strides k)) with (strideHeight info) in *.
  change (snd (strides k)) with (strideWidth info) in *.
  change (fst (pads k)) with (top (padInfo info)) in *.
  change (snd (pads k)) with (left (padInfo info)) in *.
  change (k_inHeight k) with (inHeight info) in *.
  change (k_inWidth k) with (inWidth info) in *.
  change (CACHE_C k) with (inChannels info) in *.
  subst r c b xR xC d. cbv zeta. rewrite ?Hq2.
  assert (HWC : CACHE_WC k = CACHE_W k * inChannels info) by reflexivity.
  split; [lia |].
  split; [lia |].
  f_equal. lia.
Qed.

Lemma X12_conv2d_fill_stays_inside_cache_and_input_witness :
  exists m,
    conv_fill exampleX (0, 3, 0, 0)
      (Z.to_nat (CACHE_HWC (userCode (Conv2DProgramCS exampleConv))))
      (userCode (Conv2DProgramCS exampleConv)) = Some m /\
    forall r c v, m r c = Some v ->
      let xR := 3 * 1 - 2 + r * 2 in
      let xC := 0 * 1 - 2 + c / 6 in
      (0 <= r < 3 /\ 0 <= c < 11 * 6) /\
      (0 <= xR < 5 /\ 0 <= xC < 9) /\
      v = exampleX 0 xR xC (c mod 6).
Proof.
  apply (X12_conv2d_fill_stays_inside_cache_and_input exampleX (0, 3, 0, 0)
           exampleConv); simpl; lia.
Defined.

(** ** The cache of the 16 x 16 variant of [Conv2DProgramCS] *)

Lemma In_patch (k : ConvBlock.CodeBlock) (r c batch xR xC : Z) w :
  In w (ConvBlock.patch k r c batch xR xC) ->
  exists i, 0 <= i < ConvBlock.b_inChannels k /\
    (fst (fst w) = r \/ fst (fst w) = r + 1) /\
    (snd (fst w) = c * ConvBlock.b_inChannels k + i \/
     snd (fst w) = (c + 1) * ConvBlock.b_inChannels k + i).
Proof.
  unfold ConvBlock.patch. rewrite in_flat_map. intros [i [Hi Hw]].
  apply In_range in Hi. exists i. split; [exact Hi |].
  simpl in Hw. destruct Hw as [<- | [<- | [<- | [<- | []]]]]; simpl; auto.
Qed.

(** X13. The 16 x 16 variant of [Conv2DProgramCS] (with at least one
    input channel): the loads before the barrier stay inside the declared
    array [cache[16 * strideHeight + 2][(16 * strideHeight + 2) * inChannels]]
    for every invocation of a workgroup exactly when [strideHeight] is at
    least 2; with a smaller stride the first invocation writes row 32 of
    an array of at most 18 rows. *)
Theorem X13_block_conv_cache_writes_in_bounds_iff_stride_2 (info : Conv2DInfo) :
  0 < inChannels info ->
  (ConvBlock.writesInsideCache (userCode (ConvBlock.Conv2DProgramCS info))
   <-> 2 <= strideHeight info).
Proof.
  intros HC. set (k := userCode (ConvBlock.Conv2DProgramCS info)).
  assert (HkC : ConvBlock.b_inChannels k = inChannels info) by reflexivity.
  assert (HkR : ConvBlock.cacheRows k = 16 * strideHeight info + 2) by reflexivity.
  assert (HkW : ConvBlock.cacheCols k
                = (16 * strideHeight info + 2) * inChannels info) by reflexivity.
  split.
  - intros H.
    specialize (H 0 0 (0, 0, 0, 0) ltac:(lia) ltac:(lia)).
    rewrite Forall_forall in H.
    assert (Hin : In ((32, 0 * ConvBlock.b_inChannels k + 0),
                      (0, 0 * fst (ConvBlock.b_strides k)
                          - fst (ConvBlock.b_pads k) + 32,
                       0 * snd (ConvBlock.b_strides k)
                          - snd (ConvBlock.b_pads k), 0))
                     (ConvBlock.fill_writes k (0, 0) (0, 0, 0, 0))).
    { unfold ConvBlock.fill_writes. apply in_or_app. right.
      apply in_or_app. left. simpl (2 * fst (0, 0) =? 0). cbv iota.
      unfold ConvBlock.patch. apply in_flat_map. exists 0.
      split; [apply In_range; lia |]. left. reflexivity. }
    destruct (H _ Hin) as [Hrow _]. cbn [fst] in Hrow. rewrite HkR in Hrow. lia.
  - intros Hs lx ly coords Hx Hy. rewrite Forall_forall. intros w Hw.
    unfold ConvBlock.fill_writes in Hw. cbv zeta in Hw.
    assert (P : forall r c batch xR xC,
              (0 <= r <= 32) -> (0 <= c <= 32) ->
              In w (ConvBlock.patch k r c batch xR xC) ->
              ConvBlock.inCache k (fst w)).
    { intros r c batch xR xC Hr Hc Hin.
      destruct (In_patch k r c batch xR xC w Hin) as [i [Hi [Hrow Hcol]]].
      unfold ConvBlock.inCache. rewrite HkR, HkW. rewrite HkC in *.
      split; [lia |]. destruct Hcol as [-> | ->]; nia. }
    simpl fst in Hw. simpl snd in Hw.
    change (ConvBlock.BLOCK_SIZE * 2) with 32 in Hw.
    apply in_app_or in Hw. destruct Hw as [Hw | Hw].
    { eapply P; [| | exact Hw]; lia. }
    apply in_app_or in Hw. destruct Hw as [Hw | Hw].
    { destruct (2 * lx =? 0); [| contradiction].
      eapply P; [| | exact Hw]; lia. }
    apply in_app_or in Hw. destruct Hw as [Hw | Hw].
    { destruct (2 * ly =? 0); [| contradiction].
      eapply P; [| | exact Hw]; lia. }
    destruct ((2 * lx =? 0) && (2 * ly =? 0)); [| contradiction].
    eapply P; [| | exact Hw]; lia.
Qed.

Lemma X13_block_conv_cache_writes_in_bounds_iff_stride_2_witness :
  ConvBlock.writesInsideCache (userCode (ConvBlock.Conv2DProgramCS exampleDepthwise))
  <-> 2 <= strideHeight exampleDepthwise.
Proof.
  apply (X13_block_conv_cache_writes_in_bounds_iff_stride_2 exampleDepthwise).
  simpl; lia.
Defined.

(** ** Broadcasting in the packed accessor *)

Lemma blockOrigin_length (l : list Z) :
  List.length (blockOrigin l) = List.length l.
Proof.
  induction l as [| a l IH]; [reflexivity |].
  destruct l as [| b [| c rest]]; try reflexivity.
  change (blockOrigin (a :: b :: c :: rest))
    with (a :: blockOrigin (b :: c :: rest)).
  cbn [List.length]. rewrite IH. reflexivity.
Qed.

Lemma nth_blockOrigin (l : list Z) : forall i,
  (2 <= List.length l)%nat ->
  nth i (blockOrigin l) 0
  = if (List.length l - 2 <=? i)%nat then 2 * (nth i l 0 / 2) else nth i l 0.
Proof.
  induction l as [| a l IH]; intros i Hlen; [simpl in Hlen; lia |].
  destruct l as [| b [| c rest]].
  - simpl in Hlen. lia.
  - destruct i as [| [| i]]; try reflexivity.
    simpl. destruct i; reflexivity.
  - change (blockOrigin (a :: b :: c :: rest))
      with (a :: blockOrigin (b :: c :: rest)).
    destruct i as [| i].
    + reflexivity.
    + cbn [nth]. rewrite IH by (simpl; lia).
      replace (List.length (a :: b :: c :: rest) - 2)%nat
        with (S (List.length (b :: c :: rest) - 2)) by (simpl; lia).
      reflexivity.
Qed.

Lemma existsb_getBroadcastDims (inShape outShape : list Z) (i : nat) :
  (i < List.length inShape)%nat ->
  existsb (Nat.eqb i) (getBroadcastDims inShape outShape)
  = (nth i inShape 1 =? 1)
    && (1 <? nth (i + (List.length outShape - List.length inShape)) outShape 1).
Proof.
  intros Hi. apply Bool.eq_iff_eq_true. rewrite existsb_exists.
  unfold getBroadcastDims. split.
  - intros [x [Hin Heq]]. apply Nat.eqb_eq in Heq. subst x.
    apply filter_In in Hin. tauto.
  - intros H. exists i. split; [| apply Nat.eqb_refl].
    apply filter_In. split; [apply in_seq; lia | exact H].
Qed.

Lemma broadcastArgs_length (inShape outShape coords : list Z) :
  List.length (broadcastArgs inShape outShape coords) = List.length inShape.
Proof. unfold broadcastArgs. rewrite length_map, length_seq. reflexivity. Qed.

Lemma nth_broadcastArgs (inShape outShape coords : list Z) (i : nat) :
  (i < List.length inShape)%nat ->
  nth i (broadcastArgs inShape outShape coords) 0
  = if existsb (Nat.eqb i) (getBroadcastDims inShape outShape) then 0
    else nth (i + (List.length outShape - List.length inShape)) coords 0.
Proof.
  intros Hi. unfold broadcastArgs.
  set (f := fun i0 : nat =>
              if existsb (Nat.eqb i0) (getBroadcastDims inShape outShape) then 0
              else nth (i0 + (List.length outShape - List.length inShape)) coords 0).
  rewrite (nth_indep _ 0 (f 0%nat)) by (rewrite length_map, length_seq; exact Hi).
  rewrite map_nth, seq_nth by exact Hi. reflexivity.
Qed.

Lemma Forall2_nth_elim {A B} (R : A -> B -> Prop) (l : list A) (l' : list B)
    (d : A) (d' : B) :
  Forall2 R l l' -> forall i, (i < List.length l)%nat -> R (nth i l d) (nth i l' d').
Proof.
  induction 1 as [| x y l l' Hxy H IH]; intros i Hi; simpl in Hi; [lia |].
  destruct i as [| i]; simpl; [exact Hxy | apply IH; lia].
Qed.

Lemma Forall2_nth_intro {A B} (R : A -> B -> Prop) (d : A) (d' : B) :
  forall (l : list A) (l' : list B),
  List.length l = List.length l' ->
  (forall i, (i < List.length l)%nat -> R (nth i l d) (nth i l' d')) ->
  Forall2 R l l'.
Proof.
  induction l as [| x l IH]; intros [| y l'] Hlen H; simpl in Hlen; try lia.
  - constructor.
  - constructor.
    + apply (H 0%nat). simpl. lia.
    + apply IH; [lia |]. intros i Hi. apply (H (S i)). simpl. lia.
Qed.

Lemma memberZ_eqb (n k : nat) (l : list nat) :
  (k <= n)%nat ->
  memberZ (Z.of_nat n - Z.of_nat k) l = existsb (Nat.eqb (n - k)) l.
Proof.
  intros H. unfold memberZ.
  induction l as [| d l IH]; simpl; [reflexivity |].
  rewrite IH. f_equal.
  destruct (Z.eqb_spec (Z.of_nat d) (Z.of_nat n - Z.of_nat k)),
           (Nat.eqb_spec (n - k) d); try reflexivity; lia.
Qed.

(** The four swizzles of the packed accessor against [getChannel]. *)
Lemma getChannel_broadcast_swizzle (T : vec4) (r c : Z) (rows cols : bool) :
  getChannel
    (swz T (if rows && cols then (X, X, X, X)
            else if rows then (X, Y, X, Y)
            else if cols then (X, X, Zc, Zc)
            else (X, Y, Zc, W)))
    (r, c)
  = getChannel T (if rows then 0 else r, if cols then 0 else c).
Proof.
  unfold getChannel, getChannel_comp.
  destruct rows, cols; cbn [andb fst snd swz];
    change (fmod2 0) with 0; cbn [Z.eqb];
    destruct (fmod2 r =? 0), (fmod2 c =? 0); reflexivity.
Qed.

(** X14. Packed textures, an input of rank 2 or more read for an output
    whose shape it broadcasts to: [get<Name>AtOutCoords] is generated, and
    in the invocation whose [getOutputCoords()] is the origin of a 2 x 2
    block of the output, the vec4 it returns holds, in the channel
    [getChannel] selects for a position of the output inside that block,
    the input element the broadcasting rule assigns to that position (the
    input read at 0 along every axis of size 1).  The swizzles
    [xxxx], [xyxy] and [xxzz] repeat the first row, the first column or
    the first element of the input's block accordingly. *)
Theorem X14_packed_accessor_returns_the_broadcast_block
    (inputInfo : InputInfo) (outShapeInfo : ShapeInfo)
    (getName : list Z -> vec4) (A : list Z -> Z) :
  let inShape := logicalShape (shapeInfo inputInfo) in
  let outShape := logicalShape outShapeInfo in
  (2 <= List.length inShape <= List.length outShape)%nat ->
  (List.length outShape <= 6)%nat ->
  broadcastable inShape outShape ->
  holdsPacked getName inShape A ->
  exists a,
    result (getPackedSamplerAtOutputCoords inputInfo outShapeInfo) = Returned a /\
    forall coords, inBounds outShape coords ->
      exists v,
        runAccessor a getName (blockOrigin coords) = Some v /\
        getChannel v (innerDims coords)
        = A (broadcastArgs inShape outShape coords).
Proof.
  intros inShape outShape Hrank H6 Hbc Hheld.
  set (n := List.length inShape) in *.
  set (m := List.length outShape) in *.
  set (bd := getBroadcastDims inShape outShape).
  set (rows := existsb (Nat.eqb (n - 2)) bd).
  set (cols := existsb (Nat.eqb (n - 1)) bd).
  destruct (getCoordsDataType_returns m H6) as [type Htype].
  pose proof (outCoordsSnippets_args inShape outShape) as Hargs.
  destruct (outCoordsSnippets inShape outShape) as [zeroing args] eqn:Esn.
  exists (ViaSampler zeroing args
            (OutSwizzle (if rows && cols then (X, X, X, X)
                         else if rows then (X, Y, X, Y)
                         else if cols then (X, X, Zc, Zc)
                         else (X, Y, Zc, W)))).
  split.
  { unfold getPackedSamplerAtOutputCoords. fold inShape outShape n m bd.
    rewrite Htype, Esn. cbn [bind ret result console].
    do 2 f_equal.
    replace (n =? 1)%nat with false by (symmetry; apply Nat.eqb_neq; lia).
    replace (n =? 0)%nat with false by (symmetry; apply Nat.eqb_neq; lia).
    cbn [andb].
    change (Z.of_nat n - 2) with (Z.of_nat n - Z.of_nat 2).
    change (Z.of_nat n - 1) with (Z.of_nat n - Z.of_nat 1).
    rewrite !memberZ_eqb by lia. fold rows cols.
    destruct (0 <? List.length bd)%nat eqn:Ebd;
      [destruct rows, cols; reflexivity |].
    apply Nat.ltb_ge in Ebd.
    assert (bd = []) by (destruct bd; [reflexivity | simpl in Ebd; lia]).
    subst rows cols. rewrite H. reflexivity. }
  intros coords Hb.
  pose proof (inBounds_length _ _ Hb) as Hlen. fold m in Hlen.
  eexists. split; [reflexivity |].
  cbn [runOutputExpr].
  specialize (Hargs (blockOrigin coords) ltac:(lia)
                ltac:(rewrite blockOrigin_length; fold m; lia)).
  rewrite Hargs.
  set (target := broadcastArgs inShape outShape coords).
  assert (Hnth : forall i, (i < n)%nat ->
            nth i target 0
            = if existsb (Nat.eqb i) bd then 0 else nth (i + (m - n)) coords 0).
  { intros i Hi. apply nth_broadcastArgs. exact Hi. }
  assert (Horigin : broadcastArgs inShape outShape (blockOrigin coords)
                    = blockOrigin target).
  { apply (nth_ext _ _ 0 0).
    - rewrite blockOrigin_length. unfold target.
      rewrite !broadcastArgs_length. reflexivity.
    - rewrite broadcastArgs_length. fold n. intros i Hi.
      rewrite nth_broadcastArgs by exact Hi. fold n m bd.
      rewrite !nth_blockOrigin
        by (try (unfold target; rewrite broadcastArgs_length); fold n; lia).
      unfold target at 1. rewrite broadcastArgs_length. fold n. rewrite Hlen.
      rewrite (Hnth i Hi).
      destruct (Nat.leb_spec (n - 2) i), (Nat.leb_spec (m - 2) (i + (m - n)));
        try lia; destruct (existsb (Nat.eqb i) bd); reflexivity. }
  assert (Hin : inBounds inShape target).
  { apply (Forall2_nth_intro _ 1 0).
    - unfold target. rewrite broadcastArgs_length. reflexivity.
    - fold n. intros i Hi. rewrite (Hnth i Hi).
      unfold bd. rewrite existsb_getBroadcastDims by exact Hi. fold n m.
      pose proof (Forall2_nth_elim _ _ _ 1 0 Hb (i + (m - n))%nat
                    ltac:(fold m; lia)) as Hc.
      cbv beta in Hc.
      destruct (Hbc i Hi) as [H1 | H1]; fold n m in H1.
      + rewrite H1. cbn [Z.eqb andb].
        destruct (Z.ltb_spec 1 (nth (i + (m - n)) outShape 1)); simpl; lia.
      + destruct (Z.eqb_spec (nth i inShape 1) 1) as [E1 | E1];
          destruct (Z.ltb_spec 1 (nth (i + (m - n)) outShape 1)); simpl; lia. }
  rewrite Horigin.
  destruct (Hheld target Hin) as [Hblock Hval].
  rewrite Hblock, <- Hval.
  assert (Hlt : List.length target = n)
    by (unfold target; apply broadcastArgs_length).
  unfold innerDims. rewrite !Hlt, !Hlen.
  rewrite (Hnth (n - 2)%nat) by lia. rewrite (Hnth (n - 1)%nat) by lia.
  fold rows cols.
  replace (n - 2 + (m - n))%nat with (m - 2)%nat by lia.
  replace (n - 1 + (m - n))%nat with (m - 1)%nat by lia.
  apply getChannel_broadcast_swizzle.
Qed.

Lemma X14_packed_accessor_returns_the_broadcast_block_witness :
  exists a,
    result (getPackedSamplerAtOutputCoords packedRow packedOutput) = Returned a /\
    forall coords, inBounds (logicalShape packedOutput) coords ->
      exists v,
        runAccessor a getPackedRow (blockOrigin coords) = Some v /\
        getChannel v (innerDims coords)
        = packedRowValues
            (broadcastArgs (logicalShape (shapeInfo packedRow))
               (logicalShape packedOutput) coords).
Proof.
  apply (X14_packed_accessor_returns_the_broadcast_block packedRow packedOutput
           getPackedRow packedRowValues).
  - simpl; lia.
  - simpl; lia.
  - intros i Hi. simpl in Hi.
    destruct i as [| [| i]]; [left; reflexivity | right; reflexivity | lia].
  - intros args Hb.
    destruct args as [| r [| c [| x rest]]];
      try (exfalso; apply Forall2_length in Hb; simpl in Hb; lia).
    assert (Hr : 0 <= r < 1)
      by exact (Forall2_nth_elim _ _ _ 1 0 Hb 0%nat ltac:(simpl; lia)).
    assert (Hc : 0 <= c < 3)
      by exact (Forall2_nth_elim _ _ _ 1 0 Hb 1%nat ltac:(simpl; lia)).
    assert (r = 0) by lia. subst r.
    assert (Hcases : c = 0 \/ c = 1 \/ c = 2) by lia.
    destruct Hcases as [-> | [-> | ->]]; split; reflexivity.
Defined.

(** X15. Packed textures, a vector read for an output of rank 2 or more
    whose last axis has the vector's length (a bias added to every row):
    [get<Name>AtOutCoords] is generated, and in the invocation of a 2 x 2
    block of the output the vec4 it returns ([outputValue.xy] twice) holds,
    in the channel [getChannel] selects for a position of the block, the
    element of the vector at the column of that position. *)
Theorem X15_packed_vector_accessor_returns_the_row
    (inputInfo : InputInfo) (outShapeInfo : ShapeInfo)
    (getName : list Z -> vec4) (A : list Z -> Z) :
  let inShape := logicalShape (shapeInfo inputInfo) in
  let outShape := logicalShape outShapeInfo in
  List.length inShape = 1%nat ->
  (2 <= List.length outShape <= 6)%nat ->
  nth 0 inShape 1 = nth (List.length outShape - 1) outShape 1 ->
  holdsPackedVector getName inShape A ->
  exists a,
    result (getPackedSamplerAtOutputCoords inputInfo outShapeInfo) = Returned a /\
    forall coords, inBounds outShape coords ->
      exists v,
        runAccessor a getName (blockOrigin coords) = Some v /\
        getChannel v (innerDims coords)
        = A (broadcastArgs inShape outShape coords).
Proof.
  intros inShape outShape Hn Hm Hsame Hheld.
  set (m := List.length outShape) in *.
  destruct (getCoordsDataType_returns m ltac:(lia)) as [type Htype].
  pose proof (outCoordsSnippets_args inShape outShape) as Hargs.
  destruct (outCoordsSnippets inShape outShape) as [zeroing args] eqn:Esn.
  exists (ViaSampler zeroing args (OutSwizzle (X, Y, X, Y))).
  split.
  { unfold getPackedSamplerAtOutputCoords. fold inShape outShape m.
    rewrite Htype, Esn. cbn [bind ret result console]. rewrite Hn.
    replace (1 <? m)%nat with true by (symmetry; apply Nat.ltb_lt; lia).
    reflexivity. }
  intros coords Hb.
  pose proof (inBounds_length _ _ Hb) as Hlen. fold m in Hlen.
  eexists. split; [reflexivity |].
  cbn [runOutputExpr].
  rewrite (Hargs (blockOrigin coords)) by (rewrite ?blockOrigin_length; lia).
  assert (Hnot : existsb (Nat.eqb 0) (getBroadcastDims inShape outShape) = false).
  { rewrite existsb_getBroadcastDims by lia. rewrite Hn.
    replace (0 + (List.length outShape - 1))%nat with (m - 1)%nat by (fold m; lia).
    rewrite Hsame. fold m.
    destruct (Z.eqb_spec (nth (m - 1) outShape 1) 1) as [E | E]; [| reflexivity].
    rewrite E. reflexivity. }
  assert (Hshape : forall cs,
            broadcastArgs inShape outShape cs = [nth (m - 1) cs 0]).
  { intros cs. apply (nth_ext _ _ 0 0).
    - rewrite broadcastArgs_length, Hn. reflexivity.
    - rewrite broadcastArgs_length, Hn. intros i Hi.
      assert (i = 0%nat) by lia. subst i.
      rewrite nth_broadcastArgs by lia. rewrite Hnot, Hn.
      replace (0 + (List.length outShape - 1))%nat with (m - 1)%nat
        by (fold m; lia).
      reflexivity. }
  rewrite !Hshape.
  rewrite nth_blockOrigin by lia. rewrite Hlen.
  replace (m - 2 <=? m - 1)%nat with true by (symmetry; apply Nat.leb_le; lia).
  set (col := nth (m - 1) coords 0).
  assert (Hin : inBounds inShape [col]).
  { destruct inShape as [| s [| s' rest]]; simpl in Hn; try lia.
    constructor; [| constructor].
    simpl in Hsame. rewrite Hsame.
    exact (Forall2_nth_elim _ _ _ 1 0 Hb (m - 1)%nat ltac:(fold m; lia)). }
  destruct (Hheld [col] Hin) as [Hblock Hval].
  change (blockOrigin [col]) with [2 * (col / 2)] in Hblock.
  rewrite Hblock, <- Hval.
  unfold innerDims. rewrite Hlen. fold col. cbn [nth].
  unfold getChannel, getChannel_comp, getChannel1. cbn [fst snd swz].
  destruct (fmod2 (nth (m - 2) coords 0) =? 0), (fmod2 col =? 0); reflexivity.
Qed.

Lemma X15_packed_vector_accessor_returns_the_row_witness :
  exists a,
    result (getPackedSamplerAtOutputCoords packedBias packedOutput) = Returned a /\
    forall coords, inBounds (logicalShape packedOutput) coords ->
      exists v,
        runAccessor a getPackedBias (blockOrigin coords) = Some v /\
        getChannel v (innerDims coords)
        = packedBiasValues
            (broadcastArgs (logicalShape (shapeInfo packedBias))
               (logicalShape packedOutput) coords).
Proof.
  apply (X15_packed_vector_accessor_returns_the_row packedBias packedOutput
           getPackedBias packedBiasValues).
  - reflexivity.
  - simpl; lia.
  - reflexivity.
  - intros args Hb.
    destruct args as [| c [| x rest]];
      try (exfalso; apply Forall2_length in Hb; simpl in Hb; lia).
    assert (Hc : 0 <= c < 3)
      by exact (Forall2_nth_elim _ _ _ 1 0 Hb 0%nat ltac:(simpl; lia)).
    assert (Hcases : c = 0 \/ c = 1 \/ c = 2) by lia.
    destruct Hcases as [-> | [-> | ->]]; split; reflexivity.
Defined.
